(** * BMR-Analytics: the analytics engine and the date-range reprojection

    A shallow embedding of [src/lib/analytic.service.ts] (the engine) and of
    the reprojection code of [src/components/AnalyticsDashboard.tsx].

    Conventions of the embedding.
    - A JavaScript [number] that holds a count is a [Z]; a [number] that holds
      a ratio, a price or a score is a [Qc], a rational in lowest terms.  The
      rows of transition probabilities ([rowProbs]) and the apportionment
      [distributeToTotal64] are computed as the code computes them, each
      operation rounded to the nearest double ([round64]); elsewhere the
      arithmetic is exact, and [distributeToTotal], which the reprojection
      is stated over, is the apportionment over exact shares.  NaN and the
      infinities are outside the model.
    - [Math.floor] and [Math.round] are exact on rationals.  [Math.sqrt],
      [Math.log1p] and [Math.expm1] are not rational functions; with the
      functions of d3-array and what else the engine takes from its host,
      they are fields of the record [Env] that the engine takes as an
      argument.
    - A JavaScript [Map] (and an object used as a dictionary) is an
      association list in insertion order, the order in which the source
      iterates over it.
    - [Array.prototype.sort] is stable; it is embedded as a stable insertion
      sort, which for the comparators of this code (differences of numbers)
      yields the one stably sorted arrangement.
    - A thrown [TypeError] is the result [None]. *)

From Stdlib Require Import ZArith QArith Qcanon Qround Qpower Qabs Lia Lqa Ascii String.
From Stdlib Require OrderedTypeEx.
From stdpp Require Import base list numbers strings gmap pretty sorting.

Open Scope Z_scope.

(** ** Numbers *)

Definition ofZ (z : Z) : Qc := Q2Qc (inject_Z z).

Definition MathFloor (x : Qc) : Z := Qfloor (this x).

(** [Math.round] rounds half up: it is the floor of [x + 1/2]. *)
Definition MathRound (x : Qc) : Z := MathFloor (x + Q2Qc (1 # 2))%Qc.

Definition isZero (x : Qc) : bool :=
  match (x ?= 0)%Qc with Eq => true | _ => false end.

Definition isPos (x : Qc) : bool :=
  match (x ?= 0)%Qc with Gt => true | _ => false end.

Definition leb (x y : Qc) : bool :=
  match (x ?= y)%Qc with Gt => false | _ => true end.

Definition ltb (x y : Qc) : bool :=
  match (x ?= y)%Qc with Lt => true | _ => false end.

(** [a || b] on numbers: [a] unless it is zero. *)
Definition orElse (a b : Qc) : Qc := if isZero a then b else a.

Definition MathMin (a b : Qc) : Qc := if leb a b then a else b.
Definition MathMax (a b : Qc) : Qc := if leb a b then b else a.

Definition sumZ (l : list Z) : Z := fold_left Z.add l 0.
Definition sumQ (l : list Qc) : Qc := fold_left Qcplus l 0%Qc.

(** ** Binary64

    A finite IEEE 754 double is a rational, and an arithmetic operation on
    doubles is the exact operation followed by rounding to the nearest
    double, ties to the even significand.  [round64] is that rounding: 53
    bits of significand, the smallest exponent -1074 of the subnormal
    numbers.  A result of magnitude 2^1024 or more (an infinity in
    JavaScript) and NaN are outside the model. *)

Definition pow2 (e : Z) : Qc := Q2Qc (2 ^ e)%Q.

Definition absQ (x : Qc) : Qc := if isPos x then x else (- x)%Qc.

(** The exponent of a positive number: the floor of its binary logarithm. *)
Definition ilog2 (x : Qc) : Z :=
  let k := Z.log2 (Qnum (this x)) - Z.log2 (Zpos (Qden (this x))) in
  if leb (pow2 k) x then k else k - 1.

(** The nearest integer, the even one of two that are equally near. *)
Definition rne (q : Qc) : Z :=
  let f := MathFloor q in
  match (q - ofZ f ?= Q2Qc (1 # 2))%Qc with
  | Lt => f
  | Gt => f + 1
  | Eq => if Z.even f then f else f + 1
  end.

(** The exponent of the last bit of the double nearest to [x]. *)
Definition exponent64 (x : Qc) : Z := Z.max (ilog2 (absQ x) - 52) (-1074).

Definition round64 (x : Qc) : Qc :=
  if isZero x then 0%Qc
  else (ofZ (rne (x / pow2 (exponent64 x))) * pow2 (exponent64 x))%Qc.

(** [a + b], [a - b], [a * b] and [a / b] on doubles *)
Definition fadd (a b : Qc) : Qc := round64 (a + b).
Definition fsub (a b : Qc) : Qc := round64 (a - b).
Definition fmul (a b : Qc) : Qc := round64 (a * b).
Definition fdiv (a b : Qc) : Qc := round64 (a / b).

(** ** Arrays *)

(** [arr.sort(cmp)]: [a] stays before [b] unless [cmp a b] is positive. *)
Fixpoint insertBy {A} (cmp : A -> A -> Qc) (x : A) (l : list A) : list A :=
  match l with
  | [] => [x]
  | y :: l' => if isPos (cmp x y) then y :: insertBy cmp x l' else x :: l
  end.

Definition sortBy {A} (cmp : A -> A -> Qc) (l : list A) : list A :=
  foldr (insertBy cmp) [] l.

(** A JavaScript [Set] in insertion order. *)
Definition setAdd {A} `{EqDecision A} (s : list A) (x : A) : list A :=
  if decide (x ∈ s) then s else s ++ [x].

Definition setOf {A} `{EqDecision A} (l : list A) : list A :=
  fold_left setAdd l [].

(** A JavaScript [Map] in insertion order: [set] overwrites the value of a
    key in place and appends a key that is new. *)
Section JsMap.
Context {K V : Type} `{EqDecision K}.

Fixpoint mapGet (k : K) (m : list (K * V)) : option V :=
    match m with
    | [] => None
    | (k', v) :: m' => if decide (k = k') then Some v else mapGet k m'
    end.

Fixpoint mapSet (k : K) (v : V) (m : list (K * V)) : list (K * V) :=
    match m with
    | [] => [(k, v)]
    | (k', v') :: m' =>
        if decide (k = k') then (k, v) :: m' else (k', v') :: mapSet k v m'
    end.
End JsMap.

(** ** Strings and dates *)

(** [s.split(c)[0]] *)
Fixpoint beforeChar (c : ascii) (s : string) : string :=
  match s with
  | EmptyString => EmptyString
  | String x s' =>
      if Ascii.eqb x c then EmptyString else String x (beforeChar c s')
  end.

(** [s.split(c)] *)
Fixpoint splitOn (c : ascii) (s : string) : list string :=
  match s with
  | EmptyString => [EmptyString]
  | String x s' =>
      if Ascii.eqb x c then EmptyString :: splitOn c s'
      else match splitOn c s' with
           | [] => [String x EmptyString]
           | p :: ps => String x p :: ps
           end
  end.

(** A valid [Date]: milliseconds since the epoch. *)
Definition Date := Z.

(** Days since the epoch to the (year, month, day) of the proleptic
    Gregorian calendar. *)
Definition civil (days : Z) : Z * Z * Z :=
  let z := days + 719468 in
  let era := z / 146097 in
  let doe := z - era * 146097 in
  let yoe := (doe - doe / 1460 + doe / 36524 - doe / 146096) / 365 in
  let y := yoe + era * 400 in
  let doy := doe - (365 * yoe + yoe / 4 - yoe / 100) in
  let mp := (5 * doy + 2) / 153 in
  let d := doy - (153 * mp + 2) / 5 + 1 in
  let m := if mp <? 10 then mp + 3 else mp - 9 in
  (if m <=? 2 then y + 1 else y, m, d).

Definition padStart (width : nat) (s : string) : string :=
  String.concat EmptyString (replicate (width - String.length s) "0"%string) +:+ s.

Definition pad (width : nat) (n : Z) : string :=
  padStart width (pretty (Z.to_N n)).

Definition dayString (year : string) (m d : Z) : string :=
  year +:+ "-" +:+ pad 2 m +:+ "-" +:+ pad 2 d.

(** [date.toISOString()]: UTC, with a signed six-digit year outside
    0..9999. *)
Definition toISOString (t : Date) : string :=
  let '(y, m, d) := civil (t / 86400000) in
  let ms := t mod 86400000 in
  let year :=
    if (0 <=? y) && (y <=? 9999) then pad 4 y
    else (if y <? 0 then "-" else "+") +:+ pad 6 (Z.abs y) in
  dayString year m d +:+ "T" +:+ pad 2 (ms / 3600000) +:+ ":"
    +:+ pad 2 (ms / 60000 mod 60) +:+ ":" +:+ pad 2 (ms / 1000 mod 60)
    +:+ "." +:+ pad 3 (ms mod 1000) +:+ "Z".

(** ** What the engine takes from its host and its libraries

    [Math.sqrt], [Math.log1p], [Math.expm1]; [quantileSorted], [mean] and
    [deviation] of d3-array; the conversion of a number to a string; the
    offset of local time from UTC in minutes, which date-fns' [format] reads;
    the results of [randomUUID()], one per document; the value of
    [new Date()]. *)
Record Env := {
  Math_sqrt : Qc -> Qc;
  Math_log1p : Qc -> Qc;
  Math_expm1 : Qc -> Qc;
  quantileSorted : list Qc -> Qc -> option Qc;
  mean : list Qc -> option Qc;
  deviation : list Qc -> option Qc;
  numberToString : Qc -> string;
  timezoneOffset : Date -> Z;
  randomUUID : nat -> string;
  now : Date
}.

(** [format(date, "yyyy-MM-dd")] of date-fns, in local time, for years from
    1 on. *)
Definition format_yyyy_MM_dd (E : Env) (t : Date) : string :=
  let '(y, m, d) := civil ((t + 60000 * timezoneOffset E t) / 86400000) in
  dayString (pad 4 y) m d.

(** ** Raw values and [strId] *)

Definition loc := positive.

(** A value of a raw document.  An object is a reference into a heap, so
    that a structure may refer to itself. *)
Inductive value :=
  | VUndefined
  | VNull
  | VBool (b : bool)
  | VNum (q : Qc)
  | VStr (s : string)
  | VRef (l : loc).

(** An object: its properties and the result of its [toString()].  Every
    object the document store hands over (plain object, array, [Date],
    [ObjectId]) inherits a [toString]. *)
Module Obj.
Record t := mk { props : gmap string value; toString : string }.
End Obj.

Definition heap := gmap loc Obj.t.

Definition plainObject : Obj.t := Obj.mk ∅ "[object Object]".

(** The object behind a reference. *)
Definition deref (h : heap) (l : loc) : Obj.t := default plainObject (h !! l).

(** [!value] is false *)
Definition truthy (v : value) : bool :=
  match v with
  | VUndefined | VNull => false
  | VBool b => b
  | VNum q => negb (isZero q)
  | VStr s => negb (String.eqb s EmptyString)
  | VRef _ => true
  end.

Definition isHex (c : ascii) : bool :=
  let n := nat_of_ascii c in
  ((48 <=? n) && (n <=? 57) || (97 <=? n) && (n <=? 102)
   || (65 <=? n) && (n <=? 70))%nat.

Fixpoint allHex (s : string) : bool :=
  match s with
  | EmptyString => true
  | String c s' => isHex c && allHex s'
  end.

(** [/^[0-9a-fA-F]{24}$/.test(str)] *)
Definition isObjectIdLike (str : string) : bool :=
  (String.length str =? 24)%nat && allHex str.

(** [strId(value, seen)], by recursion on a fuel; [None] is a run that the
    fuel cut short, [Some None] the result [null]. *)
Fixpoint strId_fuel (E : Env) (fuel : nat) (h : heap) (v : value)
    (seen : gset loc) : option (option string) :=
  match fuel with
  | O => None
  | S fuel' =>
      if negb (truthy v) then Some None
      else match v with
      | VStr s => Some (Some s)
      | VRef l =>
          let obj := deref h l in
          let str := Obj.toString obj in
          if isObjectIdLike str then Some (Some str)
          else if decide (l ∈ seen) then Some None
          else
            let seen' := {[ l ]} ∪ seen in
            match Obj.props obj !! "$oid" with
            | Some (VStr oid) => Some (Some oid)
            | _ =>
                match Obj.props obj !! "_id" with
                | Some inner => strId_fuel E fuel' h inner seen'
                | None =>
                    if negb (String.eqb str "[object Object]")
                    then Some (Some str)
                    else Some (Some str)
                end
            end
      | VBool b => Some (Some (if b then "true" else "false"))
      | VNum q => Some (Some (numberToString E q))
      | VUndefined => Some (Some "undefined")
      | VNull => Some (Some "null")
      end
  end.

(** [strId(value)] with a fresh [seen]; one unit of fuel per object of the
    heap and one more is enough (theorem [strId_terminates]). *)
Definition strId (E : Env) (h : heap) (v : value) : option string :=
  default None (strId_fuel E (S (size h)) h v ∅).

(** ** The data model *)

Module SessionEvent.
Record t := mk {
    itemId : string;
    ts : Date;
    add : option Z;
    remove : option Z
  }.
End SessionEvent.

Module Session.
Record t := mk {
    sessionId : string;
    visitorId : string;
    country : string;
    ts : Date;
    nView : Z;
    nCartAdd : Z;
    nCartRemove : Z;
    uniqueItems : list string;
    views : list SessionEvent.t;
    carts : list SessionEvent.t;
    wish : list SessionEvent.t
  }.
End Session.

Module Meta.
Record t := mk {
    title : string;
    price : Qc;
    category : string;
    brand : string
  }.
End Meta.

Definition ItemMeta := list (string * Meta.t).

Inductive EventType := cart_add | cart_remove | view | wishlist_add | wishlist_remove.

Module TransitionEvent.
Record t := mk {
    ts : Date;
    type : EventType;
    itemId : string;
    price : Qc
  }.
End TransitionEvent.

Inductive PriceTier := Low | Mid | High | All.

#[global] Instance PriceTier_eq_dec : EqDecision PriceTier.
Proof. solve_decision. Defined.

#[global] Instance EventType_eq_dec : EqDecision EventType.
Proof. solve_decision. Defined.

(** The response bundle, [AnalyticsResponse]. *)

Module SessionView.
Record t := mk {
    sessionId : string;
    visitorId : string;
    country : string;
    ts : string;
    nView : Z;
    nCartAdd : Z;
    nCartRemove : Z
  }.
End SessionView.

Module LeakRow.
Record t := mk { item : string; adds : Z; removes : Z; leak : Qc }.
End LeakRow.

Module Leak.
Record t := mk { overall : Qc; items : list LeakRow.t }.
End Leak.

Module Reco.
Record t := mk { item : string; score : Qc }.
End Reco.

Module Bundle.
Record t := mk { items : string * string; support : Qc }.
End Bundle.

Module TierModel.
Record t := mk { pViewToCart : Qc; pCartToCheckout : Qc }.
End TierModel.

(** [Record<PriceTier, ...>] *)
Module PriceMarkov.
Record t := mk {
    Low : TierModel.t;
    Mid : TierModel.t;
    High : TierModel.t;
    All : TierModel.t
  }.
End PriceMarkov.

Module PriceMarkovMeta.
Record t := mk {
    tLow : option Qc;
    tHigh : option Qc;
    min : Qc;
    max : Qc
  }.
End PriceMarkovMeta.

Module Band.
Record t := mk {
    name : PriceTier;
    min : Qc;
    max : Qc;
    viewToCart : Qc;
    wishToCart : Qc;
    nView : Z;
    nWish : Z
  }.
End Band.

Module PriceBands.
Record t := mk { bands : list Band.t }.
End PriceBands.

Module PriceRangeData.
Record t := mk {
    viewFromPrices : list Qc;
    viewToCartFromPrices : list Qc;
    cartAddPrices : list Qc;
    cartRemovePrices : list Qc
  }.
End PriceRangeData.

Module CategoryRow.
Record t := mk {
    category : string;
    views : Z;
    carts : Z;
    wish : Z;
    total : Z
  }.
End CategoryRow.

Module Transitions.
Record t := mk {
    states : list string;
    counts : list (list Z);
    probs : list (list Qc)
  }.
End Transitions.

Module Link.
Record t := mk { source : nat; target : nat; value : Z }.
End Link.

Module Sankey.
Record t := mk { nodes : list string; links : list Link.t }.
End Sankey.

Module DailyRow.
Record t := mk { date : string; views : Z; carts : Z }.
End DailyRow.

Module Anomaly.
Record t := mk {
    hasThresholds : bool;
    lower : Qc;
    upper : Qc;
    outliers : list string
  }.
End Anomaly.

Module Daily.
Record t := mk { series : list DailyRow.t; anomaly : Anomaly.t }.
End Daily.

Module GeoRow.
Record t := mk { country : string; conversionRate : Qc }.
End GeoRow.

Module AnalyticsResponse.
Record t := mk {
    sessions : list SessionView.t;
    leak : Leak.t;
    recos : list (string * list Reco.t);
    frequentBundles : list Bundle.t;
    priceMarkov : PriceMarkov.t;
    priceMarkovMeta : PriceMarkovMeta.t;
    priceBands : PriceBands.t;
    priceRangeData : PriceRangeData.t;
    categoryInteractions : list CategoryRow.t;
    transitions : Transitions.t;
    sankey : Sankey.t;
    daily : Daily.t;
    geoInsights : list GeoRow.t;
    itemMeta : ItemMeta;
    __version : string
  }.
End AnalyticsResponse.

(** ** The engine: ingestion *)

(** An entry of [viewItems], [cartItems] or [wishlistItems]: the raw [item]
    that [strId] resolves, and what the field readers of the source return
    on the entry: [Boolean(raw?.deleted)], and for each of the three time
    fields the valid date it holds, if it holds one ([parseDate] is the
    identity on such a field). *)
Module RawItem.
Record t := mk {
    item : value;
    createdAt : option Date;
    date : option Date;
    deleted : bool;
    updatedAt : option Date
  }.
End RawItem.

(** A tracking document: the raw [_id], and what the field readers return
    on [visitorId], [geo.country] and [createdAt]. *)
Module RawDoc.
Record t := mk {
    _id : value;
    visitorId : option string;
    country : option string;
    createdAt : option Date;
    viewItems : list RawItem.t;
    cartItems : list RawItem.t;
    wishlistItems : list RawItem.t
  }.
End RawDoc.

Definition VERSION : string :=
  "v2025-10-02b: price-range+catmap+reset-month (Next.js)".

Definition clampValue (value min max : Qc) : Qc :=
  MathMin (MathMax value min) max.

(** [raw?.createdAt ?? raw?.date], the time of a view and of a wishlist
    entry; a cart entry reads [raw?.createdAt] alone. *)
Definition createdOrDate (raw : RawItem.t) : option Date :=
  match RawItem.createdAt raw with
  | Some d => Some d
  | None => RawItem.date raw
  end.

(** The body of a [for (const raw of doc?.viewItems ?? [])] turn; [!id]
    holds of [null] and of the empty string. *)
Definition collectView (E : Env) (h : heap) (ts : Date)
    (views : list SessionEvent.t) (raw : RawItem.t) : list SessionEvent.t :=
  match strId E h (RawItem.item raw) with
  | None => views
  | Some id =>
      if String.eqb id EmptyString then views
      else
        let time := default ts (createdOrDate raw) in
        views ++ [SessionEvent.mk id time None None]
  end.

(** The body of a turn over [cartItems] and over [wishlistItems]; the two
    loops differ in the field [stamp] that gives the time of the entry. *)
Definition collectToggle (E : Env) (h : heap) (ts : Date)
    (stamp : RawItem.t -> option Date)
    (acc : list SessionEvent.t) (raw : RawItem.t) : list SessionEvent.t :=
  match strId E h (RawItem.item raw) with
  | None => acc
  | Some id =>
      if String.eqb id EmptyString then acc
      else
        let time := default ts (stamp raw) in
        let removed := RawItem.deleted raw in
        let acc := acc ++ [SessionEvent.mk id time (Some 1) (Some 0)] in
        if removed then
          let rt := default time (RawItem.updatedAt raw) in
          acc ++ [SessionEvent.mk id rt (Some 0) (Some 1)]
        else acc
  end.

Definition collectSessionEvents (E : Env) (h : heap) (uuid : string)
    (doc : RawDoc.t) : Session.t :=
  let sessionId := default uuid (strId E h (RawDoc._id doc)) in
  let visitorId := default "unknown"%string (RawDoc.visitorId doc) in
  let country :=
    let c := default "Unknown"%string (RawDoc.country doc) in
    if String.eqb c EmptyString then "Unknown"%string else c in
  let ts := default (now E) (RawDoc.createdAt doc) in
  let views := fold_left (collectView E h ts) (RawDoc.viewItems doc) [] in
  let carts :=
    fold_left (collectToggle E h ts RawItem.createdAt) (RawDoc.cartItems doc) [] in
  let wish :=
    fold_left (collectToggle E h ts createdOrDate) (RawDoc.wishlistItems doc) [] in
  let nView := Z.of_nat (length views) in
  let nCartAdd :=
    fold_left (fun acc evt => acc + default 0 (SessionEvent.add evt)) carts 0 in
  let nCartRemove :=
    fold_left (fun acc evt => acc + default 0 (SessionEvent.remove evt)) carts 0 in
  let uniqueItems :=
    setOf (map SessionEvent.itemId views ++ map SessionEvent.itemId carts
             ++ map SessionEvent.itemId wish) in
  Session.mk sessionId visitorId country ts nView nCartAdd nCartRemove
    uniqueItems views carts wish.

(** ** The engine: cart leak *)

Module LeakAcc.
Record t := mk {
    adds : list (string * Z);
    removes : list (string * Z);
    tAdds : Z;
    tRem : Z
  }.
End LeakAcc.

Definition leakEvent (acc : LeakAcc.t) (evt : SessionEvent.t) : LeakAcc.t :=
  let key := SessionEvent.itemId evt in
  let add := default 0 (SessionEvent.add evt) in
  let rem := default 0 (SessionEvent.remove evt) in
  let acc :=
    if add =? 0 then acc
    else LeakAcc.mk
           (mapSet key (default 0 (mapGet key (LeakAcc.adds acc)) + add)
              (LeakAcc.adds acc))
           (LeakAcc.removes acc) (LeakAcc.tAdds acc + add) (LeakAcc.tRem acc) in
  if rem =? 0 then acc
  else LeakAcc.mk (LeakAcc.adds acc)
         (mapSet key (default 0 (mapGet key (LeakAcc.removes acc)) + rem)
            (LeakAcc.removes acc))
         (LeakAcc.tAdds acc) (LeakAcc.tRem acc + rem).

Definition leakRow (acc : LeakAcc.t) (key : string) : LeakRow.t :=
  let a := default 0 (mapGet key (LeakAcc.adds acc)) in
  let r := default 0 (mapGet key (LeakAcc.removes acc)) in
  let leak :=
    if 0 <? a then clampValue (ofZ r / ofZ a)%Qc 0%Qc 1%Qc else 0%Qc in
  LeakRow.mk key a r leak.

(** [(a, b) => b.leak - a.leak || b.removes - a.removes] *)
Definition leakOrder (a b : LeakRow.t) : Qc :=
  orElse (LeakRow.leak b - LeakRow.leak a)%Qc
    (ofZ (LeakRow.removes b - LeakRow.removes a)).

Definition leakAnalytics (sessions : list Session.t) (itemMeta : ItemMeta)
  : Leak.t :=
  let acc :=
    fold_left (fun acc session => fold_left leakEvent (Session.carts session) acc)
      sessions (LeakAcc.mk [] [] 0 0) in
  let keys := setOf (map fst (LeakAcc.adds acc) ++ map fst (LeakAcc.removes acc)) in
  let rows := map (leakRow acc) keys in
  Leak.mk
    (if 0 <? LeakAcc.tAdds acc
     then clampValue (ofZ (LeakAcc.tRem acc) / ofZ (LeakAcc.tAdds acc))%Qc 0%Qc 1%Qc
     else 0%Qc)
    (sortBy leakOrder rows).

(** ** The engine: recommendations *)

Definition bumpCount {K} `{EqDecision K} (k : K) (m : list (K * Z))
  : list (K * Z) :=
  mapSet k (default 0 (mapGet k m) + 1) m.

Definition pairKey (a b : string) : string :=
  if String.ltb a b then a +:+ "|" +:+ b else b +:+ "|" +:+ a.

(** The pairs [(items[i], items[j])], [i < j], in the order of the two
    nested loops. *)
Fixpoint pairsOf (items : list string) : list (string * string) :=
  match items with
  | [] => []
  | a :: rest => map (pair a) rest ++ pairsOf rest
  end.

Definition coocSession (st : list (string * Z) * list (string * Z))
    (session : Session.t) : list (string * Z) * list (string * Z) :=
  let '(pairs, freq) := st in
  let items := Session.uniqueItems session in
  let freq := fold_left (fun freq id => bumpCount id freq) items freq in
  let pairs :=
    fold_left (fun pairs ab => bumpCount (pairKey ab.1 ab.2) pairs)
      (pairsOf items) pairs in
  (pairs, freq).

(** [(recos[a] ??= []).push(r)] *)
Definition pushReco (a : string) (r : Reco.t) (recos : list (string * list Reco.t))
  : list (string * list Reco.t) :=
  mapSet a (default [] (mapGet a recos) ++ [r]) recos.

Definition recoEntry (E : Env) (freq : list (string * Z))
    (recos : list (string * list Reco.t)) (entry : string * Z)
  : list (string * list Reco.t) :=
  let '(key, support) := entry in
  let parts := splitOn "|" key in
  let a := default "undefined"%string (parts !! 0%nat) in
  let b := default "undefined"%string (parts !! 1%nat) in
  let product := default 1 (mapGet a freq) * default 1 (mapGet b freq) in
  let score := (ofZ support / Math_sqrt E (ofZ product))%Qc in
  pushReco b (Reco.mk a score) (pushReco a (Reco.mk b score) recos).

(** The lists of [recos] before they are sorted and cut to ten. *)
Definition recosRaw (E : Env) (pairs freq : list (string * Z))
  : list (string * list Reco.t) :=
  fold_left (recoEntry E freq) pairs [].

Definition scoreOrder (x y : Reco.t) : Qc := (Reco.score y - Reco.score x)%Qc.

Definition topRecos (l : list Reco.t) : list Reco.t :=
  take 10 (sortBy scoreOrder l).

Module Cooc.
Record t := mk {
    recos : list (string * list Reco.t);
    bundles : list Bundle.t;
    itemFreq : list (string * Z)
  }.
End Cooc.

Definition bundleOf (entry : string * Z) : Bundle.t :=
  let parts := splitOn "|" entry.1 in
  Bundle.mk (default "undefined"%string (parts !! 0%nat),
             default "undefined"%string (parts !! 1%nat))
    (ofZ entry.2).

Definition cooccurrenceRecos (E : Env) (sessions : list Session.t) : Cooc.t :=
  let '(pairs, freq) := fold_left coocSession sessions ([], []) in
  let recos := map (fun kv => (kv.1, topRecos kv.2)) (recosRaw E pairs freq) in
  let bundles :=
    map bundleOf
      (take 15 (sortBy (fun a b : string * Z => ofZ (b.2 - a.2)) pairs)) in
  Cooc.mk recos bundles freq.

(** ** The engine: price tiers *)

Definition frac100 (n : Z) : Qc := Q2Qc (n # 100).

Definition ascending (a b : Qc) : Qc := (a - b)%Qc.

Module Splits.
Record t := mk {
    tLow : option Qc;
    tHigh : option Qc;
    dispMin : Qc;
    dispMax : Qc
  }.
End Splits.

Definition robustPriceSplits (E : Env) (prices : list Qc) : Splits.t :=
  let filtered := prices in
  match filtered with
  | [] => Splits.mk None None 0%Qc 0%Qc
  | _ =>
      let sorted := sortBy ascending filtered in
      let p05 :=
        default (default 0%Qc (head sorted)) (quantileSorted E sorted (frac100 5)) in
      let p95 :=
        default (default 0%Qc (last sorted)) (quantileSorted E sorted (frac100 95)) in
      let clipped := List.filter (fun value => leb p05 value && leb value p95) sorted in
      let logValues := sortBy ascending (map (Math_log1p E) clipped) in
      let l33 := quantileSorted E logValues (frac100 33) in
      let l66 := quantileSorted E logValues (frac100 66) in
      Splits.mk (Math_expm1 E <$> l33) (Math_expm1 E <$> l66) p05 p95
  end.

(** [Object.values(itemMeta).map((meta) => meta.price || 0)] *)
Definition pricesOf (itemMeta : ItemMeta) : list Qc :=
  map (fun kv => orElse (Meta.price kv.2) 0%Qc) itemMeta.

(** [itemMeta[id]?.price ?? 0] *)
Definition priceOf (itemMeta : ItemMeta) (id : string) : Qc :=
  default 0%Qc (Meta.price <$> mapGet id itemMeta).

(** [evt.add] as a condition *)
Definition flag (o : option Z) : bool :=
  match o with
  | Some n => negb (n =? 0)
  | None => false
  end.

Module TierState.
Record t := mk {
    nViewSess : Z;
    nViewThenCartSess : Z;
    adds : Z;
    removes : Z
  }.
End TierState.

Definition tierZero : TierState.t := TierState.mk 0 0 0 0.

Definition tierForItem (itemMeta : ItemMeta) (tLow tHigh : option Qc)
    (id : string) : PriceTier :=
  let price := priceOf itemMeta id in
  match tLow, tHigh with
  | Some lo, Some hi =>
      if isZero (lo - hi)%Qc then All
      else if leb price lo then Low
      else if leb price hi then Mid
      else High
  | _, _ => All
  end.

Definition tierModel (state : TierState.t) : TierModel.t :=
  let viewToCart :=
    if 0 <? TierState.nViewSess state
    then (ofZ (TierState.nViewThenCartSess state) / ofZ (TierState.nViewSess state))%Qc
    else 0%Qc in
  let denom := if 0 <? TierState.adds state then TierState.adds state else 1 in
  let cartToCheckout :=
    clampValue
      (ofZ (TierState.adds state - TierState.removes state) / ofZ denom)%Qc
      0%Qc 1%Qc in
  TierModel.mk viewToCart cartToCheckout.

Definition markovSession (tier : string -> PriceTier)
    (st : list (PriceTier * TierState.t) * TierState.t) (session : Session.t)
  : list (PriceTier * TierState.t) * TierState.t :=
  let '(tiers, overall) := st in
  let viewed := setOf (map (fun evt => tier (SessionEvent.itemId evt)) (Session.views session)) in
  let added :=
    setOf (map (fun evt => tier (SessionEvent.itemId evt))
             (List.filter (fun evt => flag (SessionEvent.add evt)) (Session.carts session))) in
  let overall :=
    if (0 <? length (Session.views session))%nat then
      TierState.mk (TierState.nViewSess overall + 1)
        (if existsb (fun evt => flag (SessionEvent.add evt)) (Session.carts session)
         then TierState.nViewThenCartSess overall + 1
         else TierState.nViewThenCartSess overall)
        (TierState.adds overall) (TierState.removes overall)
    else overall in
  let tiers :=
    fold_left
      (fun tiers t =>
         let state := default tierZero (mapGet t tiers) in
         mapSet t
           (TierState.mk (TierState.nViewSess state + 1)
              (if decide (t ∈ added) then TierState.nViewThenCartSess state + 1
               else TierState.nViewThenCartSess state)
              (TierState.adds state) (TierState.removes state))
           tiers)
      viewed tiers in
  fold_left
    (fun st evt =>
       let '(tiers, overall) := st in
       let t := tier (SessionEvent.itemId evt) in
       let state := default tierZero (mapGet t tiers) in
       let add := default 0 (SessionEvent.add evt) in
       let rem := default 0 (SessionEvent.remove evt) in
       (mapSet t
          (TierState.mk (TierState.nViewSess state)
             (TierState.nViewThenCartSess state)
             (TierState.adds state + add) (TierState.removes state + rem))
          tiers,
        TierState.mk (TierState.nViewSess overall)
          (TierState.nViewThenCartSess overall)
          (TierState.adds overall + add) (TierState.removes overall + rem)))
    (Session.carts session) (tiers, overall).

Definition setTier (model : PriceMarkov.t) (t : PriceTier) (m : TierModel.t)
  : PriceMarkov.t :=
  match t with
  | Low => PriceMarkov.mk m (PriceMarkov.Mid model) (PriceMarkov.High model) (PriceMarkov.All model)
  | Mid => PriceMarkov.mk (PriceMarkov.Low model) m (PriceMarkov.High model) (PriceMarkov.All model)
  | High => PriceMarkov.mk (PriceMarkov.Low model) (PriceMarkov.Mid model) m (PriceMarkov.All model)
  | All => PriceMarkov.mk (PriceMarkov.Low model) (PriceMarkov.Mid model) (PriceMarkov.High model) m
  end.

Module MarkovSummary.
Record t := mk {
    model : PriceMarkov.t;
    tLow : option Qc;
    tHigh : option Qc;
    min : Qc;
    max : Qc
  }.
End MarkovSummary.

Definition priceSegmentedMarkov (E : Env) (sessions : list Session.t)
    (itemMeta : ItemMeta) : MarkovSummary.t :=
  let splits := robustPriceSplits E (pricesOf itemMeta) in
  let tLow := Splits.tLow splits in
  let tHigh := Splits.tHigh splits in
  let '(tiers, overall) :=
    fold_left (markovSession (tierForItem itemMeta tLow tHigh)) sessions
      ([], tierZero) in
  let zero := TierModel.mk 0%Qc 0%Qc in
  let model :=
    fold_left (fun model kv => setTier model kv.1 (tierModel kv.2)) tiers
      (PriceMarkov.mk zero zero zero zero) in
  let model := setTier model All (tierModel overall) in
  MarkovSummary.mk model tLow tHigh (Splits.dispMin splits) (Splits.dispMax splits).

(** ** The engine: event streams and transitions *)

Definition toggleEvents (itemMeta : ItemMeta) (onAdd onRemove : EventType)
    (evt : SessionEvent.t) : list TransitionEvent.t :=
  let mkEvent type :=
    TransitionEvent.mk (SessionEvent.ts evt) type (SessionEvent.itemId evt)
      (priceOf itemMeta (SessionEvent.itemId evt)) in
  (if flag (SessionEvent.add evt) then [mkEvent onAdd] else [])
  ++ (if flag (SessionEvent.remove evt) then [mkEvent onRemove] else []).

Definition buildEventStreamForSession (session : Session.t) (itemMeta : ItemMeta)
  : list TransitionEvent.t :=
  let events :=
    map (fun v =>
           TransitionEvent.mk (SessionEvent.ts v) view (SessionEvent.itemId v)
             (priceOf itemMeta (SessionEvent.itemId v)))
      (Session.views session)
    ++ flat_map (toggleEvents itemMeta cart_add cart_remove) (Session.carts session)
    ++ flat_map (toggleEvents itemMeta wishlist_add wishlist_remove) (Session.wish session) in
  sortBy (fun a b => ofZ (TransitionEvent.ts a - TransitionEvent.ts b)) events.

Definition states : list EventType :=
  [cart_add; cart_remove; view; wishlist_add; wishlist_remove].

Definition stateName (s : EventType) : string :=
  match s with
  | cart_add => "cart_add"
  | cart_remove => "cart_remove"
  | view => "view"
  | wishlist_add => "wishlist_add"
  | wishlist_remove => "wishlist_remove"
  end.

(** [index[type]] *)
Definition index (s : EventType) : nat :=
  match s with
  | cart_add => 0
  | cart_remove => 1
  | view => 2
  | wishlist_add => 3
  | wishlist_remove => 4
  end.

(** [Array.from({ length: n }, () => Array(n).fill(0))] *)
Definition zeroMatrix {A} (zero : A) (n : nat) : list (list A) :=
  replicate n (replicate n zero).

(** The pairs [(events[i], events[i + 1])]. *)
Definition adjacent {A} (events : list A) : list (A * A) :=
  zip events (tail events).

(** [counts[ia][ib] += 1]; both indices are below five, inside the matrix. *)
Definition countTransition (counts : list (list Z))
    (ft : TransitionEvent.t * TransitionEvent.t) : list (list Z) :=
  alter (alter Z.succ (index (TransitionEvent.type ft.2)))
    (index (TransitionEvent.type ft.1)) counts.

(** [counts.map((row) => { const sum = ...; return sum ? ... : ... })]; the
    quotient [value / sum] is a division of doubles. *)
Definition rowProbs (row : list Z) : list Qc :=
  let sum := sumZ row in
  if sum =? 0 then map (fun _ => 0%Qc) row
  else map (fun value => fdiv (ofZ value) (ofZ sum)) row.

Definition cells (counts : list (list Z)) : list Link.t :=
  concat (imap (fun i row => imap (fun j value => Link.mk i j value) row) counts).

Module TransitionInfo.
Record t := mk {
    states : list EventType;
    counts : list (list Z);
    probs : list (list Qc);
    sankey : Sankey.t;
    allTransitions : list (TransitionEvent.t * TransitionEvent.t)
  }.
End TransitionInfo.

Definition transitionMatrixAndSankey (sessions : list Session.t)
    (itemMeta : ItemMeta) : TransitionInfo.t :=
  let n := length states in
  let transitions :=
    flat_map (fun session => adjacent (buildEventStreamForSession session itemMeta))
      sessions in
  let counts := fold_left countTransition transitions (zeroMatrix 0 n) in
  let probs := map rowProbs counts in
  let links := List.filter (fun l => 0 <? Link.value l) (cells counts) in
  TransitionInfo.mk states counts probs
    (Sankey.mk (map stateName states) links) transitions.

(** ** The engine: price bands *)

Module Tally.
Record t := mk { view : Z; wish : Z; viewCart : Z; wishCart : Z }.
End Tally.

Definition bandForPrice (tLow tHigh price : Qc) : PriceTier :=
  if leb price tLow then Low else if leb price tHigh then Mid else High.

Definition isType (a b : EventType) : bool := bool_decide (a = b).

(** One turn of the loop over the transitions: [totals] and [hits] of the
    band of the price of [transition.from]. *)
Definition tallyTransition (tLow tHigh : Qc) (tally : PriceTier -> Tally.t)
    (transition : TransitionEvent.t * TransitionEvent.t) : PriceTier -> Tally.t :=
  let from := transition.1 in
  let to := transition.2 in
  let band := bandForPrice tLow tHigh (TransitionEvent.price from) in
  let old := tally band in
  let toCart := isType (TransitionEvent.type to) cart_add in
  let afterView :=
    if isType (TransitionEvent.type from) view
    then Tally.mk (Tally.view old + 1) (Tally.wish old)
           (if toCart then Tally.viewCart old + 1 else Tally.viewCart old)
           (Tally.wishCart old)
    else old in
  let afterWish :=
    if isType (TransitionEvent.type from) wishlist_add
    then Tally.mk (Tally.view afterView) (Tally.wish afterView + 1)
           (Tally.viewCart afterView)
           (if toCart then Tally.wishCart afterView + 1 else Tally.wishCart afterView)
    else afterView in
  fun t => if decide (t = band) then afterWish else tally t.

Definition tallies (tLow tHigh : Qc)
    (transitions : list (TransitionEvent.t * TransitionEvent.t))
  : PriceTier -> Tally.t :=
  fold_left (tallyTransition tLow tHigh) transitions
    (fun _ => Tally.mk 0 0 0 0).

(** The last loop of [priceBandsFromQuantiles], with [alpha = 1]. *)
Definition fillBand (tally : PriceTier -> Tally.t) (band : Band.t) : Band.t :=
  let alpha := 1 in
  let t := tally (Band.name band) in
  Band.mk (Band.name band) (Band.min band) (Band.max band)
    (if Tally.view t =? 0 then 0%Qc
     else (ofZ (Tally.viewCart t + alpha) / ofZ (Tally.view t + 2 * alpha))%Qc)
    (if Tally.wish t =? 0 then 0%Qc
     else (ofZ (Tally.wishCart t + alpha) / ofZ (Tally.wish t + 2 * alpha))%Qc)
    (Tally.view t) (Tally.wish t).

Definition priceBandsFromQuantiles (E : Env) (itemMeta : ItemMeta)
    (transitions : list (TransitionEvent.t * TransitionEvent.t)) : PriceBands.t :=
  let prices := pricesOf itemMeta in
  match prices with
  | [] => PriceBands.mk [Band.mk All 0%Qc 0%Qc 0%Qc 0%Qc 0 0]
  | _ =>
      let splits := robustPriceSplits E prices in
      let dispMin := Splits.dispMin splits in
      let dispMax := Splits.dispMax splits in
      match Splits.tLow splits, Splits.tHigh splits with
      | Some tLow, Some tHigh =>
          if ltb tLow tHigh then
            let bands :=
              [Band.mk Low dispMin tLow 0%Qc 0%Qc 0 0;
               Band.mk Mid tLow tHigh 0%Qc 0%Qc 0 0;
               Band.mk High tHigh dispMax 0%Qc 0%Qc 0 0] in
            PriceBands.mk (map (fillBand (tallies tLow tHigh transitions)) bands)
          else PriceBands.mk [Band.mk All dispMin dispMax 0%Qc 0%Qc 0 0]
      | _, _ => PriceBands.mk [Band.mk All dispMin dispMax 0%Qc 0%Qc 0 0]
      end
  end.

(** ** The engine: price samples, countries, categories, days *)

Definition buildPriceRangeData (sessions : list Session.t) (itemMeta : ItemMeta)
    (transitions : list (TransitionEvent.t * TransitionEvent.t))
  : PriceRangeData.t :=
  let fromView :=
    List.filter (fun tr => isType (TransitionEvent.type tr.1) view) transitions in
  let price (tr : TransitionEvent.t * TransitionEvent.t) :=
    orElse (TransitionEvent.price tr.1) 0%Qc in
  let carts := flat_map Session.carts sessions in
  let cartPrice (cart : SessionEvent.t) :=
    orElse (priceOf itemMeta (SessionEvent.itemId cart)) 0%Qc in
  PriceRangeData.mk
    (map price fromView)
    (map price
       (List.filter (fun tr => isType (TransitionEvent.type tr.2) cart_add) fromView))
    (map cartPrice (List.filter (fun cart => flag (SessionEvent.add cart)) carts))
    (map cartPrice (List.filter (fun cart => flag (SessionEvent.remove cart)) carts)).

Definition geoSession (byCountry : list (string * (Z * Z))) (session : Session.t)
  : list (string * (Z * Z)) :=
  let key :=
    if String.eqb (Session.country session) EmptyString then "Unknown"%string
    else Session.country session in
  let entry := default (0, 0) (mapGet key byCountry) in
  mapSet key
    (entry.1 + 1, if 0 <? Session.nCartAdd session then entry.2 + 1 else entry.2)
    byCountry.

Definition geoBehavioralInsights (sessions : list Session.t) : list GeoRow.t :=
  let byCountry := fold_left geoSession sessions [] in
  take 20
    (sortBy (fun a b => (GeoRow.conversionRate b - GeoRow.conversionRate a)%Qc)
       (map (fun kv =>
               GeoRow.mk kv.1
                 (if kv.2.1 =? 0 then 0%Qc else (ofZ kv.2.2 / ofZ kv.2.1)%Qc))
          byCountry)).

Inductive CategoryKey := kViews | kCarts | kWish.

(** [itemMeta[id]?.category ?? "Other"] *)
Definition categoryOf (itemMeta : ItemMeta) (id : string) : string :=
  default "Other"%string (Meta.category <$> mapGet id itemMeta).

(** [bump(category, key)] *)
Definition bumpCategory (category : string) (key : CategoryKey)
    (byCategory : list (string * CategoryRow.t)) : list (string * CategoryRow.t) :=
  let entry :=
    default (CategoryRow.mk category 0 0 0 0) (mapGet category byCategory) in
  let entry :=
    match key with
    | kViews =>
        CategoryRow.mk (CategoryRow.category entry) (CategoryRow.views entry + 1)
          (CategoryRow.carts entry) (CategoryRow.wish entry) (CategoryRow.total entry + 1)
    | kCarts =>
        CategoryRow.mk (CategoryRow.category entry) (CategoryRow.views entry)
          (CategoryRow.carts entry + 1) (CategoryRow.wish entry) (CategoryRow.total entry + 1)
    | kWish =>
        CategoryRow.mk (CategoryRow.category entry) (CategoryRow.views entry)
          (CategoryRow.carts entry) (CategoryRow.wish entry + 1) (CategoryRow.total entry + 1)
    end in
  mapSet category entry byCategory.

Definition categorySession (itemMeta : ItemMeta)
    (byCategory : list (string * CategoryRow.t)) (session : Session.t)
  : list (string * CategoryRow.t) :=
  let byCategory :=
    fold_left
      (fun m evt => bumpCategory (categoryOf itemMeta (SessionEvent.itemId evt)) kViews m)
      (Session.views session) byCategory in
  let byCategory :=
    fold_left
      (fun m evt =>
         if flag (SessionEvent.add evt)
         then bumpCategory (categoryOf itemMeta (SessionEvent.itemId evt)) kCarts m
         else m)
      (Session.carts session) byCategory in
  fold_left
    (fun m evt =>
       if flag (SessionEvent.add evt)
       then bumpCategory (categoryOf itemMeta (SessionEvent.itemId evt)) kWish m
       else m)
    (Session.wish session) byCategory.

Definition totalOrder (a b : CategoryRow.t) : Qc :=
  ofZ (CategoryRow.total b - CategoryRow.total a).

Definition categoryInteractions (sessions : list Session.t) (itemMeta : ItemMeta)
  : list CategoryRow.t :=
  let byCategory := fold_left (categorySession itemMeta) sessions [] in
  take 20 (sortBy totalOrder (map snd byCategory)).

Definition bumpDay (key : string) (isView : bool) (byDay : list (string * (Z * Z)))
  : list (string * (Z * Z)) :=
  let record := default (0, 0) (mapGet key byDay) in
  mapSet key (if isView then (record.1 + 1, record.2) else (record.1, record.2 + 1))
    byDay.

Definition dailySession (E : Env) (byDay : list (string * (Z * Z)))
    (session : Session.t) : list (string * (Z * Z)) :=
  let byDay :=
    fold_left
      (fun m evt => bumpDay (format_yyyy_MM_dd E (SessionEvent.ts evt)) true m)
      (Session.views session) byDay in
  fold_left
    (fun m evt =>
       if flag (SessionEvent.add evt)
       then bumpDay (format_yyyy_MM_dd E (SessionEvent.ts evt)) false m
       else m)
    (Session.carts session) byDay.

(** [a[0].localeCompare(b[0])] on day keys *)
Definition localeCompare (a b : string) : Qc :=
  match String.compare a b with
  | Lt => (- 1)%Qc
  | Eq => 0%Qc
  | Gt => 1%Qc
  end.

Definition dailyTrends (E : Env) (sessions : list Session.t) : Daily.t :=
  let byDay := fold_left (dailySession E) sessions [] in
  let series :=
    map (fun kv => DailyRow.mk kv.1 kv.2.1 kv.2.2)
      (sortBy (fun a b : string * (Z * Z) => localeCompare a.1 b.1) byDay) in
  let cartCounts := map (fun row => ofZ (DailyRow.carts row)) series in
  let avg := default 0%Qc (mean E cartCounts) in
  let std := default 0%Qc (deviation E cartCounts) in
  let two := ofZ 2 in
  let lower := if isPos avg then MathMax 0%Qc (avg - two * std)%Qc else 0%Qc in
  let upper := (avg + two * std)%Qc in
  let hasThresholds := (3 <=? length cartCounts)%nat && isPos std in
  let outliers :=
    if hasThresholds
    then map DailyRow.date
           (List.filter
              (fun row => ltb (ofZ (DailyRow.carts row)) lower
                          || ltb upper (ofZ (DailyRow.carts row)))
              series)
    else [] in
  Daily.mk series (Anomaly.mk hasThresholds lower upper outliers).

(** ** The engine: [computeAnalyticsFromDocs]

    [itemMeta] is the table that [buildItemMeta] reads off the listings and
    the categories; [h] is the heap the raw identifiers live in. *)
Definition sessionView (session : Session.t) : SessionView.t :=
  SessionView.mk (Session.sessionId session) (Session.visitorId session)
    (Session.country session) (toISOString (Session.ts session))
    (Session.nView session) (Session.nCartAdd session) (Session.nCartRemove session).

Definition computeAnalyticsFromDocs (E : Env) (h : heap)
    (trackingDocs : list RawDoc.t) (itemMeta : ItemMeta) : AnalyticsResponse.t :=
  let sessions :=
    imap (fun k doc => collectSessionEvents E h (randomUUID E k) doc) trackingDocs in
  let leak := leakAnalytics sessions itemMeta in
  let cooc := cooccurrenceRecos E sessions in
  let markov := priceSegmentedMarkov E sessions itemMeta in
  let transitionInfo := transitionMatrixAndSankey sessions itemMeta in
  let priceBands :=
    priceBandsFromQuantiles E itemMeta (TransitionInfo.allTransitions transitionInfo) in
  let daily := dailyTrends E sessions in
  let geoInsights := geoBehavioralInsights sessions in
  let priceRangeData :=
    buildPriceRangeData sessions itemMeta (TransitionInfo.allTransitions transitionInfo) in
  let catInteractions := categoryInteractions sessions itemMeta in
  AnalyticsResponse.mk
    (map sessionView sessions)
    leak
    (Cooc.recos cooc)
    (Cooc.bundles cooc)
    (MarkovSummary.model markov)
    (PriceMarkovMeta.mk (MarkovSummary.tLow markov) (MarkovSummary.tHigh markov)
       (MarkovSummary.min markov) (MarkovSummary.max markov))
    priceBands
    priceRangeData
    catInteractions
    (Transitions.mk (map stateName (TransitionInfo.states transitionInfo))
       (TransitionInfo.counts transitionInfo) (TransitionInfo.probs transitionInfo))
    (TransitionInfo.sankey transitionInfo)
    daily
    geoInsights
    itemMeta
    VERSION.

(** ** The dashboard: small helpers *)

(** [clamp(v, min, max)]; the dashboard calls it with both bounds given. *)
Definition clamp (v min max : Qc) : Qc := MathMin (MathMax v min) max.

(** ** The dashboard: [distributeToTotal]

    Largest remainder method, so that the scaled integers sum to an exact
    target.  [distributeToTotal] has the shares [(w / sum) * total] as exact
    rationals; [distributeToTotal64] below has them as the doubles that the
    code computes. *)

Module Frac.
Record t := mk { i : nat; frac : Qc }.
End Frac.

(** One turn of [for (k = 0; k < rem; k += 1) out[order[k % order.length].i] += 1].
    With an empty [order] the index is [NaN], [order[NaN]] is [undefined] and
    reading [.i] throws. *)
Definition bump (order : list Frac.t) (k : nat) (out : list Z) : option (list Z) :=
  match order !! (k mod length order)%nat with
  | None => None
  | Some o =>
      match out !! Frac.i o with
      | None => None
      | Some v => Some (<[Frac.i o := v + 1]> out)
      end
  end.

Fixpoint bumpAll (order : list Frac.t) (ks : list nat) (out : list Z)
  : option (list Z) :=
  match ks with
  | [] => Some out
  | k :: ks' =>
      match bump order k out with
      | None => None
      | Some out' => bumpAll order ks' out'
      end
  end.

Definition nonnegOf (weights : list Qc) : list Qc :=
  map (fun w => if isPos w then w else 0%Qc) weights.

Definition rawOf (total : Z) (weights : list Qc) : list Qc :=
  let nonneg := nonnegOf weights in
  let sum := orElse (sumQ nonneg) 1%Qc in
  map (fun w => (w / sum * ofZ total)%Qc) nonneg.

Definition orderOf (raw : list Qc) (base : list Z) : list Frac.t :=
  sortBy (fun a b => (Frac.frac b - Frac.frac a)%Qc)
    (imap (fun i x => Frac.mk i (x - ofZ (default 0%Z (base !! i)))%Qc) raw).

Definition distributeToTotal (total : Z) (weights : list Qc) : option (list Z) :=
  let raw := rawOf total weights in
  let base := map MathFloor raw in
  let rem := total - sumZ base in
  let order := orderOf raw base in
  bumpAll order (seq 0 (Z.to_nat rem)) base.

(** The same function with the arithmetic of doubles: the sum of the weights,
    the quotient [w / sum], the product with [total], the difference
    [x - base[i]] and the difference [b.frac - a.frac] of the comparator are
    each rounded to the nearest double.  [total], the entries of [base] and
    the sum of these entries are integers that a double holds, below [2^53]
    wherever a statement depends on them, and the difference
    [total - sum] is taken exactly. *)
Definition sum64 (weights : list Qc) : Qc := fold_left fadd weights 0%Qc.

Definition rawOf64 (total : Z) (weights : list Qc) : list Qc :=
  let nonneg := nonnegOf weights in
  let sum := orElse (sum64 nonneg) 1%Qc in
  map (fun w => fmul (fdiv w sum) (ofZ total)) nonneg.

Definition orderOf64 (raw : list Qc) (base : list Z) : list Frac.t :=
  sortBy (fun a b => fsub (Frac.frac b) (Frac.frac a))
    (imap (fun i x => Frac.mk i (fsub x (ofZ (default 0%Z (base !! i))))) raw).

Definition distributeToTotal64 (total : Z) (weights : list Qc) : option (list Z) :=
  let raw := rawOf64 total weights in
  let base := map MathFloor raw in
  let rem := total - sumZ base in
  let order := orderOf64 raw base in
  bumpAll order (seq 0 (Z.to_nat rem)) base.

(** ** The dashboard: [reprojectForDateRange] *)

(** [d >= fromDate && d <= toDate] *)
Definition inRange (fromDate toDate d : string) : bool :=
  String.leb fromDate d && String.leb d toDate.

(** [data.sessions.filter(...)] *)
Definition sessionsInRange (data : AnalyticsResponse.t) (fromDate toDate : string)
  : list SessionView.t :=
  List.filter
    (fun s => inRange fromDate toDate (beforeChar "T" (SessionView.ts s)))
    (AnalyticsResponse.sessions data).

Definition fiveStates : list string :=
  ["cart_add"; "cart_remove"; "view"; "wishlist_add"; "wishlist_remove"]%string.

(** The object returned when no session is in the range. *)
Definition emptyShape (data : AnalyticsResponse.t) : AnalyticsResponse.t :=
  AnalyticsResponse.mk
    []
    (Leak.mk 0%Qc [])
    []
    []
    (AnalyticsResponse.priceMarkov data)
    (AnalyticsResponse.priceMarkovMeta data)
    (PriceBands.mk [])
    (PriceRangeData.mk [] [] [] [])
    []
    (Transitions.mk fiveStates (zeroMatrix 0 5) (zeroMatrix 0%Qc 5))
    (Sankey.mk fiveStates [])
    (Daily.mk [] (Daily.anomaly (AnalyticsResponse.daily data)))
    (AnalyticsResponse.geoInsights data)
    (AnalyticsResponse.itemMeta data)
    (AnalyticsResponse.__version data).

Definition totalAddsOf (sessions : list SessionView.t) : Z :=
  fold_left (fun a s => a + SessionView.nCartAdd s) sessions 0.

Definition totalRemovesOf (sessions : list SessionView.t) : Z :=
  fold_left (fun a s => a + SessionView.nCartRemove s) sessions 0.

(** [Math.round(c * ratio)] *)
Definition scale (ratio : Qc) (c : Z) : Z := MathRound (ofZ c * ratio)%Qc.

(** [arr.slice(0, Math.round(arr.length * ratio))] *)
Definition scaleArray {A} (ratio : Qc) (arr : list A) : list A :=
  take (Z.to_nat (scale ratio (Z.of_nat (length arr)))) arr.

(** The row of [leakItems] at [idx], before the sort. *)
Definition reprojectLeakRow (addsAlloc remsAlloc : list Z) (idx : nat)
    (r : LeakRow.t) : LeakRow.t :=
  let adds := default 0 (addsAlloc !! idx) in
  let removes := default 0 (remsAlloc !! idx) in
  LeakRow.mk (LeakRow.item r) adds removes
    (if 0 <? adds then (ofZ removes / ofZ adds)%Qc else 0%Qc).

(** The row of [categoryInteractions] at [idx], before the sort. *)
Definition reprojectCategory (ratio : Qc) (cartsAlloc : list Z) (idx : nat)
    (c : CategoryRow.t) : CategoryRow.t :=
  let views := scale ratio (CategoryRow.views c) in
  let wish := scale ratio (CategoryRow.wish c) in
  let carts := default 0 (cartsAlloc !! idx) in
  CategoryRow.mk (CategoryRow.category c) views carts wish (views + wish + carts).

Definition reprojectForDateRange (data : AnalyticsResponse.t)
    (fromDate toDate : string) : option AnalyticsResponse.t :=
  let sessions := sessionsInRange data fromDate toDate in
  if (length sessions =? 0)%nat then Some (emptyShape data)
  else
    let ratio :=
      clamp (ofZ (Z.of_nat (length sessions))
             / ofZ (Z.of_nat (length (AnalyticsResponse.sessions data))))%Qc
        0%Qc 1%Qc in
    let daily :=
      Daily.mk
        (List.filter (fun r => inRange fromDate toDate (DailyRow.date r))
           (Daily.series (AnalyticsResponse.daily data)))
        (Daily.anomaly (AnalyticsResponse.daily data)) in
    let totalAdds := totalAddsOf sessions in
    let totalRemoves := totalRemovesOf sessions in
    let scaledCounts :=
      map (map (scale ratio))
        (Transitions.counts (AnalyticsResponse.transitions data)) in
    let probs := map rowProbs scaledCounts in
    let links :=
      List.filter
        (fun l => (0 <? Link.value l)
                  && negb (Link.source l =? Link.target l)%nat)
        (cells scaledCounts) in
    let transitions :=
      Transitions.mk (Transitions.states (AnalyticsResponse.transitions data))
        scaledCounts probs in
    let sankey := Sankey.mk (Sankey.nodes (AnalyticsResponse.sankey data)) links in
    let items := Leak.items (AnalyticsResponse.leak data) in
    let origAdds := map (fun r => ofZ (LeakRow.adds r)) items in
    let origRems := map (fun r => ofZ (LeakRow.removes r)) items in
    addsAlloc ← distributeToTotal totalAdds origAdds;
    remsAlloc ← distributeToTotal totalRemoves origRems;
    let leakItems :=
      sortBy leakOrder (imap (reprojectLeakRow addsAlloc remsAlloc) items) in
    let leak :=
      Leak.mk
        (if 0 <? totalAdds then (ofZ totalRemoves / ofZ totalAdds)%Qc else 0%Qc)
        leakItems in
    let catCarts :=
      map (fun c => ofZ (CategoryRow.carts c))
        (AnalyticsResponse.categoryInteractions data) in
    cartsAlloc ← distributeToTotal totalAdds catCarts;
    let categoryInteractions :=
      sortBy totalOrder
        (imap (reprojectCategory ratio cartsAlloc)
           (AnalyticsResponse.categoryInteractions data)) in
    let prices := AnalyticsResponse.priceRangeData data in
    let priceRangeData :=
      PriceRangeData.mk
        (scaleArray ratio (PriceRangeData.viewFromPrices prices))
        (scaleArray ratio (PriceRangeData.viewToCartFromPrices prices))
        (scaleArray ratio (PriceRangeData.cartAddPrices prices))
        (scaleArray ratio (PriceRangeData.cartRemovePrices prices)) in
    let priceBands :=
      PriceBands.mk
        (map (fun b =>
                Band.mk (Band.name b) (Band.min b) (Band.max b)
                  (Band.viewToCart b) (Band.wishToCart b)
                  (scale ratio (Band.nView b)) (scale ratio (Band.nWish b)))
           (PriceBands.bands (AnalyticsResponse.priceBands data))) in
    let frequentBundles :=
      map (fun b => Bundle.mk (Bundle.items b) (Bundle.support b * ratio)%Qc)
        (AnalyticsResponse.frequentBundles data) in
    let recos := AnalyticsResponse.recos data in
    Some
      (AnalyticsResponse.mk
         sessions
         leak
         recos
         frequentBundles
         (AnalyticsResponse.priceMarkov data)
         (AnalyticsResponse.priceMarkovMeta data)
         priceBands
         priceRangeData
         categoryInteractions
         transitions
         sankey
         daily
         (AnalyticsResponse.geoInsights data)
         (AnalyticsResponse.itemMeta data)
         (AnalyticsResponse.__version data)).

(** ** Vocabulary of the statements *)

(** [x] may stay in front of [y] under the comparator [cmp]. *)
Definition inOrder {A} (cmp : A -> A -> Qc) (x y : A) : Prop :=
  isPos (cmp x y) = false.

(** The largest-remainder rule in the words of the specification: the share
    of entry [i], its fractional remainder, the order in which the entries
    receive the units left after flooring, and the number of those units. *)
Definition share (T : Z) (ws : list Qc) (i : nat) : Qc :=
  (default 0%Qc (ws !! i) / sumQ ws * ofZ T)%Qc.

Definition remainder (T : Z) (ws : list Qc) (i : nat) : Qc :=
  (share T ws i - ofZ (MathFloor (share T ws i)))%Qc.

Definition precedes (T : Z) (ws : list Qc) (i j : nat) : Prop :=
  (remainder T ws j < remainder T ws i)%Qc
  \/ (remainder T ws i = remainder T ws j /\ (i < j)%nat).

Definition firstUnits (T : Z) (ws : list Qc) : Z :=
  T - sumZ (map (fun i => MathFloor (share T ws i)) (seq 0 (length ws))).

(** [x] is a double: rounding leaves it as it is. *)
Definition isDouble (x : Qc) : Prop := round64 x = x.

#[global] Instance isDouble_dec (x : Qc) : Decision (isDouble x) :=
  Qc_eq_dec (round64 x) x.

(** The same four notions for the shares as doubles: the quotient and the
    product are rounded, and so is the difference that is the remainder. *)
Definition share64 (T : Z) (ws : list Qc) (i : nat) : Qc :=
  fmul (fdiv (default 0%Qc (ws !! i)) (sum64 ws)) (ofZ T).

Definition remainder64 (T : Z) (ws : list Qc) (i : nat) : Qc :=
  fsub (share64 T ws i) (ofZ (MathFloor (share64 T ws i))).

Definition precedes64 (T : Z) (ws : list Qc) (i j : nat) : Prop :=
  (remainder64 T ws j < remainder64 T ws i)%Qc
  \/ (remainder64 T ws i = remainder64 T ws j /\ (i < j)%nat).

Definition firstUnits64 (T : Z) (ws : list Qc) : Z :=
  T - sumZ (map (fun i => MathFloor (share64 T ws i)) (seq 0 (length ws))).

(** The relation between a row of transition counts and its row of
    probabilities: one probability per count, each in [0, 1]; all zero when
    the counts total zero, and otherwise summing to one within the rounding
    of the quotients, [2^-53] for each. *)
Definition rowNormalised (counts : list Z) (probs : list Qc) : Prop :=
  length probs = length counts
  /\ Forall (fun p => (0 <= p)%Qc /\ (p <= 1)%Qc) probs
  /\ (if sumZ counts =? 0 then Forall (fun p => p = 0%Qc) probs
      else
        let tolerance := (ofZ (Z.of_nat (length counts)) * pow2 (-53))%Qc in
        (1 - tolerance <= sumQ probs)%Qc /\ (sumQ probs <= 1 + tolerance)%Qc).

(** ** Inputs of the examples *)

(** d3-array on exact numbers: [quantileSorted] interpolates linearly
    between the two neighbours of position [(n - 1) p]; [mean] is the sum
    over the count; [deviation] is the square root of the sample variance. *)
Definition d3_quantileSorted (values : list Qc) (p : Qc) : option Qc :=
  let n := length values in
  if (n =? 0)%nat then None
  else if leb p 0%Qc || (n <? 2)%nat then values !! 0%nat
  else if leb 1%Qc p then values !! (n - 1)%nat
  else
    let i := (ofZ (Z.of_nat (n - 1)) * p)%Qc in
    let i0 := MathFloor i in
    match values !! Z.to_nat i0, values !! Z.to_nat (i0 + 1) with
    | Some value0, Some value1 => Some (value0 + (value1 - value0) * (i - ofZ i0))%Qc
    | _, _ => None
    end.

Definition d3_mean (values : list Qc) : option Qc :=
  match values with
  | [] => None
  | _ => Some (sumQ values / ofZ (Z.of_nat (length values)))%Qc
  end.

Definition d3_deviation (sqrt : Qc -> Qc) (values : list Qc) : option Qc :=
  match d3_mean values with
  | Some m =>
      if (length values <? 2)%nat then None
      else Some (sqrt (sumQ (map (fun x => ((x - m) * (x - m))%Qc) values)
                       / ofZ (Z.of_nat (length values - 1)))%Qc)
  | None => None
  end.

(** The square root of a square of a rational. *)
Definition sqrtOfSquare (q : Qc) : Qc :=
  Q2Qc (Z.sqrt (Qnum (this q)) # Pos.sqrt (Qden (this q))).

(** A host in UTC with d3-array as above.  Its [Math.sqrt] is exact on the
    squares of rationals; its [Math.log1p] and [Math.expm1] are the identity,
    which is exact at 0, and the examples state no result that changes when
    [expm1 (log1p x)] is [x] only up to rounding. *)
Definition utcEnv : Env :=
  Build_Env sqrtOfSquare (fun x => x) (fun x => x)
    d3_quantileSorted d3_mean (d3_deviation sqrtOfSquare)
    (fun q => pretty (MathFloor q)) (fun _ => 0)
    (fun _ => "00000000-0000-4000-8000-000000000000"%string)
    0.

(** 2024-10-01T00:00:00.000Z and the day after. *)
Definition oct1 : Date := 1727740800000.
Definition oct2 : Date := oct1 + 86400000.

Definition rawItem (id : string) (t : Date) (deleted : bool) : RawItem.t :=
  RawItem.mk (VStr id) (Some t) None deleted None.

Definition rawDoc (id : string) (t : Date) (views carts : list RawItem.t)
  : RawDoc.t :=
  RawDoc.mk (VStr id) None None (Some t) views carts [].

(** One visit with two views. *)
Definition twoViews : list RawDoc.t :=
  [rawDoc "s1" oct1 [rawItem "X" oct1 false; rawItem "Y" (oct1 + 1000) false] []].

(** One visit of October 1 whose only view is stamped October 2. *)
Definition lateView : list RawDoc.t :=
  [rawDoc "s1" oct1 [rawItem "X" oct2 false] []].

(** Two visits: on October 1 item X goes into the cart and out again,
    twice; on October 2 item Y goes into the cart twice. *)
Definition twoDays : list RawDoc.t :=
  [rawDoc "s1" oct1 [] [rawItem "X" oct1 true; rawItem "X" oct1 true];
   rawDoc "s2" oct2 [] [rawItem "Y" oct2 false; rawItem "Y" oct2 false]].

(** Twenty-one items of twenty-one categories, and one visit that puts each
    of them into the cart once. *)
Definition manyIds : list string :=
  ["c01"; "c02"; "c03"; "c04"; "c05"; "c06"; "c07"; "c08"; "c09"; "c10"; "c11";
   "c12"; "c13"; "c14"; "c15"; "c16"; "c17"; "c18"; "c19"; "c20"; "c21"]%string.

Definition manyMeta : ItemMeta :=
  map (fun id => (id, Meta.mk id 0%Qc id EmptyString)) manyIds.

Definition manyCarts : list RawDoc.t :=
  [rawDoc "s1" oct1 [] (map (fun id => rawItem id oct1 false) manyIds)].

(** One visit whose events are, in time, a cart add, a cart add, and four
    times a view and a cart add, the last of them followed by a wishlist
    add: of the six transitions that leave a cart add, one leads to a cart
    add, four to a view and one to a wishlist add. *)
Definition fromCart : list RawDoc.t :=
  [RawDoc.mk (VStr "s1") None None (Some oct1)
     [rawItem "v1" (oct1 + 2000) false; rawItem "v2" (oct1 + 4000) false;
      rawItem "v3" (oct1 + 6000) false; rawItem "v4" (oct1 + 8000) false]
     [rawItem "a" oct1 false; rawItem "b" (oct1 + 1000) false;
      rawItem "c" (oct1 + 3000) false; rawItem "d" (oct1 + 5000) false;
      rawItem "e" (oct1 + 7000) false; rawItem "f" (oct1 + 9000) false]
     [rawItem "w" (oct1 + 10000) false]].

(** Ten items at the prices 10 (four of them), 15, 20 (three) and 30 (two):
    every quantile that the split of the prices takes lies between two equal
    prices, so that the boundaries are 10 and 20, up to the rounding of
    [expm1 (log1p x)].  And the transitions of a visit that views an item
    without metadata, puts it into the cart, views another such item, and
    puts the item of price 15 on the wishlist and then into the cart: the
    prices 0 and 15 of its events are away from the boundaries. *)
Definition tenPrices : ItemMeta :=
  map (fun kp => (kp.1, Meta.mk kp.1 (ofZ kp.2) EmptyString EmptyString))
    [("a", 10); ("b", 10); ("c", 10); ("d", 10); ("m", 15); ("e", 20);
     ("f", 20); ("g", 20); ("h", 30); ("i", 30)]%string.

Definition fiveEvents : list (TransitionEvent.t * TransitionEvent.t) :=
  adjacent
    [TransitionEvent.mk oct1 view "x" 0%Qc;
     TransitionEvent.mk (oct1 + 1000) cart_add "x" 0%Qc;
     TransitionEvent.mk (oct1 + 2000) view "y" 0%Qc;
     TransitionEvent.mk (oct1 + 3000) wishlist_add "m" (ofZ 15);
     TransitionEvent.mk (oct1 + 4000) cart_add "m" (ofZ 15)].

(** One visit with views of twelve items. *)
Definition twelveViews : list RawDoc.t :=
  [rawDoc "s1" oct1
     (map (fun id => rawItem id oct1 false)
        ["a"; "b"; "c"; "d"; "e"; "f"; "g"; "h"; "i"; "j"; "k"; "l"]%string)
     []].

(** [recos[item]] in the table under construction, and the symmetry of
    that table. *)
Definition listOf (m : list (string * list Reco.t)) (item : string)
  : list Reco.t :=
  default [] (mapGet item m).

Definition symmetric (m : list (string * list Reco.t)) : Prop :=
  forall a b s, Reco.mk b s ∈ listOf m a -> Reco.mk a s ∈ listOf m b.

(** [data.recos[item]], with no list read as the empty one. *)
Definition recosFor (data : AnalyticsResponse.t) (item : string) : list Reco.t :=
  default [] (mapGet item (AnalyticsResponse.recos data)).

(** ** Vocabulary of the statements about the engine *)

(** The sessions of [computeAnalyticsFromDocs]. *)
Definition sessionsOf (E : Env) (h : heap) (trackingDocs : list RawDoc.t)
  : list Session.t :=
  imap (fun k doc => collectSessionEvents E h (randomUUID E k) doc) trackingDocs.

(** The shape of the cart events of a session: adds, each at most followed
    at once by the remove of the same item. *)
Inductive toggles : list SessionEvent.t -> Prop :=
  | toggles_nil : toggles []
  | toggles_add id t rest :
      toggles rest -> toggles (SessionEvent.mk id t (Some 1) (Some 0) :: rest)
  | toggles_both id t rt rest :
      toggles rest ->
      toggles (SessionEvent.mk id t (Some 1) (Some 0)
               :: SessionEvent.mk id rt (Some 0) (Some 1) :: rest).

(** The cart adds and removes of item [k] in a list of events, and of all
    items. *)
Definition addsOf (k : string) (evts : list SessionEvent.t) : Z :=
  sumZ (map (fun e => if decide (SessionEvent.itemId e = k)
                      then default 0 (SessionEvent.add e) else 0) evts).

Definition removesOf (k : string) (evts : list SessionEvent.t) : Z :=
  sumZ (map (fun e => if decide (SessionEvent.itemId e = k)
                      then default 0 (SessionEvent.remove e) else 0) evts).

Definition allAdds (evts : list SessionEvent.t) : Z :=
  sumZ (map (fun e => default 0 (SessionEvent.add e)) evts).

Definition allRemoves (evts : list SessionEvent.t) : Z :=
  sumZ (map (fun e => default 0 (SessionEvent.remove e)) evts).

(** A leak row whose ratio is its removes over its adds, not above one. *)
Definition leakRowOK (r : LeakRow.t) : Prop :=
  0 <= LeakRow.removes r <= LeakRow.adds r
  /\ LeakRow.leak r =
       (if 0 <? LeakRow.adds r
        then (ofZ (LeakRow.removes r) / ofZ (LeakRow.adds r))%Qc else 0%Qc).

(** A session as ingestion builds it: its cart events have the shape
    [toggles] and its two cart counters are the sums over them. *)
Definition wellFormed (s : Session.t) : Prop :=
  toggles (Session.carts s)
  /\ Session.nCartAdd s = allAdds (Session.carts s)
  /\ Session.nCartRemove s = allRemoves (Session.carts s).

Definition cartsSum (m : list (string * CategoryRow.t)) : Z :=
  sumZ (map (fun kv => CategoryRow.carts kv.2) m).

(** A category row whose total is the sum of its three counters, none of
    them negative. *)
Definition categoryRowOK (c : CategoryRow.t) : Prop :=
  0 <= CategoryRow.views c /\ 0 <= CategoryRow.carts c /\ 0 <= CategoryRow.wish c
  /\ CategoryRow.total c = CategoryRow.views c + CategoryRow.wish c + CategoryRow.carts c.

(** The samples of a price band among the transitions: those that leave a
    view (or a wishlist add) whose price lies in the band, and among them
    those that lead to a cart add.  [smoothed] is the rate that
    [priceBandsFromQuantiles] reports for [hits] out of [total]. *)
Definition sampleOf (tLow tHigh : Qc) (band : PriceTier) (from : EventType)
    (hit : bool) (tr : TransitionEvent.t * TransitionEvent.t) : bool :=
  bool_decide (bandForPrice tLow tHigh (TransitionEvent.price tr.1) = band)
  && isType (TransitionEvent.type tr.1) from
  && (negb hit || isType (TransitionEvent.type tr.2) cart_add).

Definition samples (tLow tHigh : Qc) (band : PriceTier) (from : EventType)
    (hit : bool) (transitions : list (TransitionEvent.t * TransitionEvent.t)) : Z :=
  Z.of_nat (length (List.filter (sampleOf tLow tHigh band from hit) transitions)).

Definition smoothed (hits total : Z) : Qc :=
  if total =? 0 then 0%Qc else (ofZ (hits + 1) / ofZ (total + 2))%Qc.



(** An object that is its own [_id], and two objects that are each other's. *)
Definition selfHeap : heap :=
  {[ 1%positive := Obj.mk {[ "_id"%string := VRef 1%positive ]} "[object Object]" ]}.

Definition pairHeap : heap :=
  {[ 1%positive := Obj.mk {[ "_id"%string := VRef 2%positive ]} "[object Object]";
     2%positive := Obj.mk {[ "_id"%string := VRef 1%positive ]} "[object Object]" ]}.

(** ** The dashboard: what the charts compute from a bundle

    Each chart component derives its rows in a [useMemo]; the bodies of
    those that are plain data transformations are embedded here, one module
    per component. *)

(** [CartLeakByCategory]: the leak rows grouped by the category of their
    item, with the cart adds of the category table where it has some. *)
Module CartLeakByCategory.

Module Group.
Record t := mk { adds : Z; removes : Z; items : list string }.
End Group.

Module Row.
Record t := mk {
    category : string;
    adds : Z;
    removes : Z;
    leak : Qc;
    itemCount : Z
  }.
End Row.

(** [meta[row.item]?.category || "Other"] *)
Definition categoryFor (meta : ItemMeta) (item : string) : string :=
  match mapGet item meta with
  | Some m =>
      if String.eqb (Meta.category m) EmptyString then "Other"%string
      else Meta.category m
  | None => "Other"%string
  end.

(** One turn of [data.leak.items.forEach]. *)
Definition addRow (meta : ItemMeta) (categoryGroups : list (string * Group.t))
    (row : LeakRow.t) : list (string * Group.t) :=
  let category := categoryFor meta (LeakRow.item row) in
  let g := default (Group.mk 0 0 []) (mapGet category categoryGroups) in
  mapSet category
    (Group.mk (Group.adds g + LeakRow.adds row) (Group.removes g + LeakRow.removes row)
       (Group.items g ++ [LeakRow.item row]))
    categoryGroups.

Definition categoryCartData (cats : list CategoryRow.t) : list (string * Z) :=
  fold_left (fun m cat => mapSet (CategoryRow.category cat) (CategoryRow.carts cat) m)
    cats [].

(** The row of one group; [categoryCartData.get(category) || g.adds] falls
    back on the adds of the group when the table has no entry or has 0. *)
Definition rowOf (cartData : list (string * Z)) (entry : string * Group.t) : Row.t :=
  let '(category, g) := entry in
  let adds :=
    match mapGet category cartData with
    | Some carts => if carts =? 0 then Group.adds g else carts
    | None => Group.adds g
    end in
  let removes := Z.min (Group.removes g) adds in
  Row.mk category adds removes
    (if 0 <? adds then (ofZ removes / ofZ adds)%Qc else 0%Qc)
    (Z.of_nat (length (Group.items g))).

(** [(a, b) => b.leak - a.leak || b.removes - a.removes] *)
Definition order (a b : Row.t) : Qc :=
  orElse (Row.leak b - Row.leak a)%Qc (ofZ (Row.removes b - Row.removes a)).

Definition allRows (data : AnalyticsResponse.t) : list Row.t :=
  let meta := AnalyticsResponse.itemMeta data in
  let categoryGroups :=
    fold_left (addRow meta) (Leak.items (AnalyticsResponse.leak data)) [] in
  let cartData := categoryCartData (AnalyticsResponse.categoryInteractions data) in
  sortBy order (map (rowOf cartData) categoryGroups).

(** [allRows.slice(0, topCount)] *)
Definition rows (data : AnalyticsResponse.t) (topCount : nat) : list Row.t :=
  take topCount (allRows data).

End CartLeakByCategory.

(** [PurchaseFunnelByPrice]: the counts and rates of a custom price range;
    a bound that is [null] does not bind. *)
Module PurchaseFunnelByPrice.

Module Metrics.
Record t := mk {
    views : Z;
    viewToCart : Z;
    adds : Z;
    removes : Z;
    viewRate : Qc;
    checkoutRate : Qc
  }.
End Metrics.

(** [v >= min && v <= max], with [min = appliedRange.min ?? -Infinity] and
    [max = appliedRange.max ?? Infinity] *)
Definition inRange (min max : option Qc) (v : Qc) : bool :=
  match min with Some m => leb m v | None => true end
  && match max with Some m => leb v m | None => true end.

Definition rangeMetrics (min max : option Qc) (priceRangeData : PriceRangeData.t)
  : Metrics.t :=
  let count (prices : list Qc) :=
    Z.of_nat (length (List.filter (inRange min max) prices)) in
  let views := count (PriceRangeData.viewFromPrices priceRangeData) in
  let viewToCart := count (PriceRangeData.viewToCartFromPrices priceRangeData) in
  let viewRate := if 0 <? views then (ofZ viewToCart / ofZ views)%Qc else 0%Qc in
  let adds := count (PriceRangeData.cartAddPrices priceRangeData) in
  let removes := count (PriceRangeData.cartRemovePrices priceRangeData) in
  let checkoutRate :=
    if 0 <? adds then clamp (ofZ (adds - removes) / ofZ adds)%Qc 0%Qc 1%Qc
    else 0%Qc in
  Metrics.mk views viewToCart adds removes viewRate checkoutRate.

End PurchaseFunnelByPrice.

(** [SankeyFlow]: the links that go to the flow chart, pruned of the tiny
    ones and of every link that would close a cycle. *)
Module SankeyFlow.

Module FlowLink.
Record t := mk { source : string; target : string; value : Z }.
End FlowLink.

Module SankeyData.
Record t := mk { nodes : list string; links : list FlowLink.t }.
End SankeyData.

(** [adj]: a [Map] from a node to the [Set] of its successors. *)
Definition Adj := list (string * list string).

Definition successors (adj : Adj) (cur : string) : list string :=
  default [] (mapGet cur adj).

(** The loop of [wouldCycle], by recursion on a fuel.  The stack is a list
    whose head is the top: [stack.pop()] takes the head, and
    [nbrs.forEach((x) => stack.push(x))] leaves the last successor on top. *)
Fixpoint wouldCycle_fuel (fuel : nat) (adj : Adj) (src : string)
    (stack : list string) (seen : gset string) : option bool :=
  match fuel with
  | O => None
  | S fuel' =>
      match stack with
      | [] => Some false
      | cur :: stack' =>
          if decide (cur = src) then Some true
          else if decide (cur ∈ seen) then wouldCycle_fuel fuel' adj src stack' seen
          else
            wouldCycle_fuel fuel' adj src
              (fold_left (fun st x => x :: st) (successors adj cur) stack')
              ({[ cur ]} ∪ seen)
      end
  end.

(** The number of successors over all nodes: with two more turns than that
    the loop has run to its end (lemma [wouldCycle_runs]). *)
Definition degree (adj : Adj) : nat :=
  fold_left (fun n kv => (n + length kv.2)%nat) adj 0%nat.

Definition wouldCycle (adj : Adj) (src tgt : string) : bool :=
  default true (wouldCycle_fuel (degree adj + 2) adj src [tgt] ∅).

(** [max * 0.02] *)
Definition minThreshold (max : Z) : Qc := (ofZ max * Q2Qc (2 # 100))%Qc.

Definition pruned (links : list Link.t) : list Link.t :=
  let max := fold_left (fun a l => Z.max a (Link.value l)) links 0 in
  let minTh := minThreshold max in
  if 0 <? max then List.filter (fun l => leb minTh (ofZ (Link.value l))) links
  else links.

(** One turn of [for (const l of base)]. *)
Definition addLink (nodes : list string) (st : list FlowLink.t * Adj) (l : Link.t)
  : list FlowLink.t * Adj :=
  let '(links, adj) := st in
  match nodes !! Link.source l, nodes !! Link.target l with
  | Some sName, Some tName =>
      if String.eqb sName EmptyString || String.eqb tName EmptyString then st
      else if String.eqb sName tName then st
      else if negb (wouldCycle adj sName tName) then
        (links ++ [FlowLink.mk sName tName (Link.value l)],
         mapSet sName (setAdd (successors adj sName) tName) adj)
      else st
  | _, _ => st
  end.

Definition sankeyData (sankey : Sankey.t) : SankeyData.t :=
  let base := pruned (Sankey.links sankey) in
  let nodes := Sankey.nodes sankey in
  let adj := fold_left (fun adj n => mapSet n [] adj) nodes [] in
  let '(links, _) := fold_left (addLink nodes) base ([], adj) in
  SankeyData.mk nodes links.

End SankeyFlow.

(** ** Vocabulary of the statements about the charts and the ingestion *)

(** The successor relation of an adjacency map, and the relation that the
    links of a flow chart draw between its nodes. *)
Definition edge (adj : SankeyFlow.Adj) (a b : string) : Prop :=
  b ∈ SankeyFlow.successors adj a.

Definition flows (links : list SankeyFlow.FlowLink.t) (a b : string) : Prop :=
  exists v, SankeyFlow.FlowLink.mk a b v ∈ links.

(** An entry whose [item] resolves to an identifier that is not empty: the
    entries that ingestion keeps. *)
Definition resolves (E : Env) (h : heap) (raw : RawItem.t) : bool :=
  match strId E h (RawItem.item raw) with
  | Some id => negb (String.eqb id EmptyString)
  | None => false
  end.

(** The measure of the loop of [wouldCycle]: the successors still to be
    pushed, those of the nodes that have not been seen. *)
Fixpoint pending (adj : SankeyFlow.Adj) (seen : gset string) : nat :=
  match adj with
  | [] => 0
  | (k, ns) :: adj' =>
      ((if decide (k ∈ seen) then 0 else length ns) + pending adj' seen)%nat
  end.

(** A row of the cart-leak chart with no more removes than adds and a rate
    of [0, 1]; a pair of probabilities of [0, 1]. *)
Definition chartRowOK (r : CartLeakByCategory.Row.t) : Prop :=
  0 <= CartLeakByCategory.Row.removes r <= CartLeakByCategory.Row.adds r
  /\ (0 <= CartLeakByCategory.Row.leak r)%Qc
  /\ (CartLeakByCategory.Row.leak r <= 1)%Qc.

Definition unitModel (m : TierModel.t) : Prop :=
  ((0 <= TierModel.pViewToCart m)%Qc /\ (TierModel.pViewToCart m <= 1)%Qc)
  /\ (0 <= TierModel.pCartToCheckout m)%Qc /\ (TierModel.pCartToCheckout m <= 1)%Qc.

(** The transitions from an event of state [i] to an event of state [j]. *)
Definition transitionCount (i j : nat)
    (transitions : list (TransitionEvent.t * TransitionEvent.t)) : Z :=
  Z.of_nat
    (length
       (List.filter
          (fun ft => (index (TransitionEvent.type ft.1) =? i)%nat
                     && (index (TransitionEvent.type ft.2) =? j)%nat)
          transitions)).

(** The country that [geoBehavioralInsights] counts a session for, the
    sessions of a country and those of them with a cart add. *)
Definition countryKey (s : Session.t) : string :=
  if String.eqb (Session.country s) EmptyString then "Unknown"%string
  else Session.country s.

Definition countryVisits (c : string) (sessions : list Session.t) : Z :=
  Z.of_nat (length (List.filter (fun s => String.eqb (countryKey s) c) sessions)).

Definition countryConverted (c : string) (sessions : list Session.t) : Z :=
  Z.of_nat
    (length
       (List.filter
          (fun s => String.eqb (countryKey s) c && (0 <? Session.nCartAdd s))
          sessions)).

(** The events that a test selects and a key maps to [c]; the key is the
    category of the item of the event, or the day of the event. *)
Definition eventTally (key : SessionEvent.t -> string) (p : SessionEvent.t -> bool)
    (c : string) (evts : list SessionEvent.t) : Z :=
  Z.of_nat (length (List.filter (fun e => p e && String.eqb (key e) c) evts)).

Definition itemCategory (itemMeta : ItemMeta) (e : SessionEvent.t) : string :=
  categoryOf itemMeta (SessionEvent.itemId e).

Definition eventDay (E : Env) (e : SessionEvent.t) : string :=
  format_yyyy_MM_dd E (SessionEvent.ts e).

Definition anyEvent (e : SessionEvent.t) : bool := true.

Definition hasAdd (e : SessionEvent.t) : bool := flag (SessionEvent.add e).

Definition hasRemove (e : SessionEvent.t) : bool := flag (SessionEvent.remove e).

(** The events of one type, time and item in a stream, and the entries of a
    session that such events come from: its views for the type "view", and
    for the other four types its cart or wishlist entries whose add or
    remove count is not zero. *)
Definition isEvent (type : EventType) (t : Date) (item : string)
    (e : TransitionEvent.t) : bool :=
  isType (TransitionEvent.type e) type && (TransitionEvent.ts e =? t)
  && String.eqb (TransitionEvent.itemId e) item.

Definition entriesAt (on : SessionEvent.t -> bool) (t : Date) (item : string)
    (evts : list SessionEvent.t) : nat :=
  length
    (List.filter
       (fun e => on e && (SessionEvent.ts e =? t)
                 && String.eqb (SessionEvent.itemId e) item) evts).

Definition sourceEntries (session : Session.t) (type : EventType) (t : Date)
    (item : string) : nat :=
  match type with
  | view => entriesAt anyEvent t item (Session.views session)
  | cart_add => entriesAt hasAdd t item (Session.carts session)
  | cart_remove => entriesAt hasRemove t item (Session.carts session)
  | wishlist_add => entriesAt hasAdd t item (Session.wish session)
  | wishlist_remove => entriesAt hasRemove t item (Session.wish session)
  end.

(** The order of a stream: by time, and at the same time a view before a
    cart event before a wishlist event. *)
Definition kindOf (type : EventType) : Z :=
  match type with
  | view => 0
  | cart_add | cart_remove => 1
  | wishlist_add | wishlist_remove => 2
  end.

Definition earlier (a b : TransitionEvent.t) : Prop :=
  TransitionEvent.ts a < TransitionEvent.ts b
  \/ (TransitionEvent.ts a = TransitionEvent.ts b
      /\ kindOf (TransitionEvent.type a) <= kindOf (TransitionEvent.type b)).

(** The pairs of an event and the next one, position by position. *)
Definition consecutive {A} (events : list A) : list (A * A) :=
  omap (fun k => match events !! k, events !! S k with
                 | Some a, Some b => Some (a, b)
                 | _, _ => None
                 end)
    (seq 0 (length events - 1)).

(** * Numbers *)

Lemma this_ofZ z : (this (ofZ z) == inject_Z z)%Q.
Proof. unfold ofZ. simpl. apply Qred_correct. Qed.

Lemma ofZ_0 : ofZ 0 = 0%Qc.
Proof. apply Qc_is_canon. reflexivity. Qed.

Lemma ofZ_1 : ofZ 1 = 1%Qc.
Proof. apply Qc_is_canon. reflexivity. Qed.

Lemma ofZ_add a b : ofZ (a + b) = (ofZ a + ofZ b)%Qc.
Proof.
  apply Qc_is_canon. unfold Qcplus. simpl.
  rewrite !Qred_correct, inject_Z_plus. reflexivity.
Qed.

Lemma ofZ_sub a b : ofZ (a - b) = (ofZ a - ofZ b)%Qc.
Proof.
  apply Qc_is_canon. unfold Qcminus, Qcplus, Qcopp. simpl.
  rewrite !Qred_correct. unfold Z.sub. rewrite inject_Z_plus, inject_Z_opp. reflexivity.
Qed.

Lemma ofZ_mul a b : ofZ (a * b) = (ofZ a * ofZ b)%Qc.
Proof.
  apply Qc_is_canon. unfold Qcmult. simpl.
  rewrite !Qred_correct, inject_Z_mult. reflexivity.
Qed.

Lemma ofZ_le a b : a <= b <-> (ofZ a <= ofZ b)%Qc.
Proof. unfold Qcle. rewrite !this_ofZ, Zle_Qle. reflexivity. Qed.

Lemma ofZ_lt a b : a < b <-> (ofZ a < ofZ b)%Qc.
Proof. unfold Qclt. rewrite !this_ofZ, Zlt_Qlt. reflexivity. Qed.

Lemma ofZ_mono a b : a <= b -> (ofZ a <= ofZ b)%Qc.
Proof. apply ofZ_le. Qed.

Lemma ofZ_nonneg z : 0 <= z -> (0 <= ofZ z)%Qc.
Proof. intros H. rewrite <- ofZ_0. apply (proj1 (ofZ_le 0 z)), H. Qed.

Lemma ofZ_pos z : 0 < z -> (0 < ofZ z)%Qc.
Proof. intros H. rewrite <- ofZ_0. apply (proj1 (ofZ_lt 0 z)), H. Qed.

Lemma ofZ_inj a b : ofZ a = ofZ b -> a = b.
Proof.
  intros H. apply (f_equal this) in H.
  assert (inject_Z a == inject_Z b)%Q as Hq by (rewrite <- !this_ofZ, H; reflexivity).
  apply inject_Z_injective. exact Hq.
Qed.

Lemma MathFloor_ofZ z : MathFloor (ofZ z) = z.
Proof. unfold MathFloor. rewrite this_ofZ. apply Qfloor_Z. Qed.

Lemma MathFloor_le x : (ofZ (MathFloor x) <= x)%Qc.
Proof. unfold Qcle, MathFloor. rewrite this_ofZ. apply Qfloor_le. Qed.

Lemma MathFloor_lt x : (x < ofZ (MathFloor x + 1))%Qc.
Proof. unfold Qclt, MathFloor. rewrite this_ofZ. apply Qlt_floor. Qed.

Lemma MathFloor_nonneg x : (0 <= x)%Qc -> 0 <= MathFloor x.
Proof.
  intros H. unfold MathFloor. 
  change 0 with (Qfloor (inject_Z 0)) at 1. apply Qfloor_resp_le. exact H.
Qed.

Lemma MathRound_ofZ z : MathRound (ofZ z) = z.
Proof.
  unfold MathRound, MathFloor.
  assert (this (ofZ z + Q2Qc (1 # 2))%Qc == inject_Z z + (1 # 2))%Q as ->.
  { unfold Qcplus. simpl. rewrite !Qred_correct. reflexivity. }
  apply Z.le_antisymm.
  - assert (Qfloor (inject_Z z + (1 # 2)) < z + 1); [|lia].
    rewrite Zlt_Qlt. eapply Qle_lt_trans; [apply Qfloor_le|].
    rewrite inject_Z_plus. change (inject_Z 1) with 1%Q. lra.
  - rewrite <- (Qfloor_Z z) at 1. apply Qfloor_resp_le. lra.
Qed.

Lemma isPos_true x : isPos x = true <-> (0 < x)%Qc.
Proof.
  unfold isPos. pose proof (Qcgt_alt x 0) as Hg. simpl in Hg. unfold Qclt. rewrite Hg.
  destruct (x ?= 0)%Qc; split; intros H; congruence.
Qed.

Lemma isPos_false x : isPos x = false <-> (x <= 0)%Qc.
Proof.
  unfold isPos. rewrite Qcle_alt.
  destruct (x ?= 0)%Qc; split; intros H; congruence.
Qed.

Lemma isZero_true x : isZero x = true <-> x = 0%Qc.
Proof.
  unfold isZero. rewrite Qceq_alt.
  destruct (x ?= 0)%Qc; split; intros H; congruence.
Qed.

Lemma leb_true x y : leb x y = true <-> (x <= y)%Qc.
Proof.
  unfold leb. rewrite Qcle_alt.
  destruct (x ?= y)%Qc; split; intros H; congruence.
Qed.

Lemma ltb_true x y : ltb x y = true <-> (x < y)%Qc.
Proof.
  unfold ltb. rewrite Qclt_alt.
  destruct (x ?= y)%Qc; split; intros H; congruence.
Qed.

Lemma isPos_ofZ z : isPos (ofZ z) = (0 <? z).
Proof.
  apply eq_true_iff_eq. rewrite isPos_true, Z.ltb_lt, <- ofZ_0, <- ofZ_lt. reflexivity.
Qed.

Lemma isZero_ofZ z : isZero (ofZ z) = (z =? 0).
Proof.
  apply eq_true_iff_eq. rewrite isZero_true, Z.eqb_eq, <- ofZ_0.
  split; [apply ofZ_inj | congruence].
Qed.

Lemma fold_add_shift l a : fold_left Z.add l a = a + fold_left Z.add l 0.
Proof.
  revert a. induction l as [|y l IH]; intros a; simpl; [lia|].
  rewrite (IH (a + y)), (IH (0 + y)). lia.
Qed.

Lemma sumZ_cons x l : sumZ (x :: l) = x + sumZ l.
Proof. unfold sumZ. simpl. apply fold_add_shift. Qed.

Lemma sumZ_app l1 l2 : sumZ (l1 ++ l2) = sumZ l1 + sumZ l2.
Proof.
  induction l1 as [|x l1 IH]; simpl; [reflexivity|].
  rewrite !sumZ_cons, IH. lia.
Qed.

Lemma fold_plus_shift l a :
  fold_left Qcplus l a = (a + fold_left Qcplus l 0)%Qc.
Proof.
  revert a. induction l as [|y l IH]; intros a; simpl; [ring|].
  rewrite (IH (a + y)%Qc), (IH (0 + y)%Qc). ring.
Qed.

Lemma sumQ_cons x l : sumQ (x :: l) = (x + sumQ l)%Qc.
Proof. unfold sumQ. simpl. rewrite fold_plus_shift. ring. Qed.

Lemma leb_false x y : leb x y = false <-> (y < x)%Qc.
Proof.
  rewrite <- not_true_iff_false, leb_true. split.
  - apply Qcnot_le_lt.
  - apply Qclt_not_le.
Qed.

Lemma MathMax_l a b : (b <= a)%Qc -> MathMax a b = a.
Proof.
  intros H. unfold MathMax. destruct (leb a b) eqn:Hl; [|reflexivity].
  apply leb_true in Hl. now apply Qcle_antisym.
Qed.

Lemma MathMin_l a b : (a <= b)%Qc -> MathMin a b = a.
Proof. intros H. unfold MathMin. now apply leb_true in H as ->. Qed.

Lemma MathMax_lower a b : (b <= MathMax a b)%Qc.
Proof.
  unfold MathMax. destruct (leb a b) eqn:Hl; [apply Qcle_refl|].
  apply leb_false in Hl. now apply Qclt_le_weak.
Qed.

Lemma MathMin_upper a b : (MathMin a b <= b)%Qc.
Proof.
  unfold MathMin. destruct (leb a b) eqn:Hl; [now apply leb_true|apply Qcle_refl].
Qed.

Lemma MathMin_lower a b c : (c <= a)%Qc -> (c <= b)%Qc -> (c <= MathMin a b)%Qc.
Proof. intros. unfold MathMin. now destruct (leb a b). Qed.

Lemma clamp_unit x : (0 <= x)%Qc -> (x <= 1)%Qc -> clamp x 0%Qc 1%Qc = x.
Proof.
  intros H0 H1. unfold clamp. rewrite (MathMax_l _ _ H0). now apply MathMin_l.
Qed.

Lemma clamp_range x : (0 <= clamp x 0%Qc 1%Qc)%Qc /\ (clamp x 0%Qc 1%Qc <= 1)%Qc.
Proof.
  unfold clamp. split; [|apply MathMin_upper].
  apply MathMin_lower; [apply MathMax_lower|done].
Qed.

Lemma clampValue_clamp x a b : clampValue x a b = clamp x a b.
Proof. reflexivity. Qed.

(** * Binary64: powers of two and exponents *)

Lemma this_pow2 e : (this (pow2 e) == 2 ^ e)%Q.
Proof. unfold pow2. cbn [this Q2Qc]. apply Qred_correct. Qed.

Ltac toQ :=
  try apply Qc_is_canon;
  unfold Qcle, Qclt, Qcdiv, Qcminus in *;
  cbn [this Qcplus Qcmult Qcopp Qcinv Q2Qc] in *;
  rewrite ?Qred_correct, ?this_ofZ, ?this_pow2 in *.

Lemma pow2_pos e : (0 < pow2 e)%Qc.
Proof. toQ. apply Qpower_0_lt. reflexivity. Qed.

Lemma pow2_add a b : pow2 (a + b) = (pow2 a * pow2 b)%Qc.
Proof. toQ. apply Qpower_plus. discriminate. Qed.

Lemma pow2_le a b : a <= b -> (pow2 a <= pow2 b)%Qc.
Proof. intros H. toQ. apply Qpower_le_compat_l; [exact H|]. discriminate. Qed.

Lemma pow2_lt a b : a < b -> (pow2 a < pow2 b)%Qc.
Proof. intros H. toQ. apply Qpower_lt_compat_l; [exact H|]. reflexivity. Qed.

Lemma pow2_ofZ e : 0 <= e -> pow2 e = ofZ (2 ^ e).
Proof. intros H. toQ. rewrite (Zpower_Qpower 2 e H). reflexivity. Qed.

Lemma pow2_0 : pow2 0 = 1%Qc.
Proof. apply Qc_is_canon. reflexivity. Qed.

Lemma pow2_nonzero e : pow2 e <> 0%Qc.
Proof.
  intros H. pose proof (pow2_pos e) as Hp. rewrite H in Hp.
  exact (Qcle_not_lt _ _ (Qcle_refl _) Hp).
Qed.

Lemma Qpower2_Z e : 0 <= e -> (2 ^ e == inject_Z (2 ^ e))%Q.
Proof. intros H. rewrite (Zpower_Qpower 2 e H). reflexivity. Qed.

Lemma log2_Q (n : Z) :
  0 < n -> (2 ^ Z.log2 n <= inject_Z n)%Q /\ (inject_Z n < 2 ^ Z.log2 n * 2)%Q.
Proof.
  intros Hn. destruct (Z.log2_spec n Hn) as [H1 H2].
  pose proof (Z.log2_nonneg n) as H0.
  split.
  - rewrite (Qpower2_Z _ H0). rewrite Zle_Qle in H1. exact H1.
  - assert (2 ^ Z.log2 n * 2 == 2 ^ (Z.log2 n + 1))%Q as ->.
    { rewrite Qpower_plus by discriminate. reflexivity. }
    rewrite Qpower2_Z by lia.
    rewrite Zlt_Qlt in H2. unfold Z.succ in H2. exact H2.
Qed.

Lemma ilog2_spec x :
  (0 < x)%Qc -> (pow2 (ilog2 x) <= x)%Qc /\ (x < pow2 (ilog2 x + 1))%Qc.
Proof.
  intros Hx. unfold ilog2.
  set (n := Qnum (this x)). set (d := Qden (this x)).
  set (k := Z.log2 n - Z.log2 (Z.pos d)).
  assert (0 < n) as Hn.
  { unfold Qclt in Hx. unfold Qlt in Hx. simpl in Hx. unfold n. lia. }
  destruct (log2_Q n Hn) as [A1 A2].
  destruct (log2_Q (Z.pos d) eq_refl) as [B1 B2].
  assert (this x == inject_Z n / inject_Z (Z.pos d))%Q as Hxq.
  { unfold n, d. destruct (this x) as [a b]. simpl. apply Qmake_Qdiv. }
  assert (0 < inject_Z (Z.pos d))%Q as HD by reflexivity.
  assert (this x * inject_Z (Z.pos d) == inject_Z n)%Q as Hmul.
  { rewrite Hxq. field. intros H. rewrite H in HD. now apply Qlt_irrefl in HD. }
  assert (0 < 2 ^ Z.log2 n)%Q as PA by (apply Qpower_0_lt; reflexivity).
  assert (0 < 2 ^ Z.log2 (Z.pos d))%Q as PB by (apply Qpower_0_lt; reflexivity).
  assert (2 ^ k * 2 ^ Z.log2 (Z.pos d) == 2 ^ Z.log2 n)%Q as Hk.
  { unfold k. rewrite <- Qpower_plus by discriminate. f_equiv. lia. }
  assert (0 < 2 ^ k)%Q as PK by (apply Qpower_0_lt; reflexivity).
  assert (this x < 2 ^ k * 2)%Q as Hup.
  { apply Qnot_le_lt. intros Hc. nra. }
  assert (2 ^ k < this x * 2)%Q as Hlo.
  { apply Qnot_le_lt. intros Hc. nra. }
  destruct (leb (pow2 k) x) eqn:Hl.
  - apply leb_true in Hl. split; [exact Hl|].
    unfold Qclt. rewrite this_pow2, Qpower_plus by discriminate. exact Hup.
  - apply leb_false in Hl. split.
    + unfold Qcle. rewrite this_pow2.
      assert (2 ^ (k - 1) * 2 == 2 ^ k)%Q as Hk1.
      { assert (2 ^ (k - 1) * 2 == 2 ^ (k - 1 + 1))%Q as ->
          by (rewrite Qpower_plus by discriminate; reflexivity).
        f_equiv. lia. }
      nra.
    + replace (k - 1 + 1) with k by lia. exact Hl.
Qed.

Lemma ilog2_unique x j :
  (pow2 j <= x)%Qc -> (x < pow2 (j + 1))%Qc -> ilog2 x = j.
Proof.
  intros H1 H2.
  assert (0 < x)%Qc as Hx by (eapply Qclt_le_trans; [apply pow2_pos|exact H1]).
  destruct (ilog2_spec x Hx) as [I1 I2].
  destruct (Z.lt_trichotomy (ilog2 x) j) as [Hlt|[Heq|Hgt]]; [|exact Heq|].
  - exfalso. assert (pow2 (ilog2 x + 1) <= pow2 j)%Qc as Hp by (apply pow2_le; lia).
    apply (Qcle_not_lt _ _ (Qcle_refl x)). eapply Qclt_le_trans; [exact I2|].
    eapply Qcle_trans; [exact Hp|exact H1].
  - exfalso. assert (pow2 (j + 1) <= pow2 (ilog2 x))%Qc as Hp by (apply pow2_le; lia).
    apply (Qcle_not_lt _ _ (Qcle_refl x)). eapply Qclt_le_trans; [exact H2|].
    eapply Qcle_trans; [exact Hp|exact I1].
Qed.

(** * Binary64: rounding to the nearest integer *)

Lemma rne_cases q : rne q = MathFloor q \/ rne q = MathFloor q + 1.
Proof.
  unfold rne. destruct (q - ofZ (MathFloor q) ?= Q2Qc (1 # 2))%Qc; auto.
  destruct (Z.even (MathFloor q)); auto.
Qed.

Lemma rne_upper q : (q <= ofZ (rne q) + Q2Qc (1 # 2))%Qc.
Proof.
  unfold rne. pose proof (MathFloor_lt q) as Hlt. rewrite ofZ_add, ofZ_1 in Hlt.
  destruct (q - ofZ (MathFloor q) ?= Q2Qc (1 # 2))%Qc eqn:Hc.
  - apply Qceq_alt in Hc.
    assert (q <= ofZ (MathFloor q) + Q2Qc (1 # 2))%Qc as H.
    { rewrite <- Hc. ring_simplify. apply Qcle_refl. }
    destruct (Z.even (MathFloor q)); [exact H|].
    rewrite ofZ_add, ofZ_1. toQ. lra.
  - apply Qclt_alt in Hc. toQ. lra.
  - rewrite ofZ_add, ofZ_1. toQ. lra.
Qed.

Lemma rne_lower q : (ofZ (rne q) - Q2Qc (1 # 2) <= q)%Qc.
Proof.
  unfold rne. pose proof (MathFloor_le q) as Hle.
  destruct (q - ofZ (MathFloor q) ?= Q2Qc (1 # 2))%Qc eqn:Hc.
  - apply Qceq_alt in Hc.
    assert (ofZ (MathFloor q) + Q2Qc (1 # 2) <= q)%Qc as H.
    { rewrite <- Hc. ring_simplify. apply Qcle_refl. }
    destruct (Z.even (MathFloor q)); [toQ; lra|].
    rewrite ofZ_add, ofZ_1. toQ. lra.
  - toQ. lra.
  - apply Qcgt_alt in Hc. rewrite ofZ_add, ofZ_1. toQ. lra.
Qed.

Lemma rne_ofZ z : rne (ofZ z) = z.
Proof.
  unfold rne. rewrite MathFloor_ofZ.
  replace (ofZ z - ofZ z)%Qc with 0%Qc by ring. reflexivity.
Qed.

Lemma rne_ge_int q N : (ofZ N <= q)%Qc -> N <= rne q.
Proof.
  intros H. assert (N <= MathFloor q) as Hf.
  { rewrite <- (MathFloor_ofZ N). unfold MathFloor. apply Qfloor_resp_le. exact H. }
  destruct (rne_cases q) as [-> | ->]; lia.
Qed.

Lemma rne_le_int q N : (q <= ofZ N)%Qc -> rne q <= N.
Proof.
  intros H. destruct (Qcle_lt_or_eq _ _ H) as [Hlt| ->]; [|rewrite rne_ofZ; lia].
  assert (MathFloor q < N) as Hf.
  { pose proof (MathFloor_le q) as Hle.
    assert (ofZ (MathFloor q) < ofZ N)%Qc as Hq by (eapply Qcle_lt_trans; eauto).
    now apply ofZ_lt in Hq. }
  destruct (rne_cases q) as [-> | ->]; lia.
Qed.

Lemma Qc_eq_le (a b : Qc) : a = b -> (a <= b)%Qc /\ (b <= a)%Qc.
Proof. intros ->. split; apply Qcle_refl. Qed.

Ltac cmpQc H :=
  first [apply Qceq_alt in H; apply Qc_eq_le in H; destruct H
        |apply Qclt_alt in H
        |apply Qcgt_alt in H].

Lemma rne_mono q q' : (q <= q')%Qc -> rne q <= rne q'.
Proof.
  intros H.
  assert (MathFloor q <= MathFloor q') as Hf.
  { unfold MathFloor. apply Qfloor_resp_le. exact H. }
  destruct (Z.eq_dec (MathFloor q) (MathFloor q')) as [Heq|Hne].
  - unfold rne. rewrite <- Heq.
    destruct (q - ofZ (MathFloor q) ?= Q2Qc (1 # 2))%Qc eqn:Hc;
      destruct (q' - ofZ (MathFloor q) ?= Q2Qc (1 # 2))%Qc eqn:Hc';
      try (destruct (Z.even (MathFloor q))); try lia;
      exfalso; cmpQc Hc; cmpQc Hc'; toQ; lra.
  - destruct (rne_cases q) as [-> | ->]; destruct (rne_cases q') as [-> | ->]; lia.
Qed.

(** * Binary64: rounding to the nearest double *)

Lemma absQ_pos x : (0 < x)%Qc -> absQ x = x.
Proof. intros H. unfold absQ. now rewrite (proj2 (isPos_true x) H). Qed.

Lemma absQ_neg x : (x <= 0)%Qc -> absQ x = (- x)%Qc.
Proof. intros H. unfold absQ. now rewrite (proj2 (isPos_false x) H). Qed.

Lemma absQ_nonneg x : (0 <= absQ x)%Qc.
Proof.
  unfold absQ. destruct (isPos x) eqn:H.
  - apply isPos_true in H. now apply Qclt_le_weak.
  - apply isPos_false in H. toQ. lra.
Qed.

Lemma absQ_nonzero x : x <> 0%Qc -> (0 < absQ x)%Qc.
Proof.
  intros Hx. pose proof (absQ_nonneg x) as H.
  destruct (Qcle_lt_or_eq _ _ H) as [Hlt|Heq]; [exact Hlt|].
  exfalso. apply Hx. unfold absQ in Heq. destruct (isPos x); [congruence|].
  replace x with (- - x)%Qc by ring. rewrite <- Heq. reflexivity.
Qed.

Lemma exponent64_min x : -1074 <= exponent64 x.
Proof. unfold exponent64. lia. Qed.

Lemma round64_0 : round64 0 = 0%Qc.
Proof. reflexivity. Qed.

Lemma round64_unfold x :
  x <> 0%Qc ->
  round64 x = (ofZ (rne (x / pow2 (exponent64 x))) * pow2 (exponent64 x))%Qc.
Proof.
  intros Hx. unfold round64. destruct (isZero x) eqn:Hz; [|reflexivity].
  apply isZero_true in Hz. contradiction.
Qed.

Lemma Qpow2_inv e : (2 ^ e * / 2 ^ e == 1)%Q /\ (0 < 2 ^ e)%Q.
Proof.
  assert (0 < 2 ^ e)%Q as H by (apply Qpower_0_lt; reflexivity).
  split; [|exact H]. apply Qmult_inv_r. intros H0. rewrite H0 in H.
  now apply Qlt_irrefl in H.
Qed.

(** The rounding error is at most half the last bit. *)
Lemma round64_upper x :
  x <> 0%Qc -> (round64 x <= x + pow2 (exponent64 x) * Q2Qc (1 # 2))%Qc.
Proof.
  intros Hx. rewrite (round64_unfold x Hx).
  set (e := exponent64 x).
  pose proof (rne_lower (x / pow2 e)) as Hl.
  set (m := ofZ (rne (x / pow2 e))) in *.
  destruct (Qpow2_inv e) as [Hi Hp]. toQ.
  set (P := (2 ^ e)%Q) in *. set (IP := (/ P)%Q) in *.
  assert ((this m + - (1 # 2)) * P <= this x * IP * P)%Q as H
    by (apply Qmult_le_compat_r; [exact Hl|lra]).
  assert (this x * IP * P == this x)%Q as Hxx
    by (rewrite <- Qmult_assoc, (Qmult_comm IP P), Hi; ring).
  rewrite Hxx in H. lra.
Qed.

Lemma round64_lower x :
  x <> 0%Qc -> (x - pow2 (exponent64 x) * Q2Qc (1 # 2) <= round64 x)%Qc.
Proof.
  intros Hx. rewrite (round64_unfold x Hx).
  set (e := exponent64 x).
  pose proof (rne_upper (x / pow2 e)) as Hl.
  set (m := ofZ (rne (x / pow2 e))) in *.
  destruct (Qpow2_inv e) as [Hi Hp]. toQ.
  set (P := (2 ^ e)%Q) in *. set (IP := (/ P)%Q) in *.
  assert (this x * IP * P <= (this m + (1 # 2)) * P)%Q as H
    by (apply Qmult_le_compat_r; [exact Hl|lra]).
  assert (this x * IP * P == this x)%Q as Hxx
    by (rewrite <- Qmult_assoc, (Qmult_comm IP P), Hi; ring).
  rewrite Hxx in H. lra.
Qed.

Lemma pow2_half e : (pow2 e * Q2Qc (1 # 2))%Qc = pow2 (e - 1).
Proof.
  replace e with ((e - 1) + 1) at 1 by lia. rewrite pow2_add.
  replace (pow2 1) with (Q2Qc 2) by (apply Qc_is_canon; reflexivity).
  rewrite <- Qcmult_assoc.
  replace (Q2Qc 2 * Q2Qc (1 # 2))%Qc with 1%Qc by (apply Qc_is_canon; reflexivity).
  ring.
Qed.

Lemma ilog2_ge x j : (pow2 j <= x)%Qc -> j <= ilog2 x.
Proof.
  intros H.
  assert (0 < x)%Qc as Hx by (eapply Qclt_le_trans; [apply pow2_pos|exact H]).
  destruct (ilog2_spec x Hx) as [_ I2].
  destruct (Z_lt_le_dec (ilog2 x) j) as [Hlt|Hle]; [|exact Hle].
  exfalso. assert (pow2 (ilog2 x + 1) <= pow2 j)%Qc as Hp by (apply pow2_le; lia).
  apply (Qcle_not_lt _ _ (Qcle_refl x)). eapply Qclt_le_trans; [exact I2|].
  eapply Qcle_trans; [exact Hp|exact H].
Qed.

(** The last bit of a positive number is at most [2^-52] of it, or [2^-1074]. *)
Lemma exponent64_bound x :
  (0 < x)%Qc ->
  (pow2 (exponent64 x) <= x * pow2 (-52))%Qc \/ exponent64 x = -1074.
Proof.
  intros Hx. unfold exponent64. rewrite (absQ_pos x Hx).
  destruct (ilog2_spec x Hx) as [I1 _].
  destruct (Z.max_spec (ilog2 x - 52) (-1074)) as [[_ ->]|[_ ->]]; [now right|left].
  replace (ilog2 x - 52) with (ilog2 x + -52) by lia. rewrite pow2_add.
  apply Qcmult_le_compat_r; [exact I1|]. apply Qclt_le_weak, pow2_pos.
Qed.

Lemma exponent64_normal x :
  (pow2 (-1022) <= x)%Qc -> (pow2 (exponent64 x) <= x * pow2 (-52))%Qc.
Proof.
  intros H.
  assert (0 < x)%Qc as Hx by (eapply Qclt_le_trans; [apply pow2_pos|exact H]).
  pose proof (ilog2_ge x _ H) as Hj.
  destruct (ilog2_spec x Hx) as [I1 _].
  unfold exponent64. rewrite (absQ_pos x Hx).
  rewrite Z.max_l by lia.
  replace (ilog2 x - 52) with (ilog2 x + -52) by lia. rewrite pow2_add.
  apply Qcmult_le_compat_r; [exact I1|]. apply Qclt_le_weak, pow2_pos.
Qed.

Lemma pos_nonzero (x : Qc) : (0 < x)%Qc -> x <> 0%Qc.
Proof. intros H ->. exact (Qcle_not_lt _ _ (Qcle_refl _) H). Qed.

Lemma pow2_le_pos j x : (pow2 j <= x)%Qc -> (0 < x)%Qc.
Proof. intros H. eapply Qclt_le_trans; [apply pow2_pos|exact H]. Qed.

Lemma half_bit (x p : Qc) :
  (p <= x * pow2 (-52))%Qc -> (p * Q2Qc (1 # 2) <= x * pow2 (-53))%Qc.
Proof.
  intros He.
  replace (pow2 (-53)) with (pow2 (-52) * Q2Qc (1 # 2))%Qc by apply pow2_half.
  rewrite Qcmult_assoc. apply Qcmult_le_compat_r; [exact He|]. by vm_compute.
Qed.

Lemma rel_of_half (h r u x : Qc) :
  (h <= x * u)%Qc -> (r <= x + h)%Qc -> (x - h <= r)%Qc ->
  (x * (1 - u) <= r)%Qc /\ (r <= x * (1 + u))%Qc.
Proof. intros. split; toQ; lra. Qed.

Lemma near_of_half (h r u n x : Qc) :
  (h <= x * u + n)%Qc -> (r <= x + h)%Qc -> (x - h <= r)%Qc ->
  (x * (1 - u) - n <= r)%Qc /\ (r <= x * (1 + u) + n)%Qc.
Proof. intros. split; toQ; lra. Qed.

Lemma le_plus_pos (a b n : Qc) : (a <= b)%Qc -> (0 < n)%Qc -> (a <= b + n)%Qc.
Proof. intros. toQ. lra. Qed.

Lemma le_pos_plus (x u n : Qc) : (0 <= x)%Qc -> (0 < u)%Qc -> (n <= x * u + n)%Qc.
Proof. intros. toQ. nra. Qed.

(** In the normal range the relative error is at most [2^-53]. *)
Lemma round64_normal x :
  (pow2 (-1022) <= x)%Qc ->
  (x * (1 - pow2 (-53)) <= round64 x)%Qc /\ (round64 x <= x * (1 + pow2 (-53)))%Qc.
Proof.
  intros H. pose proof (pow2_le_pos _ x H) as Hx.
  apply (rel_of_half (pow2 (exponent64 x) * Q2Qc (1 # 2))).
  - apply half_bit. now apply exponent64_normal.
  - apply round64_upper. now apply pos_nonzero.
  - apply round64_lower. now apply pos_nonzero.
Qed.

(** Everywhere the error is at most [2^-53] of the number plus [2^-1075]. *)
Lemma round64_near x :
  (0 <= x)%Qc ->
  (x * (1 - pow2 (-53)) - pow2 (-1075) <= round64 x)%Qc
  /\ (round64 x <= x * (1 + pow2 (-53)) + pow2 (-1075))%Qc.
Proof.
  intros H0. destruct (Qcle_lt_or_eq _ _ H0) as [Hx|Hx].
  - apply (near_of_half (pow2 (exponent64 x) * Q2Qc (1 # 2))).
    + destruct (exponent64_bound x Hx) as [He|He].
      * apply le_plus_pos; [now apply half_bit|apply pow2_pos].
      * rewrite He, pow2_half. apply le_pos_plus; [exact H0|apply pow2_pos].
    + apply round64_upper. now apply pos_nonzero.
    + apply round64_lower. now apply pos_nonzero.
  - rewrite <- Hx. rewrite round64_0.
    apply (near_of_half 0%Qc).
    + pose proof (pow2_pos (-1075)) as Hp. pose proof (pow2_pos (-53)) as Hu.
      apply Qclt_le_weak in Hp. eapply Qcle_trans; [exact Hp|].
      apply le_pos_plus; [apply Qcle_refl|exact Hu].
    + toQ. lra.
    + toQ. lra.
Qed.

(** * Binary64: numbers that rounding keeps *)

Lemma Qc_mul_nonneg (a b : Qc) : (0 <= a)%Qc -> (0 <= b)%Qc -> (0 <= a * b)%Qc.
Proof. intros. toQ. nra. Qed.

Lemma Qc_mul_pos (a b : Qc) : (0 < a)%Qc -> (0 < b)%Qc -> (0 < a * b)%Qc.
Proof. intros. toQ. nra. Qed.

Lemma Qc_mul_nonpos (a b : Qc) : (a <= 0)%Qc -> (0 <= b)%Qc -> (a * b <= 0)%Qc.
Proof. intros. toQ. nra. Qed.

Lemma pow2_sub a b : (pow2 a / pow2 b)%Qc = pow2 (a - b).
Proof.
  replace a with ((a - b) + b) at 1 by lia. rewrite pow2_add.
  field. apply pow2_nonzero.
Qed.

Lemma div_pow2_le x y e : (x <= y)%Qc -> (x / pow2 e <= y / pow2 e)%Qc.
Proof.
  intros H. unfold Qcdiv. apply Qcmult_le_compat_r; [exact H|].
  apply Qclt_le_weak. apply Qcinv_pos. apply pow2_pos.
Qed.

Lemma div_pow2_lt x y e : (x < y)%Qc -> (x / pow2 e < y / pow2 e)%Qc.
Proof.
  intros H. unfold Qcdiv. apply Qcmult_lt_compat_r; [|exact H].
  apply Qcinv_pos. apply pow2_pos.
Qed.

Lemma div_pow2_nonneg x e : (0 <= x)%Qc -> (0 <= x / pow2 e)%Qc.
Proof.
  intros H. pose proof (div_pow2_le 0 x e H) as H'.
  replace (0 / pow2 e)%Qc with 0%Qc in H' by (field; apply pow2_nonzero). exact H'.
Qed.

Lemma div_pow2_nonpos x e : (x <= 0)%Qc -> (x / pow2 e <= 0)%Qc.
Proof.
  intros H. pose proof (div_pow2_le x 0 e H) as H'.
  replace (0 / pow2 e)%Qc with 0%Qc in H' by (field; apply pow2_nonzero). exact H'.
Qed.

Lemma round64_nonneg x : (0 <= x)%Qc -> (0 <= round64 x)%Qc.
Proof.
  intros H. destruct (Qcle_lt_or_eq _ _ H) as [Hx| <-]; [|apply Qcle_refl].
  rewrite (round64_unfold x (pos_nonzero x Hx)).
  apply Qc_mul_nonneg; [|apply Qclt_le_weak, pow2_pos].
  apply ofZ_nonneg. apply rne_ge_int. rewrite ofZ_0. now apply div_pow2_nonneg.
Qed.

Lemma round64_nonpos x : (x <= 0)%Qc -> (round64 x <= 0)%Qc.
Proof.
  intros H. destruct (Qc_eq_dec x 0%Qc) as [->|Hx]; [apply Qcle_refl|].
  rewrite (round64_unfold x Hx).
  apply Qc_mul_nonpos; [|apply Qclt_le_weak, pow2_pos].
  rewrite <- ofZ_0. apply ofZ_mono. apply rne_le_int. rewrite ofZ_0.
  now apply div_pow2_nonpos.
Qed.

Lemma ilog2_scaled m e : 0 < m -> ilog2 (ofZ m * pow2 e) = Z.log2 m + e.
Proof.
  intros Hm. destruct (Z.log2_spec m Hm) as [H1 H2].
  pose proof (Z.log2_nonneg m) as H0.
  apply ilog2_unique.
  - rewrite pow2_add, (pow2_ofZ _ H0).
    apply Qcmult_le_compat_r; [now apply ofZ_mono|apply Qclt_le_weak, pow2_pos].
  - replace (Z.log2 m + e + 1) with (Z.succ (Z.log2 m) + e) by lia.
    rewrite pow2_add, (pow2_ofZ (Z.succ (Z.log2 m))) by lia.
    apply Qcmult_lt_compat_r; [apply pow2_pos|apply (proj1 (ofZ_lt _ _)), H2].
Qed.

(** A number with a significand of 53 bits and an exponent of -1074 or
    more is a double: rounding keeps it. *)
Lemma round64_exact m e :
  0 <= m <= 2 ^ 53 -> -1074 <= e -> round64 (ofZ m * pow2 e) = (ofZ m * pow2 e)%Qc.
Proof.
  intros [Hm0 Hm] He. destruct (Z.eq_dec m 0) as [->|Hne].
  { rewrite ofZ_0. replace (0 * pow2 e)%Qc with 0%Qc by ring. reflexivity. }
  assert (0 < m) as Hpos by lia.
  assert (0 < ofZ m * pow2 e)%Qc as Hx
    by (apply Qc_mul_pos; [now apply ofZ_pos|apply pow2_pos]).
  rewrite (round64_unfold _ (pos_nonzero _ Hx)).
  unfold exponent64. rewrite (absQ_pos _ Hx), (ilog2_scaled m e Hpos).
  assert (Z.log2 m <= 53) as Hlog.
  { destruct (Z_le_gt_dec (Z.log2 m) 53) as [H|H]; [exact H|].
    exfalso. destruct (Z.log2_spec m Hpos) as [H1 _].
    assert (2 ^ 54 <= 2 ^ Z.log2 m) by (apply Z.pow_le_mono_r; lia). lia. }
  set (e' := Z.max (Z.log2 m + e - 52) (-1074)).
  destruct (Z_le_gt_dec e' e) as [Hle|Hgt].
  - assert (ofZ m * pow2 e / pow2 e' = ofZ (m * 2 ^ (e - e')))%Qc as ->.
    { rewrite ofZ_mul, <- (pow2_ofZ (e - e')) by lia. rewrite <- pow2_sub.
      field. apply pow2_nonzero. }
    rewrite rne_ofZ, ofZ_mul, <- (pow2_ofZ (e - e')) by lia.
    rewrite <- Qcmult_assoc, <- pow2_add. f_equal. f_equal. lia.
  - assert (Z.log2 m = 53) as H53 by (unfold e' in Hgt; lia).
    assert (m = 2 ^ 53) as ->.
    { destruct (Z.log2_spec m Hpos) as [H1 _]. rewrite H53 in H1. lia. }
    assert (e' = e + 1) as -> by (unfold e' in *; rewrite H53 in *; lia).
    assert (ofZ (2 ^ 53) * pow2 e / pow2 (e + 1) = ofZ (2 ^ 52))%Qc as ->.
    { rewrite <- !pow2_ofZ by lia. unfold Qcdiv. rewrite <- Qcmult_assoc.
      change (pow2 e * / pow2 (e + 1))%Qc with (pow2 e / pow2 (e + 1))%Qc.
      rewrite pow2_sub, <- pow2_add. f_equal. lia. }
    rewrite rne_ofZ, <- !pow2_ofZ by lia. rewrite <- !pow2_add. f_equal. lia.
Qed.

(** An integer of at most 53 bits is a double. *)
Lemma round64_ofZ z : 0 <= z <= 2 ^ 53 -> round64 (ofZ z) = ofZ z.
Proof.
  intros H. pose proof (round64_exact z 0 H) as He.
  rewrite pow2_0, Qcmult_1_r in He. apply He. lia.
Qed.

(** Rounding does not cross a power of two. *)
Lemma round64_le_pow2 x k :
  -1074 <= k -> (0 <= x)%Qc -> (x <= pow2 k)%Qc -> (round64 x <= pow2 k)%Qc.
Proof.
  intros Hk H0 Hle.
  destruct (Qcle_lt_or_eq _ _ H0) as [Hx| <-].
  2:{ rewrite round64_0. apply Qclt_le_weak, pow2_pos. }
  destruct (Qcle_lt_or_eq _ _ Hle) as [Hlt|Heq].
  2:{ rewrite Heq. pose proof (round64_exact 1 k) as He.
      rewrite ofZ_1, Qcmult_1_l in He. rewrite He; [apply Qcle_refl|lia|exact Hk]. }
  destruct (ilog2_spec x Hx) as [I1 _].
  assert (ilog2 x < k) as Hj.
  { destruct (Z_lt_le_dec (ilog2 x) k) as [H|H]; [exact H|]. exfalso.
    assert (pow2 k <= pow2 (ilog2 x))%Qc as Hp by (now apply pow2_le).
    apply (Qcle_not_lt _ _ (Qcle_refl x)). eapply Qclt_le_trans; [exact Hlt|].
    eapply Qcle_trans; [exact Hp|exact I1]. }
  rewrite (round64_unfold x (pos_nonzero x Hx)).
  unfold exponent64. rewrite (absQ_pos x Hx).
  set (e' := Z.max (ilog2 x - 52) (-1074)).
  assert (e' <= k) as He' by (unfold e'; lia).
  assert (pow2 k = pow2 (k - e') * pow2 e')%Qc as ->
    by (rewrite <- pow2_add; f_equal; lia).
  apply Qcmult_le_compat_r; [|apply Qclt_le_weak, pow2_pos].
  rewrite (pow2_ofZ (k - e')) by lia. apply ofZ_mono. apply rne_le_int.
  rewrite <- (pow2_ofZ (k - e')) by lia. rewrite <- pow2_sub.
  apply div_pow2_le. exact Hle.
Qed.

Lemma round64_le_1 x : (0 <= x)%Qc -> (x <= 1)%Qc -> (round64 x <= 1)%Qc.
Proof.
  intros H0 H1. rewrite <- pow2_0. apply round64_le_pow2; [lia|exact H0|].
  now rewrite pow2_0.
Qed.

(** Every double is a multiple of [2^-1074]. *)
Lemma round64_grid x : exists k, round64 x = (ofZ k * pow2 (-1074))%Qc.
Proof.
  destruct (Qc_eq_dec x 0%Qc) as [->|Hx].
  { exists 0. rewrite round64_0, ofZ_0. ring. }
  rewrite (round64_unfold x Hx). pose proof (exponent64_min x) as He.
  set (e := exponent64 x) in *. set (m := rne (x / pow2 e)).
  exists (m * 2 ^ (e + 1074)).
  rewrite ofZ_mul, <- (pow2_ofZ (e + 1074)) by lia.
  rewrite <- Qcmult_assoc, <- pow2_add. f_equal. f_equal. lia.
Qed.

(** A positive multiple of [2^-1074] is not rounded to zero. *)
Lemma round64_grid_pos k : 0 < k -> (0 < round64 (ofZ k * pow2 (-1074)))%Qc.
Proof.
  intros Hk. set (x := (ofZ k * pow2 (-1074))%Qc).
  assert (pow2 (-1074) <= x)%Qc as Hg.
  { unfold x. rewrite <- (Qcmult_1_l (pow2 (-1074))) at 1.
    apply Qcmult_le_compat_r; [|apply Qclt_le_weak, pow2_pos].
    rewrite <- ofZ_1. apply ofZ_mono. lia. }
  pose proof (pow2_le_pos _ x Hg) as Hx.
  destruct (ilog2_spec x Hx) as [I1 _].
  rewrite (round64_unfold x (pos_nonzero x Hx)).
  unfold exponent64. rewrite (absQ_pos x Hx).
  set (e' := Z.max (ilog2 x - 52) (-1074)).
  assert (pow2 e' <= x)%Qc as He'.
  { unfold e'. destruct (Z.max_spec (ilog2 x - 52) (-1074)) as [[_ ->]|[_ ->]];
      [exact Hg|].
    eapply Qcle_trans; [|exact I1]. apply pow2_le. lia. }
  apply Qc_mul_pos; [|apply pow2_pos]. apply ofZ_pos.
  assert (1 <= rne (x / pow2 e')) as H1; [|lia].
  apply rne_ge_int. rewrite ofZ_1.
  replace 1%Qc with (pow2 e' / pow2 e')%Qc by (field; apply pow2_nonzero).
  now apply div_pow2_le.
Qed.

(** The difference of two doubles is positive exactly when its rounding is:
    the comparator [b - a] of a sort sees the order of [a] and [b]. *)
Lemma fsub_sign a b : isPos (fsub (round64 b) (round64 a)) = isPos (round64 b - round64 a).
Proof.
  destruct (round64_grid a) as [ka Ha]. destruct (round64_grid b) as [kb Hb].
  rewrite Ha, Hb. unfold fsub.
  replace (ofZ kb * pow2 (-1074) - ofZ ka * pow2 (-1074))%Qc
    with (ofZ (kb - ka) * pow2 (-1074))%Qc by (rewrite ofZ_sub; ring).
  destruct (Z_lt_le_dec 0 (kb - ka)) as [Hpos|Hneg].
  - rewrite (proj2 (isPos_true _) (round64_grid_pos _ Hpos)).
    symmetry. apply isPos_true. apply Qc_mul_pos; [now apply ofZ_pos|apply pow2_pos].
  - assert (ofZ (kb - ka) * pow2 (-1074) <= 0)%Qc as H0.
    { apply Qc_mul_nonpos; [|apply Qclt_le_weak, pow2_pos].
      rewrite <- ofZ_0. now apply ofZ_mono. }
    rewrite (proj2 (isPos_false _) (round64_nonpos _ H0)).
    symmetry. now apply isPos_false.
Qed.

(** Rounding a number of the unit interval moves it by [2^-53] at most. *)
Lemma exponent64_unit x : (0 < x)%Qc -> (x <= 1)%Qc -> exponent64 x <= -52.
Proof.
  intros Hx H1. unfold exponent64. rewrite (absQ_pos x Hx).
  destruct (ilog2_spec x Hx) as [I1 _].
  assert (ilog2 x <= 0); [|lia].
  destruct (Z_le_gt_dec (ilog2 x) 0) as [Hle|Hgt]; [exact Hle|exfalso].
  apply (Qcle_not_lt _ _ (Qcle_trans _ _ _ I1 H1)).
  rewrite <- pow2_0. apply pow2_lt. lia.
Qed.

Lemma round64_unit_error x :
  (0 <= x)%Qc -> (x <= 1)%Qc ->
  (x - pow2 (-53) <= round64 x)%Qc /\ (round64 x <= x + pow2 (-53))%Qc.
Proof.
  intros H0 H1. pose proof (pow2_pos (-53)) as Hu.
  destruct (Qcle_lt_or_eq _ _ H0) as [Hx| <-].
  - pose proof (round64_lower x (pos_nonzero x Hx)) as Hl.
    pose proof (round64_upper x (pos_nonzero x Hx)) as Hh.
    rewrite pow2_half in Hl, Hh.
    assert (pow2 (exponent64 x - 1) <= pow2 (-53))%Qc as He.
    { apply pow2_le. pose proof (exponent64_unit x Hx H1). lia. }
    revert Hl Hh He. generalize (pow2 (exponent64 x - 1)) (round64 x) (pow2 (-53)).
    intros h r u Hl Hh He. split; toQ; lra.
  - rewrite round64_0. revert Hu. generalize (pow2 (-53)). intros u Hu.
    split; toQ; lra.
Qed.

Section Sorting.
Context {A : Type} (cmp : A -> A -> Qc).

Lemma insertBy_perm x l : insertBy cmp x l ≡ₚ x :: l.
  Proof.
    induction l as [|y l IH]; simpl; [reflexivity|].
    destruct (isPos (cmp x y)); [|reflexivity].
    rewrite IH. apply perm_swap.
  Qed.

Lemma sortBy_perm l : sortBy cmp l ≡ₚ l.
  Proof.
    induction l as [|x l IH]; simpl; [reflexivity|].
    rewrite insertBy_perm. now constructor.
  Qed.

Lemma sortBy_length l : length (sortBy cmp l) = length l.
  Proof. apply Permutation_length, sortBy_perm. Qed.

Lemma sortBy_nil_inv l : sortBy cmp l = [] -> l = [].
  Proof.
    intros H. apply Permutation_nil. rewrite <- H. apply sortBy_perm.
  Qed.

Lemma insertBy_StronglySorted (R : relation A) `{!Transitive R} x l :
    Forall (fun y => if isPos (cmp x y) then R y x else R x y) l ->
    StronglySorted R l ->
    StronglySorted R (insertBy cmp x l).
  Proof.
    induction l as [|y l IH]; intros Hx Hl; simpl.
    - repeat constructor.
    - apply Forall_cons in Hx as [Hxy Hx].
      apply StronglySorted_cons in Hl as [Hy Hl].
      destruct (isPos (cmp x y)).
      + apply StronglySorted_cons. split; [|now apply IH].
        rewrite insertBy_perm. now constructor.
      + apply StronglySorted_cons. split; [|now apply StronglySorted_cons].
        constructor; [exact Hxy|].
        eapply Forall_impl; [exact Hy|]. intros z Hz. now transitivity y.
  Qed.

Lemma sortBy_StronglySorted (R : relation A) `{!Transitive R} l :
    StronglySorted (fun x y => if isPos (cmp x y) then R y x else R x y) l ->
    StronglySorted R (sortBy cmp l).
  Proof.
    induction l as [|x l IH]; intros Hl; simpl; [constructor|].
    apply StronglySorted_cons in Hl as [Hx Hl].
    apply insertBy_StronglySorted; [done| |now apply IH].
    now rewrite sortBy_perm.
  Qed.

Lemma insertBy_Sorted x l :
    (forall a b, isPos (cmp a b) = true -> inOrder cmp b a) ->
    Sorted (inOrder cmp) l -> Sorted (inOrder cmp) (insertBy cmp x l).
  Proof.
    intros Htot. induction l as [|y l IH]; intros Hl; simpl.
    - repeat constructor.
    - destruct (isPos (cmp x y)) eqn:Hxy.
      + apply Sorted_inv in Hl as [Hl Hy]. constructor; [now apply IH|].
        destruct l as [|z l]; simpl.
        * constructor. now apply Htot.
        * destruct (isPos (cmp x z)); constructor; [|now apply Htot].
          now apply HdRel_inv in Hy.
      + constructor; [exact Hl|]. constructor. exact Hxy.
  Qed.

Lemma sortBy_Sorted l :
    (forall a b, isPos (cmp a b) = true -> inOrder cmp b a) ->
    Sorted (inOrder cmp) (sortBy cmp l).
  Proof.
    intros Htot. induction l as [|x l IH]; simpl; [constructor|].
    now apply insertBy_Sorted.
  Qed.

  (** Sorting leaves a list alone when it is in order already. *)
Lemma sortBy_id l : Sorted (inOrder cmp) l -> sortBy cmp l = l.
  Proof.
    induction l as [|x l IH]; intros Hl; simpl; [reflexivity|].
    apply Sorted_inv in Hl as [Hl Hx]. rewrite (IH Hl).
    destruct l as [|y l]; simpl; [reflexivity|].
    apply HdRel_inv in Hx. unfold inOrder in Hx. now rewrite Hx.
  Qed.

Lemma Sorted_take (R : relation A) n l : Sorted R l -> Sorted R (take n l).
  Proof.
    revert n. induction l as [|x l IH]; intros [|n] Hl; simpl; try constructor.
    - apply IH. now apply Sorted_inv in Hl.
    - apply Sorted_inv in Hl as [Hl Hx].
      destruct l as [|y l]; destruct n; simpl; constructor.
      now apply HdRel_inv in Hx.
  Qed.
End Sorting.

Lemma nonnegOf_id ws : Forall (fun w => (0 <= w)%Qc) ws -> nonnegOf ws = ws.
Proof.
  unfold nonnegOf. induction 1 as [|w ws Hw _ IH]; simpl; [reflexivity|]. 
  rewrite IH. f_equal.
  destruct (isPos w) eqn:Hp; [reflexivity|].
  apply isPos_false in Hp. now apply Qcle_antisym.
Qed.

Lemma sumQ_nonneg ws : Forall (fun w => (0 <= w)%Qc) ws -> (0 <= sumQ ws)%Qc.
Proof.
  induction 1 as [|w ws Hw _ IH]; [done|].
  rewrite sumQ_cons. now apply Qcplus_nonneg_nonneg.
Qed.

Lemma sumQ_scale (c : Qc) ws :
  sumQ (map (fun w => (w * c)%Qc) ws) = (sumQ ws * c)%Qc.
Proof.
  induction ws as [|w ws IH]; simpl; [unfold sumQ; simpl; ring|].
  rewrite !sumQ_cons, IH. ring.
Qed.

Lemma sumZ_floor_le l : (ofZ (sumZ (map MathFloor l)) <= sumQ l)%Qc.
Proof.
  induction l as [|x l IH]; simpl; [change (ofZ 0 <= 0)%Qc; rewrite ofZ_0; done|].
  rewrite sumZ_cons, sumQ_cons, ofZ_add.
  apply Qcplus_le_compat; [apply MathFloor_le | exact IH].
Qed.

Lemma sumZ_floor_lt l :
  l <> [] -> (sumQ l < ofZ (sumZ (map MathFloor l) + Z.of_nat (length l)))%Qc.
Proof.
  induction l as [|x l IH]; [done|]. intros _.
  simpl length. rewrite Nat2Z.inj_succ. simpl map. rewrite sumZ_cons, sumQ_cons.
  replace (MathFloor x + sumZ (map MathFloor l) + Z.succ (Z.of_nat (length l)))
    with ((MathFloor x + 1) + (sumZ (map MathFloor l) + Z.of_nat (length l))) by lia.
  rewrite ofZ_add.
  destruct l as [|y l].
  - change (x + 0 < ofZ (MathFloor x + 1) + ofZ 0)%Qc.
    rewrite ofZ_0, !Qcplus_0_r. apply MathFloor_lt.
  - eapply Qclt_trans.
    + apply Qcplus_lt_mono_r, MathFloor_lt.
    + apply Qcplus_lt_mono_l, IH. done.
Qed.

Lemma sumZ_nonneg l : Forall (fun v => 0 <= v) l -> 0 <= sumZ l.
Proof.
  induction 1; [done|]. rewrite sumZ_cons. lia.
Qed.

(** ** The loop of [distributeToTotal] *)

Lemma sumZ_insert (out : list Z) i v :
  out !! i = Some v -> sumZ (<[i := v + 1]> out) = sumZ out + 1.
Proof.
  revert i. induction out as [|x out IH]; intros [|i] Hi; simpl in *; try done.
  - injection Hi as ->. rewrite !sumZ_cons. lia.
  - rewrite !sumZ_cons, (IH _ Hi). lia.
Qed.

Lemma bump_ok order k out :
  order <> [] -> Forall (fun o => (Frac.i o < length out)%nat) order ->
  exists o v,
    order !! (k mod length order)%nat = Some o /\ out !! Frac.i o = Some v /\
    bump order k out = Some (<[Frac.i o := v + 1]> out).
Proof.
  intros Hne Hall. unfold bump.
  destruct (order !! (k mod length order)%nat) as [o|] eqn:Ho.
  - pose proof (proj1 (Forall_forall _ _) Hall o (list_elem_of_lookup_2 _ _ _ Ho)) as Hlt.
    apply lookup_lt_is_Some in Hlt as [v Hv]. rewrite Hv. eauto.
  - apply lookup_ge_None in Ho. 
    assert (length order <> 0%nat) by (destruct order; simpl; [done|lia]).
    pose proof (Nat.mod_upper_bound k (length order)). lia.
Qed.

Lemma bumpAll_app order ks1 ks2 out :
  bumpAll order (ks1 ++ ks2) out = bumpAll order ks1 out ≫= bumpAll order ks2.
Proof.
  revert out. induction ks1 as [|k ks1 IH]; intros out; simpl; [reflexivity|].
  destruct (bump order k out); simpl; [apply IH | reflexivity].
Qed.

Lemma bumpAll_total order ks out :
  order <> [] -> Forall (fun o => (Frac.i o < length out)%nat) order ->
  exists out',
    bumpAll order ks out = Some out' /\ length out' = length out /\
    sumZ out' = sumZ out + Z.of_nat (length ks) /\
    Forall2 Z.le out out'.
Proof.
  intros Hne. revert out. induction ks as [|k ks IH]; intros out Hall; simpl.
  - exists out. repeat split; [lia|]. apply Forall2_same_length_lookup_2; [done|].
    intros i x y Hx Hy. simplify_eq. lia.
  - destruct (bump_ok order k out Hne Hall) as (o & v & Ho & Hv & ->).
    destruct (IH (<[Frac.i o := v + 1]> out)) as (out' & Hb & Hlen & Hsum & Hle).
    { now rewrite length_insert. }
    exists out'. rewrite length_insert in Hlen. rewrite (sumZ_insert _ _ _ Hv) in Hsum.
    repeat split; [done|done|lia|].
    apply Forall2_same_length_lookup_2; [done|].
    intros i x y Hx Hy.
    destruct (decide (i = Frac.i o)) as [->|Hne'].
    + assert (<[Frac.i o:=v + 1]> out !! (Frac.i o) = Some (v + 1)) as Hi.
      { apply list_lookup_insert_eq. now apply lookup_lt_Some in Hv. }
      pose proof (Forall2_lookup_lr _ _ _ _ _ _ Hle Hi Hy). simplify_eq. lia.
    + assert (<[Frac.i o:=v + 1]> out !! i = Some x) as Hi.
      { now rewrite list_lookup_insert_ne. }
      exact (Forall2_lookup_lr _ _ _ _ _ _ Hle Hi Hy).
Qed.

(** With fewer turns than entries, the first [r] entries of [order] get one
    unit each. *)
Lemma bumpAll_first order (r : nat) out :
  (r <= length order)%nat ->
  NoDup (map Frac.i order) ->
  Forall (fun o => (Frac.i o < length out)%nat) order ->
  exists out',
    bumpAll order (seq 0 r) out = Some out' /\
    forall j v, out !! j = Some v ->
      out' !! j =
        Some (v + if decide (j ∈ map Frac.i (take r order)) then 1 else 0).
Proof.
  intros Hr Hnd Hall. induction r as [|r IH].
  - exists out. split; [reflexivity|]. intros j v Hj. rewrite take_0.
    change (map Frac.i []) with (@nil nat).
    rewrite decide_False by set_solver. rewrite Hj. f_equal. lia.
  - destruct IH as (out' & Hb & Hout'); [lia|].
    rewrite seq_S, bumpAll_app, Hb. simpl.
    assert (is_Some (order !! r)) as [o Ho] by (apply lookup_lt_is_Some; lia).
    unfold bump. rewrite Nat.mod_small by lia. rewrite Ho.
    pose proof (proj1 (Forall_forall _ _) Hall o (list_elem_of_lookup_2 _ _ _ Ho)) as Hlt.
    apply lookup_lt_is_Some in Hlt as [v Hv].
    assert (Frac.i o ∉ map Frac.i (take r order)) as Hnotin.
    { intros Hin. apply list_elem_of_lookup in Hin as [p Hp].
      assert (p < r)%nat as Hpr.
      { apply lookup_lt_Some in Hp. rewrite length_map, length_take in Hp. lia. }
      rewrite list_lookup_fmap, lookup_take_lt in Hp by done.
      assert (map Frac.i order !! p = Some (Frac.i o)) as Hp'.
      { now rewrite list_lookup_fmap. }
      assert (map Frac.i order !! r = Some (Frac.i o)) as Hr'.
      { now rewrite list_lookup_fmap, Ho. }
      pose proof (NoDup_lookup _ _ _ _ Hnd Hp' Hr'). lia. }
    rewrite (Hout' _ _ Hv), decide_False by done.
    eexists. split; [reflexivity|]. intros j w Hj.
    rewrite (take_S_r _ _ _ Ho), map_app. simpl.
    destruct (decide (j = Frac.i o)) as [->|Hne].
    + simplify_eq. rewrite list_lookup_insert_eq.
      2:{ eapply lookup_lt_Some. apply (Hout' _ _ Hv). }
      rewrite decide_True by (apply elem_of_app; right; apply list_elem_of_singleton; done).
      f_equal. lia.
    + rewrite list_lookup_insert_ne by done. rewrite (Hout' _ _ Hj).
      f_equal. f_equal. destruct (decide (j ∈ map Frac.i (take r order))) as [Hin|Hin].
      * rewrite decide_True by (apply elem_of_app; left; done). done.
      * rewrite decide_False; [done|]. intros [?|Hs%list_elem_of_singleton]%elem_of_app; done.
Qed.

Lemma isPos_sub a b : isPos (b - a)%Qc = true <-> (a < b)%Qc.
Proof. rewrite isPos_true. symmetry. apply Qclt_minus_iff. Qed.

Lemma isPos_sub_false a b : isPos (b - a)%Qc = false <-> (b <= a)%Qc.
Proof. rewrite isPos_false. rewrite (Qcle_minus_iff b a).
  split; intros H.
  - apply Qcopp_le_compat in H. 
    replace (- (b - a))%Qc with (a + - b)%Qc in H by ring. exact H.
  - apply Qcopp_le_compat in H.
    replace (- (a + - b))%Qc with (b - a)%Qc in H by ring. exact H.
Qed.

#[local] Instance precedes_trans T ws : Transitive (precedes T ws).
Proof.
  intros i j k [Hij|[Hij Hlt]] [Hjk|[Hjk Hlt']]; unfold precedes.
  - left. now apply Qclt_trans with (remainder T ws j).
  - left. now rewrite <- Hjk.
  - left. now rewrite Hij.
  - right. split; [congruence|lia].
Qed.

Lemma StronglySorted_lookup_2 {A} (R : relation A) l :
  (forall p q x y, (p < q)%nat -> l !! p = Some x -> l !! q = Some y -> R x y) ->
  StronglySorted R l.
Proof.
  induction l as [|a l IH]; intros H; constructor.
  - apply IH. intros p q x y Hpq Hp Hq. apply (H (S p) (S q)); [lia|done|done].
  - apply Forall_forall. intros y Hy. apply list_elem_of_lookup in Hy as [q Hq].
    apply (H 0%nat (S q)); [lia|done|done].
Qed.

Lemma rawOf_positive T ws :
  Forall (fun w => (0 <= w)%Qc) ws -> (0 < sumQ ws)%Qc ->
  rawOf T ws = map (fun w => (w / sumQ ws * ofZ T)%Qc) ws.
Proof.
  intros Hws Hs. unfold rawOf. rewrite (nonnegOf_id _ Hws).
  unfold orElse. destruct (isZero (sumQ ws)) eqn:Hz; [|reflexivity].
  apply isZero_true in Hz. rewrite Hz in Hs. done.
Qed.

Lemma orderOf_spec T ws :
  Forall (fun w => (0 <= w)%Qc) ws -> (0 < sumQ ws)%Qc ->
  let raw := rawOf T ws in
  let order := map Frac.i (orderOf raw (map MathFloor raw)) in
  order ≡ₚ seq 0 (length ws) /\ StronglySorted (precedes T ws) order.
Proof.
  intros Hws Hs raw order.
  set (L := imap (fun i x => Frac.mk i (x - ofZ (default 0%Z (map MathFloor raw !! i)))%Qc) raw).
  assert (forall p o, L !! p = Some o -> Frac.i o = p /\ Frac.frac o = remainder T ws p) as HL.
  { intros p o Hp. unfold L in Hp. rewrite list_lookup_imap in Hp.
    destruct (raw !! p) as [x|] eqn:Hx; simpl in Hp; [|done]. simplify_eq. simpl.
    split; [done|]. rewrite list_lookup_fmap, Hx. simpl.
    unfold raw in Hx. rewrite rawOf_positive in Hx by done.
    rewrite list_lookup_fmap in Hx. unfold remainder, share.
    destruct (ws !! p) as [w|]; simpl in *; [|done]. now simplify_eq. }
  split.
  - unfold order, orderOf. fold L. rewrite sortBy_perm.
    unfold L. rewrite fmap_imap. 
    assert (length raw = length ws) as <-.
    { unfold raw, rawOf, nonnegOf. now rewrite !length_map. }
    generalize raw. clear. intros l.
    rewrite (imap_ext _ (fun j _ => id j) l) by done.
    now rewrite imap_seq_0, list_fmap_id.
  - unfold order, orderOf. fold L.
    apply (StronglySorted_fmap Frac.i (fun a b => precedes T ws (Frac.i a) (Frac.i b)));
      [done|].
    assert (Transitive (fun a b => precedes T ws (Frac.i a) (Frac.i b))) as Htr.
    { intros a b c. apply precedes_trans. }
    apply (sortBy_StronglySorted _ _).
    apply StronglySorted_lookup_2. intros p q x y Hpq Hp Hq.
    apply HL in Hp as [Hpi Hpf], Hq as [Hqi Hqf].
    destruct (isPos _) eqn:Hc.
    + apply isPos_sub in Hc. left. now rewrite Hpi, Hqi, <- Hpf, <- Hqf.
    + apply isPos_sub_false in Hc. rewrite Hpi, Hqi.
      apply Qcle_lt_or_eq in Hc as [Hc|Hc].
      * left. now rewrite <- Hpf, <- Hqf.
      * right. split; [|done]. now rewrite <- Hpf, <- Hqf.
Qed.

Lemma rawOf_length T ws : length (rawOf T ws) = length ws.
Proof. unfold rawOf, nonnegOf. now rewrite !length_map. Qed.

Lemma orElse_pos s : (0 <= s)%Qc -> (0 < orElse s 1)%Qc.
Proof.
  intros Hs. unfold orElse. destruct (isZero s) eqn:Hz; [done|].
  apply Qcle_lt_or_eq in Hs as [Hs|Hs]; [done|].
  symmetry in Hs. apply isZero_true in Hs. congruence.
Qed.

Lemma rawOf_nonneg T ws :
  0 <= T -> Forall (fun w => (0 <= w)%Qc) ws ->
  Forall (fun x => (0 <= x)%Qc) (rawOf T ws).
Proof.
  intros HT Hws. unfold rawOf. rewrite (nonnegOf_id _ Hws).
  pose proof (orElse_pos _ (sumQ_nonneg _ Hws)) as Hs.
  apply Forall_fmap. eapply Forall_impl; [exact Hws|]. intros w Hw. simpl.
  apply Qcmult_nonneg_nonneg.
  - unfold Qcdiv. apply Qcmult_nonneg_nonneg; [exact Hw|]. now apply Qclt_le_weak, Qcinv_pos.
  - rewrite <- ofZ_0. apply (proj1 (ofZ_le 0 T)). exact HT.
Qed.

Lemma rawOf_sum T ws :
  Forall (fun w => (0 <= w)%Qc) ws ->
  sumQ (rawOf T ws) = if isZero (sumQ ws) then 0%Qc else ofZ T.
Proof.
  intros Hws. unfold rawOf. rewrite (nonnegOf_id _ Hws).
  set (s := orElse (sumQ ws) 1).
  rewrite (map_ext _ (fun w => (w * (/ s * ofZ T))%Qc)).
  2:{ intros w. unfold Qcdiv. ring. }
  rewrite sumQ_scale. unfold s, orElse.
  destruct (isZero (sumQ ws)) eqn:Hz.
  - apply isZero_true in Hz. rewrite Hz. ring.
  - assert (sumQ ws <> 0%Qc) as Hne.
    { intros H. apply isZero_true in H. congruence. }
    field. exact Hne.
Qed.

Lemma orderOf_indices raw base :
  length base = length raw ->
  length (orderOf raw base) = length raw /\
  Forall (fun o => (Frac.i o < length base)%nat) (orderOf raw base).
Proof.
  intros Hlen. unfold orderOf. split.
  - now rewrite sortBy_length, length_imap.
  - rewrite sortBy_perm. apply Forall_forall. intros o Ho.
    apply elem_of_lookup_imap_1 in Ho as (p & x & -> & Hp). simpl.
    apply lookup_lt_Some in Hp. lia.
Qed.

Lemma base_shares T ws :
  Forall (fun w => (0 <= w)%Qc) ws -> (0 < sumQ ws)%Qc ->
  map MathFloor (rawOf T ws)
  = map (fun i => MathFloor (share T ws i)) (seq 0 (length ws)).
Proof.
  intros Hws Hs. rewrite rawOf_positive by done.
  apply list_eq. intros i. rewrite !list_lookup_fmap.
  destruct (ws !! i) as [w|] eqn:Hw; simpl.
  - rewrite lookup_seq_lt by (now apply lookup_lt_Some in Hw). simpl.
    unfold share. now rewrite Hw.
  - rewrite lookup_seq_ge by (now apply lookup_ge_None in Hw). done.
Qed.

(** The largest-remainder method over exact shares.  For every total
    [T >= 0] and every non-empty vector of non-negative weights,
    [distributeToTotal] returns one non-negative integer per weight, and they
    sum to exactly [T].  When the weights are not all zero, entry [i]
    receives the floor of its share [(w_i / sum w) * T], and the units left
    over, fewer than the entries, go one each to the entries with the largest
    fractional remainders, entries of equal remainder in their original
    order. *)
Theorem distributeToTotal_largest_remainder (T : Z) (ws : list Qc) :
  0 <= T -> Forall (fun w => (0 <= w)%Qc) ws -> ws <> [] ->
  exists out,
    distributeToTotal T ws = Some out /\
    length out = length ws /\
    Forall (fun v => 0 <= v) out /\
    sumZ out = T /\
    ((0 < sumQ ws)%Qc ->
     let rem := firstUnits T ws in
     0 <= rem < Z.of_nat (length ws) /\
     exists order,
       order ≡ₚ seq 0 (length ws) /\
       StronglySorted (precedes T ws) order /\
       forall i, (i < length ws)%nat ->
         out !! i =
           Some (MathFloor (share T ws i)
                 + if decide (i ∈ take (Z.to_nat rem) order) then 1 else 0)).
Proof.
  intros HT Hws Hne. unfold distributeToTotal.
  set (raw := rawOf T ws). set (base := map MathFloor raw).
  set (rem := T - sumZ base).
  assert (length base = length raw) as Hlen by (unfold base; now rewrite length_map).
  pose proof (rawOf_length T ws) as Hraw. fold raw in Hraw.
  destruct (orderOf_indices raw base Hlen) as [Hol Hoi].
  assert (orderOf raw base <> []) as Hone.
  { intros H. rewrite H in Hol. simpl in Hol. destruct ws; [done|simpl in *; lia]. }
  assert (Forall (fun v => 0 <= v) base) as Hbase.
  { unfold base. apply Forall_fmap. eapply Forall_impl; [apply rawOf_nonneg; done|].
    intros x Hx. now apply MathFloor_nonneg. }
  assert (sumQ raw = if isZero (sumQ ws) then 0%Qc else ofZ T) as Hrawsum
    by (apply rawOf_sum; done).
  assert (0 <= rem) as Hrem.
  { unfold rem. pose proof (sumZ_floor_le raw) as Hle. fold base in Hle.
    rewrite Hrawsum in Hle.
    destruct (isZero (sumQ ws)).
    - rewrite <- ofZ_0 in Hle. apply ofZ_le in Hle. lia.
    - apply ofZ_le in Hle. lia. }
  destruct (bumpAll_total (orderOf raw base) (seq 0 (Z.to_nat rem)) base Hone Hoi)
    as (out & Hout & Hlo & Hsum & Hmono).
  exists out. split; [exact Hout|]. split; [lia|]. split; [|split].
  - apply Forall_forall. intros y Hy. apply list_elem_of_lookup in Hy as [p Hp].
    destruct (base !! p) as [x|] eqn:Hx.
    + pose proof (Forall2_lookup_lr _ _ _ _ _ _ Hmono Hx Hp).
      pose proof (proj1 (Forall_forall _ _) Hbase x (list_elem_of_lookup_2 _ _ _ Hx)).
      simpl in *. lia.
    + apply lookup_ge_None in Hx. apply lookup_lt_Some in Hp. lia.
  - rewrite Hsum, length_seq. unfold rem in *. lia.
  - intros Hs.
    assert (firstUnits T ws = rem) as ->.
    { unfold firstUnits, rem, base, raw. now rewrite base_shares. }
    assert (rem < Z.of_nat (length ws)) as Hlt.
    { pose proof (sumZ_floor_lt raw) as Hlt. fold base in Hlt.
      rewrite Hrawsum in Hlt.
      destruct (isZero (sumQ ws)) eqn:Hz.
      { apply isZero_true in Hz. rewrite Hz in Hs. done. }
      rewrite Hraw in Hlt. 
      assert (raw <> []) as Hrne by (intros H; rewrite H in Hraw; destruct ws; done).
      apply Hlt, ofZ_lt in Hrne. unfold rem. lia. }
    split; [lia|].
    destruct (orderOf_spec T ws Hws Hs) as [Hperm Hsorted]. fold raw base in Hperm, Hsorted.
    exists (map Frac.i (orderOf raw base)). split; [exact Hperm|]. split; [exact Hsorted|].
    intros i Hi.
    destruct (bumpAll_first (orderOf raw base) (Z.to_nat rem) base) as (out' & Hout' & Hspec).
    { lia. }
    { rewrite Hperm. apply NoDup_seq. }
    { exact Hoi. }
    rewrite Hout in Hout'. simplify_eq.
    assert (base !! i = Some (MathFloor (share T ws i))) as Hb.
    { unfold base, raw. rewrite base_shares by done.
      rewrite list_lookup_fmap, lookup_seq_lt by done. done. }
    rewrite (Hspec _ _ Hb). rewrite <- fmap_take. done.
Qed.

(** * [distributeToTotal64]: the sum of the weights *)

(** A double that is not negative: a significand of 53 bits at most and an
    exponent of -1074 at least. *)
Lemma round64_repr x :
  (0 <= x)%Qc ->
  exists m e, round64 x = (ofZ m * pow2 e)%Qc /\ 0 <= m <= 2 ^ 53 /\ -1074 <= e.
Proof.
  intros H0. destruct (Qcle_lt_or_eq _ _ H0) as [Hx| <-].
  2:{ exists 0, 0. rewrite round64_0, ofZ_0. split; [ring|lia]. }
  exists (rne (x / pow2 (exponent64 x))), (exponent64 x).
  split; [apply (round64_unfold x (pos_nonzero x Hx))|].
  split; [|apply exponent64_min].
  split.
  - apply rne_ge_int. rewrite ofZ_0. now apply div_pow2_nonneg.
  - apply rne_le_int.
    unfold exponent64. rewrite (absQ_pos x Hx).
    destruct (ilog2_spec x Hx) as [_ I2].
    set (e := Z.max (ilog2 x - 52) (-1074)).
    assert (ilog2 x + 1 <= 53 + e) as He by (unfold e; lia).
    assert (x <= pow2 53 * pow2 e)%Qc as Hle.
    { rewrite <- pow2_add. apply Qclt_le_weak.
      eapply Qclt_le_trans; [exact I2|]. now apply pow2_le. }
    rewrite <- (pow2_ofZ 53) by lia.
    pose proof (pow2_pos e) as Hp. revert Hle Hp.
    generalize (pow2 e) (pow2 53). intros p c Hle Hp.
    toQ. apply Qle_shift_div_r; [exact Hp|exact Hle].
Qed.

Lemma round64_idem x : (0 <= x)%Qc -> round64 (round64 x) = round64 x.
Proof.
  intros H0. destruct (round64_repr x H0) as (m & e & -> & Hm & He).
  now apply round64_exact.
Qed.

Lemma isDouble_grid x : isDouble x -> exists k, x = (ofZ k * pow2 (-1074))%Qc.
Proof.
  intros H. destruct (round64_grid x) as [k Hk]. exists k. now rewrite <- H.
Qed.

Lemma isDouble_round64 x : (0 <= x)%Qc -> isDouble (round64 x).
Proof. apply round64_idem. Qed.

Lemma isDouble_0 : isDouble 0.
Proof. reflexivity. Qed.

Lemma isDouble_ofZ z : 0 <= z <= 2 ^ 53 -> isDouble (ofZ z).
Proof. apply round64_ofZ. Qed.

Lemma mul_pow2_le_inv a b e : (ofZ a * pow2 e <= ofZ b * pow2 e)%Qc -> a <= b.
Proof.
  intros H. destruct (Z_le_gt_dec a b) as [Hle|Hgt]; [exact Hle|exfalso].
  apply (Qcle_not_lt _ _ H).
  apply Qcmult_lt_compat_r; [apply pow2_pos|]. apply (proj1 (ofZ_lt _ _)). lia.
Qed.

Lemma mul_pow2_lt_inv a b e : (ofZ a * pow2 e < ofZ b * pow2 e)%Qc -> a < b.
Proof.
  intros H. destruct (Z_lt_le_dec a b) as [Hlt|Hge]; [exact Hlt|exfalso].
  apply (Qclt_not_le _ _ H).
  apply Qcmult_le_compat_r; [now apply ofZ_mono|apply Qclt_le_weak, pow2_pos].
Qed.

(** The sum of two small doubles is a double. *)
Lemma fadd_exact_small a b :
  isDouble a -> isDouble b -> (0 <= a)%Qc -> (0 <= b)%Qc ->
  (a + b < pow2 (-1022))%Qc -> fadd a b = (a + b)%Qc.
Proof.
  intros Ha Hb Ha0 Hb0 Hlt.
  destruct (isDouble_grid a Ha) as [ka ->]. destruct (isDouble_grid b Hb) as [kb ->].
  unfold fadd.
  replace (ofZ ka * pow2 (-1074) + ofZ kb * pow2 (-1074))%Qc
    with (ofZ (ka + kb) * pow2 (-1074))%Qc in * by (rewrite ofZ_add; ring).
  apply round64_exact; [|lia].
  assert (0 <= ka) as Hka.
  { apply (mul_pow2_le_inv 0 ka (-1074)). rewrite ofZ_0.
    now replace (0 * pow2 (-1074))%Qc with 0%Qc by ring. }
  assert (0 <= kb) as Hkb.
  { apply (mul_pow2_le_inv 0 kb (-1074)). rewrite ofZ_0.
    now replace (0 * pow2 (-1074))%Qc with 0%Qc by ring. }
  split; [lia|].
  assert (ka + kb < 2 ^ 52); [|lia].
  apply (mul_pow2_lt_inv _ _ (-1074)).
  rewrite <- (pow2_ofZ 52), <- pow2_add by lia. exact Hlt.
Qed.

Lemma rel_of_eq (x u : Qc) :
  (0 <= x)%Qc -> (0 <= u)%Qc -> (x * (1 - u) <= x)%Qc /\ (x <= x * (1 + u))%Qc.
Proof. intros Hx Hu. split; toQ; nra. Qed.

Lemma fadd_rel a b :
  isDouble a -> isDouble b -> (0 <= a)%Qc -> (0 <= b)%Qc ->
  ((a + b) * (1 - pow2 (-53)) <= fadd a b)%Qc
  /\ (fadd a b <= (a + b) * (1 + pow2 (-53)))%Qc.
Proof.
  intros Ha Hb Ha0 Hb0.
  destruct (Qclt_le_dec (a + b) (pow2 (-1022))) as [Hs|Hn].
  - rewrite (fadd_exact_small a b) by assumption.
    apply rel_of_eq; [now apply Qcplus_nonneg_nonneg|apply Qclt_le_weak, pow2_pos].
  - now apply round64_normal.
Qed.

Lemma sum_step_lower (a w acc acc' k u : Qc) :
  (0 <= a)%Qc -> (0 <= w)%Qc -> (0 <= k)%Qc -> (0 <= u)%Qc -> (u <= 1)%Qc ->
  (a * (1 - k * u) <= acc)%Qc -> ((acc + w) * (1 - u) <= acc')%Qc ->
  ((a + w) * (1 - (k + 1 + 1) * u) <= acc')%Qc.
Proof.
  intros Ha Hw Hk Hu Hu1 H1 H2. toQ.
  set (A := this a) in *. set (W := this w) in *. set (K := this k) in *.
  set (U := this u) in *. set (C := this acc) in *. set (C' := this acc') in *.
  assert (0 <= A * K * U * U)%Q by (repeat apply Qmult_le_0_compat; assumption).
  assert (0 <= W * K * U)%Q by (repeat apply Qmult_le_0_compat; assumption).
  assert (0 <= W * U)%Q by (repeat apply Qmult_le_0_compat; assumption).
  assert (0 <= A * U)%Q by (repeat apply Qmult_le_0_compat; assumption).
  assert (0 <= (C - A * (1 - K * U)) * (1 - U))%Q by (apply Qmult_le_0_compat; lra).
  lra.
Qed.

Lemma sum_step_upper (a w acc acc' k u : Qc) :
  (0 <= a)%Qc -> (0 <= w)%Qc -> (0 <= k)%Qc -> (0 <= u)%Qc -> (k * u <= Q2Qc (1 # 2))%Qc ->
  (acc <= a * (1 + k * u))%Qc -> (acc' <= (acc + w) * (1 + u))%Qc ->
  (acc' <= (a + w) * (1 + (k + 1 + 1) * u))%Qc.
Proof.
  intros Ha Hw Hk Hu Hku H1 H2. toQ.
  set (A := this a) in *. set (W := this w) in *. set (K := this k) in *.
  set (U := this u) in *. set (C := this acc) in *. set (C' := this acc') in *.
  assert (0 <= A * U * ((1 # 2) - K * U))%Q by (repeat apply Qmult_le_0_compat; lra).
  assert (0 <= W * K * U)%Q by (repeat apply Qmult_le_0_compat; assumption).
  assert (0 <= W * U)%Q by (repeat apply Qmult_le_0_compat; assumption).
  assert (0 <= A * U)%Q by (repeat apply Qmult_le_0_compat; assumption).
  assert (0 <= (A * (1 + K * U) - C) * (1 + U))%Q by (apply Qmult_le_0_compat; lra).
  lra.
Qed.

Lemma ofZ_le_pow2 z k : 0 <= k -> z <= 2 ^ k -> (ofZ z <= pow2 k)%Qc.
Proof. intros Hk Hz. rewrite (pow2_ofZ k Hk). now apply ofZ_mono. Qed.

(** [ofZ z * 2^j] is at most [2^(k+j)] when [z] is at most [2^k]. *)
Lemma scaled_le z k j : 0 <= k -> z <= 2 ^ k -> (ofZ z * pow2 j <= pow2 (k + j))%Qc.
Proof.
  intros Hk Hz. rewrite pow2_add.
  apply Qcmult_le_compat_r; [now apply ofZ_le_pow2|apply Qclt_le_weak, pow2_pos].
Qed.

Lemma pow2_m1 : pow2 (-1) = Q2Qc (1 # 2).
Proof. apply Qc_is_canon. reflexivity. Qed.

Lemma pow2_le_1 k : k <= 0 -> (pow2 k <= 1)%Qc.
Proof. intros Hk. rewrite <- pow2_0. now apply pow2_le. Qed.

Lemma sum64_acc ws : forall acc a k,
  Forall isDouble ws -> Forall (fun w => (0 <= w)%Qc) ws ->
  isDouble acc -> (0 <= acc)%Qc -> (0 <= a)%Qc -> 0 <= k ->
  k + 2 * Z.of_nat (length ws) <= 2 ^ 52 ->
  (a * (1 - ofZ k * pow2 (-53)) <= acc)%Qc ->
  (acc <= a * (1 + ofZ k * pow2 (-53)))%Qc ->
  (((a + sumQ ws) * (1 - ofZ (k + 2 * Z.of_nat (length ws)) * pow2 (-53))
    <= fold_left fadd ws acc)%Qc
   /\ (fold_left fadd ws acc
       <= (a + sumQ ws) * (1 + ofZ (k + 2 * Z.of_nat (length ws)) * pow2 (-53)))%Qc)
  /\ isDouble (fold_left fadd ws acc) /\ (0 <= fold_left fadd ws acc)%Qc.
Proof.
  induction ws as [|w ws IH]; intros acc a k Hd Hn Hacc Hacc0 Ha Hk Hlen Hlo Hup.
  - simpl. change (sumQ []) with 0%Qc. rewrite Z.add_0_r, Qcplus_0_r. done.
  - apply Forall_cons in Hd as [Hdw Hd]. apply Forall_cons in Hn as [Hw Hn].
    simpl length in *. rewrite Nat2Z.inj_succ in *.
    replace (k + 2 * Z.succ (Z.of_nat (length ws)))
      with ((k + 1 + 1) + 2 * Z.of_nat (length ws)) in * by lia.
    rewrite sumQ_cons, Qcplus_assoc. simpl fold_left.
    destruct (fadd_rel acc w Hacc Hdw Hacc0 Hw) as [F1 F2].
    assert (0 <= pow2 (-53))%Qc as Hu by apply Qclt_le_weak, pow2_pos.
    assert (0 <= acc + w)%Qc as Hsum by now apply Qcplus_nonneg_nonneg.
    apply IH; try assumption.
    + now apply isDouble_round64.
    + now apply round64_nonneg.
    + now apply Qcplus_nonneg_nonneg.
    + lia.
    + rewrite !ofZ_add, ofZ_1.
      apply (sum_step_lower a w acc);
        first [assumption | now apply ofZ_nonneg | apply pow2_le_1; lia].
    + rewrite !ofZ_add, ofZ_1.
      apply (sum_step_upper a w acc);
        first [assumption | now apply ofZ_nonneg | idtac].
      rewrite <- pow2_m1. replace (-1) with (52 + -53) by lia.
      apply scaled_le; lia.
Qed.

(** The sum of the weights as the code computes it, against their sum. *)
Lemma sum64_bounds ws :
  Forall isDouble ws -> Forall (fun w => (0 <= w)%Qc) ws ->
  2 * Z.of_nat (length ws) <= 2 ^ 52 ->
  ((sumQ ws * (1 - ofZ (2 * Z.of_nat (length ws)) * pow2 (-53)) <= sum64 ws)%Qc
   /\ (sum64 ws <= sumQ ws * (1 + ofZ (2 * Z.of_nat (length ws)) * pow2 (-53)))%Qc)
  /\ isDouble (sum64 ws) /\ (0 <= sum64 ws)%Qc.
Proof.
  intros Hd Hn Hlen.
  pose proof (sum64_acc ws 0%Qc 0%Qc 0 Hd Hn isDouble_0) as H.
  rewrite Qcplus_0_l, Z.add_0_l in H. apply H; try done.
Qed.

(** * [distributeToTotal64]: the shares *)

Lemma share_upper (q d T r u t : Qc) :
  (0 <= q)%Qc -> (0 <= T)%Qc -> (0 <= u)%Qc -> (u <= 1)%Qc -> (0 <= t)%Qc ->
  (d <= q * (1 + u) + t)%Qc -> (r <= d * T * (1 + u) + t)%Qc ->
  (r <= q * T * ((1 + u) * (1 + u)) + t * (T + T + 1))%Qc.
Proof.
  intros Hq HT Hu Hu1 Ht H1 H2. toQ.
  set (Q := this q) in *. set (D := this d) in *. set (TT := this T) in *.
  set (R := this r) in *. set (U := this u) in *. set (E := this t) in *.
  assert (0 <= (Q * (1 + U) + E - D) * (TT * (1 + U)))%Q
    by (apply Qmult_le_0_compat; [lra|apply Qmult_le_0_compat; lra]).
  assert (0 <= E * TT * (1 - U))%Q by (repeat apply Qmult_le_0_compat; lra).
  lra.
Qed.

Lemma share_lower (q d T r u t : Qc) :
  (0 <= q)%Qc -> (0 <= T)%Qc -> (0 <= u)%Qc -> (u <= 1)%Qc -> (0 <= t)%Qc ->
  (q * (1 - u) - t <= d)%Qc -> (d * T * (1 - u) - t <= r)%Qc ->
  (q * T * ((1 - u) * (1 - u)) - t * (T + 1) <= r)%Qc.
Proof.
  intros Hq HT Hu Hu1 Ht H1 H2. toQ.
  set (Q := this q) in *. set (D := this d) in *. set (TT := this T) in *.
  set (R := this r) in *. set (U := this u) in *. set (E := this t) in *.
  assert (0 <= (D - (Q * (1 - U) - E)) * (TT * (1 - U)))%Q
    by (apply Qmult_le_0_compat; [lra|apply Qmult_le_0_compat; lra]).
  assert (0 <= E * TT * U)%Q by (repeat apply Qmult_le_0_compat; lra).
  lra.
Qed.

Lemma Qcdiv_nonneg (a b : Qc) : (0 <= a)%Qc -> (0 < b)%Qc -> (0 <= a / b)%Qc.
Proof.
  intros Ha Hb. unfold Qcdiv. apply Qc_mul_nonneg; [exact Ha|].
  now apply Qclt_le_weak, Qcinv_pos.
Qed.

(** One share as the code computes it, against the exact quotient. *)
Lemma share64_bounds w s T :
  (0 <= w)%Qc -> (0 < s)%Qc -> 0 <= T ->
  ((w * (/ s * ofZ T * ((1 - pow2 (-53)) * (1 - pow2 (-53))))
      - pow2 (-1075) * (ofZ T + 1) <= fmul (fdiv w s) (ofZ T))%Qc
   /\ (fmul (fdiv w s) (ofZ T)
       <= w * (/ s * ofZ T * ((1 + pow2 (-53)) * (1 + pow2 (-53))))
          + pow2 (-1075) * (ofZ T + ofZ T + 1))%Qc)
  /\ (0 <= fmul (fdiv w s) (ofZ T))%Qc.
Proof.
  intros Hw Hs HT.
  pose proof (Qcdiv_nonneg w s Hw Hs) as Hq.
  pose proof (ofZ_nonneg T HT) as HTq.
  pose proof (round64_nonneg _ Hq) as Hd.
  pose proof (Qc_mul_nonneg _ _ Hd HTq) as Hp.
  destruct (round64_near _ Hq) as [D1 D2]. destruct (round64_near _ Hp) as [R1 R2].
  assert (0 <= pow2 (-53))%Qc as Hu by apply Qclt_le_weak, pow2_pos.
  assert (pow2 (-53) <= 1)%Qc as Hu1 by (apply pow2_le_1; lia).
  assert (0 <= pow2 (-1075))%Qc as Ht by apply Qclt_le_weak, pow2_pos.
  unfold fmul, fdiv. split; [split|now apply round64_nonneg].
  - replace (w * (/ s * ofZ T * ((1 - pow2 (-53)) * (1 - pow2 (-53)))))%Qc
      with (w / s * ofZ T * ((1 - pow2 (-53)) * (1 - pow2 (-53))))%Qc
      by (unfold Qcdiv; ring).
    now apply (share_lower (w / s) (round64 (w / s))).
  - replace (w * (/ s * ofZ T * ((1 + pow2 (-53)) * (1 + pow2 (-53)))))%Qc
      with (w / s * ofZ T * ((1 + pow2 (-53)) * (1 + pow2 (-53))))%Qc
      by (unfold Qcdiv; ring).
    now apply (share_upper (w / s) (round64 (w / s))).
Qed.

Lemma sumQ_map_upper (f : Qc -> Qc) (c1 c2 : Qc) ws :
  Forall (fun w => (f w <= w * c1 + c2)%Qc) ws ->
  (sumQ (map f ws) <= sumQ ws * c1 + ofZ (Z.of_nat (length ws)) * c2)%Qc.
Proof.
  induction 1 as [|w ws Hw _ IH].
  - change (0 <= 0 * c1 + ofZ 0 * c2)%Qc. rewrite ofZ_0.
    replace (0 * c1 + 0 * c2)%Qc with 0%Qc by ring. apply Qcle_refl.
  - simpl map. simpl length. rewrite Nat2Z.inj_succ, !sumQ_cons.
    unfold Z.succ. rewrite ofZ_add, ofZ_1.
    replace ((w + sumQ ws) * c1 + (ofZ (Z.of_nat (length ws)) + 1) * c2)%Qc
      with ((w * c1 + c2) + (sumQ ws * c1 + ofZ (Z.of_nat (length ws)) * c2))%Qc by ring.
    now apply Qcplus_le_compat.
Qed.

Lemma sumQ_map_lower (f : Qc -> Qc) (c1 c2 : Qc) ws :
  Forall (fun w => (w * c1 - c2 <= f w)%Qc) ws ->
  (sumQ ws * c1 - ofZ (Z.of_nat (length ws)) * c2 <= sumQ (map f ws))%Qc.
Proof.
  induction 1 as [|w ws Hw _ IH].
  - change (0 * c1 - ofZ 0 * c2 <= 0)%Qc. rewrite ofZ_0.
    replace (0 * c1 - 0 * c2)%Qc with 0%Qc by ring. apply Qcle_refl.
  - simpl map. simpl length. rewrite Nat2Z.inj_succ, !sumQ_cons.
    unfold Z.succ. rewrite ofZ_add, ofZ_1.
    replace ((w + sumQ ws) * c1 - (ofZ (Z.of_nat (length ws)) + 1) * c2)%Qc
      with ((w * c1 - c2) + (sumQ ws * c1 - ofZ (Z.of_nat (length ws)) * c2))%Qc by ring.
    now apply Qcplus_le_compat.
Qed.

(** The quotient of the sum of the weights by the sum as computed. *)
Lemma ratio_upper (A F c : Qc) :
  (0 <= A)%Qc -> (0 < F)%Qc -> (0 <= c)%Qc -> (c <= Q2Qc (1 # 4))%Qc ->
  (A * (1 - c) <= F)%Qc -> (A * / F <= 1 + (c + c))%Qc.
Proof.
  intros HA HF Hc Hc4 H.
  assert (A <= (1 + (c + c)) * F)%Qc as HAF.
  { toQ. set (a := this A) in *. set (f := this F) in *. set (x := this c) in *.
    assert (0 <= (f - a * (1 - x)) * (1 + (x + x)))%Q by (apply Qmult_le_0_compat; lra).
    assert (0 <= a * x * (1 - (x + x)))%Q by (repeat apply Qmult_le_0_compat; lra).
    lra. }
  toQ. apply Qle_shift_div_r; assumption.
Qed.

Lemma ratio_lower (A F c : Qc) :
  (0 <= A)%Qc -> (0 < F)%Qc -> (0 <= c)%Qc -> (c <= 1)%Qc ->
  (F <= A * (1 + c))%Qc -> (1 - c <= A * / F)%Qc.
Proof.
  intros HA HF Hc Hc1 H.
  assert ((1 - c) * F <= A)%Qc as HAF.
  { toQ. set (a := this A) in *. set (f := this F) in *. set (x := this c) in *.
    assert (0 <= (a * (1 + x) - f) * (1 - x))%Q by (apply Qmult_le_0_compat; lra).
    assert (0 <= a * x * x)%Q by (repeat apply Qmult_le_0_compat; lra).
    lra. }
  toQ. apply Qle_shift_div_l; assumption.
Qed.

Lemma total_upper (rho T u c E : Qc) :
  (0 <= T)%Qc -> (0 <= u)%Qc -> (u <= Q2Qc (1 # 8))%Qc -> (0 <= c)%Qc ->
  (rho <= 1 + (c + c))%Qc -> (c * T <= Q2Qc (1 # 4))%Qc -> (T * u <= Q2Qc (1 # 8))%Qc ->
  (E <= Q2Qc (1 # 16))%Qc ->
  (rho * T * ((1 + u) * (1 + u)) + E < T + 1)%Qc.
Proof.
  intros HT Hu Hu8 Hc Hrho HcT HTu HE. toQ.
  set (r := this rho) in *. set (t := this T) in *. set (x := this u) in *.
  set (y := this c) in *. set (e := this E) in *.
  assert (0 <= (1 + (y + y) - r) * (t * ((1 + x) * (1 + x))))%Q
    by (apply Qmult_le_0_compat; [lra|repeat apply Qmult_le_0_compat; lra]).
  assert (0 <= t * x)%Q by (apply Qmult_le_0_compat; lra).
  assert (0 <= y * t)%Q by (apply Qmult_le_0_compat; lra).
  assert (0 <= t * x * ((1 # 8) - x))%Q by (repeat apply Qmult_le_0_compat; lra).
  assert (0 <= y * t * ((1 # 8) - x))%Q by (repeat apply Qmult_le_0_compat; lra).
  assert (0 <= y * t * x)%Q by (repeat apply Qmult_le_0_compat; lra).
  assert (0 <= y * t * x * ((1 # 8) - x))%Q by (repeat apply Qmult_le_0_compat; lra).
  lra.
Qed.

Lemma total_lower (rho T u c E : Qc) :
  (0 <= T)%Qc -> (0 <= u)%Qc -> (u <= Q2Qc (1 # 8))%Qc -> (0 <= c)%Qc ->
  (c <= Q2Qc (1 # 4))%Qc ->
  (1 - c <= rho)%Qc -> (c * T <= Q2Qc (1 # 4))%Qc -> (T * u <= Q2Qc (1 # 8))%Qc ->
  (E <= Q2Qc (1 # 16))%Qc ->
  (T - 1 < rho * T * ((1 - u) * (1 - u)) - E)%Qc.
Proof.
  intros HT Hu Hu8 Hc Hc4 Hrho HcT HTu HE. toQ.
  set (r := this rho) in *. set (t := this T) in *. set (x := this u) in *.
  set (y := this c) in *. set (e := this E) in *.
  assert (0 <= (r - (1 - y)) * (t * ((1 - x) * (1 - x))))%Q
    by (apply Qmult_le_0_compat; [lra|repeat apply Qmult_le_0_compat; lra]).
  assert (0 <= t * x)%Q by (apply Qmult_le_0_compat; lra).
  assert (0 <= y * t)%Q by (apply Qmult_le_0_compat; lra).
  assert (0 <= y * t * x)%Q by (repeat apply Qmult_le_0_compat; lra).
  assert (0 <= (1 - y) * t * (x * x))%Q by (repeat apply Qmult_le_0_compat; lra).
  lra.
Qed.

Lemma pow2_m2 : pow2 (-2) = Q2Qc (1 # 4).
Proof. apply Qc_is_canon. reflexivity. Qed.

Lemma pow2_m3 : pow2 (-3) = Q2Qc (1 # 8).
Proof. apply Qc_is_canon. reflexivity. Qed.

Lemma pow2_m4 : pow2 (-4) = Q2Qc (1 # 16).
Proof. apply Qc_is_canon. reflexivity. Qed.

Lemma scaled_le_to z k j i : 0 <= k -> z <= 2 ^ k -> k + j <= i -> (ofZ z * pow2 j <= pow2 i)%Qc.
Proof.
  intros Hk Hz Hi. apply Qcle_trans with (pow2 (k + j)).
  - now apply scaled_le.
  - now apply pow2_le.
Qed.

Lemma sum64_pos ws :
  Forall isDouble ws -> Forall (fun w => (0 <= w)%Qc) ws ->
  2 * Z.of_nat (length ws) <= 2 ^ 51 -> (0 < sumQ ws)%Qc -> (0 < sum64 ws)%Qc.
Proof.
  intros Hd Hn Hlen Hs.
  destruct (sum64_bounds ws Hd Hn) as [[H1 _] _]; [lia|].
  assert (ofZ (2 * Z.of_nat (length ws)) * pow2 (-53) <= Q2Qc (1 # 4))%Qc as Hc.
  { rewrite <- pow2_m2. apply (scaled_le_to _ 51); lia. }
  revert H1 Hc. generalize (ofZ (2 * Z.of_nat (length ws)) * pow2 (-53))%Qc.
  intros c H1 Hc. toQ.
  set (a := this (sumQ ws)) in *. set (f := this (sum64 ws)) in *. set (x := this c) in *.
  assert (0 <= a * ((1 # 4) - x))%Q by (apply Qmult_le_0_compat; lra).
  lra.
Qed.

Lemma rawOf64_positive T ws :
  Forall (fun w => (0 <= w)%Qc) ws -> (0 < sum64 ws)%Qc ->
  rawOf64 T ws = map (fun w => fmul (fdiv w (sum64 ws)) (ofZ T)) ws.
Proof.
  intros Hws Hs. unfold rawOf64. rewrite (nonnegOf_id _ Hws).
  unfold orElse. destruct (isZero (sum64 ws)) eqn:Hz; [|reflexivity].
  apply isZero_true in Hz. rewrite Hz in Hs. done.
Qed.

Lemma rawOf64_length T ws : length (rawOf64 T ws) = length ws.
Proof. unfold rawOf64, nonnegOf. now rewrite !length_map. Qed.

(** The shares as computed sum to the total, within less than one unit. *)
Lemma rawOf64_sum T ws :
  Forall isDouble ws -> Forall (fun w => (0 <= w)%Qc) ws -> 0 <= T ->
  (T + 1) * (Z.of_nat (length ws) + 2) <= 2 ^ 50 -> (0 < sumQ ws)%Qc ->
  (ofZ T - 1 < sumQ (rawOf64 T ws))%Qc /\ (sumQ (rawOf64 T ws) < ofZ T + 1)%Qc.
Proof.
  intros Hd Hn HT Hsize Hs.
  set (n := Z.of_nat (length ws)) in *.
  assert (0 <= n) as Hn0 by (unfold n; lia).
  assert (n + 2 <= 2 ^ 50 /\ T <= 2 ^ 50 /\ n * T <= 2 ^ 50 /\ n * (2 * T + 1) <= 2 ^ 51)
    as (Hn50 & HT50 & HnT & HnT') by nia.
  assert (2 * n <= 2 ^ 51) as Hn51 by lia.
  assert (2 * n <= 2 ^ 52) as Hn52 by lia.
  pose proof (sum64_pos ws Hd Hn Hn51 Hs) as HF.
  destruct (sum64_bounds ws Hd Hn Hn52) as [[F1 F2] _]. fold n in F1, F2.
  rewrite (rawOf64_positive T ws Hn HF).
  set (F := sum64 ws) in *. set (A := sumQ ws) in *.
  set (c := (ofZ (2 * n) * pow2 (-53))%Qc) in *.
  assert (0 <= A)%Qc as HA by now apply Qclt_le_weak.
  assert (0 <= ofZ T)%Qc as HTq by now apply ofZ_nonneg.
  assert (0 <= pow2 (-53))%Qc as Hu by apply Qclt_le_weak, pow2_pos.
  assert (pow2 (-53) <= Q2Qc (1 # 8))%Qc as Hu8 by (rewrite <- pow2_m3; apply pow2_le; lia).
  assert (0 <= c)%Qc as Hc by (apply Qc_mul_nonneg; [apply ofZ_nonneg; lia|exact Hu]).
  assert (c <= Q2Qc (1 # 4))%Qc as Hc4.
  { rewrite <- pow2_m2. apply (scaled_le_to _ 51); lia. }
  assert (c * ofZ T <= Q2Qc (1 # 4))%Qc as HcT.
  { unfold c. replace (ofZ (2 * n) * pow2 (-53) * ofZ T)%Qc
      with (ofZ (2 * n * T) * pow2 (-53))%Qc by (rewrite (ofZ_mul (2 * n) T); ring).
    rewrite <- pow2_m2. apply (scaled_le_to _ 51); lia. }
  assert (ofZ T * pow2 (-53) <= Q2Qc (1 # 8))%Qc as HTu.
  { rewrite <- pow2_m3. apply (scaled_le_to _ 50); lia. }
  pose proof (share64_bounds) as Hsh.
  split.
  - eapply Qclt_le_trans.
    2:{ apply (sumQ_map_lower _
               (/ F * ofZ T * ((1 - pow2 (-53)) * (1 - pow2 (-53))))
               (pow2 (-1075) * (ofZ T + 1))).
        eapply Forall_impl; [exact Hn|]. intros w Hw. simpl.
        now destruct (Hsh w F T Hw HF HT) as [[H _] _]. }
    fold A n.
    replace (A * (/ F * ofZ T * ((1 - pow2 (-53)) * (1 - pow2 (-53))))
             - ofZ n * (pow2 (-1075) * (ofZ T + 1)))%Qc
      with (A * / F * ofZ T * ((1 - pow2 (-53)) * (1 - pow2 (-53)))
            - ofZ (n * (T + 1)) * pow2 (-1075))%Qc
      by (rewrite ofZ_mul, ofZ_add, ofZ_1; ring).
    apply (total_lower _ _ _ c); try assumption.
    + apply ratio_lower; try assumption.
      eapply Qcle_trans; [exact Hc4|]. toQ. lra.
    + rewrite <- pow2_m4. apply (scaled_le_to _ 51); [lia|nia|lia].
  - eapply Qcle_lt_trans.
    { apply (sumQ_map_upper _
               (/ F * ofZ T * ((1 + pow2 (-53)) * (1 + pow2 (-53))))
               (pow2 (-1075) * (ofZ T + ofZ T + 1))).
      eapply Forall_impl; [exact Hn|]. intros w Hw. simpl.
      now destruct (Hsh w F T Hw HF HT) as [[_ H] _]. }
    fold A n.
    replace (A * (/ F * ofZ T * ((1 + pow2 (-53)) * (1 + pow2 (-53))))
             + ofZ n * (pow2 (-1075) * (ofZ T + ofZ T + 1)))%Qc
      with (A * / F * ofZ T * ((1 + pow2 (-53)) * (1 + pow2 (-53)))
            + ofZ (n * (T + T + 1)) * pow2 (-1075))%Qc
      by (rewrite ofZ_mul, !ofZ_add, ofZ_1; ring).
    apply (total_upper _ _ _ c); try assumption.
    + apply ratio_upper; assumption.
    + rewrite <- pow2_m4. apply (scaled_le_to _ 51); [lia|nia|lia].
Qed.

(** * [distributeToTotal64]: the order of the remainders *)

#[local] Instance precedes64_trans T ws : Transitive (precedes64 T ws).
Proof.
  intros i j k [Hij|[Hij Hlt]] [Hjk|[Hjk Hlt']]; unfold precedes64.
  - left. now apply Qclt_trans with (remainder64 T ws j).
  - left. now rewrite <- Hjk.
  - left. now rewrite Hij.
  - right. split; [congruence|lia].
Qed.

Lemma orderOf64_spec T ws :
  Forall (fun w => (0 <= w)%Qc) ws -> (0 < sum64 ws)%Qc ->
  let raw := rawOf64 T ws in
  let order := map Frac.i (orderOf64 raw (map MathFloor raw)) in
  order ≡ₚ seq 0 (length ws) /\ StronglySorted (precedes64 T ws) order.
Proof.
  intros Hws Hs raw order.
  set (L := imap (fun i x => Frac.mk i (fsub x (ofZ (default 0%Z (map MathFloor raw !! i))))) raw).
  assert (forall p o, L !! p = Some o -> Frac.i o = p /\ Frac.frac o = remainder64 T ws p) as HL.
  { intros p o Hp. unfold L in Hp. rewrite list_lookup_imap in Hp.
    destruct (raw !! p) as [x|] eqn:Hx; simpl in Hp; [|done]. simplify_eq. simpl.
    split; [done|]. rewrite list_lookup_fmap, Hx. simpl.
    unfold raw in Hx. rewrite rawOf64_positive in Hx by done.
    rewrite list_lookup_fmap in Hx. unfold remainder64, share64.
    destruct (ws !! p) as [w|]; simpl in *; [|done]. now simplify_eq. }
  split.
  - unfold order, orderOf64. fold L. rewrite sortBy_perm.
    unfold L. rewrite fmap_imap.
    assert (length raw = length ws) as <- by apply rawOf64_length.
    generalize raw. clear. intros l.
    rewrite (imap_ext _ (fun j _ => id j) l) by done.
    now rewrite imap_seq_0, list_fmap_id.
  - unfold order, orderOf64. fold L.
    apply (StronglySorted_fmap Frac.i (fun a b => precedes64 T ws (Frac.i a) (Frac.i b)));
      [done|].
    assert (Transitive (fun a b => precedes64 T ws (Frac.i a) (Frac.i b))) as Htr.
    { intros a b c. apply precedes64_trans. }
    apply (sortBy_StronglySorted _ _).
    apply StronglySorted_lookup_2. intros p q x y Hpq Hp Hq.
    apply HL in Hp as [Hpi Hpf], Hq as [Hqi Hqf].
    rewrite Hpf, Hqf, Hpi, Hqi.
    change (remainder64 T ws q)
      with (round64 (share64 T ws q - ofZ (MathFloor (share64 T ws q)))) at 1.
    change (remainder64 T ws p)
      with (round64 (share64 T ws p - ofZ (MathFloor (share64 T ws p)))) at 1.
    rewrite fsub_sign.
    destruct (isPos _) eqn:Hc.
    + apply isPos_sub in Hc. left. exact Hc.
    + apply isPos_sub_false in Hc.
      apply Qcle_lt_or_eq in Hc as [Hc|Hc].
      * left. exact Hc.
      * right. split; [|done]. symmetry. exact Hc.
Qed.

Lemma orderOf64_indices raw base :
  length base = length raw ->
  length (orderOf64 raw base) = length raw /\
  Forall (fun o => (Frac.i o < length base)%nat) (orderOf64 raw base).
Proof.
  intros Hlen. unfold orderOf64. split.
  - now rewrite sortBy_length, length_imap.
  - rewrite sortBy_perm. apply Forall_forall. intros o Ho.
    apply elem_of_lookup_imap_1 in Ho as (p & x & -> & Hp). simpl.
    apply lookup_lt_Some in Hp. lia.
Qed.

Lemma base64_shares T ws :
  Forall (fun w => (0 <= w)%Qc) ws -> (0 < sum64 ws)%Qc ->
  map MathFloor (rawOf64 T ws)
  = map (fun i => MathFloor (share64 T ws i)) (seq 0 (length ws)).
Proof.
  intros Hws Hs. rewrite rawOf64_positive by done.
  apply list_eq. intros i. rewrite !list_lookup_fmap.
  destruct (ws !! i) as [w|] eqn:Hw; simpl.
  - rewrite lookup_seq_lt by (now apply lookup_lt_Some in Hw). simpl.
    unfold share64. now rewrite Hw.
  - rewrite lookup_seq_ge by (now apply lookup_ge_None in Hw). done.
Qed.

Lemma sum64_nonneg ws : Forall (fun w => (0 <= w)%Qc) ws -> (0 <= sum64 ws)%Qc.
Proof.
  intros Hws. unfold sum64.
  assert (forall acc, (0 <= acc)%Qc -> (0 <= fold_left fadd ws acc)%Qc) as H.
  { induction Hws as [|w ws Hw _ IH]; intros acc Hacc; simpl; [exact Hacc|].
    apply IH. apply round64_nonneg. now apply Qcplus_nonneg_nonneg. }
  now apply H.
Qed.

Lemma rawOf64_nonneg T ws :
  0 <= T -> Forall (fun w => (0 <= w)%Qc) ws ->
  Forall (fun x => (0 <= x)%Qc) (rawOf64 T ws).
Proof.
  intros HT Hws. unfold rawOf64. rewrite (nonnegOf_id _ Hws).
  pose proof (orElse_pos _ (sum64_nonneg _ Hws)) as Hs.
  apply Forall_fmap. eapply Forall_impl; [exact Hws|]. intros w Hw. simpl.
  unfold fmul, fdiv. apply round64_nonneg. apply Qc_mul_nonneg.
  - apply round64_nonneg. now apply Qcdiv_nonneg.
  - now apply ofZ_nonneg.
Qed.

Lemma sumQ_zero ws :
  Forall (fun w => (0 <= w)%Qc) ws -> sumQ ws = 0%Qc -> Forall (fun w => w = 0%Qc) ws.
Proof.
  induction 1 as [|w ws Hw Hws IH]; intros Hs; [constructor|].
  rewrite sumQ_cons in Hs. pose proof (sumQ_nonneg ws Hws) as Hn.
  assert (w = 0%Qc /\ sumQ ws = 0%Qc) as [-> Hz].
  { split; apply Qcle_antisym; try assumption.
    - rewrite <- Hs. rewrite <- (Qcplus_0_r w) at 1. now apply Qcplus_le_compat; [apply Qcle_refl|].
    - rewrite <- Hs. rewrite <- (Qcplus_0_l (sumQ ws)) at 1.
      now apply Qcplus_le_compat; [|apply Qcle_refl]. }
  constructor; [reflexivity|now apply IH].
Qed.

(** With all weights zero every share is zero. *)
Lemma rawOf64_zero T ws :
  Forall (fun w => w = 0%Qc) ws -> Forall (fun x => x = 0%Qc) (rawOf64 T ws).
Proof.
  intros Hz. unfold rawOf64.
  assert (nonnegOf ws = ws) as ->.
  { apply nonnegOf_id. eapply Forall_impl; [exact Hz|]. intros w ->. apply Qcle_refl. }
  apply Forall_fmap. eapply Forall_impl; [exact Hz|]. intros w ->. unfold compose. cbv beta.
  unfold fmul, fdiv, Qcdiv.
  replace (0 * / orElse (sum64 ws) 1)%Qc with 0%Qc by ring.
  rewrite round64_0. replace (0 * ofZ T)%Qc with 0%Qc by ring. reflexivity.
Qed.

Lemma sumZ_floor_zero l : Forall (fun x => x = 0%Qc) l -> sumZ (map MathFloor l) = 0.
Proof.
  induction 1 as [|x l -> _ IH]; [reflexivity|].
  simpl map. rewrite sumZ_cons, IH. reflexivity.
Qed.

(** The units left after flooring: none missing, and no more than entries. *)
Lemma rawOf64_rem T ws :
  Forall isDouble ws -> Forall (fun w => (0 <= w)%Qc) ws -> ws <> [] -> 0 <= T ->
  (T + 1) * (Z.of_nat (length ws) + 2) <= 2 ^ 50 ->
  0 <= T - sumZ (map MathFloor (rawOf64 T ws))
  /\ ((0 < sumQ ws)%Qc ->
      T - sumZ (map MathFloor (rawOf64 T ws)) <= Z.of_nat (length ws)).
Proof.
  intros Hd Hn Hne HT Hsize.
  destruct (Qcle_lt_or_eq _ _ (sumQ_nonneg ws Hn)) as [Hs|Hs]; [|symmetry in Hs].
  - destruct (rawOf64_sum T ws Hd Hn HT Hsize Hs) as [S1 S2].
    pose proof (sumZ_floor_le (rawOf64 T ws)) as Hle.
    assert (rawOf64 T ws <> []) as Hrne.
    { intros H. apply (f_equal length) in H. rewrite rawOf64_length in H.
      destruct ws; [done|simpl in H; lia]. }
    pose proof (sumZ_floor_lt (rawOf64 T ws) Hrne) as Hlt.
    rewrite rawOf64_length in Hlt.
    set (b := sumZ (map MathFloor (rawOf64 T ws))) in *.
    split; [|intros _].
    + assert (ofZ b < ofZ (T + 1))%Qc as H.
      { rewrite ofZ_add, ofZ_1. eapply Qcle_lt_trans; [exact Hle|exact S2]. }
      apply ofZ_lt in H. lia.
    + assert (ofZ (T - 1) < ofZ (b + Z.of_nat (length ws)))%Qc as H.
      { rewrite ofZ_sub, ofZ_1. eapply Qclt_trans; [exact S1|exact Hlt]. }
      apply ofZ_lt in H. lia.
  - split.
    + rewrite sumZ_floor_zero; [lia|]. apply rawOf64_zero. now apply sumQ_zero.
    + intros H. rewrite Hs in H. apply Qclt_not_le in H.
      exfalso. apply H, Qcle_refl.
Qed.

(** * [distributeToTotal64]: the shares against the exact quotients *)

Lemma accuracy_upper (s rho u c : Qc) :
  (0 <= s)%Qc -> (0 <= u)%Qc -> (u <= Q2Qc (1 # 8))%Qc -> (0 <= c)%Qc ->
  (c <= Q2Qc (1 # 4))%Qc -> (rho <= 1 + (c + c))%Qc ->
  (s * rho * ((1 + u) * (1 + u))
   <= s * (1 + (c + c + (1 + 1 + 1 + 1 + 1) * u)))%Qc.
Proof.
  intros Hs Hu Hu8 Hc Hc4 Hrho. toQ.
  set (S := this s) in *. set (r := this rho) in *. set (x := this u) in *.
  set (y := this c) in *.
  assert (0 <= (1 + (y + y) - r) * (S * ((1 + x) * (1 + x))))%Q
    by (apply Qmult_le_0_compat; [lra|repeat apply Qmult_le_0_compat; lra]).
  assert (0 <= ((1 # 4) - y) * x)%Q by (apply Qmult_le_0_compat; lra).
  assert (0 <= y * x)%Q by (apply Qmult_le_0_compat; lra).
  assert (0 <= S * x * (5 - (1 + (y + y)) * (2 + x)))%Q
    by (repeat apply Qmult_le_0_compat; lra).
  lra.
Qed.

Lemma accuracy_lower (s rho u c : Qc) :
  (0 <= s)%Qc -> (0 <= u)%Qc -> (u <= Q2Qc (1 # 8))%Qc -> (0 <= c)%Qc ->
  (c <= Q2Qc (1 # 4))%Qc -> (1 - c <= rho)%Qc ->
  (s * (1 - (c + c + (1 + 1 + 1 + 1 + 1) * u))
   <= s * rho * ((1 - u) * (1 - u)))%Qc.
Proof.
  intros Hs Hu Hu8 Hc Hc4 Hrho. toQ.
  set (S := this s) in *. set (r := this rho) in *. set (x := this u) in *.
  set (y := this c) in *.
  assert (0 <= (r - (1 - y)) * (S * ((1 - x) * (1 - x))))%Q
    by (apply Qmult_le_0_compat; [lra|repeat apply Qmult_le_0_compat; lra]).
  assert (0 <= S * (1 - y) * (x * x))%Q by (repeat apply Qmult_le_0_compat; lra).
  assert (0 <= S * y * x)%Q by (repeat apply Qmult_le_0_compat; lra).
  assert (0 <= S * y)%Q by (repeat apply Qmult_le_0_compat; lra).
  assert (0 <= S * x)%Q by (repeat apply Qmult_le_0_compat; lra).
  lra.
Qed.

(** A share as computed is the exact share [(w_i / sum w) * T] up to a
    relative error of [(4 n + 5) * 2^-53] and an absolute one of [2^-1024]. *)
Lemma share64_accuracy T ws i :
  Forall isDouble ws -> Forall (fun w => (0 <= w)%Qc) ws -> 0 <= T ->
  (T + 1) * (Z.of_nat (length ws) + 2) <= 2 ^ 50 -> (0 < sumQ ws)%Qc ->
  (share T ws i * (1 - ofZ (4 * Z.of_nat (length ws) + 5) * pow2 (-53)) - pow2 (-1024)
   <= share64 T ws i)%Qc
  /\ (share64 T ws i
      <= share T ws i * (1 + ofZ (4 * Z.of_nat (length ws) + 5) * pow2 (-53))
         + pow2 (-1024))%Qc.
Proof.
  intros Hd Hn HT Hsize Hs.
  set (n := Z.of_nat (length ws)) in *.
  assert (0 <= n) as Hn0 by (unfold n; lia).
  assert (n + 2 <= 2 ^ 50 /\ T <= 2 ^ 50) as (Hn50 & HT50) by nia.
  assert (2 * n <= 2 ^ 51) as Hn51 by lia.
  assert (2 * n <= 2 ^ 52) as Hn52 by lia.
  pose proof (sum64_pos ws Hd Hn Hn51 Hs) as HF.
  destruct (sum64_bounds ws Hd Hn Hn52) as [[F1 F2] _]. fold n in F1, F2.
  unfold share, share64.
  assert (0 <= default 0%Qc (ws !! i))%Qc as Hw.
  { destruct (ws !! i) as [w|] eqn:Hi; simpl; [|apply Qcle_refl].
    apply (proj1 (Forall_forall _ _) Hn). now apply list_elem_of_lookup_2 in Hi. }
  generalize dependent (default 0%Qc (ws !! i)). intros w Hw.
  set (F := sum64 ws) in *. set (A := sumQ ws) in *.
  set (c := (ofZ (2 * n) * pow2 (-53))%Qc) in *.
  assert (0 <= A)%Qc as HA by now apply Qclt_le_weak.
  assert (0 <= ofZ T)%Qc as HTq by now apply ofZ_nonneg.
  assert (0 <= pow2 (-53))%Qc as Hu by apply Qclt_le_weak, pow2_pos.
  assert (pow2 (-53) <= Q2Qc (1 # 8))%Qc as Hu8 by (rewrite <- pow2_m3; apply pow2_le; lia).
  assert (0 <= c)%Qc as Hc by (apply Qc_mul_nonneg; [apply ofZ_nonneg; lia|exact Hu]).
  assert (c <= Q2Qc (1 # 4))%Qc as Hc4.
  { rewrite <- pow2_m2. apply (scaled_le_to _ 51); lia. }
  assert (0 <= w / A * ofZ T)%Qc as Hsh.
  { apply Qc_mul_nonneg; [now apply Qcdiv_nonneg|exact HTq]. }
  assert (A <> 0%Qc) as HAne by now apply pos_nonzero.
  assert (F <> 0%Qc) as HFne by now apply pos_nonzero.
  assert (ofZ (4 * n + 5) * pow2 (-53)
          = c + c + (1 + 1 + 1 + 1 + 1) * pow2 (-53))%Qc as ->.
  { unfold c. replace (4 * n + 5) with (2 * n + 2 * n + (1 + 1 + 1 + 1 + 1)) by lia.
    rewrite !ofZ_add, ofZ_1. ring. }
  destruct (share64_bounds w F T Hw HF HT) as [[S1 S2] _].
  split.
  - eapply Qcle_trans; [|exact S1].
    apply Qcplus_le_compat.
    + replace (w * (/ F * ofZ T * ((1 - pow2 (-53)) * (1 - pow2 (-53)))))%Qc
        with (w / A * ofZ T * (A * / F) * ((1 - pow2 (-53)) * (1 - pow2 (-53))))%Qc
        by (field; split; assumption).
      apply accuracy_lower; try assumption.
      apply ratio_lower; try assumption.
      eapply Qcle_trans; [exact Hc4|]. toQ. lra.
    + apply Qcopp_le_compat.
      replace (pow2 (-1075) * (ofZ T + 1))%Qc with (ofZ (T + 1) * pow2 (-1075))%Qc
        by (rewrite ofZ_add, ofZ_1; ring).
      apply (scaled_le_to _ 51); lia.
  - eapply Qcle_trans; [exact S2|].
    apply Qcplus_le_compat.
    + replace (w * (/ F * ofZ T * ((1 + pow2 (-53)) * (1 + pow2 (-53)))))%Qc
        with (w / A * ofZ T * (A * / F) * ((1 + pow2 (-53)) * (1 + pow2 (-53))))%Qc
        by (field; split; assumption).
      apply accuracy_upper; try assumption.
      apply ratio_upper; assumption.
    + replace (pow2 (-1075) * (ofZ T + ofZ T + 1))%Qc
        with (ofZ (T + T + 1) * pow2 (-1075))%Qc
        by (rewrite !ofZ_add, ofZ_1; ring).
      apply (scaled_le_to _ 51); lia.
Qed.

(** * [distributeToTotal64]: the apportionment *)

(** C1, amended.  Let the weights be doubles, not negative and at least one
    of them, their sum below [2^1023] so that no operation overflows, and let
    the total [T >= 0] and the number [n] of weights satisfy
    [(T + 1) * (n + 2) <= 2^50].  Then [distributeToTotal], computing in
    doubles as the code does, returns one non-negative integer per weight, and
    they sum to exactly [T].  When the weights are not all zero, the share
    [(w_i / sum w) * T] as computed is the exact one up to a relative error of
    [(4 n + 5) * 2^-53] (and [2^-1024]); entry [i] receives the floor of its
    share as computed, and the units left over, at most as many as there are
    entries, go one each to the entries with the largest fractional
    remainders of the shares as computed, entries of equal remainder in their
    original order. *)
Theorem distributeToTotal64_largest_remainder (T : Z) (ws : list Qc) :
  0 <= T -> ws <> [] ->
  Forall isDouble ws -> Forall (fun w => (0 <= w)%Qc) ws -> (sumQ ws < pow2 1023)%Qc ->
  (T + 1) * (Z.of_nat (length ws) + 2) <= 2 ^ 50 ->
  exists out,
    distributeToTotal64 T ws = Some out /\
    length out = length ws /\
    Forall (fun v => 0 <= v) out /\
    sumZ out = T /\
    ((0 < sumQ ws)%Qc ->
     let rem := firstUnits64 T ws in
     let eps := (ofZ (4 * Z.of_nat (length ws) + 5) * pow2 (-53))%Qc in
     0 <= rem <= Z.of_nat (length ws) /\
     (forall i, (i < length ws)%nat ->
        (share T ws i * (1 - eps) - pow2 (-1024) <= share64 T ws i)%Qc
        /\ (share64 T ws i <= share T ws i * (1 + eps) + pow2 (-1024))%Qc) /\
     exists order,
       order ≡ₚ seq 0 (length ws) /\
       StronglySorted (precedes64 T ws) order /\
       forall i, (i < length ws)%nat ->
         out !! i =
           Some (MathFloor (share64 T ws i)
                 + if decide (i ∈ take (Z.to_nat rem) order) then 1 else 0)).
Proof.
  intros HT Hne Hd Hws _ Hsize. unfold distributeToTotal64.
  set (raw := rawOf64 T ws). set (base := map MathFloor raw).
  set (rem := T - sumZ base).
  assert (length base = length raw) as Hlen by (unfold base; now rewrite length_map).
  pose proof (rawOf64_length T ws) as Hraw. fold raw in Hraw.
  destruct (orderOf64_indices raw base Hlen) as [Hol Hoi].
  assert (orderOf64 raw base <> []) as Hone.
  { intros H. rewrite H in Hol. simpl in Hol. destruct ws; [done|simpl in *; lia]. }
  assert (Forall (fun v => 0 <= v) base) as Hbase.
  { unfold base. apply Forall_fmap. eapply Forall_impl; [apply rawOf64_nonneg; done|].
    intros x Hx. now apply MathFloor_nonneg. }
  destruct (rawOf64_rem T ws Hd Hws Hne HT Hsize) as [Hrem Hremn]. fold raw base rem in Hrem, Hremn.
  destruct (bumpAll_total (orderOf64 raw base) (seq 0 (Z.to_nat rem)) base Hone Hoi)
    as (out & Hout & Hlo & Hsum & Hmono).
  exists out. split; [exact Hout|]. split; [lia|]. split; [|split].
  - apply Forall_forall. intros y Hy. apply list_elem_of_lookup in Hy as [p Hp].
    destruct (base !! p) as [x|] eqn:Hx.
    + pose proof (Forall2_lookup_lr _ _ _ _ _ _ Hmono Hx Hp).
      pose proof (proj1 (Forall_forall _ _) Hbase x (list_elem_of_lookup_2 _ _ _ Hx)).
      simpl in *. lia.
    + apply lookup_ge_None in Hx. apply lookup_lt_Some in Hp. lia.
  - rewrite Hsum, length_seq. unfold rem in *. lia.
  - intros Hs.
    assert (0 < sum64 ws)%Qc as HF.
    { apply sum64_pos; try assumption. nia. }
    assert (firstUnits64 T ws = rem) as ->.
    { unfold firstUnits64, rem, base, raw. now rewrite base64_shares. }
    split; [split; [exact Hrem|now apply Hremn]|].
    split; [intros i _; now apply share64_accuracy|].
    destruct (orderOf64_spec T ws Hws HF) as [Hperm Hsorted]. fold raw base in Hperm, Hsorted.
    exists (map Frac.i (orderOf64 raw base)). split; [exact Hperm|]. split; [exact Hsorted|].
    intros i Hi.
    destruct (bumpAll_first (orderOf64 raw base) (Z.to_nat rem) base) as (out' & Hout' & Hspec).
    { specialize (Hremn Hs). lia. }
    { rewrite Hperm. apply NoDup_seq. }
    { exact Hoi. }
    rewrite Hout in Hout'. simplify_eq.
    assert (base !! i = Some (MathFloor (share64 T ws i))) as Hb.
    { unfold base, raw. rewrite base64_shares by done.
      rewrite list_lookup_fmap, lookup_seq_lt by done. done. }
    rewrite (Hspec _ _ Hb). rewrite <- fmap_take. done.
Qed.

(** * Binary64 on examples *)

(** The double nearest to one tenth; the sum of the doubles nearest to one
    tenth and to two tenths, which is not the double nearest to three
    tenths; one forty-ninth times forty-nine, which is the double below
    one; and the smallest positive double, whose half is rounded to zero. *)
Example round64_tenth :
  round64 (Q2Qc (1 # 10)) = Q2Qc (3602879701896397 # 36028797018963968).
Proof. apply Qc_is_canon. by vm_compute. Qed.

Example fadd_tenths :
  fadd (round64 (Q2Qc (1 # 10))) (round64 (Q2Qc (2 # 10)))
  = Q2Qc (1351079888211149 # 4503599627370496)
  /\ round64 (Q2Qc (3 # 10)) = Q2Qc (5404319552844595 # 18014398509481984).
Proof. split; apply Qc_is_canon; by vm_compute. Qed.

Example fmul_fortyninth :
  fmul (fdiv (ofZ 1) (ofZ 49)) (ofZ 49) = (1 - pow2 (-53))%Qc.
Proof. apply Qc_is_canon. by vm_compute. Qed.

Example round64_smallest :
  round64 (pow2 (-1074)) = pow2 (-1074)
  /\ fdiv (pow2 (-1074)) (ofZ 2) = 0%Qc
  /\ fdiv (ofZ 3 * pow2 (-1074)) (ofZ 2) = (ofZ 2 * pow2 (-1074))%Qc.
Proof. repeat split; apply Qc_is_canon; by vm_compute. Qed.

(** * [distributeToTotal64] on examples *)

Example distribute64_333 :
  distributeToTotal64 10 [ofZ 3; ofZ 3; ofZ 3] = Some [4; 3; 3].
Proof. by vm_compute. Qed.

(** The units left over can be as many as there are entries: the exact
    shares of 214 over the weights 27, 126 and 61, which sum to 214, are the
    weights, but each share as computed is just below its weight. *)
Example distribute64_all_below :
  firstUnits64 214 [ofZ 27; ofZ 126; ofZ 61] = 3
  /\ distributeToTotal64 214 [ofZ 27; ofZ 126; ofZ 61] = Some [27; 126; 61].
Proof. split; by vm_compute. Qed.

Lemma distributeToTotal64_largest_remainder_witness :
  0 <= 10 /\ [ofZ 3; ofZ 3; ofZ 3] <> []
  /\ Forall isDouble [ofZ 3; ofZ 3; ofZ 3]
  /\ Forall (fun w => (0 <= w)%Qc) [ofZ 3; ofZ 3; ofZ 3]
  /\ (sumQ [ofZ 3; ofZ 3; ofZ 3] < pow2 1023)%Qc
  /\ (10 + 1) * (Z.of_nat (length [ofZ 3; ofZ 3; ofZ 3]) + 2) <= 2 ^ 50
  /\ exists out,
       distributeToTotal64 10 [ofZ 3; ofZ 3; ofZ 3] = Some out /\ sumZ out = 10.
Proof.
  assert (Forall isDouble [ofZ 3; ofZ 3; ofZ 3]) as Hd.
  { repeat (apply Forall_cons; split; [apply Qc_is_canon; by vm_compute|]).
    apply Forall_nil_2. }
  assert (Forall (fun w => (0 <= w)%Qc) [ofZ 3; ofZ 3; ofZ 3]) as Hws.
  { repeat (apply Forall_cons; split; [by vm_compute|]). apply Forall_nil_2. }
  assert (sumQ [ofZ 3; ofZ 3; ofZ 3] < pow2 1023)%Qc as Hs by (by vm_compute).
  assert ((10 + 1) * (Z.of_nat (length [ofZ 3; ofZ 3; ofZ 3]) + 2) <= 2 ^ 50) as Hn
    by (simpl; lia).
  split; [lia|]. split; [done|]. split; [exact Hd|]. split; [exact Hws|].
  split; [exact Hs|]. split; [exact Hn|].
  destruct (distributeToTotal64_largest_remainder 10 [ofZ 3; ofZ 3; ofZ 3])
    as (out & Hout & _ & _ & Hsum & _); [lia|done|exact Hd|exact Hws|exact Hs|exact Hn|].
  exists out. split; [exact Hout|exact Hsum].
Defined.

(** C1 fails as stated, in four ways.  For no weight at all and a total of
    one the function throws.  For the one weight zero and a total of three the
    share is zero and the entry receives three units.  For the weights 772
    and 423 and the total 8344701729370864 the shares as computed are whole
    numbers that sum to one more than the total, no unit is left, and the
    result sums to one more than the total.  And for the weights 1, 1, 7 and
    the total 3 the exact shares 1/3, 1/3 and 7/3 have equal remainders, so
    that the unit left would go to the first entry; as computed the third
    share has the largest remainder and receives it. *)
Lemma distributeToTotal64_as_stated :
  distributeToTotal64 1 [] = None
  /\ distributeToTotal64 3 [0%Qc] = Some [3]
  /\ (distributeToTotal64 8344701729370864 [ofZ 772; ofZ 423]
      = Some [5390886807593563; 2953814921777302]
      /\ sumZ [5390886807593563; 2953814921777302] = 8344701729370864 + 1)
  /\ (distributeToTotal64 3 [ofZ 1; ofZ 1; ofZ 7] = Some [0; 0; 3]
      /\ map (remainder 3 [ofZ 1; ofZ 1; ofZ 7]) [0; 1; 2]%nat
         = [Q2Qc (1 # 3); Q2Qc (1 # 3); Q2Qc (1 # 3)]
      /\ (remainder64 3 [ofZ 1; ofZ 1; ofZ 7] 0 < remainder64 3 [ofZ 1; ofZ 1; ofZ 7] 2)%Qc).
Proof.
  split; [by vm_compute|]. split; [by vm_compute|].
  split; [split; by vm_compute|].
  split; [by vm_compute|]. split; [|by vm_compute].
  simpl map. repeat f_equal; apply Qc_is_canon; by vm_compute.
Qed.

(** * [distributeToTotal]: when it returns *)

Lemma distributeToTotal_nil T :
  distributeToTotal T [] = if 0 <? T then None else Some [].
Proof.
  unfold distributeToTotal. simpl. change (sumZ []) with 0. rewrite Z.sub_0_r.
  destruct (0 <? T) eqn:HT.
  - apply Z.ltb_lt in HT. destruct (Z.to_nat T) as [|n] eqn:Hn; [lia|]. reflexivity.
  - apply Z.ltb_ge in HT. replace (Z.to_nat T) with 0%nat by lia. reflexivity.
Qed.

Lemma distributeToTotal_returns T ws :
  ws <> [] ->
  exists out, distributeToTotal T ws = Some out /\ length out = length ws.
Proof.
  intros Hne. unfold distributeToTotal.
  set (raw := rawOf T ws). set (base := map MathFloor raw).
  assert (length base = length raw) as Hlen by (unfold base; now rewrite length_map).
  pose proof (rawOf_length T ws) as Hraw. fold raw in Hraw.
  destruct (orderOf_indices raw base Hlen) as [Hol Hoi].
  assert (orderOf raw base <> []) as Hone.
  { intros H. rewrite H in Hol. simpl in Hol. destruct ws; [done|simpl in *; lia]. }
  destruct (bumpAll_total (orderOf raw base) (seq 0 (Z.to_nat (T - sumZ base))) base Hone Hoi)
    as (out & Hout & Hlo & _).
  exists out. split; [done|lia].
Qed.

Lemma distributeToTotal_length T ws out :
  distributeToTotal T ws = Some out -> length out = length ws.
Proof.
  destruct ws as [|w ws].
  - rewrite distributeToTotal_nil. destruct (0 <? T); [done|]. now intros [= <-].
  - intros H. destruct (distributeToTotal_returns T (w :: ws)) as (out' & Ho & Hl); [done|].
    congruence.
Qed.

Lemma rawOf_sum_le T ws : 0 <= T -> (sumQ (rawOf T ws) <= ofZ T)%Qc.
Proof.
  intros HT. unfold rawOf. set (nn := nonnegOf ws).
  assert (Forall (fun w => (0 <= w)%Qc) nn) as Hnn.
  { unfold nn, nonnegOf. apply Forall_fmap, Forall_true. intros w. simpl.
    destruct (isPos w) eqn:Hp; [|done]. now apply Qclt_le_weak, isPos_true. }
  pose proof (rawOf_sum T nn Hnn) as Hs. unfold rawOf in Hs.
  rewrite (nonnegOf_id _ Hnn) in Hs. rewrite Hs.
  destruct (isZero (sumQ nn)); [|apply Qcle_refl].
  now apply ofZ_nonneg.
Qed.

(** Whatever the weights, a returned allocation of a target [T >= 0] sums
    to [T]. *)
Lemma distributeToTotal_sum T ws out :
  0 <= T -> distributeToTotal T ws = Some out -> sumZ out = T.
Proof.
  intros HT. destruct (decide (ws = [])) as [->|Hne].
  - rewrite distributeToTotal_nil. destruct (0 <? T) eqn:H0; [done|].
    intros [= <-]. apply Z.ltb_ge in H0. change (sumZ []) with 0. lia.
  - intros Hout. unfold distributeToTotal in Hout.
    set (raw := rawOf T ws) in *. set (base := map MathFloor raw) in *.
    assert (length base = length raw) as Hlen by (unfold base; now rewrite length_map).
    pose proof (rawOf_length T ws) as Hraw. fold raw in Hraw.
    destruct (orderOf_indices raw base Hlen) as [Hol Hoi].
    assert (orderOf raw base <> []) as Hone.
    { intros H. rewrite H in Hol. simpl in Hol. destruct ws; [done|simpl in *; lia]. }
    destruct (bumpAll_total (orderOf raw base) (seq 0 (Z.to_nat (T - sumZ base))) base Hone Hoi)
      as (out' & Hout' & _ & Hsum & _).
    rewrite Hout in Hout'. injection Hout' as <-. rewrite Hsum, length_seq.
    assert (0 <= T - sumZ base); [|lia].
    pose proof (sumZ_floor_le raw) as Hle. fold base in Hle.
    pose proof (rawOf_sum_le T ws HT) as Hub. fold raw in Hub.
    eapply Qcle_trans in Hub; [|exact Hle]. apply ofZ_le in Hub. lia.
Qed.

(** * The rows of the probability matrix *)

Lemma sumQ_ofZ l : sumQ (map ofZ l) = ofZ (sumZ l).
Proof.
  induction l as [|x l IH]; simpl; [symmetry; apply ofZ_0|].
  now rewrite sumQ_cons, sumZ_cons, ofZ_add, IH.
Qed.

Lemma Qcdiv_unit a s : (0 <= a)%Qc -> (a <= s)%Qc -> (0 < s)%Qc ->
  (0 <= a / s)%Qc /\ (a / s <= 1)%Qc.
Proof.
  intros Ha Has Hs. pose proof (Qcinv_pos _ Hs) as Hi. unfold Qcdiv. split.
  - apply Qcmult_nonneg_nonneg; [done|now apply Qclt_le_weak].
  - replace 1%Qc with (s * / s)%Qc.
    + apply Qcmult_le_compat_r; [done|now apply Qclt_le_weak].
    + apply Qcmult_inv_r. intros ->. done.
Qed.

Lemma sumZ_member_le l x : Forall (fun v => 0 <= v) l -> x ∈ l -> x <= sumZ l.
Proof.
  induction 1 as [|y l Hy Hl IH]; intros Hx; [by apply elem_of_nil in Hx|].
  rewrite sumZ_cons. pose proof (sumZ_nonneg _ Hl).
  apply elem_of_cons in Hx as [->|Hx]; [lia|]. specialize (IH Hx). lia.
Qed.

(** A row of counts that are not negative normalises to a row of
    probabilities: all zero, or summing to one within [2^-53] for each
    entry. *)
Lemma rowProbs_row row :
  Forall (fun v => 0 <= v) row ->
  Forall (fun p => (0 <= p)%Qc /\ (p <= 1)%Qc) (rowProbs row)
  /\ (if sumZ row =? 0 then Forall (fun p => p = 0%Qc) (rowProbs row)
      else
        (1 - ofZ (Z.of_nat (length row)) * pow2 (-53) <= sumQ (rowProbs row))%Qc
        /\ (sumQ (rowProbs row) <= 1 + ofZ (Z.of_nat (length row)) * pow2 (-53))%Qc).
Proof.
  intros Hrow. unfold rowProbs. destruct (sumZ row =? 0) eqn:Hs.
  - split; apply Forall_fmap, Forall_true; intros v; simpl; done.
  - apply Z.eqb_neq in Hs. pose proof (sumZ_nonneg _ Hrow) as Hnn.
    assert (0 < ofZ (sumZ row))%Qc as Hpos by (apply ofZ_pos; lia).
    assert (Forall (fun w => (0 <= w / ofZ (sumZ row))%Qc /\ (w / ofZ (sumZ row) <= 1)%Qc)
              (map ofZ row)) as Hunit.
    { apply Forall_fmap, Forall_forall. intros v Hv. simpl.
      apply Qcdiv_unit; [| |done].
      * apply ofZ_nonneg. exact (proj1 (Forall_forall _ _) Hrow v Hv).
      * apply ofZ_mono. now apply sumZ_member_le. }
    rewrite <- (map_map ofZ (fun w => fdiv w (ofZ (sumZ row)))).
    assert (sumQ (map ofZ row) * / ofZ (sumZ row) = 1)%Qc as Hone.
    { rewrite sumQ_ofZ. apply Qcmult_inv_r. intros H. rewrite H in Hpos. done. }
    assert (length (map ofZ row) = length row) as Hlen by apply length_map.
    split; [|split].
    + apply Forall_fmap. eapply Forall_impl; [exact Hunit|]. intros w [H0 H1]. simpl.
      unfold fdiv. split; [now apply round64_nonneg|now apply round64_le_1].
    + rewrite <- Hone, <- Hlen. apply sumQ_map_lower.
      eapply Forall_impl; [exact Hunit|]. intros w [H0 H1]. simpl.
      now apply round64_unit_error.
    + rewrite <- Hone, <- Hlen. apply sumQ_map_upper.
      eapply Forall_impl; [exact Hunit|]. intros w [H0 H1]. simpl.
      now apply round64_unit_error.
Qed.

(** * The reprojection: the two branches *)

Lemma length_zero_iff {A} (l : list A) : (length l =? 0)%nat = true <-> l = [].
Proof. destruct l; simpl; split; intros; done. Qed.

Lemma reproject_no_session data fromDate toDate :
  sessionsInRange data fromDate toDate = [] ->
  reprojectForDateRange data fromDate toDate = Some (emptyShape data).
Proof. intros H. unfold reprojectForDateRange. now rewrite H. Qed.

Lemma distributeToTotal_None T ws :
  distributeToTotal T ws = None <-> ws = [] /\ 0 < T.
Proof.
  destruct ws as [|w ws].
  - rewrite distributeToTotal_nil. destruct (0 <? T) eqn:HT.
    + apply Z.ltb_lt in HT. tauto.
    + apply Z.ltb_ge in HT. split; [done|]. intros [_ ?]. lia.
  - destruct (distributeToTotal_returns T (w :: ws)) as (out & -> & _); [done|].
    split; [done|]. intros [? _]. done.
Qed.

(** What a reprojection with a session in range returns, field by field. *)
Lemma reproject_some_session data fromDate toDate out :
  sessionsInRange data fromDate toDate <> [] ->
  reprojectForDateRange data fromDate toDate = Some out ->
  let sessions := sessionsInRange data fromDate toDate in
  let ratio :=
    clamp (ofZ (Z.of_nat (length sessions))
           / ofZ (Z.of_nat (length (AnalyticsResponse.sessions data))))%Qc 0%Qc 1%Qc in
  let items := Leak.items (AnalyticsResponse.leak data) in
  let cats := AnalyticsResponse.categoryInteractions data in
  let scaled := map (map (scale ratio)) (Transitions.counts (AnalyticsResponse.transitions data)) in
  exists addsAlloc remsAlloc cartsAlloc,
    distributeToTotal (totalAddsOf sessions) (map (fun r => ofZ (LeakRow.adds r)) items)
      = Some addsAlloc /\
    distributeToTotal (totalRemovesOf sessions) (map (fun r => ofZ (LeakRow.removes r)) items)
      = Some remsAlloc /\
    distributeToTotal (totalAddsOf sessions) (map (fun c => ofZ (CategoryRow.carts c)) cats)
      = Some cartsAlloc /\
    AnalyticsResponse.sessions out = sessions /\
    AnalyticsResponse.leak out =
      Leak.mk
        (if 0 <? totalAddsOf sessions
         then (ofZ (totalRemovesOf sessions) / ofZ (totalAddsOf sessions))%Qc else 0%Qc)
        (sortBy leakOrder (imap (reprojectLeakRow addsAlloc remsAlloc) items)) /\
    AnalyticsResponse.categoryInteractions out =
      sortBy totalOrder (imap (reprojectCategory ratio cartsAlloc) cats) /\
    AnalyticsResponse.transitions out =
      Transitions.mk (Transitions.states (AnalyticsResponse.transitions data))
        scaled (map rowProbs scaled) /\
    AnalyticsResponse.sankey out =
      Sankey.mk (Sankey.nodes (AnalyticsResponse.sankey data))
        (List.filter
           (fun l => (0 <? Link.value l) && negb (Link.source l =? Link.target l)%nat)
           (cells scaled)) /\
    AnalyticsResponse.daily out =
      Daily.mk
        (List.filter (fun r => inRange fromDate toDate (DailyRow.date r))
           (Daily.series (AnalyticsResponse.daily data)))
        (Daily.anomaly (AnalyticsResponse.daily data)) /\
    AnalyticsResponse.recos out = AnalyticsResponse.recos data /\
    AnalyticsResponse.geoInsights out = AnalyticsResponse.geoInsights data /\
    AnalyticsResponse.priceMarkov out = AnalyticsResponse.priceMarkov data /\
    AnalyticsResponse.priceMarkovMeta out = AnalyticsResponse.priceMarkovMeta data /\
    AnalyticsResponse.itemMeta out = AnalyticsResponse.itemMeta data /\
    AnalyticsResponse.__version out = AnalyticsResponse.__version data /\
    AnalyticsResponse.frequentBundles out =
      map (fun b => Bundle.mk (Bundle.items b) (Bundle.support b * ratio)%Qc)
        (AnalyticsResponse.frequentBundles data) /\
    AnalyticsResponse.priceBands out =
      PriceBands.mk
        (map (fun b =>
                Band.mk (Band.name b) (Band.min b) (Band.max b)
                  (Band.viewToCart b) (Band.wishToCart b)
                  (scale ratio (Band.nView b)) (scale ratio (Band.nWish b)))
           (PriceBands.bands (AnalyticsResponse.priceBands data))) /\
    AnalyticsResponse.priceRangeData out =
      (let prices := AnalyticsResponse.priceRangeData data in
       PriceRangeData.mk
         (scaleArray ratio (PriceRangeData.viewFromPrices prices))
         (scaleArray ratio (PriceRangeData.viewToCartFromPrices prices))
         (scaleArray ratio (PriceRangeData.cartAddPrices prices))
         (scaleArray ratio (PriceRangeData.cartRemovePrices prices))).
Proof.
  intros Hne Hout. unfold reprojectForDateRange in Hout.
  destruct (length _ =? 0)%nat eqn:Hz; [apply length_zero_iff in Hz; done|].
  destruct (distributeToTotal _ (map (fun r => ofZ (LeakRow.adds r)) _)) as [aa|] eqn:Ha;
    simpl in Hout; [|done].
  destruct (distributeToTotal _ (map (fun r => ofZ (LeakRow.removes r)) _)) as [ra|] eqn:Hr;
    simpl in Hout; [|done].
  destruct (distributeToTotal _ (map (fun c => ofZ (CategoryRow.carts c)) _)) as [ca|] eqn:Hc;
    simpl in Hout; [|done].
  injection Hout as <-. exists aa, ra, ca. simpl. repeat split; done.
Qed.

Lemma reproject_None data fromDate toDate :
  reprojectForDateRange data fromDate toDate = None <->
  let sessions := sessionsInRange data fromDate toDate in
  (Leak.items (AnalyticsResponse.leak data) = []
   /\ (0 < totalAddsOf sessions \/ 0 < totalRemovesOf sessions))
  \/ (AnalyticsResponse.categoryInteractions data = [] /\ 0 < totalAddsOf sessions).
Proof.
  simpl. unfold reprojectForDateRange.
  destruct (length _ =? 0)%nat eqn:Hz.
  - apply length_zero_iff in Hz. rewrite Hz. unfold totalAddsOf, totalRemovesOf. simpl.
    split; [done|]. intros [[_ [?|?]]|[_ ?]]; lia.
  - destruct (distributeToTotal _ (map (fun r => ofZ (LeakRow.adds r)) _)) as [aa|] eqn:Ha; simpl.
    2:{ apply distributeToTotal_None in Ha as [Hi HT]. apply map_eq_nil in Hi.
        split; [|done]. intros _. left. split; [done|]. now left. }
    destruct (distributeToTotal _ (map (fun r => ofZ (LeakRow.removes r)) _)) as [ra|] eqn:Hr; simpl.
    2:{ apply distributeToTotal_None in Hr as [Hi HT]. apply map_eq_nil in Hi.
        split; [|done]. intros _. left. split; [done|]. now right. }
    destruct (distributeToTotal _ (map (fun c => ofZ (CategoryRow.carts c)) _)) as [ca|] eqn:Hc; simpl.
    2:{ apply distributeToTotal_None in Hc as [Hi HT]. apply map_eq_nil in Hi.
        split; [|done]. intros _. right. done. }
    split; [done|]. intros [[Hi [HT|HT]]|[Hi HT]].
    + assert (distributeToTotal (totalAddsOf (sessionsInRange data fromDate toDate))
                (map (fun r => ofZ (LeakRow.adds r)) (Leak.items (AnalyticsResponse.leak data))) = None)
        as Hn by (apply distributeToTotal_None; rewrite Hi; done).
      congruence.
    + assert (distributeToTotal (totalRemovesOf (sessionsInRange data fromDate toDate))
                (map (fun r => ofZ (LeakRow.removes r)) (Leak.items (AnalyticsResponse.leak data))) = None)
        as Hn by (apply distributeToTotal_None; rewrite Hi; done).
      congruence.
    + assert (distributeToTotal (totalAddsOf (sessionsInRange data fromDate toDate))
                (map (fun c => ofZ (CategoryRow.carts c)) (AnalyticsResponse.categoryInteractions data)) = None)
        as Hn by (apply distributeToTotal_None; rewrite Hi; done).
      congruence.
Qed.

(** * Empty ranges (C6) and the frame of a reprojection (C10) *)

(** C6. For every input bundle and every range that matches no session,
    [reprojectForDateRange] returns, without throwing, the empty shape: no
    sessions, no daily rows, a leak of 0 without items, no category rows, no
    price samples, no price bands, the five states with two 5x5 matrices of
    zeros, and no flow link. *)
Theorem reproject_empty_range data fromDate toDate :
  sessionsInRange data fromDate toDate = [] ->
  exists out,
    reprojectForDateRange data fromDate toDate = Some out /\
    AnalyticsResponse.sessions out = [] /\
    Daily.series (AnalyticsResponse.daily out) = [] /\
    AnalyticsResponse.leak out = Leak.mk 0%Qc [] /\
    AnalyticsResponse.categoryInteractions out = [] /\
    AnalyticsResponse.priceRangeData out = PriceRangeData.mk [] [] [] [] /\
    AnalyticsResponse.priceBands out = PriceBands.mk [] /\
    AnalyticsResponse.transitions out =
      Transitions.mk
        ["cart_add"; "cart_remove"; "view"; "wishlist_add"; "wishlist_remove"]%string
        [[0; 0; 0; 0; 0]; [0; 0; 0; 0; 0]; [0; 0; 0; 0; 0]; [0; 0; 0; 0; 0];
         [0; 0; 0; 0; 0]]
        (replicate 5 (replicate 5 0%Qc)) /\
    Sankey.links (AnalyticsResponse.sankey out) = [].
Proof.
  intros H. exists (emptyShape data).
  split; [now apply reproject_no_session|]. repeat split.
Qed.

(** C10. For every input bundle and every range that matches a session, the
    bundle that [reprojectForDateRange] returns has the [geoInsights],
    [priceMarkov], [priceMarkovMeta], [itemMeta], [daily.anomaly] and
    [__version] of the input; and the call returns unless it is asked to
    spread a positive total over an empty leak table or category table. *)
Theorem reproject_frame data fromDate toDate :
  sessionsInRange data fromDate toDate <> [] ->
  match reprojectForDateRange data fromDate toDate with
  | Some out =>
      AnalyticsResponse.geoInsights out = AnalyticsResponse.geoInsights data /\
      AnalyticsResponse.priceMarkov out = AnalyticsResponse.priceMarkov data /\
      AnalyticsResponse.priceMarkovMeta out = AnalyticsResponse.priceMarkovMeta data /\
      AnalyticsResponse.itemMeta out = AnalyticsResponse.itemMeta data /\
      Daily.anomaly (AnalyticsResponse.daily out)
        = Daily.anomaly (AnalyticsResponse.daily data) /\
      AnalyticsResponse.__version out = AnalyticsResponse.__version data
  | None =>
      let sessions := sessionsInRange data fromDate toDate in
      (Leak.items (AnalyticsResponse.leak data) = []
       /\ (0 < totalAddsOf sessions \/ 0 < totalRemovesOf sessions))
      \/ (AnalyticsResponse.categoryInteractions data = [] /\ 0 < totalAddsOf sessions)
  end.
Proof.
  intros Hne. destruct (reprojectForDateRange data fromDate toDate) as [out|] eqn:Hout.
  - destruct (reproject_some_session _ _ _ _ Hne Hout)
      as (aa & ra & ca & _ & _ & _ & _ & _ & _ & _ & _ & Hd & _ & Hg & Hp & Hm & Hi & Hv & _).
    rewrite Hd. repeat split; done.
  - now apply reproject_None in Hout.
Qed.

(** * Sets and maps in insertion order *)

Lemma sumZ_perm l1 l2 : l1 ≡ₚ l2 -> sumZ l1 = sumZ l2.
Proof.
  induction 1 as [|x l1 l2 _ IH|x y l|l1 l2 l3 _ IH1 _ IH2];
    rewrite ?sumZ_cons; lia.
Qed.

Section SetOf.
Context {A : Type} `{EqDecision A}.

Lemma setAdd_elem (s : list A) x y : y ∈ setAdd s x <-> y ∈ s \/ y = x.
  Proof.
    unfold setAdd. destruct (decide (x ∈ s)) as [Hin|Hin].
    - split; [tauto|]. intros [?| ->]; done.
    - rewrite elem_of_app, list_elem_of_singleton. tauto.
  Qed.

Lemma setAdd_NoDup (s : list A) x : NoDup s -> NoDup (setAdd s x).
  Proof.
    intros Hs. unfold setAdd. destruct (decide (x ∈ s)) as [Hin|Hin]; [done|].
    apply NoDup_app. split; [done|]. split; [|apply NoDup_singleton].
    intros y Hy ->%list_elem_of_singleton. done.
  Qed.

Lemma fold_setAdd_spec (l s : list A) :
    NoDup s ->
    NoDup (fold_left setAdd l s)
    /\ forall y, y ∈ fold_left setAdd l s <-> y ∈ s \/ y ∈ l.
  Proof.
    revert s. induction l as [|x l IH]; intros s Hs; simpl.
    - split; [done|]. intros y. rewrite elem_of_nil. tauto.
    - destruct (IH (setAdd s x) (setAdd_NoDup _ _ Hs)) as [Hnd Hel].
      split; [done|]. intros y. rewrite Hel, setAdd_elem, elem_of_cons. tauto.
  Qed.

Lemma setOf_NoDup (l : list A) : NoDup (setOf l).
  Proof. apply fold_setAdd_spec, NoDup_nil_2. Qed.

Lemma setOf_elem (l : list A) y : y ∈ setOf l <-> y ∈ l.
  Proof.
    unfold setOf. destruct (fold_setAdd_spec l [] (NoDup_nil_2)) as [_ H].
    rewrite H, elem_of_nil. tauto.
  Qed.
End SetOf.

Section JsMapFacts.
Context {K V : Type} `{EqDecision K}.
Implicit Types (m : list (K * V)) (k : K) (v : V).

Lemma mapGet_mapSet m k k' v :
    mapGet k' (mapSet k v m) = if decide (k' = k) then Some v else mapGet k' m.
  Proof.
    induction m as [|[k0 v0] m IH]; simpl.
    - destruct (decide (k' = k)); done.
    - destruct (decide (k = k0)) as [-> |Hne]; simpl.
      + destruct (decide (k' = k0)); done.
      + destruct (decide (k' = k0)) as [-> |Hne'].
        * rewrite decide_False by done. done.
        * exact IH.
  Qed.

Lemma mapSet_keys m k v :
    map fst (mapSet k v m)
    = if decide (k ∈ map fst m) then map fst m else map fst m ++ [k].
  Proof.
    induction m as [|[k0 v0] m IH].
    - cbn [mapSet map]. rewrite decide_False; [done|]. apply not_elem_of_nil.
    - cbn [mapSet map fst]. destruct (decide (k = k0)) as [-> |Hne]; cbn [map fst].
      + rewrite decide_True; [done|]. apply elem_of_cons. now left.
      + rewrite IH. destruct (decide (k ∈ map fst m)) as [Hin|Hin].
        * rewrite decide_True; [done|]. apply elem_of_cons. now right.
        * rewrite decide_False; [done|]. intros [?|?]%elem_of_cons; done.
  Qed.

Lemma mapSet_NoDup m k v : NoDup (map fst m) -> NoDup (map fst (mapSet k v m)).
  Proof.
    intros Hm. rewrite mapSet_keys. destruct (decide (k ∈ map fst m)); [done|].
    apply NoDup_app. split; [done|]. split; [|apply NoDup_singleton].
    intros y Hy ->%list_elem_of_singleton. done.
  Qed.

Lemma mapSet_not_nil m k v : mapSet k v m <> [].
  Proof. destruct m as [|[k0 v0] m]; simpl; [done|]. destruct (decide (k = k0)); done. Qed.

Lemma mapGet_None m k : mapGet k m = None <-> k ∉ map fst m.
  Proof.
    induction m as [|[k0 v0] m IH]; simpl.
    - split; [intros _; apply not_elem_of_nil|done].
    - destruct (decide (k = k0)) as [-> |Hne].
      + split; [done|]. intros H. exfalso. apply H, elem_of_cons. now left.
      + rewrite IH. rewrite elem_of_cons. tauto.
  Qed.

Lemma mapSet_length m k v :
    length (mapSet k v m)
    = if decide (k ∈ map fst m) then length m else S (length m).
  Proof.
    rewrite <- (length_map fst (mapSet k v m)), mapSet_keys.
    destruct (decide (k ∈ map fst m)); rewrite ?length_app, length_map; simpl; lia.
  Qed.
End JsMapFacts.

(** The values of a map of counts after one count grew by [d]. *)
Lemma mapSet_sum {K} `{EqDecision K} (m : list (K * Z)) k d :
  sumZ (map snd (mapSet k (default 0 (mapGet k m) + d) m)) = sumZ (map snd m) + d.
Proof.
  induction m as [|[k0 v0] m IH]; simpl.
  - rewrite sumZ_cons. change (sumZ []) with 0. lia.
  - destruct (decide (k = k0)) as [-> |Hne]; simpl; rewrite !sumZ_cons.
    + lia.
    + rewrite IH. lia.
Qed.

(** Reading a map of counts at every key of a duplicate-free list that
    covers its keys adds up to the sum of its values. *)
Lemma sum_over_keys {K} `{EqDecision K} (m : list (K * Z)) (keys : list K) :
  NoDup (map fst m) -> NoDup keys -> (forall k, k ∈ map fst m -> k ∈ keys) ->
  sumZ (map (fun k => default 0 (mapGet k m)) keys) = sumZ (map snd m).
Proof.
  revert keys. induction m as [|[k0 v0] m IH]; intros keys Hm Hkeys Hsub; simpl.
  - clear. induction keys as [|k keys IH]; simpl; [done|]. rewrite sumZ_cons, IH. done.
  - apply NoDup_cons in Hm as [Hk0 Hm].
    assert (k0 ∈ keys) as Hin by (apply Hsub, elem_of_cons; now left).
    apply list_elem_of_split in Hin as (l1 & l2 & ->).
    assert (l1 ++ k0 :: l2 ≡ₚ k0 :: (l1 ++ l2)) as Hperm
      by (symmetry; apply Permutation_middle).
    rewrite (sumZ_perm _ _ (fmap_Permutation _ _ _ Hperm)).
    rewrite Hperm in Hkeys. apply NoDup_cons in Hkeys as [Hk0' Hkeys].
    simpl. rewrite !sumZ_cons. rewrite decide_True by done. simpl.
    f_equal. rewrite <- (IH (l1 ++ l2) Hm Hkeys).
    + f_equal. apply map_ext_in. intros k Hk. apply list_elem_of_In in Hk.
      rewrite decide_False; [done|]. intros ->. done.
    + intros k Hk. assert (k ∈ l1 ++ k0 :: l2) as Hk'.
      { apply Hsub, elem_of_cons. now right. }
      rewrite Hperm in Hk'. apply elem_of_cons in Hk' as [-> |Hk']; [|done].
      simpl in Hk0. done.
Qed.

(** * Ingestion: the shape of the cart events *)

Lemma fold_left_flat_map {A B C} (f : A -> C -> A) (g : B -> list C) l a :
  fold_left (fun acc x => fold_left f (g x) acc) l a = fold_left f (flat_map g l) a.
Proof.
  revert a. induction l as [|x l IH]; intros a; simpl; [done|].
  now rewrite fold_left_app, IH.
Qed.

Lemma collectToggle_app E h ts st acc raw :
  collectToggle E h ts st acc raw = acc ++ collectToggle E h ts st [] raw.
Proof.
  unfold collectToggle.
  destruct (strId E h (RawItem.item raw)) as [id|]; [|now rewrite app_nil_r].
  destruct (String.eqb id EmptyString); [now rewrite app_nil_r|].
  destruct (RawItem.deleted raw); simpl; [|done]. now rewrite <- app_assoc.
Qed.

Lemma fold_collectToggle E h ts st raws acc :
  fold_left (collectToggle E h ts st) raws acc
  = acc ++ flat_map (collectToggle E h ts st []) raws.
Proof.
  revert acc. induction raws as [|raw raws IH]; intros acc; simpl.
  - now rewrite app_nil_r.
  - rewrite IH, (collectToggle_app _ _ _ _ acc). now rewrite <- app_assoc.
Qed.

Lemma toggles_app l1 l2 : toggles l1 -> toggles l2 -> toggles (l1 ++ l2).
Proof.
  induction 1 as [|id t rest _ IH|id t rt rest _ IH]; intros H2; simpl; [done| |].
  - apply toggles_add, IH, H2.
  - apply toggles_both, IH, H2.
Qed.

Lemma toggles_flat_map {A} (f : A -> list SessionEvent.t) l :
  (forall x, toggles (f x)) -> toggles (flat_map f l).
Proof.
  intros Hf. induction l as [|x l IH]; simpl; [constructor|]. now apply toggles_app.
Qed.

Lemma collectToggle_toggles E h ts st raw : toggles (collectToggle E h ts st [] raw).
Proof.
  unfold collectToggle.
  destruct (strId E h (RawItem.item raw)) as [id|]; [|constructor].
  destruct (String.eqb id EmptyString); [constructor|].
  destruct (RawItem.deleted raw); simpl.
  - apply toggles_both, toggles_nil.
  - apply toggles_add, toggles_nil.
Qed.

Lemma carts_toggles E h uuid doc :
  toggles (Session.carts (collectSessionEvents E h uuid doc)).
Proof.
  simpl. rewrite fold_collectToggle. simpl.
  apply toggles_flat_map. intros raw. apply collectToggle_toggles.
Qed.

Lemma fold_count {A} (f : A -> Z) l a :
  fold_left (fun acc x => acc + f x) l a = a + sumZ (map f l).
Proof.
  revert a. induction l as [|x l IH]; intros a; simpl.
  - change (sumZ []) with 0. lia.
  - rewrite IH, sumZ_cons. lia.
Qed.

Lemma nCartAdd_allAdds E h uuid doc :
  Session.nCartAdd (collectSessionEvents E h uuid doc)
  = allAdds (Session.carts (collectSessionEvents E h uuid doc)).
Proof. simpl. now rewrite fold_count. Qed.

Lemma nCartRemove_allRemoves E h uuid doc :
  Session.nCartRemove (collectSessionEvents E h uuid doc)
  = allRemoves (Session.carts (collectSessionEvents E h uuid doc)).
Proof. simpl. now rewrite fold_count. Qed.

Lemma toggles_counts k evts :
  toggles evts ->
  0 <= removesOf k evts <= addsOf k evts
  /\ 0 <= allRemoves evts <= allAdds evts.
Proof.
  unfold removesOf, addsOf, allRemoves, allAdds.
  induction 1 as [|id t rest _ IH|id t rt rest _ IH]; simpl; rewrite ?sumZ_cons; simpl.
  - change (sumZ []) with 0. lia.
  - destruct (decide (id = k)); simpl; lia.
  - destruct (decide (id = k)); simpl; lia.
Qed.

Lemma allAdds_app l1 l2 : allAdds (l1 ++ l2) = allAdds l1 + allAdds l2.
Proof. unfold allAdds. now rewrite map_app, sumZ_app. Qed.

Lemma allRemoves_app l1 l2 : allRemoves (l1 ++ l2) = allRemoves l1 + allRemoves l2.
Proof. unfold allRemoves. now rewrite map_app, sumZ_app. Qed.

(** Under the shape of cart events, [evt.add] holds just for the adds, so
    the adds are as many as the events that pass the test. *)
Lemma toggles_flags evts :
  toggles evts ->
  allAdds evts
  = Z.of_nat (length (List.filter (fun e => flag (SessionEvent.add e)) evts))
  /\ allRemoves evts
     = Z.of_nat (length (List.filter (fun e => flag (SessionEvent.remove e)) evts)).
Proof.
  unfold allAdds, allRemoves.
  induction 1 as [|id t rest _ IH|id t rt rest _ IH]; simpl; rewrite ?sumZ_cons; simpl.
  - done.
  - lia.
  - lia.
Qed.

(** * Cart leak: what [leakAnalytics] accumulates *)

Lemma leakEvent_delta acc evt :
  let acc' := leakEvent acc evt in
  LeakAcc.tAdds acc' = LeakAcc.tAdds acc + default 0 (SessionEvent.add evt)
  /\ LeakAcc.tRem acc' = LeakAcc.tRem acc + default 0 (SessionEvent.remove evt)
  /\ sumZ (map snd (LeakAcc.adds acc'))
     = sumZ (map snd (LeakAcc.adds acc)) + default 0 (SessionEvent.add evt)
  /\ sumZ (map snd (LeakAcc.removes acc'))
     = sumZ (map snd (LeakAcc.removes acc)) + default 0 (SessionEvent.remove evt)
  /\ (forall k,
        default 0 (mapGet k (LeakAcc.adds acc'))
        = default 0 (mapGet k (LeakAcc.adds acc))
          + (if decide (SessionEvent.itemId evt = k)
             then default 0 (SessionEvent.add evt) else 0))
  /\ (forall k,
        default 0 (mapGet k (LeakAcc.removes acc'))
        = default 0 (mapGet k (LeakAcc.removes acc))
          + (if decide (SessionEvent.itemId evt = k)
             then default 0 (SessionEvent.remove evt) else 0))
  /\ (NoDup (map fst (LeakAcc.adds acc)) -> NoDup (map fst (LeakAcc.adds acc')))
  /\ (NoDup (map fst (LeakAcc.removes acc)) -> NoDup (map fst (LeakAcc.removes acc'))).
Proof.
  intros acc'. unfold acc', leakEvent.
  set (a := default 0 (SessionEvent.add evt)).
  set (r := default 0 (SessionEvent.remove evt)).
  destruct (a =? 0) eqn:Ha; destruct (r =? 0) eqn:Hr; simpl;
    rewrite ?Z.eqb_eq in *; rewrite ?mapSet_sum.
  all: repeat split; try lia; try (intros k; rewrite ?mapGet_mapSet;
         destruct (decide (SessionEvent.itemId evt = k)) as [<- |Hne];
         [rewrite ?decide_True by done; simpl; lia
         |rewrite ?decide_False by (intros ->; done); lia]);
       try (now apply mapSet_NoDup); try done.
Qed.

Lemma addsOf_cons k e evts :
  addsOf k (e :: evts)
  = (if decide (SessionEvent.itemId e = k) then default 0 (SessionEvent.add e) else 0)
    + addsOf k evts.
Proof. unfold addsOf. simpl. now rewrite sumZ_cons. Qed.

Lemma removesOf_cons k e evts :
  removesOf k (e :: evts)
  = (if decide (SessionEvent.itemId e = k) then default 0 (SessionEvent.remove e) else 0)
    + removesOf k evts.
Proof. unfold removesOf. simpl. now rewrite sumZ_cons. Qed.

Lemma leakFold evts acc :
  let acc' := fold_left leakEvent evts acc in
  LeakAcc.tAdds acc' = LeakAcc.tAdds acc + allAdds evts
  /\ LeakAcc.tRem acc' = LeakAcc.tRem acc + allRemoves evts
  /\ sumZ (map snd (LeakAcc.adds acc')) = sumZ (map snd (LeakAcc.adds acc)) + allAdds evts
  /\ sumZ (map snd (LeakAcc.removes acc'))
     = sumZ (map snd (LeakAcc.removes acc)) + allRemoves evts
  /\ (forall k, default 0 (mapGet k (LeakAcc.adds acc'))
                = default 0 (mapGet k (LeakAcc.adds acc)) + addsOf k evts)
  /\ (forall k, default 0 (mapGet k (LeakAcc.removes acc'))
                = default 0 (mapGet k (LeakAcc.removes acc)) + removesOf k evts)
  /\ (NoDup (map fst (LeakAcc.adds acc)) -> NoDup (map fst (LeakAcc.adds acc')))
  /\ (NoDup (map fst (LeakAcc.removes acc)) -> NoDup (map fst (LeakAcc.removes acc'))).
Proof.
  revert acc. induction evts as [|e evts IH]; intros acc; simpl.
  - unfold allAdds, allRemoves, addsOf, removesOf. simpl. change (sumZ []) with 0.
    repeat split; try lia; try done; intros k; lia.
  - destruct (leakEvent_delta acc e) as (H1 & H2 & H3 & H4 & H5 & H6 & H7 & H8).
    destruct (IH (leakEvent acc e)) as (I1 & I2 & I3 & I4 & I5 & I6 & I7 & I8).
    unfold allAdds, allRemoves in *. simpl. rewrite !sumZ_cons.
    repeat split; try lia; try tauto.
    + intros k. rewrite I5, H5, addsOf_cons. lia.
    + intros k. rewrite I6, H6, removesOf_cons. lia.
Qed.

Lemma leakFold_init evts :
  let acc := fold_left leakEvent evts (LeakAcc.mk [] [] 0 0) in
  LeakAcc.tAdds acc = allAdds evts
  /\ LeakAcc.tRem acc = allRemoves evts
  /\ sumZ (map snd (LeakAcc.adds acc)) = allAdds evts
  /\ sumZ (map snd (LeakAcc.removes acc)) = allRemoves evts
  /\ (forall k, default 0 (mapGet k (LeakAcc.adds acc)) = addsOf k evts)
  /\ (forall k, default 0 (mapGet k (LeakAcc.removes acc)) = removesOf k evts)
  /\ NoDup (map fst (LeakAcc.adds acc))
  /\ NoDup (map fst (LeakAcc.removes acc)).
Proof.
  intros acc.
  destruct (leakFold evts (LeakAcc.mk [] [] 0 0))
    as (H1 & H2 & H3 & H4 & H5 & H6 & H7 & H8).
  fold acc in H1, H2, H3, H4, H5, H6, H7, H8.
  repeat split.
  - rewrite H1. simpl. lia.
  - rewrite H2. simpl. lia.
  - rewrite H3. simpl. change (sumZ []) with 0. lia.
  - rewrite H4. simpl. change (sumZ []) with 0. lia.
  - intros k. rewrite H5. simpl. lia.
  - intros k. rewrite H6. simpl. lia.
  - apply H7. simpl. apply NoDup_nil_2.
  - apply H8. simpl. apply NoDup_nil_2.
Qed.

Lemma leakOrder_total a b :
  isPos (leakOrder a b) = true -> inOrder leakOrder b a.
Proof.
  unfold inOrder, leakOrder, orElse. intros H.
  destruct (isZero (LeakRow.leak b - LeakRow.leak a)) eqn:Hz.
  - apply isZero_true in Hz.
    assert (LeakRow.leak a - LeakRow.leak b = 0)%Qc as Hz'.
    { replace (LeakRow.leak a - LeakRow.leak b)%Qc
        with (- (LeakRow.leak b - LeakRow.leak a))%Qc by ring. rewrite Hz. ring. }
    apply isZero_true in Hz'. rewrite Hz'.
    rewrite isPos_ofZ in *. apply Z.ltb_lt in H. apply Z.ltb_ge. lia.
  - apply isPos_sub in H.
    destruct (isZero (LeakRow.leak a - LeakRow.leak b)) eqn:Hz'.
    + apply isZero_true in Hz'.
      assert (LeakRow.leak a = LeakRow.leak b) as Heq.
      { replace (LeakRow.leak a) with ((LeakRow.leak a - LeakRow.leak b) + LeakRow.leak b)%Qc by ring.
        rewrite Hz'. ring. }
      rewrite Heq in H. now apply Qclt_not_eq in H.
    + apply isPos_sub_false. now apply Qclt_le_weak.
Qed.

Lemma leak_ratio r a :
  0 <= r <= a -> 0 < a ->
  clampValue (ofZ r / ofZ a)%Qc 0%Qc 1%Qc = (ofZ r / ofZ a)%Qc.
Proof.
  intros Hr Ha. rewrite clampValue_clamp.
  destruct (Qcdiv_unit (ofZ r) (ofZ a)) as [H0 H1].
  - apply ofZ_nonneg. lia.
  - apply ofZ_mono. lia.
  - now apply ofZ_pos.
  - now apply clamp_unit.
Qed.

Lemma Forall_perm {A} (P : A -> Prop) l1 l2 : l1 ≡ₚ l2 -> Forall P l1 -> Forall P l2.
Proof. intros Hp. now rewrite Hp. Qed.

(** What [leakAnalytics] returns on sessions whose cart events have the
    shape that ingestion gives them. *)
Lemma leakAnalytics_spec sessions itemMeta :
  let evts := flat_map Session.carts sessions in
  let L := leakAnalytics sessions itemMeta in
  toggles evts ->
  Forall leakRowOK (Leak.items L)
  /\ sumZ (map LeakRow.adds (Leak.items L)) = allAdds evts
  /\ sumZ (map LeakRow.removes (Leak.items L)) = allRemoves evts
  /\ Leak.overall L
     = (if 0 <? allAdds evts then (ofZ (allRemoves evts) / ofZ (allAdds evts))%Qc
        else 0%Qc)
  /\ Sorted (inOrder leakOrder) (Leak.items L).
Proof.
  intros evts L Htog. unfold L, leakAnalytics. rewrite fold_left_flat_map. fold evts.
  cbn [Leak.items Leak.overall].
  destruct (leakFold_init evts) as (H1 & H2 & H3 & H4 & H5 & H6 & H7 & H8).
  set (acc := fold_left leakEvent evts (LeakAcc.mk [] [] 0 0)) in *.
  set (keys := setOf (map fst (LeakAcc.adds acc) ++ map fst (LeakAcc.removes acc))).
  pose proof (fun k => toggles_counts k evts Htog) as Hcounts.
  split; [|split; [|split; [|split]]].
  - eapply Forall_perm; [symmetry; apply sortBy_perm|].
    apply Forall_fmap, Forall_true. intros k. unfold leakRowOK, leakRow. simpl.
    destruct (Hcounts k) as [Hk _].
    rewrite !H5, !H6. simpl. split; [lia|].
    destruct (0 <? addsOf k evts) eqn:Hpos; [|done].
    apply Z.ltb_lt in Hpos. now apply leak_ratio.
  - rewrite (sumZ_perm _ _ (fmap_Permutation _ _ _ (sortBy_perm _ _))).
    rewrite map_map. simpl.
    rewrite (sum_over_keys (LeakAcc.adds acc) keys).
    + exact H3.
    + exact H7.
    + apply setOf_NoDup.
    + intros k Hk. apply setOf_elem, elem_of_app. now left.
  - rewrite (sumZ_perm _ _ (fmap_Permutation _ _ _ (sortBy_perm _ _))).
    rewrite map_map. simpl.
    rewrite (sum_over_keys (LeakAcc.removes acc) keys).
    + exact H4.
    + exact H8.
    + apply setOf_NoDup.
    + intros k Hk. apply setOf_elem, elem_of_app. now right.
  - simpl. rewrite H1, H2. simpl.
    destruct (Hcounts EmptyString) as [_ Hall].
    destruct (0 <? allAdds evts) eqn:Hpos; [|done].
    apply Z.ltb_lt in Hpos. now apply leak_ratio.
  - apply sortBy_Sorted. apply leakOrder_total.
Qed.

(** * The sessions of the engine *)

Lemma Forall_imap {A B} (P : B -> Prop) (f : nat -> A -> B) l :
  (forall i x, P (f i x)) -> Forall P (imap f l).
Proof.
  intros Hf. apply Forall_forall. intros y Hy.
  apply elem_of_lookup_imap_1 in Hy as (i & x & -> & _). apply Hf.
Qed.

Lemma sessionsOf_wellFormed E h docs : Forall wellFormed (sessionsOf E h docs).
Proof.
  apply Forall_imap. intros k doc. split; [apply carts_toggles|]. split.
  - apply nCartAdd_allAdds.
  - apply nCartRemove_allRemoves.
Qed.

Lemma wellFormed_carts ss :
  Forall wellFormed ss ->
  toggles (flat_map Session.carts ss)
  /\ totalAddsOf (map sessionView ss) = allAdds (flat_map Session.carts ss)
  /\ totalRemovesOf (map sessionView ss) = allRemoves (flat_map Session.carts ss).
Proof.
  unfold totalAddsOf, totalRemovesOf. rewrite !fold_count, !map_map. simpl.
  induction 1 as [|s ss (Ht & Ha & Hr) _ (IHt & IHa & IHr)]; simpl.
  - split; [constructor|]. done.
  - rewrite !sumZ_cons, allAdds_app, allRemoves_app.
    split; [now apply toggles_app|]. lia.
Qed.

Lemma totalAddsOf_sum ss :
  totalAddsOf ss = sumZ (map SessionView.nCartAdd ss).
Proof. unfold totalAddsOf. rewrite fold_count. lia. Qed.

Lemma totalRemovesOf_sum ss :
  totalRemovesOf ss = sumZ (map SessionView.nCartRemove ss).
Proof. unfold totalRemovesOf. rewrite fold_count. lia. Qed.

(** The counters of a session of the engine are not negative, and it does
    not remove more than it adds. *)
Lemma wellFormed_view s :
  wellFormed s ->
  0 <= SessionView.nCartRemove (sessionView s) <= SessionView.nCartAdd (sessionView s).
Proof.
  intros (Ht & Ha & Hr). simpl. rewrite Ha, Hr.
  now destruct (toggles_counts EmptyString _ Ht).
Qed.

Lemma sumZ_filter_le {A} (f : A -> Z) (p : A -> bool) l :
  Forall (fun x => 0 <= f x) l ->
  0 <= sumZ (map f (List.filter p l)) <= sumZ (map f l).
Proof.
  induction 1 as [|x l Hx _ IH]; simpl; [done|].
  destruct (p x); simpl; rewrite ?sumZ_cons; lia.
Qed.

(** * Apportioning a total over the weights that make it up *)

Lemma sumZ_zero l : Forall (fun v => 0 <= v) l -> sumZ l = 0 -> Forall (fun v => v = 0) l.
Proof.
  induction 1 as [|x l Hx Hl IH]; intros Hs; [constructor|].
  rewrite sumZ_cons in Hs. pose proof (sumZ_nonneg _ Hl).
  constructor; [lia|]. apply IH. lia.
Qed.

Lemma distributeToTotal_identity zs :
  Forall (fun v => 0 <= v) zs ->
  distributeToTotal (sumZ zs) (map ofZ zs) = Some zs.
Proof.
  intros Hzs. unfold distributeToTotal.
  assert (Forall (fun w => (0 <= w)%Qc) (map ofZ zs)) as Hws.
  { apply Forall_fmap. eapply Forall_impl; [exact Hzs|]. intros z Hz. now apply ofZ_nonneg. }
  assert (map MathFloor (rawOf (sumZ zs) (map ofZ zs)) = zs) as Hbase.
  { unfold rawOf. rewrite (nonnegOf_id _ Hws), sumQ_ofZ, !map_map.
    unfold orElse. rewrite isZero_ofZ.
    destruct (sumZ zs =? 0) eqn:Hs.
    - apply Z.eqb_eq in Hs. pose proof (sumZ_zero _ Hzs Hs) as Hz. rewrite Hs.
      clear -Hz. induction Hz as [|z zs -> _ IH]; simpl; [done|]. now rewrite IH.
    - apply Z.eqb_neq in Hs.
      rewrite <- (map_id zs) at 2. apply map_ext. intros z.
      replace (ofZ z / ofZ (sumZ zs) * ofZ (sumZ zs))%Qc with (ofZ z).
      + apply MathFloor_ofZ.
      + field. intros H. rewrite <- ofZ_0 in H. apply ofZ_inj in H. done. }
  rewrite Hbase, Z.sub_diag. reflexivity.
Qed.

(** * Scaling by a ratio of one *)

Lemma scale_one c : scale 1%Qc c = c.
Proof. unfold scale. rewrite Qcmult_1_r. apply MathRound_ofZ. Qed.

Lemma scaleArray_one {A} (arr : list A) : scaleArray 1%Qc arr = arr.
Proof. unfold scaleArray. rewrite scale_one, Nat2Z.id. apply firstn_all. Qed.

Lemma ratio_full n : (0 < n)%nat ->
  clamp (ofZ (Z.of_nat n) / ofZ (Z.of_nat n))%Qc 0%Qc 1%Qc = 1%Qc.
Proof.
  intros Hn. replace (ofZ (Z.of_nat n) / ofZ (Z.of_nat n))%Qc with 1%Qc.
  - now apply clamp_unit.
  - field. intros H. rewrite <- ofZ_0 in H. apply ofZ_inj in H. lia.
Qed.

Lemma scale_nonneg ratio c : (0 <= ratio)%Qc -> 0 <= c -> 0 <= scale ratio c.
Proof.
  intros Hr Hc. unfold scale, MathRound. apply MathFloor_nonneg.
  apply Qcplus_nonneg_nonneg; [|done].
  apply Qcmult_nonneg_nonneg; [now apply ofZ_nonneg|done].
Qed.

(** * Category interactions: what the engine accumulates *)

Lemma mapSet_values {K V} `{EqDecision K} (P : V -> Prop) (m : list (K * V)) k v :
  P v -> Forall P (map snd m) -> Forall P (map snd (mapSet k v m)).
Proof.
  intros Hv. induction m as [|[k0 v0] m IH]; simpl; intros Hm.
  - now constructor.
  - apply Forall_cons in Hm as [H0 Hm].
    destruct (decide (k = k0)); simpl; constructor; auto.
Qed.

Lemma mapGet_value {K V} `{EqDecision K} (P : V -> Prop) (m : list (K * V)) k v :
  Forall P (map snd m) -> mapGet k m = Some v -> P v.
Proof.
  induction m as [|[k0 v0] m IH]; simpl; intros Hm Hg; [done|].
  apply Forall_cons in Hm as [H0 Hm].
  destruct (decide (k = k0)); [now simplify_eq|auto].
Qed.

Lemma mapSet_sum_of {K V} `{EqDecision K} (f : V -> Z) (d : V) (m : list (K * V)) k v :
  f d = 0 ->
  sumZ (map (fun kv => f kv.2) (mapSet k v m))
  = sumZ (map (fun kv => f kv.2) m) + f v - f (default d (mapGet k m)).
Proof.
  intros Hd. induction m as [|[k0 v0] m IH]; simpl.
  - rewrite sumZ_cons. change (sumZ []) with 0. simpl. lia.
  - destruct (decide (k = k0)) as [-> |Hne]; simpl; rewrite !sumZ_cons; simpl.
    + lia.
    + rewrite IH. lia.
Qed.

Lemma bumpCategory_spec category key m :
  Forall categoryRowOK (map snd m) ->
  Forall categoryRowOK (map snd (bumpCategory category key m))
  /\ cartsSum (bumpCategory category key m)
     = cartsSum m + (match key with kCarts => 1 | _ => 0 end).
Proof.
  intros Hm. unfold bumpCategory, cartsSum.
  set (entry := default (CategoryRow.mk category 0 0 0 0) (mapGet category m)).
  assert (categoryRowOK entry) as (Hv & Hc & Hw & Ht).
  { unfold entry. destruct (mapGet category m) as [e|] eqn:He; simpl.
    - exact (mapGet_value _ _ _ _ Hm He).
    - unfold categoryRowOK. simpl. lia. }
  split.
  - apply mapSet_values; [|done].
    destruct key; unfold categoryRowOK; simpl; lia.
  - rewrite (mapSet_sum_of CategoryRow.carts (CategoryRow.mk category 0 0 0 0)) by done.
    fold entry. destruct key; simpl; lia.
Qed.

Lemma fold_views itemMeta evts m :
  Forall categoryRowOK (map snd m) ->
  let m' :=
    fold_left
      (fun m evt => bumpCategory (categoryOf itemMeta (SessionEvent.itemId evt)) kViews m)
      evts m in
  Forall categoryRowOK (map snd m') /\ cartsSum m' = cartsSum m.
Proof.
  revert m. induction evts as [|e evts IH]; intros m Hm; simpl; [done|].
  destruct (bumpCategory_spec (categoryOf itemMeta (SessionEvent.itemId e)) kViews m Hm)
    as [H1 H2].
  destruct (IH _ H1) as [I1 I2]. split; [done|]. simpl in *. lia.
Qed.

Lemma fold_flagged itemMeta key evts m :
  Forall categoryRowOK (map snd m) ->
  let m' :=
    fold_left
      (fun m evt =>
         if flag (SessionEvent.add evt)
         then bumpCategory (categoryOf itemMeta (SessionEvent.itemId evt)) key m
         else m)
      evts m in
  Forall categoryRowOK (map snd m')
  /\ cartsSum m'
     = cartsSum m
       + (match key with
          | kCarts => Z.of_nat (length (List.filter (fun e => flag (SessionEvent.add e)) evts))
          | _ => 0
          end).
Proof.
  revert m. induction evts as [|e evts IH]; intros m Hm; simpl.
  - split; [done|]. destruct key; lia.
  - destruct (flag (SessionEvent.add e)) eqn:Hf.
    + destruct (bumpCategory_spec (categoryOf itemMeta (SessionEvent.itemId e)) key m Hm)
        as [H1 H2].
      destruct (IH _ H1) as [I1 I2]. split; [done|]. simpl in *.
      rewrite I2, H2. destruct key; simpl length; lia.
    + destruct (IH _ Hm) as [I1 I2]. split; [done|]. exact I2.
Qed.

Lemma categorySession_spec itemMeta m s :
  Forall categoryRowOK (map snd m) -> toggles (Session.carts s) ->
  Forall categoryRowOK (map snd (categorySession itemMeta m s))
  /\ cartsSum (categorySession itemMeta m s) = cartsSum m + allAdds (Session.carts s).
Proof.
  intros Hm Ht. unfold categorySession.
  destruct (fold_views itemMeta (Session.views s) m Hm) as [H1 H2].
  destruct (fold_flagged itemMeta kCarts (Session.carts s) _ H1) as [H3 H4].
  destruct (fold_flagged itemMeta kWish (Session.wish s) _ H3) as [H5 H6].
  split; [exact H5|]. simpl in *. rewrite H6, H4, H2.
  destruct (toggles_flags _ Ht) as [-> _]. lia.
Qed.

Lemma categoryFold itemMeta ss m :
  Forall categoryRowOK (map snd m) -> Forall wellFormed ss ->
  let m' := fold_left (categorySession itemMeta) ss m in
  Forall categoryRowOK (map snd m')
  /\ cartsSum m' = cartsSum m + allAdds (flat_map Session.carts ss).
Proof.
  intros Hm Hss. revert m Hm.
  induction Hss as [|s ss (Ht & _) _ IH]; intros m Hm; simpl.
  - split; [done|]. unfold allAdds. simpl. change (sumZ []) with 0. lia.
  - destruct (categorySession_spec itemMeta m s Hm Ht) as [H1 H2].
    destruct (IH _ H1) as [I1 I2]. split; [done|].
    simpl in *. rewrite I2, H2, allAdds_app. lia.
Qed.

Lemma totalOrder_total a b :
  isPos (totalOrder a b) = true -> inOrder totalOrder b a.
Proof.
  unfold inOrder, totalOrder. rewrite !isPos_ofZ. intros H.
  apply Z.ltb_lt in H. apply Z.ltb_ge. lia.
Qed.

(** What [categoryInteractions] returns on the sessions of the engine. *)
Lemma categoryInteractions_spec ss itemMeta :
  Forall wellFormed ss ->
  let cats := categoryInteractions ss itemMeta in
  Forall categoryRowOK cats
  /\ Sorted (inOrder totalOrder) cats
  /\ ((length cats < 20)%nat ->
      sumZ (map CategoryRow.carts cats) = allAdds (flat_map Session.carts ss))
  /\ (0 < allAdds (flat_map Session.carts ss) -> cats <> []).
Proof.
  intros Hss cats. unfold cats, categoryInteractions.
  destruct (categoryFold itemMeta ss [] (Forall_nil_2 _) Hss) as [H1 H2].
  set (m := fold_left (categorySession itemMeta) ss []) in *.
  unfold cartsSum in H2. simpl in H2. change (sumZ []) with 0 in H2.
  set (rows := sortBy totalOrder (map snd m)).
  assert (rows ≡ₚ map snd m) as Hperm by apply sortBy_perm.
  assert (sumZ (map CategoryRow.carts rows) = allAdds (flat_map Session.carts ss)) as Hsum.
  { rewrite (sumZ_perm _ _ (fmap_Permutation _ _ _ Hperm)), map_map. lia. }
  split; [|split; [|split]].
  - apply Forall_take. eapply Forall_perm; [symmetry; exact Hperm|done].
  - apply Sorted_take, sortBy_Sorted, totalOrder_total.
  - intros Hlen. rewrite take_ge; [exact Hsum|].
    rewrite length_take in Hlen. lia.
  - intros Hpos Hnil.
    assert (rows = []) as Hrows.
    { destruct rows; [done|]. simpl in Hnil. done. }
    rewrite Hrows in Hsum. simpl in Hsum. change (sumZ []) with 0 in Hsum. lia.
Qed.

(** * Transition counts *)

Lemma countTransition_nonneg counts ft :
  Forall (Forall (fun v => 0 <= v)) counts ->
  Forall (Forall (fun v => 0 <= v)) (countTransition counts ft).
Proof.
  intros H. unfold countTransition. apply Forall_alter; [done|].
  intros row _ Hrow. apply Forall_alter; [done|]. intros v _ Hv. lia.
Qed.

Lemma counts_nonneg ss itemMeta :
  Forall (Forall (fun v => 0 <= v))
    (TransitionInfo.counts (transitionMatrixAndSankey ss itemMeta)).
Proof.
  unfold transitionMatrixAndSankey. simpl.
  generalize (flat_map (fun session => adjacent (buildEventStreamForSession session itemMeta)) ss).
  intros trs.
  assert (Forall (Forall (fun v => 0 <= v)) (zeroMatrix 0 5)) as H0.
  { unfold zeroMatrix. apply Forall_replicate, Forall_replicate. lia. }
  revert H0. generalize (zeroMatrix 0 5).
  induction trs as [|tr trs IH]; intros counts Hc; simpl; [done|].
  apply IH, countTransition_nonneg, Hc.
Qed.

Lemma scaled_nonneg ratio counts :
  (0 <= ratio)%Qc ->
  Forall (Forall (fun v => 0 <= v)) counts ->
  Forall (Forall (fun v => 0 <= v)) (map (map (scale ratio)) counts).
Proof.
  intros Hr Hc. apply Forall_fmap. eapply Forall_impl; [exact Hc|].
  intros row Hrow. simpl. apply Forall_fmap. eapply Forall_impl; [exact Hrow|].
  intros v Hv. simpl. now apply scale_nonneg.
Qed.

Lemma rows_normalised counts :
  Forall (Forall (fun v => 0 <= v)) counts ->
  Forall2 rowNormalised counts (map rowProbs counts).
Proof.
  induction 1 as [|row counts Hrow _ IH]; simpl; constructor; [|exact IH].
  destruct (rowProbs_row row Hrow) as [H1 H2].
  split; [|split; done]. unfold rowProbs. destruct (sumZ row =? 0); now rewrite length_map.
Qed.

Lemma scaled_one counts : map (map (scale 1%Qc)) counts = counts.
Proof.
  rewrite <- (map_id counts) at 2. apply map_ext. intros row.
  rewrite <- (map_id row) at 2. apply map_ext. intros v. apply scale_one.
Qed.

Lemma filter_and {A} (p q : A -> bool) l :
  List.filter (fun x => p x && q x) l = List.filter q (List.filter p l).
Proof.
  induction l as [|x l IH]; simpl; [done|].
  destruct (p x); simpl; [|exact IH]. destruct (q x); now rewrite IH.
Qed.

(** * Rows that a reprojection leaves as they are *)

Lemma reprojectLeakRow_identity items :
  Forall leakRowOK items ->
  imap (reprojectLeakRow (map LeakRow.adds items) (map LeakRow.removes items)) items
  = items.
Proof.
  intros Hok. rewrite <- (imap_ext (fun _ x => x)).
  - now rewrite (imap_const (fun x => x)), list_fmap_id.
  - intros i r Hr. unfold reprojectLeakRow.
    rewrite !list_lookup_fmap, Hr. simpl.
    pose proof (proj1 (Forall_forall _ _) Hok r (list_elem_of_lookup_2 _ _ _ Hr)) as [_ Hl].
    rewrite <- Hl. now destruct r.
Qed.

Lemma reprojectCategory_identity cats :
  Forall categoryRowOK cats ->
  imap (reprojectCategory 1%Qc (map CategoryRow.carts cats)) cats = cats.
Proof.
  intros Hok. rewrite <- (imap_ext (fun _ x => x)).
  - now rewrite (imap_const (fun x => x)), list_fmap_id.
  - intros i c Hc. unfold reprojectCategory.
    rewrite !list_lookup_fmap, Hc, !scale_one. simpl.
    pose proof (proj1 (Forall_forall _ _) Hok c (list_elem_of_lookup_2 _ _ _ Hc))
      as (_ & _ & _ & Ht).
    rewrite <- Ht. now destruct c.
Qed.

(** * Rows that a reprojection rebuilds from an apportionment *)

Lemma reprojectLeakRow_adds aa ra items :
  length aa = length items ->
  map LeakRow.adds (imap (reprojectLeakRow aa ra) items) = aa.
Proof.
  intros Hlen. apply list_eq. intros i.
  rewrite list_lookup_fmap, list_lookup_imap.
  destruct (items !! i) as [r|] eqn:Hr; simpl.
  - assert (is_Some (aa !! i)) as [a Ha].
    { apply lookup_lt_is_Some. apply lookup_lt_Some in Hr. lia. }
    now rewrite Ha.
  - symmetry. apply lookup_ge_None. apply lookup_ge_None in Hr. lia.
Qed.

Lemma reprojectLeakRow_removes aa ra items :
  length ra = length items ->
  map LeakRow.removes (imap (reprojectLeakRow aa ra) items) = ra.
Proof.
  intros Hlen. apply list_eq. intros i.
  rewrite list_lookup_fmap, list_lookup_imap.
  destruct (items !! i) as [r|] eqn:Hr; simpl.
  - assert (is_Some (ra !! i)) as [a Ha].
    { apply lookup_lt_is_Some. apply lookup_lt_Some in Hr. lia. }
    now rewrite Ha.
  - symmetry. apply lookup_ge_None. apply lookup_ge_None in Hr. lia.
Qed.

Lemma reprojectCategory_carts ratio ca cats :
  length ca = length cats ->
  map CategoryRow.carts (imap (reprojectCategory ratio ca) cats) = ca.
Proof.
  intros Hlen. apply list_eq. intros i.
  rewrite list_lookup_fmap, list_lookup_imap.
  destruct (cats !! i) as [r|] eqn:Hr; simpl.
  - assert (is_Some (ca !! i)) as [a Ha].
    { apply lookup_lt_is_Some. apply lookup_lt_Some in Hr. lia. }
    now rewrite Ha.
  - symmetry. apply lookup_ge_None. apply lookup_ge_None in Hr. lia.
Qed.

(** * The bundle of the engine *)

Section EngineBundle.
Variables (E : Env) (h : heap) (docs : list RawDoc.t) (itemMeta : ItemMeta).

Let B := computeAnalyticsFromDocs E h docs itemMeta.
Let ss := sessionsOf E h docs.
Let evts := flat_map Session.carts ss.

Lemma engine_sessions : AnalyticsResponse.sessions B = map sessionView ss.
  Proof. reflexivity. Qed.

Lemma engine_counters :
    Forall (fun s => 0 <= SessionView.nCartRemove s <= SessionView.nCartAdd s)
      (AnalyticsResponse.sessions B).
  Proof.
    rewrite engine_sessions. apply Forall_fmap.
    eapply Forall_impl; [apply sessionsOf_wellFormed|]. intros s Hs. now apply wellFormed_view.
  Qed.

Lemma engine_totals :
    totalAddsOf (AnalyticsResponse.sessions B) = allAdds evts
    /\ totalRemovesOf (AnalyticsResponse.sessions B) = allRemoves evts
    /\ 0 <= allRemoves evts <= allAdds evts.
  Proof.
    destruct (wellFormed_carts ss (sessionsOf_wellFormed E h docs)) as (Ht & Ha & Hr).
    rewrite engine_sessions. split; [exact Ha|]. split; [exact Hr|].
    now destruct (toggles_counts EmptyString _ Ht).
  Qed.

Lemma engine_leak :
    let L := AnalyticsResponse.leak B in
    Forall leakRowOK (Leak.items L)
    /\ sumZ (map LeakRow.adds (Leak.items L)) = allAdds evts
    /\ sumZ (map LeakRow.removes (Leak.items L)) = allRemoves evts
    /\ Leak.overall L
       = (if 0 <? allAdds evts then (ofZ (allRemoves evts) / ofZ (allAdds evts))%Qc
          else 0%Qc)
    /\ Sorted (inOrder leakOrder) (Leak.items L).
  Proof.
    apply leakAnalytics_spec.
    now destruct (wellFormed_carts ss (sessionsOf_wellFormed E h docs)).
  Qed.

Lemma engine_categories :
    let cats := AnalyticsResponse.categoryInteractions B in
    Forall categoryRowOK cats
    /\ Sorted (inOrder totalOrder) cats
    /\ ((length cats < 20)%nat -> sumZ (map CategoryRow.carts cats) = allAdds evts)
    /\ (0 < allAdds evts -> cats <> []).
  Proof. apply categoryInteractions_spec, sessionsOf_wellFormed. Qed.

Lemma engine_counts :
    Forall (Forall (fun v => 0 <= v))
      (Transitions.counts (AnalyticsResponse.transitions B))
    /\ Transitions.probs (AnalyticsResponse.transitions B)
       = map rowProbs (Transitions.counts (AnalyticsResponse.transitions B)).
  Proof. split; [apply counts_nonneg|reflexivity]. Qed.

  (** The totals of the sessions in a range. *)
Lemma range_totals fromDate toDate :
    let sessions := sessionsInRange B fromDate toDate in
    0 <= totalAddsOf sessions <= allAdds evts
    /\ 0 <= totalRemovesOf sessions <= allRemoves evts.
  Proof.
    simpl. destruct engine_totals as (Ha & Hr & _). rewrite <- Ha, <- Hr.
    rewrite !totalAddsOf_sum, !totalRemovesOf_sum. unfold sessionsInRange. split.
    - apply sumZ_filter_le. eapply Forall_impl; [apply engine_counters|].
      intros s Hs. simpl in Hs. lia.
    - apply sumZ_filter_le. eapply Forall_impl; [apply engine_counters|].
      intros s Hs. simpl in Hs. lia.
  Qed.

  (** A reprojection of the bundle of the engine does not throw. *)
Lemma engine_reprojects fromDate toDate :
    exists out, reprojectForDateRange B fromDate toDate = Some out.
  Proof.
    destruct (reprojectForDateRange B fromDate toDate) as [out|] eqn:Hout; [eauto|].
    exfalso. apply reproject_None in Hout. cbv zeta in Hout.
    destruct (range_totals fromDate toDate) as [Ha Hr]. cbv zeta in Ha, Hr.
    destruct engine_leak as (_ & Hla & Hlr & _).
    destruct engine_categories as (_ & _ & _ & Hc).
    destruct Hout as [[Hi Hpos]|[Hi Hpos]].
    - cbv zeta in Hla, Hlr. rewrite Hi in Hla, Hlr.
      change (sumZ (map _ [])) with 0 in Hla, Hlr. lia.
    - apply Hc; [lia|exact Hi].
  Qed.
End EngineBundle.

(** * The cart-add axis of a reprojection *)

(** On every input bundle whose sessions in the range add up to a total that
    is not negative, a reprojection that returns agrees with that total in
    its category rows and in its leak rows. *)
Lemma reproject_cart_totals data fromDate toDate out :
  sessionsInRange data fromDate toDate <> [] ->
  0 <= totalAddsOf (sessionsInRange data fromDate toDate) ->
  reprojectForDateRange data fromDate toDate = Some out ->
  sumZ (map CategoryRow.carts (AnalyticsResponse.categoryInteractions out))
    = totalAddsOf (sessionsInRange data fromDate toDate)
  /\ sumZ (map LeakRow.adds (Leak.items (AnalyticsResponse.leak out)))
     = totalAddsOf (sessionsInRange data fromDate toDate).
Proof.
  intros Hne HT Hout.
  destruct (reproject_some_session _ _ _ _ Hne Hout)
    as (aa & ra & ca & Ha & Hr & Hc & _ & Hl & Hcat & _).
  rewrite Hcat, Hl. cbn [Leak.items]. split.
  - rewrite (sumZ_perm _ _ (fmap_Permutation _ _ _ (sortBy_perm _ _))).
    rewrite reprojectCategory_carts.
    + exact (distributeToTotal_sum _ _ _ HT Hc).
    + rewrite (distributeToTotal_length _ _ _ Hc). now rewrite length_map.
  - rewrite (sumZ_perm _ _ (fmap_Permutation _ _ _ (sortBy_perm _ _))).
    rewrite reprojectLeakRow_adds.
    + exact (distributeToTotal_sum _ _ _ HT Ha).
    + rewrite (distributeToTotal_length _ _ _ Ha). now rewrite length_map.
Qed.

(** C8. For every reprojection of the bundle of the engine over a range with
    at least one session, the carts of the reprojected category rows sum to
    the cart adds of the sessions in the range, and so do the adds of the
    reprojected leak rows. *)
Theorem reproject_cart_axis E h docs itemMeta fromDate toDate :
  let data := computeAnalyticsFromDocs E h docs itemMeta in
  let sessions := sessionsInRange data fromDate toDate in
  sessions <> [] ->
  exists out,
    reprojectForDateRange data fromDate toDate = Some out /\
    sumZ (map CategoryRow.carts (AnalyticsResponse.categoryInteractions out))
      = sumZ (map SessionView.nCartAdd sessions) /\
    sumZ (map LeakRow.adds (Leak.items (AnalyticsResponse.leak out)))
      = sumZ (map SessionView.nCartAdd sessions).
Proof.
  intros data sessions Hne.
  destruct (engine_reprojects E h docs itemMeta fromDate toDate) as [out Hout].
  exists out. split; [exact Hout|].
  rewrite <- totalAddsOf_sum. apply reproject_cart_totals; [exact Hne| |exact Hout].
  now destruct (range_totals E h docs itemMeta fromDate toDate) as [[? _] _].
Qed.

(** * Probability rows *)

(** C5, amended.  In the bundle of the engine and in every reprojection of
    it, each row of the probability matrix belongs to its row of counts: one
    entry per count, none below 0 or above 1; all zero when the counts total
    zero, and otherwise summing to one within the rounding of the quotients,
    [2^-53] for each entry of the row.  The same holds of the rows that
    [rowProbs], the normalisation of the engine and of the reprojection
    alike, makes of any counts that are not negative. *)
Theorem transition_rows_normalised E h docs itemMeta fromDate toDate :
  let data := computeAnalyticsFromDocs E h docs itemMeta in
  Forall2 rowNormalised
    (Transitions.counts (AnalyticsResponse.transitions data))
    (Transitions.probs (AnalyticsResponse.transitions data))
  /\ (exists out,
        reprojectForDateRange data fromDate toDate = Some out /\
        Forall2 rowNormalised
          (Transitions.counts (AnalyticsResponse.transitions out))
          (Transitions.probs (AnalyticsResponse.transitions out)))
  /\ forall counts,
       Forall (Forall (fun v => 0 <= v)) counts ->
       Forall2 rowNormalised counts (map rowProbs counts).
Proof.
  intros data. destruct (engine_counts E h docs itemMeta) as [Hnn Hp]. fold data in Hnn, Hp.
  split; [|split].
  - rewrite Hp. now apply rows_normalised.
  - destruct (engine_reprojects E h docs itemMeta fromDate toDate) as [out Hout].
    fold data in Hout. exists out. split; [exact Hout|].
    destruct (decide (sessionsInRange data fromDate toDate = [])) as [Hnil|Hne].
    + rewrite (reproject_no_session _ _ _ Hnil) in Hout. injection Hout as <-.
      simpl. apply (rows_normalised (zeroMatrix 0 5)).
      apply Forall_replicate, Forall_replicate. lia.
    + destruct (reproject_some_session _ _ _ _ Hne Hout)
        as (aa & ra & ca & _ & _ & _ & _ & _ & _ & Ht & _).
      rewrite Ht. simpl. apply rows_normalised, scaled_nonneg; [|exact Hnn].
      apply clamp_range.
  - intros counts Hc. now apply rows_normalised.
Qed.

(** * Reprojecting over the whole range *)

Lemma filter_all {A} (p : A -> bool) l :
  Forall (fun x => p x = true) l -> List.filter p l = l.
Proof. induction 1 as [|x l Hx _ IH]; simpl; [done|]. now rewrite Hx, IH. Qed.

(** C2, amended. Take the bundle of the engine for at least one document and
    a range that holds the date of every session.  The reprojection returns,
    and leaves the sessions, the leak rows and the overall leak, the
    transition counts and probabilities, the price samples, the price bands,
    the bundle supports and the recommendations as they are.  Of the daily
    series it keeps the rows dated in the range; of the flow links it keeps
    those that are not self-loops; and the category rows are as they were
    exactly when their carts sum to the cart adds of the sessions, which is
    so whenever there are fewer than 20 rows. *)
Theorem reproject_full_range E h docs itemMeta fromDate toDate :
  let data := computeAnalyticsFromDocs E h docs itemMeta in
  docs <> [] ->
  Forall (fun s => inRange fromDate toDate (beforeChar "T" (SessionView.ts s)) = true)
    (AnalyticsResponse.sessions data) ->
  exists out,
    reprojectForDateRange data fromDate toDate = Some out /\
    AnalyticsResponse.sessions out = AnalyticsResponse.sessions data /\
    AnalyticsResponse.leak out = AnalyticsResponse.leak data /\
    AnalyticsResponse.transitions out = AnalyticsResponse.transitions data /\
    AnalyticsResponse.priceRangeData out = AnalyticsResponse.priceRangeData data /\
    AnalyticsResponse.priceBands out = AnalyticsResponse.priceBands data /\
    AnalyticsResponse.frequentBundles out = AnalyticsResponse.frequentBundles data /\
    AnalyticsResponse.recos out = AnalyticsResponse.recos data /\
    Daily.series (AnalyticsResponse.daily out)
      = List.filter (fun r => inRange fromDate toDate (DailyRow.date r))
          (Daily.series (AnalyticsResponse.daily data)) /\
    Sankey.links (AnalyticsResponse.sankey out)
      = List.filter (fun l => negb (Link.source l =? Link.target l)%nat)
          (Sankey.links (AnalyticsResponse.sankey data)) /\
    (AnalyticsResponse.categoryInteractions out = AnalyticsResponse.categoryInteractions data
     <-> sumZ (map CategoryRow.carts (AnalyticsResponse.categoryInteractions data))
         = sumZ (map SessionView.nCartAdd (AnalyticsResponse.sessions data))) /\
    ((length (AnalyticsResponse.categoryInteractions data) < 20)%nat ->
     AnalyticsResponse.categoryInteractions out
       = AnalyticsResponse.categoryInteractions data).
Proof.
  intros data Hdocs Hall.
  destruct (engine_reprojects E h docs itemMeta fromDate toDate) as [out Hout].
  fold data in Hout. exists out. split; [exact Hout|].
  assert (sessionsInRange data fromDate toDate = AnalyticsResponse.sessions data) as Hsess.
  { unfold sessionsInRange. now apply filter_all. }
  assert (AnalyticsResponse.sessions data <> []) as Hne.
  { intros Hnil. apply (f_equal length) in Hnil. unfold data in Hnil.
    rewrite engine_sessions in Hnil. unfold sessionsOf in Hnil.
    rewrite length_map, length_imap in Hnil. destruct docs; done. }
  assert (sessionsInRange data fromDate toDate <> []) as Hne' by now rewrite Hsess.
  destruct (reproject_some_session _ _ _ _ Hne' Hout)
    as (aa & ra & ca & Ha & Hr & Hc & Hs & Hl & Hcat & Ht & Hsk & Hd & Hrec
        & _ & _ & _ & _ & _ & Hfb & Hpb & Hpr).
  rewrite Hsess in *.
  rewrite ratio_full in * by (destruct (AnalyticsResponse.sessions data); [done|simpl; lia]).
  destruct (engine_totals E h docs itemMeta) as (HtA & HtR & Hrange).
  destruct (engine_leak E h docs itemMeta) as (Hrows & Hsa & Hsr & Hov & Hsorted).
  destruct (engine_categories E h docs itemMeta) as (Hcrows & Hcsorted & Hcsum & _).
  destruct (engine_counts E h docs itemMeta) as (_ & Hprobs).
  fold data in HtA, HtR, Hrows, Hsa, Hsr, Hov, Hsorted, Hcrows, Hcsorted, Hcsum, Hprobs.
  cbv zeta in Hrows, Hsa, Hsr, Hov, Hsorted, Hcrows, Hcsorted, Hcsum.
  set (items := Leak.items (AnalyticsResponse.leak data)) in *.
  set (cats := AnalyticsResponse.categoryInteractions data) in *.
  (* the two apportionments of the leak rows give back the rows' own counts *)
  assert (aa = map LeakRow.adds items) as ->.
  { rewrite HtA, <- Hsa, <- (map_map LeakRow.adds ofZ) in Ha.
    rewrite distributeToTotal_identity in Ha; [congruence|].
    apply Forall_fmap. eapply Forall_impl; [exact Hrows|]. intros r [? _]. simpl. lia. }
  assert (ra = map LeakRow.removes items) as ->.
  { rewrite HtR, <- Hsr, <- (map_map LeakRow.removes ofZ) in Hr.
    rewrite distributeToTotal_identity in Hr; [congruence|].
    apply Forall_fmap. eapply Forall_impl; [exact Hrows|]. intros r [? _]. simpl. lia. }
  split; [exact Hs|]. split.
  { rewrite Hl, reprojectLeakRow_identity by done.
    rewrite (sortBy_id _ _ Hsorted), HtA, HtR, <- Hov. fold items.
    unfold items. now destruct (AnalyticsResponse.leak data). }
  split.
  { rewrite Ht, scaled_one, <- Hprobs. now destruct (AnalyticsResponse.transitions data). }
  split.
  { rewrite Hpr. cbv zeta. rewrite !scaleArray_one.
    now destruct (AnalyticsResponse.priceRangeData data). }
  split.
  { rewrite Hpb. rewrite (map_ext _ id).
    - rewrite map_id. now destruct (AnalyticsResponse.priceBands data).
    - intros b. rewrite !scale_one. now destruct b. }
  split.
  { rewrite Hfb. rewrite (map_ext _ id); [apply map_id|].
    intros b. rewrite Qcmult_1_r. now destruct b. }
  split; [exact Hrec|]. split; [now rewrite Hd|]. split.
  { rewrite Hsk, scaled_one. cbn [Sankey.links]. now rewrite filter_and. }
  assert (sumZ (map CategoryRow.carts cats)
          = sumZ (map SessionView.nCartAdd (AnalyticsResponse.sessions data)) ->
          AnalyticsResponse.categoryInteractions out = cats) as Hsame.
  { intros Hsum. rewrite <- totalAddsOf_sum in Hsum.
    rewrite <- Hsum, <- (map_map CategoryRow.carts ofZ) in Hc.
    rewrite distributeToTotal_identity in Hc.
    - injection Hc as <-. rewrite Hcat, reprojectCategory_identity by done.
      now apply sortBy_id.
    - apply Forall_fmap. eapply Forall_impl; [exact Hcrows|].
      intros c (_ & ? & _). simpl. lia. }
  split.
  - split; [|exact Hsame]. intros Heq. rewrite <- Heq, <- totalAddsOf_sum, <- Hsess.
    apply (reproject_cart_totals data fromDate toDate out); [| |exact Hout].
    + now rewrite Hsess.
    + rewrite Hsess, HtA. lia.
  - intros Hlen. apply Hsame. rewrite (Hcsum Hlen), <- totalAddsOf_sum. now rewrite HtA.
Qed.

(** * Recommendations *)

Section Recos.
Implicit Types (m : list (string * list Reco.t)) (r : Reco.t).

Lemma listOf_pushReco m a r x :
    listOf (pushReco a r m) x = listOf m x ++ (if decide (x = a) then [r] else []).
  Proof.
    unfold listOf, pushReco. rewrite mapGet_mapSet.
    destruct (decide (x = a)) as [-> |Hne]; simpl; [done|]. now rewrite app_nil_r.
  Qed.

Lemma recoEntry_symmetric E freq m entry :
    symmetric m -> symmetric (recoEntry E freq m entry).
  Proof.
    intros Hm. destruct entry as [key support]. unfold recoEntry.
    set (a := default "undefined"%string (splitOn "|" key !! 0%nat)).
    set (b := default "undefined"%string (splitOn "|" key !! 1%nat)).
    set (score := (ofZ support / _)%Qc).
    intros x y s. rewrite !listOf_pushReco, !elem_of_app.
    intros [[Hin|Hin]|Hin].
    - left. left. now apply Hm.
    - destruct (decide (x = a)) as [-> |Hne]; [|now apply elem_of_nil in Hin].
      apply list_elem_of_singleton in Hin. injection Hin as -> ->.
      right. rewrite decide_True by done. now apply list_elem_of_singleton.
    - destruct (decide (x = b)) as [-> |Hne]; [|now apply elem_of_nil in Hin].
      apply list_elem_of_singleton in Hin. injection Hin as -> ->.
      left. right. rewrite decide_True by done. now apply list_elem_of_singleton.
  Qed.

Lemma recosRaw_symmetric E pairs freq : symmetric (recosRaw E pairs freq).
  Proof.
    unfold recosRaw.
    assert (symmetric []) as H0 by (intros a b s Hin; now apply elem_of_nil in Hin).
    revert H0. generalize (@nil (string * list Reco.t)).
    induction pairs as [|entry pairs IH]; intros m Hm; simpl; [done|].
    apply IH, recoEntry_symmetric, Hm.
  Qed.

Lemma mapGet_map_values {V W} (f : V -> W) (m : list (string * V)) x :
    mapGet x (map (fun kv => (kv.1, f kv.2)) m) = f <$> mapGet x m.
  Proof.
    induction m as [|[k v] m IH]; simpl; [done|]. destruct (decide (x = k)); done.
  Qed.
End Recos.

Lemma StronglySorted_all {A} (R : relation A) l :
  (forall x y, R x y) -> StronglySorted R l.
Proof.
  intros H. induction l; constructor; [done|]. apply Forall_forall. auto.
Qed.

#[local] Instance score_desc_trans :
  Transitive (fun x y : Reco.t => (Reco.score y <= Reco.score x)%Qc).
Proof. intros x y z Hxy Hyz. now apply Qcle_trans with (Reco.score y). Qed.

Lemma sorted_by_score l :
  StronglySorted (fun x y => (Reco.score y <= Reco.score x)%Qc) (sortBy scoreOrder l).
Proof.
  apply (sortBy_StronglySorted _ _), StronglySorted_all.
  intros x y. unfold scoreOrder. destruct (isPos _) eqn:Hc.
  - apply isPos_sub in Hc. now apply Qclt_le_weak.
  - now apply isPos_sub_false in Hc.
Qed.

Lemma recosFor_engine E h docs itemMeta :
  exists raw,
    (forall a b s, Reco.mk b s ∈ default [] (mapGet a raw)
                   -> Reco.mk a s ∈ default [] (mapGet b raw))
    /\ forall item,
         recosFor (computeAnalyticsFromDocs E h docs itemMeta) item
         = topRecos (default [] (mapGet item raw)).
Proof.
  unfold recosFor, computeAnalyticsFromDocs. cbn [AnalyticsResponse.recos].
  unfold cooccurrenceRecos.
  destruct (fold_left coocSession _ _) as [pairs freq]. cbn [Cooc.recos].
  exists (recosRaw E pairs freq). split; [apply recosRaw_symmetric|].
  intros x. rewrite mapGet_map_values. now destruct (mapGet x _).
Qed.

(** C3, amended. If the list of A holds B with score s, then the list of B
    holds A with the same score s, unless the list of B is full: ten
    partners, none of them with a score below s. *)
Theorem recos_symmetric_up_to_cut E h docs itemMeta A B s :
  let data := computeAnalyticsFromDocs E h docs itemMeta in
  Reco.mk B s ∈ recosFor data A ->
  Reco.mk A s ∈ recosFor data B
  \/ (length (recosFor data B) = 10%nat
      /\ forall r, r ∈ recosFor data B -> (s <= Reco.score r)%Qc).
Proof.
  intros data. destruct (recosFor_engine E h docs itemMeta) as (raw & Hsym & Hfor).
  unfold data. rewrite !Hfor. unfold topRecos. intros Hin.
  apply elem_of_take in Hin as (i & Hin & _).
  apply list_elem_of_lookup_2 in Hin. rewrite sortBy_perm in Hin.
  apply Hsym in Hin. rewrite <- (sortBy_perm scoreOrder) in Hin.
  set (sorted := sortBy scoreOrder (default [] (mapGet B raw))) in *.
  pose proof (sorted_by_score (default [] (mapGet B raw))) as Hsorted. fold sorted in Hsorted.
  rewrite <- (take_drop 10 sorted) in Hin, Hsorted.
  apply elem_of_app in Hin as [Hin|Hin]; [now left|right].
  split.
  - apply length_take_le. destruct (decide (10 <= length sorted)%nat) as [|Hlt]; [done|].
    rewrite drop_ge in Hin by lia. now apply elem_of_nil in Hin.
  - intros r Hr. exact (StronglySorted_app_1_elem_of _ _ _ _ _ Hsorted Hr Hin).
Qed.

(** * Price bands *)

Lemma samples_cons tLow tHigh band from hit tr trs :
  samples tLow tHigh band from hit (tr :: trs)
  = (if sampleOf tLow tHigh band from hit tr then 1 else 0)
    + samples tLow tHigh band from hit trs.
Proof.
  unfold samples. simpl. destruct (sampleOf _ _ _ _ _ tr); simpl length; lia.
Qed.

Lemma tallyTransition_delta tLow tHigh tally tr band :
  let t := tallyTransition tLow tHigh tally tr band in
  Tally.view t
    = Tally.view (tally band) + (if sampleOf tLow tHigh band view false tr then 1 else 0)
  /\ Tally.viewCart t
     = Tally.viewCart (tally band) + (if sampleOf tLow tHigh band view true tr then 1 else 0)
  /\ Tally.wish t
     = Tally.wish (tally band)
       + (if sampleOf tLow tHigh band wishlist_add false tr then 1 else 0)
  /\ Tally.wishCart t
     = Tally.wishCart (tally band)
       + (if sampleOf tLow tHigh band wishlist_add true tr then 1 else 0).
Proof.
  unfold tallyTransition, sampleOf, isType. destruct tr as [from to]. cbn [fst snd].
  set (X := bandForPrice tLow tHigh (TransitionEvent.price from)).
  destruct (decide (band = X)) as [-> |Hne].
  - rewrite (bool_decide_eq_true_2 (X = X)) by done.
    destruct (TransitionEvent.type from), (TransitionEvent.type to); simpl; lia.
  - rewrite (bool_decide_eq_false_2 (X = band)) by (intros Heq; now apply Hne).
    simpl. lia.
Qed.

Lemma tallies_samples tLow tHigh trs band :
  let t := tallies tLow tHigh trs band in
  Tally.view t = samples tLow tHigh band view false trs
  /\ Tally.viewCart t = samples tLow tHigh band view true trs
  /\ Tally.wish t = samples tLow tHigh band wishlist_add false trs
  /\ Tally.wishCart t = samples tLow tHigh band wishlist_add true trs.
Proof.
  unfold tallies.
  assert (forall tally,
    let t := fold_left (tallyTransition tLow tHigh) trs tally band in
    Tally.view t = Tally.view (tally band) + samples tLow tHigh band view false trs
    /\ Tally.viewCart t = Tally.viewCart (tally band) + samples tLow tHigh band view true trs
    /\ Tally.wish t = Tally.wish (tally band) + samples tLow tHigh band wishlist_add false trs
    /\ Tally.wishCart t
       = Tally.wishCart (tally band) + samples tLow tHigh band wishlist_add true trs) as H.
  { induction trs as [|tr trs IH]; intros tally; simpl.
    - unfold samples. simpl. lia.
    - destruct (IH (tallyTransition tLow tHigh tally tr)) as (I1 & I2 & I3 & I4).
      destruct (tallyTransition_delta tLow tHigh tally tr band) as (D1 & D2 & D3 & D4).
      simpl in *. rewrite !samples_cons. lia. }
  destruct (H (fun _ => Tally.mk 0 0 0 0)) as (H1 & H2 & H3 & H4).
  cbn [Tally.view Tally.viewCart Tally.wish Tally.wishCart] in H1, H2, H3, H4.
  cbv zeta in *. lia.
Qed.

(** C7, amended.  Every band that [priceBandsFromQuantiles] emits is of one
    of two kinds.  When the split of the prices is degenerate (no price, a
    boundary missing, or a lower boundary not below the upper one) it is the
    only band, "All", with no sample and both rates 0.  Otherwise the bands
    are "Low", "Mid" and "High", and each reports, for views and for
    wishlist adds alike, the samples it has among the transitions and the
    rate (hits + 1) / (samples + 2) when it has a sample, the rate 0 when it
    has none. *)
Theorem priceBands_smoothed E itemMeta transitions b :
  b ∈ PriceBands.bands (priceBandsFromQuantiles E itemMeta transitions) ->
  let splits := robustPriceSplits E (pricesOf itemMeta) in
  let bands := PriceBands.bands (priceBandsFromQuantiles E itemMeta transitions) in
  ((forall tLow tHigh,
      Splits.tLow splits = Some tLow -> Splits.tHigh splits = Some tHigh ->
      ~ (tLow < tHigh)%Qc)
   /\ bands = [b]
   /\ Band.name b = All /\ Band.nView b = 0 /\ Band.nWish b = 0
   /\ Band.viewToCart b = 0%Qc /\ Band.wishToCart b = 0%Qc)
  \/ exists tLow tHigh,
       let count := samples tLow tHigh (Band.name b) in
       Splits.tLow splits = Some tLow /\ Splits.tHigh splits = Some tHigh
       /\ (tLow < tHigh)%Qc
       /\ map Band.name bands = [Low; Mid; High]
       /\ Band.nView b = count view false transitions
       /\ Band.nWish b = count wishlist_add false transitions
       /\ Band.viewToCart b
          = smoothed (count view true transitions) (count view false transitions)
       /\ Band.wishToCart b
          = smoothed (count wishlist_add true transitions)
              (count wishlist_add false transitions).
Proof.
  cbv zeta. unfold priceBandsFromQuantiles.
  destruct (pricesOf itemMeta) as [|p ps] eqn:Hp.
  { simpl. intros ->%list_elem_of_singleton. left.
    split; [intros tLow tHigh H; discriminate H|]. repeat split; done. }
  rewrite <- Hp.
  destruct (Splits.tLow _) as [tLow|] eqn:Hlo.
  2:{ simpl. intros ->%list_elem_of_singleton. left.
      split; [intros tLow tHigh H; discriminate H|]. repeat split; done. }
  destruct (Splits.tHigh _) as [tHigh|] eqn:Hhi.
  2:{ simpl. intros ->%list_elem_of_singleton. left.
      split; [intros tLow' tHigh' _ H; discriminate H|]. repeat split; done. }
  destruct (ltb tLow tHigh) eqn:Hlt.
  2:{ simpl. intros ->%list_elem_of_singleton. left.
      split; [|repeat split; done].
      intros tLow' tHigh' [= <-] [= <-] H. apply ltb_true in H. congruence. }
  apply ltb_true in Hlt. cbn [PriceBands.bands]. intros Hb. right.
  exists tLow, tHigh. cbv zeta.
  apply list_elem_of_fmap in Hb as (b0 & -> & Hb0).
  unfold fillBand. cbn [Band.name Band.nView Band.nWish Band.viewToCart Band.wishToCart].
  destruct (tallies_samples tLow tHigh transitions (Band.name b0)) as (H1 & H2 & H3 & H4).
  cbv zeta in H1, H2, H3, H4. rewrite H1, H2, H3, H4. unfold smoothed.
  repeat split; done.
Qed.

(** * [strId] *)







(** * Examples *)

Example distribute_333 :
  distributeToTotal 10 [ofZ 3; ofZ 3; ofZ 3] = Some [4; 3; 3].
Proof. vm_compute. reflexivity. Qed.

Example distribute_zero_weights :
  distributeToTotal 5 [0%Qc; 0%Qc] = Some [3; 2].
Proof. vm_compute. reflexivity. Qed.

(** With no weight at all a positive total cannot be handed out: the loop
    reads [order[NaN].i] and throws.  With weights that are all zero the
    shares are taken over 1, not over the sum of the weights, and the units
    go round the entries as often as it takes: the single entry of [0]
    receives all three. *)
Lemma distributeToTotal_without_weight :
  ~ (exists out, distributeToTotal 1 [] = Some out /\ sumZ out = 1)
  /\ distributeToTotal 3 [0%Qc] = Some [3].
Proof.
  split.
  - intros (out & Hout & _). vm_compute in Hout. discriminate Hout.
  - vm_compute. reflexivity.
Qed.

(** C2 fails as stated, in four ways.  A visit with two views has the
    self-loop view -> view among its flow links, and the reprojection drops
    it.  A view stamped on the day after its visit gives the daily series a
    row that the range of the visit does not hold.  With twenty-one
    categories the table keeps twenty, whose carts the reprojection raises
    to the twenty-one cart adds of the session.  And for no document at all
    the bundle has the one price band "All", the reprojection none. *)
Lemma full_range_reprojection_differs :
  (let data := computeAnalyticsFromDocs utcEnv ∅ twoViews [] in
   map SessionView.ts (AnalyticsResponse.sessions data) = ["2024-10-01T00:00:00.000Z"%string]
   /\ Sankey.links (AnalyticsResponse.sankey data) = [Link.mk 2 2 1]
   /\ (fun out => Sankey.links (AnalyticsResponse.sankey out))
        <$> reprojectForDateRange data "2024-10-01" "2024-10-01" = Some [])
  /\ (let data := computeAnalyticsFromDocs utcEnv ∅ lateView [] in
      map SessionView.ts (AnalyticsResponse.sessions data) = ["2024-10-01T00:00:00.000Z"%string]
      /\ Daily.series (AnalyticsResponse.daily data) = [DailyRow.mk "2024-10-02" 1 0]
      /\ (fun out => Daily.series (AnalyticsResponse.daily out))
           <$> reprojectForDateRange data "2024-10-01" "2024-10-01" = Some [])
  /\ (let data := computeAnalyticsFromDocs utcEnv ∅ manyCarts manyMeta in
      map (fun s => (SessionView.ts s, SessionView.nCartAdd s))
        (AnalyticsResponse.sessions data) = [("2024-10-01T00:00:00.000Z"%string, 21)]
      /\ map CategoryRow.carts (AnalyticsResponse.categoryInteractions data)
         = replicate 20 1
      /\ (fun out => map CategoryRow.carts (AnalyticsResponse.categoryInteractions out))
           <$> reprojectForDateRange data "2024-10-01" "2024-10-01"
         = Some (2 :: replicate 19 1))
  /\ (let data := computeAnalyticsFromDocs utcEnv ∅ [] [] in
      AnalyticsResponse.sessions data = []
      /\ map Band.name (PriceBands.bands (AnalyticsResponse.priceBands data)) = [All]
      /\ (fun out => map Band.name (PriceBands.bands (AnalyticsResponse.priceBands out)))
           <$> reprojectForDateRange data "2024-10-01" "2024-10-01" = Some []).
Proof. repeat split; vm_compute; reflexivity. Qed.

Lemma reproject_full_range_witness :
  let data := computeAnalyticsFromDocs utcEnv ∅ twoViews [] in
  twoViews <> []
  /\ Forall (fun s => inRange "2024-10-01" "2024-10-01"
                        (beforeChar "T" (SessionView.ts s)) = true)
       (AnalyticsResponse.sessions data)
  /\ exists out,
       reprojectForDateRange data "2024-10-01" "2024-10-01" = Some out
       /\ AnalyticsResponse.leak out = AnalyticsResponse.leak data
       /\ AnalyticsResponse.transitions out = AnalyticsResponse.transitions data.
Proof.
  intros data.
  assert (Forall (fun s => inRange "2024-10-01" "2024-10-01"
                             (beforeChar "T" (SessionView.ts s)) = true)
            (AnalyticsResponse.sessions data)) as Hall.
  { apply Forall_cons. split; [by vm_compute|]. apply Forall_nil_2. }
  split; [done|]. split; [exact Hall|].
  destruct (reproject_full_range utcEnv ∅ twoViews [] "2024-10-01" "2024-10-01")
    as (out & Hout & _ & Hl & Ht & _); [done|exact Hall|].
  exists out. split; [exact Hout|]. split; [exact Hl|exact Ht].
Defined.

(** C3 fails as stated. After one visit with views of the twelve items a to
    l, every item has eleven partners with the score 1, and each list is cut
    to ten: the list of l holds a, the list of a does not hold l. *)
Lemma recos_cut_breaks_symmetry :
  let data := computeAnalyticsFromDocs utcEnv ∅ twelveViews [] in
  recosFor data "l"
    = map (fun item => Reco.mk item 1%Qc)
        ["a"; "b"; "c"; "d"; "e"; "f"; "g"; "h"; "i"; "j"]%string
  /\ recosFor data "a"
     = map (fun item => Reco.mk item 1%Qc)
         ["b"; "c"; "d"; "e"; "f"; "g"; "h"; "i"; "j"; "k"]%string
  /\ ~ (forall A B s, Reco.mk B s ∈ recosFor data A -> Reco.mk A s ∈ recosFor data B).
Proof.
  intros data.
  assert (recosFor data "l"
          = map (fun item => Reco.mk item 1%Qc)
              ["a"; "b"; "c"; "d"; "e"; "f"; "g"; "h"; "i"; "j"]%string) as Hl
    by (vm_compute; reflexivity).
  assert (recosFor data "a"
          = map (fun item => Reco.mk item 1%Qc)
              ["b"; "c"; "d"; "e"; "f"; "g"; "h"; "i"; "j"; "k"]%string) as Ha
    by (vm_compute; reflexivity).
  split; [exact Hl|]. split; [exact Ha|].
  intros H. specialize (H "l"%string "a"%string 1%Qc). rewrite Hl, Ha in H.
  assert (Reco.mk "l" 1%Qc
            ∈ map (fun item => Reco.mk item 1%Qc)
                ["b"; "c"; "d"; "e"; "f"; "g"; "h"; "i"; "j"; "k"]%string) as Hin.
  { apply H. apply elem_of_cons. left. reflexivity. }
  clear -Hin. cbn [map] in Hin.
  repeat (apply elem_of_cons in Hin as [Hin|Hin]; [discriminate Hin|]).
  exact (proj1 (elem_of_nil _) Hin).
Qed.

Lemma recos_symmetric_up_to_cut_witness :
  let data := computeAnalyticsFromDocs utcEnv ∅ twoViews [] in
  Reco.mk "Y" 1%Qc ∈ recosFor data "X"
  /\ (Reco.mk "X" 1%Qc ∈ recosFor data "Y"
      \/ (length (recosFor data "Y") = 10%nat
          /\ forall r, r ∈ recosFor data "Y" -> (1 <= Reco.score r)%Qc)).
Proof.
  intros data.
  assert (recosFor data "X" = [Reco.mk "Y" 1%Qc]) as HX by (vm_compute; reflexivity).
  assert (Reco.mk "Y" 1%Qc ∈ recosFor data "X") as Hin.
  { rewrite HX. apply elem_of_cons. left. reflexivity. }
  split; [exact Hin|].
  exact (recos_symmetric_up_to_cut utcEnv ∅ twoViews [] "X" "Y" 1%Qc Hin).
Defined.

(** C4: the code leaves the claim. In the bundle of the engine a leak row is
    [clampValue(r / a, 0, 1)]; the reprojection computes [removes / adds]
    from two separate apportionments and does not clamp.  For the two visits
    of [twoDays] and the range of the first day, item X is left with one add
    and two removes: its leak is 2. *)
Lemma reprojected_leak_above_one :
  let data := computeAnalyticsFromDocs utcEnv ∅ twoDays [] in
  map (fun r => (LeakRow.item r, LeakRow.adds r, LeakRow.removes r,
                 this (LeakRow.leak r)))
    (Leak.items (AnalyticsResponse.leak data))
    = [("X"%string, 2, 2, 1 # 1); ("Y"%string, 2, 0, 0 # 1)]
  /\ (fun out =>
        map (fun r => (LeakRow.item r, LeakRow.adds r, LeakRow.removes r,
                       this (LeakRow.leak r)))
          (Leak.items (AnalyticsResponse.leak out)))
       <$> reprojectForDateRange data "2024-10-01" "2024-10-01"
     = Some [("X"%string, 1, 2, 2 # 1); ("Y"%string, 1, 0, 0 # 1)].
Proof. split; vm_compute; reflexivity. Qed.

(** What does hold of C4: in the bundle of the engine every leak row and the
    overall leak are in [0, 1], and the overall leak is 0 without cart
    adds. *)
Lemma engine_leak_unit E h docs itemMeta :
  let data := computeAnalyticsFromDocs E h docs itemMeta in
  let L := AnalyticsResponse.leak data in
  Forall (fun r => (0 <= LeakRow.leak r)%Qc /\ (LeakRow.leak r <= 1)%Qc) (Leak.items L)
  /\ (0 <= Leak.overall L)%Qc /\ (Leak.overall L <= 1)%Qc
  /\ (totalAddsOf (AnalyticsResponse.sessions data) = 0 -> Leak.overall L = 0%Qc).
Proof.
  intros data L.
  destruct (engine_leak E h docs itemMeta) as (Hrows & _ & _ & Hov & _).
  destruct (engine_totals E h docs itemMeta) as (HtA & _ & Hrange).
  fold data in Hrows, Hov, HtA. cbv zeta in Hrows, Hov. fold L in Hrows, Hov.
  assert (forall r a, 0 <= r <= a ->
            (0 <= (if 0 <? a then (ofZ r / ofZ a)%Qc else 0%Qc))%Qc
            /\ ((if 0 <? a then (ofZ r / ofZ a)%Qc else 0%Qc) <= 1)%Qc) as Hunit.
  { intros r a Hra. destruct (0 <? a) eqn:Ha; [|done].
    apply Z.ltb_lt in Ha. apply Qcdiv_unit.
    - apply ofZ_nonneg. lia.
    - apply ofZ_mono. lia.
    - now apply ofZ_pos. }
  split; [|split; [|split]].
  - eapply Forall_impl; [exact Hrows|]. intros r [Hr ->]. now apply Hunit.
  - rewrite Hov. now apply Hunit.
  - rewrite Hov. now apply Hunit.
  - intros H0. rewrite Hov, <- HtA, H0. reflexivity.
Qed.

Lemma reproject_empty_range_witness :
  let data := computeAnalyticsFromDocs utcEnv ∅ twoDays [] in
  sessionsInRange data "2025-01-01" "2025-01-31" = []
  /\ exists out,
       reprojectForDateRange data "2025-01-01" "2025-01-31" = Some out
       /\ AnalyticsResponse.sessions out = []
       /\ AnalyticsResponse.leak out = Leak.mk 0%Qc [].
Proof.
  intros data.
  assert (sessionsInRange data "2025-01-01" "2025-01-31" = []) as Hnil
    by (vm_compute; reflexivity).
  split; [exact Hnil|].
  destruct (reproject_empty_range data "2025-01-01" "2025-01-31" Hnil)
    as (out & Hout & Hs & _ & Hl & _).
  exists out. split; [exact Hout|]. split; [exact Hs|exact Hl].
Defined.

Lemma reproject_frame_witness :
  let data := computeAnalyticsFromDocs utcEnv ∅ twoDays [] in
  sessionsInRange data "2024-10-01" "2024-10-01" <> []
  /\ match reprojectForDateRange data "2024-10-01" "2024-10-01" with
     | Some out =>
         AnalyticsResponse.geoInsights out = AnalyticsResponse.geoInsights data
         /\ AnalyticsResponse.__version out = AnalyticsResponse.__version data
     | None => False
     end.
Proof.
  intros data.
  assert (sessionsInRange data "2024-10-01" "2024-10-01" <> []) as Hne.
  { intros H. apply (f_equal length) in H. vm_compute in H. discriminate H. }
  split; [exact Hne|].
  pose proof (reproject_frame data "2024-10-01" "2024-10-01" Hne) as H.
  destruct (reprojectForDateRange data "2024-10-01" "2024-10-01") as [out|] eqn:Hout.
  - destruct H as (Hg & _ & _ & _ & _ & Hv). split; [exact Hg|exact Hv].
  - vm_compute in Hout. discriminate Hout.
Defined.

Lemma reproject_cart_axis_witness :
  let data := computeAnalyticsFromDocs utcEnv ∅ twoDays [] in
  sessionsInRange data "2024-10-01" "2024-10-01" <> []
  /\ exists out,
       reprojectForDateRange data "2024-10-01" "2024-10-01" = Some out
       /\ sumZ (map CategoryRow.carts (AnalyticsResponse.categoryInteractions out)) = 2
       /\ sumZ (map LeakRow.adds (Leak.items (AnalyticsResponse.leak out))) = 2.
Proof.
  intros data.
  assert (sessionsInRange data "2024-10-01" "2024-10-01" <> []) as Hne.
  { intros H. apply (f_equal length) in H. vm_compute in H. discriminate H. }
  split; [exact Hne|].
  destruct (reproject_cart_axis utcEnv ∅ twoDays [] "2024-10-01" "2024-10-01" Hne)
    as (out & Hout & Hc & Hl).
  assert (sumZ (map SessionView.nCartAdd (sessionsInRange data "2024-10-01" "2024-10-01")) = 2)
    as Hsum by (vm_compute; reflexivity).
  fold data in Hc, Hl. rewrite Hsum in Hc, Hl.
  exists out. split; [exact Hout|]. split; [exact Hc|exact Hl].
Defined.

(** C5 fails as stated.  In the bundle of the visit [fromCart] the row of
    the cart adds has the counts 1, 0, 4, 1, 0.  Its probabilities are the
    doubles nearest to 1/6, 0, 4/6, 1/6 and 0; their sum is [1 - 2^-54], and
    added up as doubles, from the left, they give [1 - 2^-53], the double
    below one.  The reprojection onto the day of the visit has the same
    row. *)
Lemma transition_row_below_one :
  let data := computeAnalyticsFromDocs utcEnv ∅ fromCart [] in
  let row (d : AnalyticsResponse.t) :=
    default [] (Transitions.probs (AnalyticsResponse.transitions d) !! 0%nat) in
  Transitions.counts (AnalyticsResponse.transitions data) !! 0%nat
  = Some [1; 0; 4; 1; 0]
  /\ row data
     = [fdiv (ofZ 1) (ofZ 6); 0%Qc; fdiv (ofZ 4) (ofZ 6); fdiv (ofZ 1) (ofZ 6); 0%Qc]
  /\ sumQ (row data) = (1 - pow2 (-54))%Qc
  /\ sum64 (row data) = (1 - pow2 (-53))%Qc
  /\ sumQ (row data) <> 1%Qc
  /\ sum64 (row data) <> 1%Qc
  /\ exists out,
       reprojectForDateRange data "2024-10-01" "2024-10-01" = Some out
       /\ Transitions.counts (AnalyticsResponse.transitions out) !! 0%nat
          = Some [1; 0; 4; 1; 0]
       /\ sumQ (row out) = (1 - pow2 (-54))%Qc
       /\ sum64 (row out) = (1 - pow2 (-53))%Qc.
Proof.
  intros data row.
  assert (Transitions.counts (AnalyticsResponse.transitions data) !! 0%nat
          = Some [1; 0; 4; 1; 0]) as Hc by (vm_compute; reflexivity).
  assert (row data
          = [fdiv (ofZ 1) (ofZ 6); 0%Qc; fdiv (ofZ 4) (ofZ 6); fdiv (ofZ 1) (ofZ 6); 0%Qc])
    as Hrow.
  { unfold row. change (Transitions.probs (AnalyticsResponse.transitions data))
      with (map rowProbs (Transitions.counts (AnalyticsResponse.transitions data))).
    rewrite list_lookup_fmap, Hc. reflexivity. }
  assert (sumQ (row data) = (1 - pow2 (-54))%Qc) as Hs.
  { rewrite Hrow. apply Qc_is_canon. vm_compute. reflexivity. }
  assert (sum64 (row data) = (1 - pow2 (-53))%Qc) as Hf.
  { rewrite Hrow. apply Qc_is_canon. vm_compute. reflexivity. }
  split; [exact Hc|]. split; [exact Hrow|]. split; [exact Hs|]. split; [exact Hf|].
  split; [|split].
  - rewrite Hs. intros H. apply (f_equal this) in H. vm_compute in H. discriminate H.
  - rewrite Hf. intros H. apply (f_equal this) in H. vm_compute in H. discriminate H.
  - assert ((fun out =>
               (Transitions.counts (AnalyticsResponse.transitions out) !! 0%nat,
                Qc_eq_bool (sumQ (row out)) (1 - pow2 (-54)),
                Qc_eq_bool (sum64 (row out)) (1 - pow2 (-53))))
            <$> reprojectForDateRange data "2024-10-01" "2024-10-01"
            = Some (Some [1; 0; 4; 1; 0], true, true)) as H
      by (vm_compute; reflexivity).
    destruct (reprojectForDateRange data "2024-10-01" "2024-10-01") as [out|];
      [|discriminate H].
    exists out. split; [reflexivity|]. simpl in H. injection H as H1 H2 H3.
    split; [exact H1|]. split; now apply Qc_eq_bool_correct.
Qed.

(** C7 fails as stated. With no item price at all the builder emits the one
    band "All" with no sample and the rates 0, where (0 + 1) / (0 + 2) is
    one half; and the loop that fills the three bands of a proper split
    gives a band without sample the rate 0 as well. *)
Lemma priceBands_zero_sample_rate :
  (forall E,
     map (fun b => (Band.name b, Band.nView b, Band.nWish b,
                    Band.viewToCart b, Band.wishToCart b))
       (PriceBands.bands (priceBandsFromQuantiles E [] []))
     = [(All, 0, 0, 0%Qc, 0%Qc)])
  /\ (ofZ (0 + 1) / ofZ (0 + 2))%Qc <> 0%Qc
  /\ forall band,
       Band.viewToCart (fillBand (fun _ => Tally.mk 0 0 0 0) band) = 0%Qc
       /\ Band.wishToCart (fillBand (fun _ => Tally.mk 0 0 0 0) band) = 0%Qc.
Proof.
  split; [reflexivity|]. split; [by vm_compute|]. intros band. split; reflexivity.
Qed.

Lemma priceBands_smoothed_witness :
  exists b,
    b ∈ PriceBands.bands (priceBandsFromQuantiles utcEnv tenPrices fiveEvents)
    /\ Band.name b = Low /\ Band.nView b = 2 /\ Band.viewToCart b = smoothed 1 2.
Proof.
  destruct (PriceBands.bands (priceBandsFromQuantiles utcEnv tenPrices fiveEvents))
    as [|b l] eqn:Hb.
  { vm_compute in Hb. discriminate Hb. }
  assert (Band.name b = Low) as Hname.
  { apply (f_equal (fun l => Band.name <$> head l)) in Hb. vm_compute in Hb.
    injection Hb as Hb. symmetry. exact Hb. }
  assert (b ∈ PriceBands.bands (priceBandsFromQuantiles utcEnv tenPrices fiveEvents))
    as Hin by (rewrite Hb; left).
  exists b. split; [left|]. split; [exact Hname|].
  destruct (priceBands_smoothed utcEnv tenPrices fiveEvents b Hin)
    as [(_ & _ & HAll & _)|(tLow & tHigh & Hlo & Hhi & _ & _ & Hn & _ & Hv & _)].
  - rewrite Hname in HAll. discriminate HAll.
  - vm_compute in Hlo. injection Hlo as <-. vm_compute in Hhi. injection Hhi as <-.
    rewrite Hname in Hn, Hv. split.
    + rewrite Hn. vm_compute. reflexivity.
    + rewrite Hv. f_equal; vm_compute; reflexivity.
Defined.

(** The three bands of a proper split: "Low" has two view samples, one of
    them a hit, and the rate (1 + 1) / (2 + 2); "Mid" has one wishlist
    sample, a hit, and the rate (1 + 1) / (1 + 2); "High" has no sample and
    both rates 0. *)
Example priceBands_tenPrices :
  map (fun b => (Band.name b, Band.nView b, Band.nWish b,
                 bool_decide (Band.viewToCart b = (ofZ 2 / ofZ 4)%Qc),
                 bool_decide (Band.wishToCart b = (ofZ 2 / ofZ 3)%Qc),
                 bool_decide (Band.viewToCart b = 0%Qc),
                 bool_decide (Band.wishToCart b = 0%Qc)))
    (PriceBands.bands (priceBandsFromQuantiles utcEnv tenPrices fiveEvents))
  = [(Low, 2, 0, true, false, false, true);
     (Mid, 0, 1, false, true, true, false);
     (High, 0, 0, false, false, true, true)].
Proof. vm_compute. reflexivity. Qed.

Example strId_self : strId utcEnv selfHeap (VRef 1%positive) = None.
Proof. vm_compute. reflexivity. Qed.

Example strId_pair : strId utcEnv pairHeap (VRef 2%positive) = None.
Proof. vm_compute. reflexivity. Qed.

Example strId_oid :
  strId utcEnv
    {[ 1%positive := Obj.mk {[ "$oid"%string := VStr "5f1d" ]} "[object Object]" ]}
    (VRef 1%positive) = Some "5f1d"%string.
Proof. vm_compute. reflexivity. Qed.


(** * More on [distributeToTotal] *)

Lemma Qclt_irrefl x : ~ (x < x)%Qc.
Proof. apply Qcle_not_lt, Qcle_refl. Qed.

Lemma MathFloor_mono x y : (x <= y)%Qc -> MathFloor x <= MathFloor y.
Proof.
  intros H. pose proof (MathFloor_le x) as Hx. pose proof (MathFloor_lt y) as Hy.
  assert (ofZ (MathFloor x) < ofZ (MathFloor y + 1))%Qc as Hlt.
  { eapply Qcle_lt_trans; [exact Hx|]. eapply Qcle_lt_trans; [exact H|exact Hy]. }
  apply ofZ_lt in Hlt. lia.
Qed.

Lemma sumQ_app l1 l2 : sumQ (l1 ++ l2) = (sumQ l1 + sumQ l2)%Qc.
Proof.
  induction l1 as [|x l1 IH]; simpl.
  - change (sumQ []) with 0%Qc. ring.
  - rewrite !sumQ_cons, IH. ring.
Qed.

Lemma sumQ_perm l1 l2 : l1 ≡ₚ l2 -> sumQ l1 = sumQ l2.
Proof.
  induction 1 as [|x l1 l2 _ IH|x y l|l1 l2 l3 _ IH1 _ IH2];
    rewrite ?sumQ_cons; [done|now rewrite IH|ring|congruence].
Qed.

Lemma remainder_unit T ws i :
  (0 <= remainder T ws i)%Qc /\ (remainder T ws i < 1)%Qc.
Proof.
  unfold remainder. set (x := share T ws i).
  pose proof (MathFloor_le x) as Hle. pose proof (MathFloor_lt x) as Hlt.
  rewrite ofZ_add, ofZ_1 in Hlt. split.
  - apply (proj1 (Qcle_minus_iff _ _)) in Hle. exact Hle.
  - apply Qclt_minus_iff. apply Qclt_minus_iff in Hlt.
    replace (1 + - (x - ofZ (MathFloor x)))%Qc
      with (ofZ (MathFloor x) + 1 + - x)%Qc by ring.
    exact Hlt.
Qed.

Lemma precedes_asym T ws i j : precedes T ws i j -> precedes T ws j i -> False.
Proof.
  intros [H1|[H1 L1]] [H2|[H2 L2]].
  - exact (Qclt_irrefl _ (Qclt_trans _ _ _ H1 H2)).
  - rewrite H2 in H1. exact (Qclt_irrefl _ H1).
  - rewrite H1 in H2. exact (Qclt_irrefl _ H2).
  - lia.
Qed.

Lemma StronglySorted_lookup_lt {A} (R : relation A) l p q x y :
  StronglySorted R l -> (p < q)%nat -> l !! p = Some x -> l !! q = Some y -> R x y.
Proof.
  intros Hs Hpq Hp Hq. rewrite <- (take_drop q l) in Hs.
  apply (StronglySorted_app_1_elem_of R (take q l) (drop q l)); [exact Hs| |].
  - apply list_elem_of_lookup. exists p. now rewrite lookup_take_lt.
  - apply list_elem_of_lookup. exists 0%nat. rewrite lookup_drop. now rewrite Nat.add_0_r.
Qed.

(** Whoever precedes an entry that receives a unit receives one too. *)
Lemma first_units_closed T ws order r i j :
  StronglySorted (precedes T ws) order ->
  i ∈ take r order -> j ∈ order -> precedes T ws j i -> j ∈ take r order.
Proof.
  intros Hs Hi Hj Hji.
  apply list_elem_of_lookup in Hi as [p Hp].
  assert (p < r)%nat as Hpr.
  { apply lookup_lt_Some in Hp. rewrite length_take in Hp. lia. }
  rewrite lookup_take_lt in Hp by done.
  apply list_elem_of_lookup in Hj as [q Hq].
  destruct (decide (q < r)%nat) as [Hqr|Hqr].
  - apply list_elem_of_lookup. exists q. now rewrite lookup_take_lt.
  - exfalso. apply (precedes_asym T ws i j); [|exact Hji].
    apply (StronglySorted_lookup_lt _ order p q); [done|lia|done|done].
Qed.

(** The entries of an allocation, when some weight is positive. *)
Lemma distributeToTotal_entries T ws :
  0 <= T -> Forall (fun w => (0 <= w)%Qc) ws -> (0 < sumQ ws)%Qc ->
  exists out order (r : nat),
    distributeToTotal T ws = Some out /\
    Z.of_nat r = firstUnits T ws /\ (r < length ws)%nat /\
    order ≡ₚ seq 0 (length ws) /\
    StronglySorted (precedes T ws) order /\
    forall i, (i < length ws)%nat ->
      out !! i = Some (MathFloor (share T ws i)
                       + if decide (i ∈ take r order) then 1 else 0).
Proof.
  intros HT Hws Hs. unfold distributeToTotal.
  set (raw := rawOf T ws). set (base := map MathFloor raw).
  set (rem := T - sumZ base).
  assert (ws <> []) as Hne.
  { intros ->. change (sumQ []) with 0%Qc in Hs. exact (Qclt_irrefl _ Hs). }
  assert (length base = length raw) as Hlen by (unfold base; now rewrite length_map).
  pose proof (rawOf_length T ws) as Hraw. fold raw in Hraw.
  destruct (orderOf_indices raw base Hlen) as [Hol Hoi].
  assert (sumQ raw = ofZ T) as Hrawsum.
  { unfold raw. rewrite rawOf_sum by done.
    destruct (isZero (sumQ ws)) eqn:Hz; [|done].
    apply isZero_true in Hz. rewrite Hz in Hs. destruct (Qclt_irrefl _ Hs). }
  assert (0 <= rem) as Hrem.
  { unfold rem. pose proof (sumZ_floor_le raw) as Hle. fold base in Hle.
    rewrite Hrawsum in Hle. apply ofZ_le in Hle. lia. }
  assert (rem < Z.of_nat (length ws)) as Hlt.
  { pose proof (sumZ_floor_lt raw) as Hlt. fold base in Hlt.
    rewrite Hrawsum, Hraw in Hlt.
    assert (raw <> []) as Hrne by (intros H; rewrite H in Hraw; destruct ws; done).
    apply Hlt, ofZ_lt in Hrne. unfold rem. lia. }
  destruct (orderOf_spec T ws Hws Hs) as [Hperm Hsorted]. fold raw base in Hperm, Hsorted.
  destruct (bumpAll_first (orderOf raw base) (Z.to_nat rem) base) as (out & Hout & Hspec).
  { lia. }
  { rewrite Hperm. apply NoDup_seq. }
  { exact Hoi. }
  exists out, (map Frac.i (orderOf raw base)), (Z.to_nat rem).
  split; [exact Hout|]. split.
  { rewrite Z2Nat.id by done. unfold firstUnits, rem, base, raw. now rewrite base_shares. }
  split; [lia|]. split; [exact Hperm|]. split; [exact Hsorted|].
  intros i Hi.
  assert (base !! i = Some (MathFloor (share T ws i))) as Hb.
  { unfold base, raw. rewrite base_shares by done.
    rewrite list_lookup_fmap, lookup_seq_lt by done. done. }
  rewrite (Hspec _ _ Hb). rewrite <- fmap_take. done.
Qed.

Lemma map_seq_lookup {A B} (d : A) (g : A -> B) (l : list A) :
  map (fun i => g (default d (l !! i))) (seq 0 (length l)) = map g l.
Proof.
  apply list_eq. intros i. rewrite !list_lookup_fmap.
  destruct (l !! i) as [x|] eqn:Hx; simpl.
  - rewrite lookup_seq_lt by (now apply lookup_lt_Some in Hx). simpl. now rewrite Hx.
  - rewrite lookup_seq_ge by (now apply lookup_ge_None in Hx). done.
Qed.

Lemma sumQ_sub_map {A} (a : A -> Qc) (b : A -> Z) l :
  sumQ (map (fun i => (a i - ofZ (b i))%Qc) l)
  = (sumQ (map a l) - ofZ (sumZ (map b l)))%Qc.
Proof.
  induction l as [|x l IH]; simpl.
  - change (sumQ []) with 0%Qc. change (sumZ []) with 0. rewrite ofZ_0. ring.
  - rewrite !sumQ_cons, sumZ_cons, ofZ_add, IH. ring.
Qed.

Lemma sumQ_le_length {A} (f : A -> Qc) l :
  (forall x, (f x <= 1)%Qc) -> (sumQ (map f l) <= ofZ (Z.of_nat (length l)))%Qc.
Proof.
  intros Hf. induction l as [|x l IH]; simpl length; simpl map.
  - change (sumQ [] <= ofZ 0)%Qc. rewrite ofZ_0. apply Qcle_refl.
  - rewrite sumQ_cons, Nat2Z.inj_succ, <- Z.add_1_l, ofZ_add, ofZ_1.
    apply Qcplus_le_compat; [apply Hf|exact IH].
Qed.

Lemma sumQ_all_zero {A} (f : A -> Qc) l :
  Forall (fun x => f x = 0%Qc) l -> sumQ (map f l) = 0%Qc.
Proof.
  induction 1 as [|x l Hx _ IH]; simpl; [done|]. rewrite sumQ_cons, Hx, IH. ring.
Qed.

(** The remainders of all entries add up to the units left after flooring. *)
Lemma remainders_sum T ws :
  Forall (fun w => (0 <= w)%Qc) ws -> (0 < sumQ ws)%Qc ->
  sumQ (map (remainder T ws) (seq 0 (length ws))) = ofZ (firstUnits T ws).
Proof.
  intros Hws Hs. unfold remainder, firstUnits.
  rewrite (sumQ_sub_map (share T ws) (fun i => MathFloor (share T ws i))).
  rewrite ofZ_sub. f_equal.
  unfold share. rewrite (map_seq_lookup 0%Qc (fun w => (w / sumQ ws * ofZ T)%Qc) ws).
  rewrite <- rawOf_positive by done. rewrite rawOf_sum by done.
  destruct (isZero (sumQ ws)) eqn:Hz; [|done].
  apply isZero_true in Hz. rewrite Hz in Hs. destruct (Qclt_irrefl _ Hs).
Qed.

Lemma firstUnits_zero ws : firstUnits 0 ws = 0.
Proof.
  unfold firstUnits. rewrite Z.sub_0_l.
  assert (forall l, sumZ (map (fun i => MathFloor (share 0 ws i)) l) = 0) as ->; [|done].
  intros l. induction l as [|x l IH]; simpl; [done|]. rewrite sumZ_cons, IH.
  unfold share. rewrite ofZ_0, Qcmult_0_r. rewrite <- ofZ_0, MathFloor_ofZ. done.
Qed.

Lemma share_mono T ws i j wi wj :
  0 <= T -> (0 < sumQ ws)%Qc -> ws !! i = Some wi -> ws !! j = Some wj ->
  (wi <= wj)%Qc -> (share T ws i <= share T ws j)%Qc.
Proof.
  intros HT Hs Hi Hj Hw. unfold share. rewrite Hi, Hj. simpl.
  apply Qcmult_le_compat_r; [|now apply ofZ_nonneg].
  unfold Qcdiv. apply Qcmult_le_compat_r; [exact Hw|].
  now apply Qclt_le_weak, Qcinv_pos.
Qed.

Lemma share_strict T ws i j wi wj :
  0 < T -> (0 < sumQ ws)%Qc -> ws !! i = Some wi -> ws !! j = Some wj ->
  (wi < wj)%Qc -> (share T ws i < share T ws j)%Qc.
Proof.
  intros HT Hs Hi Hj Hw. unfold share. rewrite Hi, Hj. simpl.
  apply Qcmult_lt_compat_r; [now apply ofZ_pos|].
  unfold Qcdiv. apply Qcmult_lt_compat_r; [now apply Qcinv_pos|exact Hw].
Qed.




(** * The allocation of [distributeToTotal64] follows the weights *)

Lemma precedes64_asym T ws i j : precedes64 T ws i j -> precedes64 T ws j i -> False.
Proof.
  intros [H1|[H1 L1]] [H2|[H2 L2]].
  - exact (Qclt_irrefl _ (Qclt_trans _ _ _ H1 H2)).
  - rewrite H2 in H1. exact (Qclt_irrefl _ H1).
  - rewrite H1 in H2. exact (Qclt_irrefl _ H2).
  - lia.
Qed.

(** Whoever precedes an entry that receives a unit receives one too. *)
Lemma first_units_closed64 T ws order r i j :
  StronglySorted (precedes64 T ws) order ->
  i ∈ take r order -> j ∈ order -> precedes64 T ws j i -> j ∈ take r order.
Proof.
  intros Hs Hi Hj Hji.
  apply list_elem_of_lookup in Hi as [p Hp].
  assert (p < r)%nat as Hpr.
  { apply lookup_lt_Some in Hp. rewrite length_take in Hp. lia. }
  rewrite lookup_take_lt in Hp by done.
  apply list_elem_of_lookup in Hj as [q Hq].
  destruct (decide (q < r)%nat) as [Hqr|Hqr].
  - apply list_elem_of_lookup. exists q. now rewrite lookup_take_lt.
  - exfalso. apply (precedes64_asym T ws i j); [|exact Hji].
    apply (StronglySorted_lookup_lt _ order p q); [done|lia|done|done].
Qed.

(** The entries of an allocation, when some weight is positive. *)
Lemma distributeToTotal64_entries T ws :
  0 <= T -> Forall isDouble ws -> Forall (fun w => (0 <= w)%Qc) ws ->
  (T + 1) * (Z.of_nat (length ws) + 2) <= 2 ^ 50 -> (0 < sumQ ws)%Qc ->
  exists out order (r : nat),
    distributeToTotal64 T ws = Some out /\
    Z.of_nat r = firstUnits64 T ws /\ (r <= length ws)%nat /\
    order ≡ₚ seq 0 (length ws) /\
    StronglySorted (precedes64 T ws) order /\
    forall i, (i < length ws)%nat ->
      out !! i = Some (MathFloor (share64 T ws i)
                       + if decide (i ∈ take r order) then 1 else 0).
Proof.
  intros HT Hd Hws Hsize Hs. unfold distributeToTotal64.
  set (raw := rawOf64 T ws). set (base := map MathFloor raw).
  set (rem := T - sumZ base).
  assert (ws <> []) as Hne.
  { intros ->. change (sumQ []) with 0%Qc in Hs. exact (Qclt_irrefl _ Hs). }
  assert (length base = length raw) as Hlen by (unfold base; now rewrite length_map).
  pose proof (rawOf64_length T ws) as Hraw. fold raw in Hraw.
  destruct (orderOf64_indices raw base Hlen) as [Hol Hoi].
  destruct (rawOf64_rem T ws Hd Hws Hne HT Hsize) as [Hrem Hremn].
  fold raw base rem in Hrem, Hremn. specialize (Hremn Hs).
  assert (0 < sum64 ws)%Qc as HF by (apply sum64_pos; try assumption; nia).
  destruct (orderOf64_spec T ws Hws HF) as [Hperm Hsorted]. fold raw base in Hperm, Hsorted.
  destruct (bumpAll_first (orderOf64 raw base) (Z.to_nat rem) base) as (out & Hout & Hspec).
  { lia. }
  { rewrite Hperm. apply NoDup_seq. }
  { exact Hoi. }
  exists out, (map Frac.i (orderOf64 raw base)), (Z.to_nat rem).
  split; [exact Hout|]. split.
  { rewrite Z2Nat.id by done. unfold firstUnits64, rem, base, raw. now rewrite base64_shares. }
  split; [lia|]. split; [exact Hperm|]. split; [exact Hsorted|].
  intros i Hi.
  assert (base !! i = Some (MathFloor (share64 T ws i))) as Hb.
  { unfold base, raw. rewrite base64_shares by done.
    rewrite list_lookup_fmap, lookup_seq_lt by done. done. }
  rewrite (Hspec _ _ Hb). rewrite <- fmap_take. done.
Qed.

(** The difference of a double and its floor is a double. *)
Lemma fsub_floor_exact x :
  isDouble x -> (0 <= x)%Qc ->
  fsub x (ofZ (MathFloor x)) = (x - ofZ (MathFloor x))%Qc.
Proof.
  intros Hd H0. destruct (round64_repr x H0) as (m & e & Hx & Hm & He).
  rewrite Hd in Hx. unfold fsub.
  pose proof (MathFloor_le x) as Hfl. pose proof (MathFloor_nonneg x H0) as Hf0.
  set (f := MathFloor x) in *.
  destruct (Z_le_gt_dec 0 e) as [Hpos|Hneg].
  - assert (x = ofZ (m * 2 ^ e)) as Hint by (rewrite Hx, ofZ_mul, <- pow2_ofZ; done).
    assert (f = m * 2 ^ e) as -> by (unfold f; rewrite Hint; apply MathFloor_ofZ).
    rewrite Hint. replace (ofZ (m * 2 ^ e) - ofZ (m * 2 ^ e))%Qc with 0%Qc by ring.
    reflexivity.
  - assert (pow2 (- e) * pow2 e = 1)%Qc as Hinv.
    { rewrite <- pow2_add. replace (- e + e) with 0 by lia. apply pow2_0. }
    assert (x - ofZ f = ofZ (m - f * 2 ^ (- e)) * pow2 e)%Qc as Hdiff.
    { rewrite Hx, ofZ_sub, ofZ_mul, <- (pow2_ofZ (- e)) by lia.
      replace ((ofZ m - ofZ f * pow2 (- e)) * pow2 e)%Qc
        with (ofZ m * pow2 e - ofZ f * (pow2 (- e) * pow2 e))%Qc by ring.
      rewrite Hinv. ring. }
    rewrite Hdiff. apply round64_exact; [|exact He].
    assert (0 <= 2 ^ (- e)) by (apply Z.pow_nonneg; lia).
    split; [|nia].
    assert (f * 2 ^ (- e) <= m); [|lia].
    apply (mul_pow2_le_inv _ _ e). rewrite <- Hx, ofZ_mul, <- (pow2_ofZ (- e)) by lia.
    rewrite <- Qcmult_assoc, Hinv, Qcmult_1_r. exact Hfl.
Qed.

Lemma share_gap (wi wj K u t T : Qc) :
  (0 <= wi)%Qc -> (wi + 1 <= wj)%Qc -> (wj * u <= Q2Qc (1 # 8))%Qc ->
  (0 <= u)%Qc -> (0 <= t)%Qc -> (0 < K)%Qc ->
  (t * (T + T + T + 1 + 1) < K * Q2Qc (1 # 4))%Qc ->
  (wi * (K * ((1 + u) * (1 + u))) + t * (T + T + 1)
   < wj * (K * ((1 - u) * (1 - u))) - t * (T + 1))%Qc.
Proof.
  intros Hwi Hgap Hwu Hu Ht HK Hsmall. toQ.
  set (a := this wi) in *. set (b := this wj) in *. set (k := this K) in *.
  set (x := this u) in *. set (e := this t) in *. set (n := this T) in *.
  assert (0 <= (b - 1 - a) * ((1 + x) * (1 + x)))%Q
    by (apply Qmult_le_0_compat; [lra|apply Qmult_le_0_compat; lra]).
  assert (0 <= x * x)%Q by (apply Qmult_le_0_compat; lra).
  assert (0 <= k * (b * ((1 - x) * (1 - x)) - a * ((1 + x) * (1 + x)) - (1 # 2)))%Q
    by (apply Qmult_le_0_compat; lra).
  lra.
Qed.

Lemma sum64_upper ws :
  Forall isDouble ws -> Forall (fun w => (0 <= w)%Qc) ws ->
  2 * Z.of_nat (length ws) <= 2 ^ 51 -> (sumQ ws <= pow2 50)%Qc ->
  (sum64 ws <= pow2 51)%Qc.
Proof.
  intros Hd Hn Hlen HA.
  destruct (sum64_bounds ws Hd Hn) as [[_ H2] _]; [lia|].
  assert (ofZ (2 * Z.of_nat (length ws)) * pow2 (-53) <= 1)%Qc as Hc.
  { rewrite <- pow2_0. apply (scaled_le_to _ 51); lia. }
  assert (0 <= sumQ ws)%Qc as H0 by now apply sumQ_nonneg.
  replace (pow2 51) with (pow2 50 * (1 + 1))%Qc.
  2:{ replace 51 with (50 + 1) by lia. rewrite pow2_add. f_equal. }
  revert H2 Hc HA H0.
  generalize (ofZ (2 * Z.of_nat (length ws)) * pow2 (-53))%Qc (sum64 ws) (sumQ ws) (pow2 50).
  intros c F A P H2 Hc HA H0. toQ.
  assert (0 <= A * (1 - this c))%Q by (apply Qmult_le_0_compat; lra).
  lra.
Qed.

(** Of two whole weights the larger has the larger share as computed. *)
Lemma share64_strict T zs i j zi zj :
  0 < T -> Forall (fun z => 0 <= z) zs -> sumZ zs <= 2 ^ 50 ->
  (T + 1) * (Z.of_nat (length zs) + 2) <= 2 ^ 50 ->
  zs !! i = Some zi -> zs !! j = Some zj -> zi < zj ->
  (share64 T (map ofZ zs) i < share64 T (map ofZ zs) j)%Qc.
Proof.
  intros HT Hzs Hsum Hsize Hi Hj Hlt.
  set (ws := map ofZ zs).
  assert (Forall isDouble ws) as Hd.
  { apply Forall_fmap, Forall_forall. intros z Hz. simpl. apply isDouble_ofZ.
    pose proof (proj1 (Forall_forall _ _) Hzs z Hz) as Hz0. cbv beta in Hz0.
    pose proof (sumZ_member_le zs z Hzs Hz).
    pose proof (Z.pow_le_mono_r 2 50 53 ltac:(lia) ltac:(lia)). lia. }
  assert (Forall (fun w => (0 <= w)%Qc) ws) as Hws.
  { apply Forall_fmap. eapply Forall_impl; [exact Hzs|]. intros z Hz. now apply ofZ_nonneg. }
  assert (length ws = length zs) as Hlen by apply length_map.
  assert (0 <= zi) as Hzi.
  { apply (proj1 (Forall_forall _ _) Hzs). now apply list_elem_of_lookup_2 in Hi. }
  assert (zj <= sumZ zs) as Hzj.
  { apply sumZ_member_le; [exact Hzs|]. now apply list_elem_of_lookup_2 in Hj. }
  assert (sumQ ws = ofZ (sumZ zs)) as HA by apply sumQ_ofZ.
  assert (0 < sumQ ws)%Qc as Hs by (rewrite HA; apply ofZ_pos; lia).
  assert (0 < sum64 ws)%Qc as HF.
  { apply sum64_pos; try assumption. rewrite Hlen. nia. }
  assert (sum64 ws <= pow2 51)%Qc as HF51.
  { apply sum64_upper; try assumption; [rewrite Hlen; nia|].
    rewrite HA. apply ofZ_le_pow2; lia. }
  unfold share64. fold ws. unfold ws at 1 3. rewrite !list_lookup_fmap, Hi, Hj. simpl.
  destruct (share64_bounds (ofZ zi) (sum64 ws) T) as [[_ Hup] _];
    [now apply ofZ_nonneg|exact HF|lia|].
  destruct (share64_bounds (ofZ zj) (sum64 ws) T) as [[Hlo _] _];
    [apply ofZ_nonneg; lia|exact HF|lia|].
  eapply Qcle_lt_trans; [exact Hup|]. eapply Qclt_le_trans; [|exact Hlo].
  apply (share_gap (ofZ zi) (ofZ zj) (/ sum64 ws * ofZ T)).
  - now apply ofZ_nonneg.
  - rewrite <- ofZ_1, <- ofZ_add. apply ofZ_mono. lia.
  - rewrite <- pow2_m3. apply (scaled_le_to _ 50); lia.
  - apply Qclt_le_weak, pow2_pos.
  - apply Qclt_le_weak, pow2_pos.
  - apply Qc_mul_pos; [now apply Qcinv_pos|apply ofZ_pos; lia].
  - apply Qclt_le_trans with (pow2 (-53)).
    + replace (pow2 (-1075) * (ofZ T + ofZ T + ofZ T + 1 + 1))%Qc
        with (ofZ (T + T + T + 1 + 1) * pow2 (-1075))%Qc
        by (rewrite !ofZ_add, ofZ_1; ring).
      eapply Qcle_lt_trans; [apply (scaled_le_to _ 52 _ (-1023)); lia|].
      apply pow2_lt. lia.
    + assert (1 <= ofZ T)%Qc as HT1 by (rewrite <- ofZ_1; apply ofZ_mono; lia).
      replace (pow2 (-53)) with (pow2 (-51) * Q2Qc (1 # 4))%Qc.
      2:{ rewrite <- pow2_m2, <- pow2_add. reflexivity. }
      apply Qcmult_le_compat_r; [|by vm_compute].
      assert (pow2 (-51) * pow2 51 = 1)%Qc as Hinv.
      { rewrite <- pow2_add. apply pow2_0. }
      revert HF HF51 HT1 Hinv.
      generalize (sum64 ws) (ofZ T) (pow2 (-51)) (pow2 51).
      intros F Tq p q HF HF51 HT1 Hinv.
      assert (p * F <= Tq)%Qc as Hle.
      { assert (0 <= p)%Qc as Hp.
        { destruct (Qclt_le_dec p 0) as [Hneg|Hp]; [exfalso|exact Hp].
          assert (0 < q)%Qc as Hq by (eapply Qclt_le_trans; [exact HF|exact HF51]).
          assert (p * q <= 0)%Qc as Hpq.
          { apply Qc_mul_nonpos; [now apply Qclt_le_weak|now apply Qclt_le_weak]. }
          rewrite Hinv in Hpq. revert Hpq. by vm_compute. }
        eapply Qcle_trans; [|exact HT1]. rewrite <- Hinv.
        rewrite (Qcmult_comm p F), (Qcmult_comm p q).
        now apply Qcmult_le_compat_r. }
      toQ. rewrite Qmult_comm. apply Qle_shift_div_l; [exact HF|exact Hle].
Qed.

Lemma share64_zero ws i : share64 0 ws i = 0%Qc.
Proof.
  unfold share64, fmul. change (ofZ 0) with 0%Qc.
  rewrite Qcmult_0_r. reflexivity.
Qed.

Lemma firstUnits64_zero ws : firstUnits64 0 ws = 0.
Proof.
  unfold firstUnits64.
  assert (forall l : list nat, sumZ (map (fun i => MathFloor (share64 0 ws i)) l) = 0) as H.
  { induction l as [|i l IH]; [reflexivity|].
    simpl map. rewrite sumZ_cons, IH, share64_zero. reflexivity. }
  rewrite H. reflexivity.
Qed.

Lemma share64_double T ws i :
  0 <= T -> Forall (fun w => (0 <= w)%Qc) ws -> (0 < sum64 ws)%Qc ->
  isDouble (share64 T ws i) /\ (0 <= share64 T ws i)%Qc.
Proof.
  intros HT Hws HF. unfold share64, fmul, fdiv.
  assert (0 <= default 0%Qc (ws !! i))%Qc as Hw.
  { destruct (ws !! i) as [w|] eqn:Hi; simpl; [|apply Qcle_refl].
    apply (proj1 (Forall_forall _ _) Hws). now apply list_elem_of_lookup_2 in Hi. }
  assert (0 <= round64 (default 0%Qc (ws !! i) / sum64 ws) * ofZ T)%Qc as Hp.
  { apply Qc_mul_nonneg; [|now apply ofZ_nonneg].
    apply round64_nonneg. now apply Qcdiv_nonneg. }
  split; [now apply isDouble_round64|now apply round64_nonneg].
Qed.

(** X15. The allocation follows the weights.  Let the weights be whole
    numbers, not negative and not all zero, their sum [2^50] at most, and let
    the total [T >= 0] and the number [n] of weights satisfy
    [(T + 1) * (n + 2) <= 2^50].  Then in the result of [distributeToTotal],
    computed in doubles as the code does, an entry of smaller weight never
    receives more than an entry of larger weight; and of two entries of
    equal weight the earlier one receives as much as the later one or one
    unit more. *)
Theorem distributeToTotal64_monotone (T : Z) (zs out : list Z)
    (i j : nat) (zi zj oi oj : Z) :
  0 <= T -> Forall (fun z => 0 <= z) zs -> 0 < sumZ zs -> sumZ zs <= 2 ^ 50 ->
  (T + 1) * (Z.of_nat (length zs) + 2) <= 2 ^ 50 ->
  distributeToTotal64 T (map ofZ zs) = Some out ->
  zs !! i = Some zi -> zs !! j = Some zj ->
  out !! i = Some oi -> out !! j = Some oj ->
  (zi < zj -> oi <= oj)
  /\ (zi = zj -> (i < j)%nat -> oj <= oi <= oj + 1).
Proof.
  intros HT Hzs Hpos Hsum Hsize Hout Hzi Hzj Hoi Hoj.
  set (ws := map ofZ zs) in *.
  assert (Forall isDouble ws) as Hd.
  { apply Forall_fmap, Forall_forall. intros z Hz. simpl. apply isDouble_ofZ.
    pose proof (proj1 (Forall_forall _ _) Hzs z Hz) as Hz0. cbv beta in Hz0.
    pose proof (sumZ_member_le zs z Hzs Hz).
    pose proof (Z.pow_le_mono_r 2 50 53 ltac:(lia) ltac:(lia)). lia. }
  assert (Forall (fun w => (0 <= w)%Qc) ws) as Hws.
  { apply Forall_fmap. eapply Forall_impl; [exact Hzs|]. intros z Hz. now apply ofZ_nonneg. }
  assert (length ws = length zs) as Hlen by apply length_map.
  assert (0 < sumQ ws)%Qc as Hs by (unfold ws; rewrite sumQ_ofZ; apply ofZ_pos; lia).
  assert (0 < sum64 ws)%Qc as HF.
  { apply sum64_pos; try assumption. rewrite Hlen. nia. }
  destruct (distributeToTotal64_entries T ws HT Hd Hws)
    as (out' & order & r & Hout' & Hr & Hrn & Hperm & Hsorted & Hent);
    [rewrite Hlen; exact Hsize|exact Hs|].
  rewrite Hout in Hout'. injection Hout' as <-.
  assert (i < length ws)%nat as Hi by (rewrite Hlen; now apply lookup_lt_Some in Hzi).
  assert (j < length ws)%nat as Hj by (rewrite Hlen; now apply lookup_lt_Some in Hzj).
  assert (forall k, (k < length ws)%nat -> k ∈ order) as Hin.
  { intros k Hk. rewrite Hperm. apply elem_of_seq. lia. }
  pose proof (Hent i Hi) as Hei. pose proof (Hent j Hj) as Hej.
  rewrite Hoi in Hei. rewrite Hoj in Hej.
  injection Hei as ->. injection Hej as ->.
  split.
  - intros Hlt.
    destruct (decide (T = 0)) as [->|HT0].
    { rewrite firstUnits64_zero in Hr. assert (r = 0)%nat as -> by lia.
      rewrite take_0, !share64_zero.
      destruct (decide (i ∈ [])) as [Hx|_]; [now apply elem_of_nil in Hx|].
      destruct (decide (j ∈ [])) as [Hx|_]; [now apply elem_of_nil in Hx|]. lia. }
    assert (share64 T ws i < share64 T ws j)%Qc as Hst.
    { apply (share64_strict T zs i j zi zj); try assumption. lia. }
    pose proof (MathFloor_mono _ _ (Qclt_le_weak _ _ Hst)) as Hfl.
    destruct (decide (i ∈ take r order)) as [Hti|Hti];
      destruct (decide (j ∈ take r order)) as [Htj|Htj]; try lia.
    assert (MathFloor (share64 T ws i) <> MathFloor (share64 T ws j)); [|lia].
    intros Heq. apply Htj.
    apply (first_units_closed64 T ws order r i j Hsorted Hti (Hin j Hj)).
    left. unfold remainder64.
    destruct (share64_double T ws i HT Hws HF) as [Hdi Hi0].
    destruct (share64_double T ws j HT Hws HF) as [Hdj Hj0].
    rewrite (fsub_floor_exact _ Hdi Hi0), (fsub_floor_exact _ Hdj Hj0), Heq.
    unfold Qcminus. now apply Qcplus_lt_mono_r.
  - intros Heq Hij. subst zj.
    assert (share64 T ws i = share64 T ws j) as Hsh.
    { unfold share64, ws. now rewrite !list_lookup_fmap, Hzi, Hzj. }
    rewrite Hsh.
    destruct (decide (i ∈ take r order)) as [Hti|Hti];
      destruct (decide (j ∈ take r order)) as [Htj|Htj]; try lia.
    exfalso. apply Hti.
    apply (first_units_closed64 T ws order r j i Hsorted Htj (Hin i Hi)).
    right. unfold remainder64. rewrite Hsh. done.
Qed.

Lemma distributeToTotal64_monotone_witness :
  0 <= 3 /\ Forall (fun z => 0 <= z) [1; 1; 7] /\ 0 < sumZ [1; 1; 7]
  /\ sumZ [1; 1; 7] <= 2 ^ 50
  /\ (3 + 1) * (Z.of_nat (length [1; 1; 7]) + 2) <= 2 ^ 50
  /\ distributeToTotal64 3 (map ofZ [1; 1; 7]) = Some [0; 0; 3]
  /\ ((1 < 7 -> 0 <= 3) /\ (1 = 7 -> (0 < 2)%nat -> 3 <= 0 <= 3 + 1)).
Proof.
  assert (Forall (fun z => 0 <= z) [1; 1; 7]) as Hzs.
  { repeat (apply Forall_cons; split; [lia|]). apply Forall_nil_2. }
  assert (distributeToTotal64 3 (map ofZ [1; 1; 7]) = Some [0; 0; 3]) as Hout
    by (vm_compute; reflexivity).
  split; [lia|]. split; [exact Hzs|]. split; [by vm_compute|]. split; [by vm_compute|].
  split; [by vm_compute|]. split; [exact Hout|].
  apply (distributeToTotal64_monotone 3 [1; 1; 7] [0; 0; 3] 0 2 1 7 0 3);
    [lia|exact Hzs|by vm_compute|by vm_compute|by vm_compute|exact Hout
    |reflexivity|reflexivity|reflexivity|reflexivity].
Defined.

Lemma nonnegOf_nonneg ws : Forall (fun w => (0 <= w)%Qc) (nonnegOf ws).
Proof.
  unfold nonnegOf. apply Forall_fmap, Forall_true. intros w. simpl.
  destruct (isPos w) eqn:Hp; [|apply Qcle_refl]. now apply Qclt_le_weak, isPos_true.
Qed.

(** A weight that is not positive counts as zero. *)
Lemma distributeToTotal_nonnegOf T ws :
  distributeToTotal T ws = distributeToTotal T (nonnegOf ws).
Proof.
  unfold distributeToTotal, rawOf.
  now rewrite (nonnegOf_id (nonnegOf ws) (nonnegOf_nonneg ws)).
Qed.


(** An entry without remainder is not among those that receive a unit. *)
Lemma zero_remainder_no_unit T ws order (r : nat) i :
  Forall (fun w => (0 <= w)%Qc) ws -> (0 < sumQ ws)%Qc ->
  order ≡ₚ seq 0 (length ws) -> StronglySorted (precedes T ws) order ->
  Z.of_nat r = firstUnits T ws -> remainder T ws i = 0%Qc ->
  i ∉ take r order.
Proof.
  intros Hws Hs Hperm Hsorted Hr Hzero Hin.
  apply list_elem_of_lookup in Hin as [p Hp].
  assert (p < r)%nat as Hpr.
  { apply lookup_lt_Some in Hp. rewrite length_take in Hp. lia. }
  rewrite lookup_take_lt in Hp by done.
  pose proof (remainders_sum T ws Hws Hs) as Hsum.
  assert (sumQ (map (remainder T ws) order)
          = sumQ (map (remainder T ws) (seq 0 (length ws)))) as Hp'.
  { apply sumQ_perm. apply (fmap_Permutation (remainder T ws)). exact Hperm. }
  rewrite <- Hp' in Hsum. clear Hp'.
  rewrite <- (take_drop_middle order p i Hp) in Hsum.
  rewrite map_app, sumQ_app in Hsum. simpl map in Hsum. rewrite sumQ_cons, Hzero in Hsum.
  assert (sumQ (map (remainder T ws) (drop (S p) order)) = 0%Qc) as Htail.
  { apply sumQ_all_zero, Forall_forall. intros y Hy.
    assert (precedes T ws i y) as [Hlt|[Heq _]].
    { rewrite <- (take_drop (S p) order) in Hsorted.
      apply (StronglySorted_app_1_elem_of _ _ _ i y Hsorted); [|exact Hy].
      apply list_elem_of_lookup. exists p. rewrite lookup_take_lt by lia. exact Hp. }
    - rewrite Hzero in Hlt. destruct (remainder_unit T ws y) as [H0 _].
      destruct (Qcle_not_lt _ _ H0 Hlt).
    - congruence. }
  rewrite Htail in Hsum.
  pose proof (sumQ_le_length (remainder T ws) (take p order)) as Hhead.
  rewrite length_take in Hhead.
  assert (sumQ (map (remainder T ws) (take p order)) = ofZ (firstUnits T ws)) as Heq.
  { rewrite <- Hsum. ring. }
  rewrite Heq, <- Hr in Hhead.
  assert (ofZ (Z.of_nat r) <= ofZ (Z.of_nat (p `min` length order)))%Qc as Hle.
  { apply Hhead. intros x. apply Qclt_le_weak, remainder_unit. }
  apply ofZ_le in Hle. lia.
Qed.



(** * Reprojecting twice *)

Lemma distributeToTotal_nonneg T ws out :
  0 <= T -> distributeToTotal T ws = Some out -> Forall (fun v => 0 <= v) out.
Proof.
  intros HT. rewrite distributeToTotal_nonnegOf.
  destruct (decide (nonnegOf ws = [])) as [->|Hne].
  - rewrite distributeToTotal_nil. destruct (0 <? T); [done|]. now intros [= <-].
  - intros Hout. unfold distributeToTotal in Hout.
    set (raw := rawOf T (nonnegOf ws)) in *. set (base := map MathFloor raw) in *.
    assert (length base = length raw) as Hlen by (unfold base; now rewrite length_map).
    pose proof (rawOf_length T (nonnegOf ws)) as Hraw. fold raw in Hraw.
    destruct (orderOf_indices raw base Hlen) as [Hol Hoi].
    assert (orderOf raw base <> []) as Hone.
    { intros H. rewrite H in Hol. simpl in Hol. destruct (nonnegOf ws); [done|simpl in *; lia]. }
    destruct (bumpAll_total (orderOf raw base) (seq 0 (Z.to_nat (T - sumZ base))) base Hone Hoi)
      as (out' & Hout' & Hlo & _ & Hmono).
    rewrite Hout in Hout'. injection Hout' as <-.
    assert (Forall (fun v => 0 <= v) base) as Hbase.
    { unfold base. apply Forall_fmap.
      eapply Forall_impl; [apply rawOf_nonneg; [done|apply nonnegOf_nonneg]|].
      intros x Hx. now apply MathFloor_nonneg. }
    apply Forall_forall. intros y Hy. apply list_elem_of_lookup in Hy as [p Hp].
    destruct (base !! p) as [x|] eqn:Hx.
    + pose proof (Forall2_lookup_lr _ _ _ _ _ _ Hmono Hx Hp).
      pose proof (proj1 (Forall_forall _ _) Hbase x (list_elem_of_lookup_2 _ _ _ Hx)).
      simpl in *. lia.
    + apply lookup_ge_None in Hx. apply lookup_lt_Some in Hp. lia.
Qed.




Lemma sortBy_twice {A} (cmp : A -> A -> Qc) l :
  (forall a b, isPos (cmp a b) = true -> inOrder cmp b a) ->
  sortBy cmp (sortBy cmp l) = sortBy cmp l.
Proof. intros Hc. apply sortBy_id. now apply sortBy_Sorted. Qed.

Lemma emptyShape_twice data : emptyShape (emptyShape data) = emptyShape data.
Proof. reflexivity. Qed.


Lemma reprojectLeakRow_formula aa ra items :
  Forall (fun r => LeakRow.leak r
                   = if 0 <? LeakRow.adds r
                     then (ofZ (LeakRow.removes r) / ofZ (LeakRow.adds r))%Qc
                     else 0%Qc)
    (imap (reprojectLeakRow aa ra) items).
Proof. apply Forall_imap. intros i r. reflexivity. Qed.

Lemma reprojectCategory_formula ratio ca cats :
  Forall (fun c => CategoryRow.total c
                   = CategoryRow.views c + CategoryRow.wish c + CategoryRow.carts c)
    (imap (reprojectCategory ratio ca) cats).
Proof. apply Forall_imap. intros i c. reflexivity. Qed.

(** The leak rows and the category rows of a reprojection: their counts are
    the three apportionments, up to the order of the rows. *)
Lemma reprojected_rows data fromDate toDate out :
  sessionsInRange data fromDate toDate <> [] ->
  0 <= totalAddsOf (sessionsInRange data fromDate toDate) ->
  0 <= totalRemovesOf (sessionsInRange data fromDate toDate) ->
  reprojectForDateRange data fromDate toDate = Some out ->
  let items := Leak.items (AnalyticsResponse.leak out) in
  let cats := AnalyticsResponse.categoryInteractions out in
  Forall (fun r => 0 <= LeakRow.adds r /\ 0 <= LeakRow.removes r) items
  /\ sumZ (map LeakRow.adds items) = totalAddsOf (sessionsInRange data fromDate toDate)
  /\ sumZ (map LeakRow.removes items)
     = totalRemovesOf (sessionsInRange data fromDate toDate)
  /\ Forall (fun r => LeakRow.leak r
                      = if 0 <? LeakRow.adds r
                        then (ofZ (LeakRow.removes r) / ofZ (LeakRow.adds r))%Qc
                        else 0%Qc) items
  /\ Sorted (inOrder leakOrder) items
  /\ Forall (fun c => 0 <= CategoryRow.carts c) cats
  /\ sumZ (map CategoryRow.carts cats) = totalAddsOf (sessionsInRange data fromDate toDate)
  /\ Forall (fun c => CategoryRow.total c
                      = CategoryRow.views c + CategoryRow.wish c + CategoryRow.carts c) cats
  /\ Sorted (inOrder totalOrder) cats.
Proof.
  intros Hne HA HR Hout items cats.
  destruct (reproject_some_session _ _ _ _ Hne Hout)
    as (aa & ra & ca & Ha & Hr & Hc & _ & Hl & Hcat & _).
  assert (length aa = length (Leak.items (AnalyticsResponse.leak data))) as Hla.
  { rewrite (distributeToTotal_length _ _ _ Ha). now rewrite length_map. }
  assert (length ra = length (Leak.items (AnalyticsResponse.leak data))) as Hlr.
  { rewrite (distributeToTotal_length _ _ _ Hr). now rewrite length_map. }
  assert (length ca = length (AnalyticsResponse.categoryInteractions data)) as Hlc.
  { rewrite (distributeToTotal_length _ _ _ Hc). now rewrite length_map. }
  pose proof (distributeToTotal_nonneg _ _ _ HA Ha) as Hna.
  pose proof (distributeToTotal_nonneg _ _ _ HR Hr) as Hnr.
  pose proof (distributeToTotal_nonneg _ _ _ HA Hc) as Hnc.
  unfold items, cats. rewrite Hl, Hcat. cbn [Leak.items].
  set (rows := imap (reprojectLeakRow aa ra) (Leak.items (AnalyticsResponse.leak data))).
  set (crows := imap (reprojectCategory _ ca) (AnalyticsResponse.categoryInteractions data)).
  assert (map LeakRow.adds rows = aa) as Hra by now apply reprojectLeakRow_adds.
  assert (map LeakRow.removes rows = ra) as Hrr by now apply reprojectLeakRow_removes.
  assert (map CategoryRow.carts crows = ca) as Hrc by now apply reprojectCategory_carts.
  repeat split.
  - apply (Forall_perm _ rows); [symmetry; apply sortBy_perm|].
    apply Forall_forall. intros r Hin. split.
    + apply (proj1 (Forall_forall _ _) Hna). rewrite <- Hra.
      apply list_elem_of_fmap. eauto.
    + apply (proj1 (Forall_forall _ _) Hnr). rewrite <- Hrr.
      apply list_elem_of_fmap. eauto.
  - rewrite (sumZ_perm _ _ (fmap_Permutation _ _ _ (sortBy_perm _ _))).
    unfold rows. rewrite reprojectLeakRow_adds by exact Hla.
    exact (distributeToTotal_sum _ _ _ HA Ha).
  - rewrite (sumZ_perm _ _ (fmap_Permutation _ _ _ (sortBy_perm _ _))).
    unfold rows. rewrite reprojectLeakRow_removes by exact Hlr.
    exact (distributeToTotal_sum _ _ _ HR Hr).
  - apply (Forall_perm _ rows); [symmetry; apply sortBy_perm|].
    apply reprojectLeakRow_formula.
  - apply sortBy_Sorted, leakOrder_total.
  - apply (Forall_perm _ crows); [symmetry; apply sortBy_perm|].
    apply Forall_forall. intros c Hin.
    apply (proj1 (Forall_forall _ _) Hnc). rewrite <- Hrc.
    apply list_elem_of_fmap. eauto.
  - rewrite (sumZ_perm _ _ (fmap_Permutation _ _ _ (sortBy_perm _ _))).
    unfold crows. rewrite reprojectCategory_carts by exact Hlc.
    exact (distributeToTotal_sum _ _ _ HA Hc).
  - apply (Forall_perm _ crows); [symmetry; apply sortBy_perm|].
    apply reprojectCategory_formula.
  - apply sortBy_Sorted, totalOrder_total.
Qed.

Lemma Forall_filter_of {A} (P : A -> Prop) (p : A -> bool) l :
  Forall P l -> Forall P (List.filter p l).
Proof.
  induction 1 as [|x l Hx _ IH]; simpl; [constructor|].
  destruct (p x); [now constructor|exact IH].
Qed.




Lemma distributeToTotal_entry_le (T : Z) (zs out : list Z) (i : nat) (o z : Z) :
  Forall (fun v => 0 <= v) zs -> 0 <= T <= sumZ zs ->
  distributeToTotal T (map ofZ zs) = Some out ->
  out !! i = Some o -> zs !! i = Some z -> o <= z.
Proof.
  intros Hzs [HT HTs] Hout Ho Hz.
  assert (0 <= z) as Hz0.
  { exact (proj1 (Forall_forall _ _) Hzs z (list_elem_of_lookup_2 _ _ _ Hz)). }
  assert (Forall (fun w => (0 <= w)%Qc) (map ofZ zs)) as Hws.
  { apply Forall_fmap. eapply Forall_impl; [exact Hzs|]. intros v Hv. now apply ofZ_nonneg. }
  destruct (decide (sumZ zs = 0)) as [Hs0|Hs0].
  { assert (T = 0) as -> by lia.
    pose proof (distributeToTotal_sum _ _ _ (Z.le_refl 0) Hout) as Hsum.
    pose proof (distributeToTotal_nonneg _ _ _ (Z.le_refl 0) Hout) as Hnn.
    pose proof (sumZ_zero _ Hnn Hsum) as Hzero.
    rewrite (proj1 (Forall_forall _ _) Hzero o (list_elem_of_lookup_2 _ _ _ Ho)).
    exact Hz0. }
  assert (0 < sumQ (map ofZ zs))%Qc as Hs.
  { rewrite sumQ_ofZ. apply ofZ_pos. pose proof (sumZ_nonneg _ Hzs). lia. }
  destruct (distributeToTotal_entries T (map ofZ zs) HT Hws Hs)
    as (out' & order & r & Hout' & Hr & Hrn & Hperm & Hsorted & Hent).
  rewrite Hout in Hout'. injection Hout' as <-.
  assert (i < length (map ofZ zs))%nat as Hi.
  { rewrite length_map. now apply lookup_lt_Some in Hz. }
  rewrite (Hent i Hi) in Ho. injection Ho as <-.
  assert (share T (map ofZ zs) i <= ofZ z)%Qc as Hsh.
  { unfold share. rewrite list_lookup_fmap, Hz, sumQ_ofZ. simpl.
    assert (0 < ofZ (sumZ zs))%Qc as Hpos.
    { apply ofZ_pos. pose proof (sumZ_nonneg _ Hzs). lia. }
    assert (ofZ (sumZ zs) <> 0%Qc) as Hnz.
    { intros H0. rewrite H0 in Hpos. destruct (Qclt_irrefl _ Hpos). }
    replace (ofZ z / ofZ (sumZ zs) * ofZ T)%Qc
      with (ofZ T / ofZ (sumZ zs) * ofZ z)%Qc by (field; exact Hnz).
    rewrite <- (Qcmult_1_l (ofZ z)) at 2.
    apply Qcmult_le_compat_r; [|now apply ofZ_nonneg].
    apply Qcdiv_unit; [now apply ofZ_nonneg|now apply ofZ_mono|exact Hpos]. }
  destruct (decide (i ∈ take r order)) as [Hin|Hin].
  - assert (remainder T (map ofZ zs) i <> 0%Qc) as Hrem.
    { intros H0.
      exact (zero_remainder_no_unit T _ order r i Hws Hs Hperm Hsorted Hr H0 Hin). }
    assert (ofZ (MathFloor (share T (map ofZ zs) i)) < ofZ z)%Qc as Hlt.
    { eapply Qclt_le_trans; [|exact Hsh].
      destruct (remainder_unit T (map ofZ zs) i) as [H0 _].
      apply Qcle_lt_or_eq in H0 as [H0|H0]; [|congruence].
      unfold remainder in H0. apply Qclt_minus_iff. exact H0. }
    apply ofZ_lt in Hlt. lia.
  - pose proof (MathFloor_mono _ _ Hsh) as Hfl. rewrite MathFloor_ofZ in Hfl. lia.
Qed.



(** * What a reprojection keeps of the counts *)

Lemma sumZ_pointwise_le {A} (f g : A -> Z) l :
  Forall (fun x => 0 <= f x <= g x) l ->
  0 <= sumZ (map f l) <= sumZ (map g l).
Proof.
  induction 1 as [|x l Hx _ IH]; simpl; [change (sumZ []) with 0; lia|].
  rewrite !sumZ_cons. lia.
Qed.

Lemma ratio_unit r : (0 <= r)%Qc -> (r <= 1)%Qc -> forall c, 0 <= c -> 0 <= scale r c <= c.
Proof.
  intros H0 H1 c Hc. split; [now apply scale_nonneg|].
  unfold scale, MathRound.
  set (y := (ofZ c * r + Q2Qc (1 # 2))%Qc).
  assert (y < ofZ (c + 1))%Qc as Hy.
  { unfold y. rewrite ofZ_add, ofZ_1.
    apply Qcle_lt_trans with (ofZ c + Q2Qc (1 # 2))%Qc.
    - apply Qcplus_le_compat; [|apply Qcle_refl].
      rewrite <- (Qcmult_1_r (ofZ c)) at 2. rewrite !(Qcmult_comm (ofZ c)).
      apply Qcmult_le_compat_r; [exact H1|now apply ofZ_nonneg].
    - apply Qcplus_lt_mono_l. by vm_compute. }
  pose proof (MathFloor_le y) as Hf.
  pose proof (Qcle_lt_trans _ _ _ Hf Hy) as Hlt. apply ofZ_lt in Hlt. lia.
Qed.

(** X18. The cart-remove axis of a reprojection.  For every reprojection of
    the bundle of the engine over a range with at least one session, the
    removes of the reprojected leak rows sum to the cart removes of the
    sessions in the range, and the overall leak is those removes over the
    cart adds of the same sessions (0 when there are none), a number of
    [0, 1]. *)
Theorem reproject_remove_axis E h docs itemMeta fromDate toDate :
  let data := computeAnalyticsFromDocs E h docs itemMeta in
  let sessions := sessionsInRange data fromDate toDate in
  let removes := sumZ (map SessionView.nCartRemove sessions) in
  let adds := sumZ (map SessionView.nCartAdd sessions) in
  sessions <> [] ->
  exists out,
    reprojectForDateRange data fromDate toDate = Some out /\
    sumZ (map LeakRow.removes (Leak.items (AnalyticsResponse.leak out))) = removes /\
    0 <= removes <= adds /\
    Leak.overall (AnalyticsResponse.leak out)
      = (if 0 <? adds then (ofZ removes / ofZ adds)%Qc else 0%Qc) /\
    (0 <= Leak.overall (AnalyticsResponse.leak out))%Qc /\
    (Leak.overall (AnalyticsResponse.leak out) <= 1)%Qc.
Proof.
  intros data sessions removes adds Hne.
  destruct (engine_reprojects E h docs itemMeta fromDate toDate) as [out Hout].
  fold data in Hout. exists out. split; [exact Hout|].
  assert (0 <= removes <= adds) as Hra.
  { apply sumZ_pointwise_le. unfold sessions, sessionsInRange.
    apply Forall_filter_of. apply engine_counters. }
  assert (0 <= totalAddsOf sessions /\ 0 <= totalRemovesOf sessions) as [HA HR].
  { rewrite totalAddsOf_sum, totalRemovesOf_sum. fold adds removes. lia. }
  destruct (reprojected_rows data fromDate toDate out Hne HA HR Hout)
    as (_ & _ & Hsr & _).
  destruct (reproject_some_session _ _ _ _ Hne Hout)
    as (aa & ra & ca & _ & _ & _ & _ & Hl & _).
  cbv zeta in Hsr. fold sessions in Hsr, Hl.
  rewrite totalRemovesOf_sum in Hsr. split; [exact Hsr|]. split; [exact Hra|].
  rewrite Hl. cbn [Leak.overall]. rewrite totalAddsOf_sum, totalRemovesOf_sum.
  fold adds removes. split; [reflexivity|].
  destruct (0 <? adds) eqn:Hpos; [|split; [apply Qcle_refl|by vm_compute]].
  apply Z.ltb_lt in Hpos. apply Qcdiv_unit.
  - apply ofZ_nonneg. lia.
  - apply ofZ_mono. lia.
  - now apply ofZ_pos.
Qed.

Lemma reproject_remove_axis_witness :
  let data := computeAnalyticsFromDocs utcEnv ∅ twoDays [] in
  sessionsInRange data "2024-10-01" "2024-10-01" <> []
  /\ exists out,
       reprojectForDateRange data "2024-10-01" "2024-10-01" = Some out
       /\ sumZ (map LeakRow.removes (Leak.items (AnalyticsResponse.leak out))) = 2
       /\ (Leak.overall (AnalyticsResponse.leak out) <= 1)%Qc.
Proof.
  intros data.
  assert (sessionsInRange data "2024-10-01" "2024-10-01" <> []) as Hne.
  { intros H. apply (f_equal length) in H. vm_compute in H. discriminate H. }
  split; [exact Hne|].
  destruct (reproject_remove_axis utcEnv ∅ twoDays [] "2024-10-01" "2024-10-01" Hne)
    as (out & Hout & Hr & _ & _ & _ & H1).
  assert (sumZ (map SessionView.nCartRemove
                  (sessionsInRange data "2024-10-01" "2024-10-01")) = 2)
    as Hsum by (vm_compute; reflexivity).
  fold data in Hr. rewrite Hsum in Hr.
  exists out. split; [exact Hout|]. split; [exact Hr|exact H1].
Defined.

(** X22. A reprojection takes nothing from nowhere.  In every reprojection
    of the bundle of the engine over a range with at least one session,
    each leak row is the row of the same item of the input bundle with
    adds and removes that are not negative and not above those of that
    row. *)
Theorem reproject_leak_bounded E h docs itemMeta fromDate toDate :
  let data := computeAnalyticsFromDocs E h docs itemMeta in
  sessionsInRange data fromDate toDate <> [] ->
  exists out,
    reprojectForDateRange data fromDate toDate = Some out /\
    forall r', r' ∈ Leak.items (AnalyticsResponse.leak out) ->
      exists r, r ∈ Leak.items (AnalyticsResponse.leak data)
        /\ LeakRow.item r' = LeakRow.item r
        /\ 0 <= LeakRow.adds r' <= LeakRow.adds r
        /\ 0 <= LeakRow.removes r' <= LeakRow.removes r.
Proof.
  intros data Hne.
  destruct (engine_reprojects E h docs itemMeta fromDate toDate) as [out Hout].
  fold data in Hout. exists out. split; [exact Hout|].
  destruct (range_totals E h docs itemMeta fromDate toDate) as [HA HR].
  destruct (engine_leak E h docs itemMeta) as (Hrows & Hsa & Hsr & _).
  fold data in HA, HR, Hrows, Hsa, Hsr. cbv zeta in HA, HR, Hrows, Hsa, Hsr.
  destruct (reproject_some_session _ _ _ _ Hne Hout)
    as (aa & ra & ca & Ha & Hr & _ & _ & Hl & _).
  set (items := Leak.items (AnalyticsResponse.leak data)) in *.
  rewrite <- (map_map LeakRow.adds ofZ) in Ha.
  rewrite <- (map_map LeakRow.removes ofZ) in Hr.
  assert (Forall (fun v => 0 <= v) (map LeakRow.adds items)) as Hwa.
  { apply Forall_fmap. eapply Forall_impl; [exact Hrows|]. intros r [? _]. simpl. lia. }
  assert (Forall (fun v => 0 <= v) (map LeakRow.removes items)) as Hwr.
  { apply Forall_fmap. eapply Forall_impl; [exact Hrows|]. intros r [? _]. simpl. lia. }
  match type of Ha with
  | distributeToTotal ?T _ = _ =>
      assert (0 <= T <= sumZ (map LeakRow.adds items)) as HTa by (rewrite Hsa; lia)
  end.
  match type of Hr with
  | distributeToTotal ?T _ = _ =>
      assert (0 <= T <= sumZ (map LeakRow.removes items)) as HTr by (rewrite Hsr; lia)
  end.
  pose proof (distributeToTotal_length _ _ _ Ha) as Hla.
  pose proof (distributeToTotal_length _ _ _ Hr) as Hlr.
  rewrite length_map in Hla, Hlr.
  pose proof (distributeToTotal_nonneg _ _ _ (proj1 HA) Ha) as Hna.
  pose proof (distributeToTotal_nonneg _ _ _ (proj1 HR) Hr) as Hnr.
  intros r' Hin. rewrite Hl in Hin. cbn [Leak.items] in Hin.
  rewrite sortBy_perm in Hin.
  apply elem_of_lookup_imap_1 in Hin as (i & r & -> & Hi).
  exists r. split; [now apply list_elem_of_lookup_2 in Hi|]. split; [reflexivity|].
  unfold reprojectLeakRow. cbn [LeakRow.adds LeakRow.removes].
  assert (is_Some (aa !! i)) as [a Hai].
  { apply lookup_lt_is_Some. rewrite Hla, length_map.
    now apply lookup_lt_Some in Hi. }
  assert (is_Some (ra !! i)) as [b Hbi].
  { apply lookup_lt_is_Some. rewrite Hlr, length_map.
    now apply lookup_lt_Some in Hi. }
  rewrite Hai, Hbi. simpl.
  pose proof (proj1 (Forall_forall _ _) Hna a (list_elem_of_lookup_2 _ _ _ Hai)) as H0a.
  pose proof (proj1 (Forall_forall _ _) Hnr b (list_elem_of_lookup_2 _ _ _ Hbi)) as H0b.
  assert (map LeakRow.adds items !! i = Some (LeakRow.adds r)) as Hai'
    by (now rewrite list_lookup_fmap, Hi).
  assert (map LeakRow.removes items !! i = Some (LeakRow.removes r)) as Hbi'
    by (now rewrite list_lookup_fmap, Hi).
  pose proof (distributeToTotal_entry_le _ _ _ _ _ _ Hwa HTa Ha Hai Hai').
  pose proof (distributeToTotal_entry_le _ _ _ _ _ _ Hwr HTr Hr Hbi Hbi').
  simpl in *. lia.
Qed.

Lemma reproject_leak_bounded_witness :
  let data := computeAnalyticsFromDocs utcEnv ∅ twoDays [] in
  sessionsInRange data "2024-10-01" "2024-10-01" <> []
  /\ exists out,
       reprojectForDateRange data "2024-10-01" "2024-10-01" = Some out
       /\ forall r', r' ∈ Leak.items (AnalyticsResponse.leak out) ->
            exists r, r ∈ Leak.items (AnalyticsResponse.leak data)
              /\ LeakRow.item r' = LeakRow.item r
              /\ 0 <= LeakRow.adds r' <= LeakRow.adds r
              /\ 0 <= LeakRow.removes r' <= LeakRow.removes r.
Proof.
  intros data.
  assert (sessionsInRange data "2024-10-01" "2024-10-01" <> []) as Hne.
  { intros H. apply (f_equal length) in H. vm_compute in H. discriminate H. }
  split; [exact Hne|].
  exact (reproject_leak_bounded utcEnv ∅ twoDays [] "2024-10-01" "2024-10-01" Hne).
Defined.

(** * The order of date strings *)

Lemma string_leb_le a b :
  String.leb a b = true <-> a = b \/ String.compare a b = Lt.
Proof.
  unfold String.leb. destruct (String.compare a b) eqn:Hc.
  - apply String.compare_eq_iff in Hc. tauto.
  - tauto.
  - split; [done|]. intros [->|?]; [|done].
    assert (String.compare b b = Eq) as Hb.
    { apply (proj2 (OrderedTypeEx.String_as_OT.cmp_eq b b)). reflexivity. }
    congruence.
Qed.

Lemma string_lt_trans a b c :
  String.compare a b = Lt -> String.compare b c = Lt -> String.compare a c = Lt.
Proof.
  intros H1 H2.
  apply (proj2 (OrderedTypeEx.String_as_OT.cmp_lt a c)).
  apply (OrderedTypeEx.String_as_OT.lt_trans a b c);
    now apply (proj1 (OrderedTypeEx.String_as_OT.cmp_lt _ _)).
Qed.

Lemma string_leb_trans a b c :
  String.leb a b = true -> String.leb b c = true -> String.leb a c = true.
Proof.
  rewrite !string_leb_le. intros [->|H1] [->|H2]; eauto using string_lt_trans.
Qed.

Lemma string_ltb_not_leb a b : String.ltb a b = true -> String.leb b a = false.
Proof.
  unfold String.ltb, String.leb. rewrite (String.compare_antisym a b).
  destruct (String.compare b a); simpl; done.
Qed.

(** X19. An inverted range selects nothing.  When [toDate] is before
    [fromDate] in the order of strings, [reprojectForDateRange] returns the
    empty shape for every bundle. *)
Theorem reproject_inverted_range data fromDate toDate :
  String.ltb toDate fromDate = true ->
  reprojectForDateRange data fromDate toDate = Some (emptyShape data).
Proof.
  intros Hlt. apply reproject_no_session. unfold sessionsInRange.
  induction (AnalyticsResponse.sessions data) as [|s l IH]; simpl; [done|].
  destruct (inRange fromDate toDate (beforeChar "T" (SessionView.ts s))) eqn:Hin; [|exact IH].
  exfalso. unfold inRange in Hin. apply andb_true_iff in Hin as [H1 H2].
  pose proof (string_leb_trans _ _ _ H1 H2) as Hle.
  rewrite (string_ltb_not_leb _ _ Hlt) in Hle. discriminate Hle.
Qed.

Lemma reproject_inverted_range_witness :
  let data := computeAnalyticsFromDocs utcEnv ∅ twoDays [] in
  String.ltb "2024-10-01" "2024-10-02" = true
  /\ reprojectForDateRange data "2024-10-02" "2024-10-01" = Some (emptyShape data).
Proof.
  intros data. split; [reflexivity|].
  apply (reproject_inverted_range data "2024-10-02" "2024-10-01"). reflexivity.
Defined.

(** X20. Narrowing the range narrows the selection: the sessions of a
    range that lies inside another are those sessions of the other range
    that the inner range selects. *)
Theorem sessionsInRange_nested data from1 to1 from2 to2 :
  String.leb from1 from2 = true -> String.leb to2 to1 = true ->
  sessionsInRange data from2 to2
  = List.filter (fun s => inRange from2 to2 (beforeChar "T" (SessionView.ts s)))
      (sessionsInRange data from1 to1).
Proof.
  intros Hf Ht. unfold sessionsInRange.
  induction (AnalyticsResponse.sessions data) as [|s l IH]; simpl; [done|].
  destruct (inRange from2 to2 (beforeChar "T" (SessionView.ts s))) eqn:H2.
  - assert (inRange from1 to1 (beforeChar "T" (SessionView.ts s)) = true) as H1.
    { unfold inRange in *. apply andb_true_iff in H2 as [Ha Hb].
      apply andb_true_iff. split; eauto using string_leb_trans. }
    rewrite H1. simpl. rewrite H2. now f_equal.
  - destruct (inRange from1 to1 _); simpl; [rewrite H2|]; exact IH.
Qed.

Lemma sessionsInRange_nested_witness :
  let data := computeAnalyticsFromDocs utcEnv ∅ twoDays [] in
  String.leb "2024-10-01" "2024-10-02" = true
  /\ String.leb "2024-10-02" "2024-10-31" = true
  /\ sessionsInRange data "2024-10-02" "2024-10-02"
     = List.filter
         (fun s => inRange "2024-10-02" "2024-10-02" (beforeChar "T" (SessionView.ts s)))
         (sessionsInRange data "2024-10-01" "2024-10-31").
Proof.
  intros data. split; [reflexivity|]. split; [reflexivity|].
  apply (sessionsInRange_nested data "2024-10-01" "2024-10-31" "2024-10-02" "2024-10-02");
    reflexivity.
Defined.

(** * Cells and links *)

Lemma elem_of_cells counts i j v :
  Link.mk i j v ∈ cells counts
  <-> exists row, counts !! i = Some row /\ row !! j = Some v.
Proof.
  unfold cells. rewrite list_elem_of_In, in_concat. split.
  - intros (l & Hl & Hx). apply list_elem_of_In in Hl, Hx.
    apply elem_of_lookup_imap_1 in Hl as (i' & row & -> & Hrow).
    apply elem_of_lookup_imap_1 in Hx as (j' & v' & Heq & Hv).
    injection Heq as -> -> ->. eauto.
  - intros (row & Hrow & Hv).
    exists (imap (fun j value => Link.mk i j value) row). split; apply list_elem_of_In.
    + apply elem_of_lookup_imap. eauto.
    + apply elem_of_lookup_imap. eauto.
Qed.

Lemma cell_lookup (counts : list (list Z)) i j v :
  (counts !! i ≫= (.!! j)) = Some v
  <-> exists row, counts !! i = Some row /\ row !! j = Some v.
Proof.
  destruct (counts !! i) as [row|]; simpl.
  - split; [eauto|]. now intros (row' & [= <-] & Hv).
  - split; [done|]. now intros (row' & ? & _).
Qed.

Lemma zeroMatrix_cell {A} (zero : A) n i j v :
  (zeroMatrix zero n !! i ≫= (.!! j)) = Some v -> v = zero.
Proof.
  unfold zeroMatrix. intros H.
  destruct (replicate n (replicate n zero) !! i) as [row|] eqn:Hrow; simpl in H; [|done].
  apply lookup_replicate in Hrow as [-> _]. now apply lookup_replicate in H as [-> _].
Qed.

(** X23. The flow chart is in step with the transition matrix.  In every
    bundle that [reprojectForDateRange] returns, the flow links are exactly
    the cells of the returned count matrix that are positive and off the
    diagonal, each with the count as its value. *)
Theorem reproject_links_are_cells data fromDate toDate out (i j : nat) (v : Z) :
  reprojectForDateRange data fromDate toDate = Some out ->
  Link.mk i j v ∈ Sankey.links (AnalyticsResponse.sankey out)
  <-> (Transitions.counts (AnalyticsResponse.transitions out) !! i ≫= (.!! j)) = Some v
      /\ 0 < v /\ i <> j.
Proof.
  intros Hout.
  destruct (decide (sessionsInRange data fromDate toDate = [])) as [Hnil|Hne].
  - rewrite (reproject_no_session _ _ _ Hnil) in Hout. injection Hout as <-. simpl.
    split; [intros H; now apply elem_of_nil in H|].
    intros (Hc & Hv & _). apply zeroMatrix_cell in Hc. lia.
  - destruct (reproject_some_session _ _ _ _ Hne Hout)
      as (aa & ra & ca & _ & _ & _ & _ & _ & _ & Ht & Hsk & _).
    rewrite Ht, Hsk. cbn [Sankey.links Transitions.counts].
    rewrite list_elem_of_In, filter_In, <- list_elem_of_In, elem_of_cells, cell_lookup.
    cbn [Link.value Link.source Link.target].
    rewrite andb_true_iff, Z.ltb_lt, negb_true_iff, Nat.eqb_neq. tauto.
Qed.

Lemma reproject_links_are_cells_witness :
  let data := computeAnalyticsFromDocs utcEnv ∅ twoViews [] in
  exists out,
    reprojectForDateRange data "2024-10-01" "2024-10-01" = Some out
    /\ (Transitions.counts (AnalyticsResponse.transitions out) !! 2%nat ≫= (.!! 2%nat))
       = Some 1
    /\ ~ Link.mk 2 2 1 ∈ Sankey.links (AnalyticsResponse.sankey out).
Proof.
  intros data.
  destruct (reprojectForDateRange data "2024-10-01" "2024-10-01") as [out|] eqn:Hout.
  - exists out. split; [reflexivity|].
    assert ((fun o => Transitions.counts (AnalyticsResponse.transitions o) !! 2%nat
                      ≫= (.!! 2%nat))
              <$> reprojectForDateRange data "2024-10-01" "2024-10-01" = Some (Some 1)) as Hc
      by (vm_compute; reflexivity).
    rewrite Hout in Hc. injection Hc as Hc. split; [exact Hc|].
    intros Hin.
    apply (reproject_links_are_cells data "2024-10-01" "2024-10-01" out 2 2 1 Hout) in Hin.
    destruct Hin as (_ & _ & Hne). now apply Hne.
  - vm_compute in Hout. discriminate Hout.
Defined.

Lemma ratio_range (n m : nat) :
  let ratio := clamp (ofZ (Z.of_nat n) / ofZ (Z.of_nat m))%Qc 0%Qc 1%Qc in
  (0 <= ratio)%Qc /\ (ratio <= 1)%Qc.
Proof. apply clamp_range. Qed.

(** X21. A reprojection scales down.  In a reprojection over a range with
    at least one session, every transition count, every sample size of a
    price band and every bundle support that is not negative in the input
    stays between 0 and its value in the input; the price bands keep their
    names, bounds and rates; and each of the four arrays of price samples
    is a prefix of the array of the input. *)
Theorem reproject_scales_down data fromDate toDate out :
  sessionsInRange data fromDate toDate <> [] ->
  reprojectForDateRange data fromDate toDate = Some out ->
  Forall2 (Forall2 (fun c' c => 0 <= c -> 0 <= c' <= c))
    (Transitions.counts (AnalyticsResponse.transitions out))
    (Transitions.counts (AnalyticsResponse.transitions data))
  /\ Forall2
       (fun b' b =>
          Band.name b' = Band.name b /\ Band.min b' = Band.min b
          /\ Band.max b' = Band.max b
          /\ Band.viewToCart b' = Band.viewToCart b
          /\ Band.wishToCart b' = Band.wishToCart b
          /\ (0 <= Band.nView b -> 0 <= Band.nView b' <= Band.nView b)
          /\ (0 <= Band.nWish b -> 0 <= Band.nWish b' <= Band.nWish b))
       (PriceBands.bands (AnalyticsResponse.priceBands out))
       (PriceBands.bands (AnalyticsResponse.priceBands data))
  /\ Forall2
       (fun b' b =>
          Bundle.items b' = Bundle.items b
          /\ ((0 <= Bundle.support b)%Qc ->
              (0 <= Bundle.support b')%Qc /\ (Bundle.support b' <= Bundle.support b)%Qc))
       (AnalyticsResponse.frequentBundles out)
       (AnalyticsResponse.frequentBundles data)
  /\ (let p' := AnalyticsResponse.priceRangeData out in
      let p := AnalyticsResponse.priceRangeData data in
      PriceRangeData.viewFromPrices p' `prefix_of` PriceRangeData.viewFromPrices p
      /\ PriceRangeData.viewToCartFromPrices p'
           `prefix_of` PriceRangeData.viewToCartFromPrices p
      /\ PriceRangeData.cartAddPrices p' `prefix_of` PriceRangeData.cartAddPrices p
      /\ PriceRangeData.cartRemovePrices p' `prefix_of` PriceRangeData.cartRemovePrices p).
Proof.
  intros Hne Hout.
  destruct (reproject_some_session _ _ _ _ Hne Hout)
    as (aa & ra & ca & _ & _ & _ & _ & _ & _ & Ht & _ & _ & _ & _ & _ & _ & _ & _
        & Hfb & Hpb & Hpr).
  destruct (ratio_range (length (sessionsInRange data fromDate toDate))
              (length (AnalyticsResponse.sessions data))) as [H0 H1].
  cbv zeta in H0, H1.
  set (ratio := clamp _ _ _) in *.
  rewrite Ht, Hfb, Hpb, Hpr. cbn [Transitions.counts PriceBands.bands]. cbv zeta.
  cbn [PriceRangeData.viewFromPrices PriceRangeData.viewToCartFromPrices
       PriceRangeData.cartAddPrices PriceRangeData.cartRemovePrices].
  split; [|split; [|split]].
  - apply Forall2_fmap_l, Forall_Forall2_diag, Forall_true. intros row.
    apply Forall2_fmap_l, Forall_Forall2_diag, Forall_true. intros c Hc. simpl.
    now apply ratio_unit.
  - apply Forall2_fmap_l, Forall_Forall2_diag, Forall_true. intros b. simpl.
    do 5 (split; [reflexivity|]). split; intros Hb; now apply ratio_unit.
  - apply Forall2_fmap_l, Forall_Forall2_diag, Forall_true. intros b. simpl.
    split; [reflexivity|]. intros Hb. split.
    + now apply Qcmult_nonneg_nonneg.
    + rewrite <- (Qcmult_1_r (Bundle.support b)) at 2.
      rewrite !(Qcmult_comm (Bundle.support b)).
      now apply Qcmult_le_compat_r.
  - unfold scaleArray. split; [|split; [|split]]; apply prefix_take.
Qed.

Lemma reproject_scales_down_witness :
  let data := computeAnalyticsFromDocs utcEnv ∅ twoDays [] in
  sessionsInRange data "2024-10-01" "2024-10-01" <> []
  /\ exists out,
       reprojectForDateRange data "2024-10-01" "2024-10-01" = Some out
       /\ PriceRangeData.cartAddPrices (AnalyticsResponse.priceRangeData out)
            `prefix_of` PriceRangeData.cartAddPrices (AnalyticsResponse.priceRangeData data).
Proof.
  intros data.
  assert (sessionsInRange data "2024-10-01" "2024-10-01" <> []) as Hne.
  { intros H. apply (f_equal length) in H. vm_compute in H. discriminate H. }
  split; [exact Hne|].
  destruct (reprojectForDateRange data "2024-10-01" "2024-10-01") as [out|] eqn:Hout.
  - exists out. split; [reflexivity|].
    destruct (reproject_scales_down data "2024-10-01" "2024-10-01" out Hne Hout)
      as (_ & _ & _ & _ & _ & Hp & _).
    exact Hp.
  - vm_compute in Hout. discriminate Hout.
Defined.

(** * The cycle guard of the flow chart *)

Lemma elem_of_fold_push {A} (x : A) (l st : list A) :
  x ∈ fold_left (fun st x => x :: st) l st <-> x ∈ l \/ x ∈ st.
Proof.
  revert st. induction l as [|y l IH]; intros st; simpl.
  - split; [now right|]. intros [H|H]; [now apply elem_of_nil in H|done].
  - rewrite IH, !elem_of_cons. tauto.
Qed.

Lemma length_fold_push {A} (l st : list A) :
  length (fold_left (fun st x => x :: st) l st) = (length l + length st)%nat.
Proof.
  revert st. induction l as [|y l IH]; intros st; simpl; [done|].
  rewrite IH. simpl. lia.
Qed.

Lemma degree_pending adj : SankeyFlow.degree adj = pending adj ∅.
Proof.
  unfold SankeyFlow.degree.
  assert (forall a, fold_left (fun n (kv : string * list string) => (n + length kv.2)%nat)
                      adj a = (a + pending adj ∅)%nat) as H; [|apply (H 0%nat)].
  induction adj as [|[k ns] m IH]; intros a; simpl; [lia|].
  rewrite IH, decide_False by apply not_elem_of_empty. lia.
Qed.

Lemma pending_mono adj (seen seen' : gset string) :
  seen ⊆ seen' -> (pending adj seen' <= pending adj seen)%nat.
Proof.
  intros Hsub. induction adj as [|[k ns] m IH]; simpl; [lia|].
  destruct (decide (k ∈ seen)) as [Hk|Hk].
  - rewrite decide_True by (now apply Hsub). lia.
  - destruct (decide (k ∈ seen')); lia.
Qed.

Lemma pending_seen adj (seen : gset string) cur :
  cur ∉ seen ->
  (pending adj ({[ cur ]} ∪ seen) + length (SankeyFlow.successors adj cur)
   <= pending adj seen)%nat.
Proof.
  intros Hcur. unfold SankeyFlow.successors.
  induction adj as [|[k ns] m IH]; simpl; [lia|].
  destruct (decide (cur = k)) as [<-|Hne].
  - rewrite decide_True by (apply elem_of_union; left; now apply elem_of_singleton).
    rewrite decide_False by done. simpl.
    pose proof (pending_mono m seen ({[ cur ]} ∪ seen) (union_subseteq_r _ _)) as Hm. lia.
  - destruct (decide (k ∈ seen)) as [Hk|Hk].
    + rewrite decide_True by (apply elem_of_union; now right). lia.
    + rewrite decide_False; [lia|].
      intros [Hc%elem_of_singleton|Hc]%elem_of_union; [congruence|done].
Qed.

Lemma wouldCycle_fuel_returns adj src fuel stack seen :
  (pending adj seen + length stack < fuel)%nat ->
  exists b, SankeyFlow.wouldCycle_fuel fuel adj src stack seen = Some b.
Proof.
  revert stack seen. induction fuel as [|fuel IH]; intros stack seen Hm; [lia|].
  simpl. destruct stack as [|cur stack]; [eauto|].
  destruct (decide (cur = src)); [eauto|].
  simpl in Hm. destruct (decide (cur ∈ seen)) as [Hs|Hs].
  - apply IH. lia.
  - apply IH. rewrite length_fold_push.
    pose proof (pending_seen adj seen cur Hs). lia.
Qed.

Lemma wouldCycle_fuel_mono adj src n m stack seen b :
  SankeyFlow.wouldCycle_fuel n adj src stack seen = Some b -> (n <= m)%nat ->
  SankeyFlow.wouldCycle_fuel m adj src stack seen = Some b.
Proof.
  revert m stack seen. induction n as [|n IH]; intros m stack seen H Hle; [done|].
  destruct m as [|m]; [lia|]. simpl in *.
  destruct stack as [|cur stack]; [done|].
  destruct (decide (cur = src)); [done|].
  destruct (decide (cur ∈ seen)); apply IH; (done || lia).
Qed.

(** When the loop answers no, what it has seen is closed under successors,
    holds the stack and does not hold [src]. *)
Lemma wouldCycle_fuel_false adj src fuel stack seen :
  SankeyFlow.wouldCycle_fuel fuel adj src stack seen = Some false ->
  exists S : gset string,
    seen ⊆ S /\ (forall x, x ∈ stack -> x ∈ S)
    /\ forall x, x ∈ S -> x ∉ seen -> x <> src /\ forall y, edge adj x y -> y ∈ S.
Proof.
  revert stack seen. induction fuel as [|fuel IH]; intros stack seen H; [done|].
  simpl in H. destruct stack as [|cur stack].
  { exists seen. split; [done|]. split; [intros x Hx; now apply elem_of_nil in Hx|].
    intros x Hx Hn. done. }
  destruct (decide (cur = src)) as [|Hsrc]; [done|].
  destruct (decide (cur ∈ seen)) as [Hs|Hs].
  - destruct (IH _ _ H) as (S & Hsub & Hst & Hcl).
    exists S. split; [done|]. split; [|done].
    intros x [->|Hx]%elem_of_cons; [now apply Hsub|now apply Hst].
  - destruct (IH _ _ H) as (S & Hsub & Hst & Hcl).
    exists S. split; [intros x Hx; apply Hsub, elem_of_union; now right|]. split.
    + intros x [->|Hx]%elem_of_cons;
        [apply Hsub, elem_of_union; left; now apply elem_of_singleton|].
      apply Hst. apply elem_of_fold_push. now right.
    + intros x Hx Hn. destruct (decide (x = cur)) as [->|Hne].
      * split; [done|]. intros y Hy. apply Hst. apply elem_of_fold_push.
        left. exact Hy.
      * apply Hcl; [done|].
        intros [Hc%elem_of_singleton|Hc]%elem_of_union; done.
Qed.

(** When the loop answers yes, [src] can be reached from the stack. *)
Lemma wouldCycle_fuel_true adj src (R : string -> Prop) fuel stack seen :
  (forall x y, R x -> edge adj x y -> R y) ->
  (forall x, x ∈ stack -> R x) ->
  SankeyFlow.wouldCycle_fuel fuel adj src stack seen = Some true -> R src.
Proof.
  intros HR. revert stack seen. induction fuel as [|fuel IH]; intros stack seen Hst H; [done|].
  simpl in H. destruct stack as [|cur stack]; [done|].
  destruct (decide (cur = src)) as [<-|Hsrc]; [apply Hst; left|].
  destruct (decide (cur ∈ seen)) as [Hs|Hs].
  - apply (IH stack seen); [|exact H]. intros x Hx. apply Hst. now right.
  - apply (IH _ _) in H; [done|]. intros x Hx.
    apply elem_of_fold_push in Hx as [Hx|Hx].
    + apply (HR cur); [apply Hst; left|exact Hx].
    + apply Hst. now right.
Qed.

Lemma rtc_closed {A} (R : relation A) (S : A -> Prop) x y :
  (forall a b, S a -> R a b -> S b) -> S x -> rtc R x y -> S y.
Proof. intros Hcl Hx Hr. induction Hr as [|a b c Hab _ IH]; [done|]. eauto. Qed.

Lemma wouldCycle_runs (adj : SankeyFlow.Adj) (src tgt : string) :
  SankeyFlow.wouldCycle_fuel (SankeyFlow.degree adj + 2) adj src [tgt] ∅
  = Some (SankeyFlow.wouldCycle adj src tgt).
Proof.
  destruct (wouldCycle_fuel_returns adj src (SankeyFlow.degree adj + 2) [tgt] ∅)
    as [b Hb].
  { rewrite degree_pending. simpl. lia. }
  unfold SankeyFlow.wouldCycle. now rewrite Hb.
Qed.

Lemma wouldCycle_unreachable (adj : SankeyFlow.Adj) (src tgt : string) :
  SankeyFlow.wouldCycle adj src tgt = false -> ~ rtc (edge adj) tgt src.
Proof.
  intros Hw Hr. pose proof (wouldCycle_runs adj src tgt) as Hb. rewrite Hw in Hb.
  destruct (wouldCycle_fuel_false _ _ _ _ _ Hb) as (S & _ & Hst & Hcl).
  assert (src ∈ S) as Hsrc.
  { apply (rtc_closed (edge adj) (fun x => x ∈ S) tgt src); [| |exact Hr].
    - intros a c Ha Hac. exact (proj2 (Hcl a Ha (not_elem_of_empty a)) c Hac).
    - apply Hst. left. }
  exact (proj1 (Hcl src Hsrc (not_elem_of_empty src)) eq_refl).
Qed.

(** X28. The cycle guard decides reachability.  [wouldCycle] runs to its
    end within two turns more than there are successors in [adj], whatever
    larger fuel it is given, and answers yes exactly when [src] can be
    reached from [tgt] along the successors of [adj]. *)
Theorem wouldCycle_decides (adj : SankeyFlow.Adj) (src tgt : string) :
  (forall n, (SankeyFlow.degree adj + 2 <= n)%nat ->
     SankeyFlow.wouldCycle_fuel n adj src [tgt] ∅
     = Some (SankeyFlow.wouldCycle adj src tgt))
  /\ (SankeyFlow.wouldCycle adj src tgt = true <-> rtc (edge adj) tgt src).
Proof.
  pose proof (wouldCycle_runs adj src tgt) as Hb. split.
  - intros n Hn. exact (wouldCycle_fuel_mono _ _ _ _ _ _ _ Hb Hn).
  - destruct (SankeyFlow.wouldCycle adj src tgt) eqn:Hw.
    + split; [intros _|done].
      apply (wouldCycle_fuel_true adj src (rtc (edge adj) tgt) _ _ _) in Hb; [done| |].
      * intros x y Hx Hxy. eapply rtc_r; eauto.
      * intros x Hx. apply list_elem_of_singleton in Hx as ->. apply rtc_refl.
    + split; [done|]. intros Hr. exfalso.
      exact (wouldCycle_unreachable adj src tgt Hw Hr).
Qed.

Lemma wouldCycle_decides_witness :
  let adj := [("a", ["b"]); ("b", ["c"]); ("c", [])]%string in
  SankeyFlow.wouldCycle adj "a" "c" = false
  /\ SankeyFlow.wouldCycle adj "c" "a" = true
  /\ rtc (edge adj) "a"%string "c"%string.
Proof.
  intros adj. split; [reflexivity|]. split; [reflexivity|].
  apply (proj2 (wouldCycle_decides adj "c" "a")). reflexivity.
Defined.

(** * Adding an edge that closes no cycle *)

Lemma tc_add_edge {A} (R : relation A) (s t x y : A) :
  tc (fun a b => R a b \/ (a = s /\ b = t)) x y ->
  tc R x y \/ (rtc R x s /\ rtc R t y).
Proof.
  induction 1 as [x y [Hxy|[-> ->]]|x z y [Hxz|[-> ->]] _ [IH|[IH1 IH2]]].
  - left. now apply tc_once.
  - right. split; apply rtc_refl.
  - left. eapply tc_l; eauto.
  - right. split; [eapply rtc_l; eauto|done].
  - right. split; [apply rtc_refl|now apply tc_rtc].
  - right. split; [apply rtc_refl|done].
Qed.

Lemma acyclic_add_edge {A} (R : relation A) (s t : A) :
  (forall a, ~ tc R a a) -> ~ rtc R t s ->
  forall a, ~ tc (fun a b => R a b \/ (a = s /\ b = t)) a a.
Proof.
  intros Hac Hno a Ha. apply tc_add_edge in Ha as [Ha|[H1 H2]].
  - exact (Hac a Ha).
  - apply Hno. now transitivity a.
Qed.

Lemma tc_impl {A} (R R' : relation A) x y :
  (forall a b, R a b -> R' a b) -> tc R x y -> tc R' x y.
Proof.
  intros Hsub. induction 1 as [x y H|x z y H _ IH]; [apply tc_once; auto|].
  eapply tc_l; eauto.
Qed.

(** * The links of the flow chart *)

Lemma pruned_sub links k : k ∈ SankeyFlow.pruned links -> k ∈ links.
Proof.
  unfold SankeyFlow.pruned. destruct (0 <? _); [|done].
  rewrite list_elem_of_In, filter_In, <- list_elem_of_In. tauto.
Qed.

Lemma successors_mapSet adj s v a :
  SankeyFlow.successors (mapSet s v adj) a
  = if decide (a = s) then v else SankeyFlow.successors adj a.
Proof.
  unfold SankeyFlow.successors. rewrite mapGet_mapSet. now destruct (decide (a = s)).
Qed.

Lemma successors_init nodes a :
  SankeyFlow.successors (fold_left (fun adj n => mapSet n [] adj) nodes []) a = [].
Proof.
  assert (forall adj : SankeyFlow.Adj,
            (forall x, SankeyFlow.successors adj x = []) ->
            forall x, SankeyFlow.successors
                        (fold_left (fun adj n => mapSet n [] adj) nodes adj) x = []) as H.
  { induction nodes as [|n nodes IH]; intros adj Hadj x; simpl; [apply Hadj|].
    apply IH. intros y. rewrite successors_mapSet. destruct (decide (y = n)); [done|apply Hadj]. }
  apply H. intros x. reflexivity.
Qed.

Section SankeyInvariant.
Import SankeyFlow.
Variable sankey : Sankey.t.

Let nodes := Sankey.nodes sankey.

(** A link of the chart: between two different nodes with names, drawn for
    a link of the bundle between the nodes of those names. *)
Let drawn (l : FlowLink.t) : Prop :=
  FlowLink.source l <> FlowLink.target l
  /\ FlowLink.source l <> EmptyString /\ FlowLink.target l <> EmptyString
  /\ exists k, k ∈ Sankey.links sankey
       /\ nodes !! Link.source k = Some (FlowLink.source l)
       /\ nodes !! Link.target k = Some (FlowLink.target l)
       /\ Link.value k = FlowLink.value l.

Let Inv (st : list FlowLink.t * Adj) : Prop :=
  (forall a b, edge st.2 a b <-> flows st.1 a b)
  /\ (forall a, ~ tc (edge st.2) a a)
  /\ forall l, l ∈ st.1 -> drawn l.

Lemma addLink_inv st k :
  k ∈ Sankey.links sankey -> Inv st -> Inv (addLink nodes st k).
Proof.
  intros Hk HI. destruct st as [links adj]. unfold addLink.
  destruct (nodes !! Link.source k) as [sName|] eqn:Hs; [|exact HI].
  destruct (nodes !! Link.target k) as [tName|] eqn:Ht; [|exact HI].
  destruct (String.eqb sName EmptyString || String.eqb tName EmptyString) eqn:He; [exact HI|].
  destruct (String.eqb sName tName) eqn:Hst; [exact HI|].
  destruct (wouldCycle adj sName tName) eqn:Hw; [exact HI|]. simpl.
  apply orb_false_iff in He as [He1 He2].
  apply String.eqb_neq in He1, He2, Hst.
  destruct HI as (HI1 & HI2 & HI3). simpl in HI1, HI2, HI3.
  assert (forall a b,
            edge (mapSet sName (setAdd (successors adj sName) tName) adj) a b
            <-> edge adj a b \/ (a = sName /\ b = tName)) as Hedge.
  { intros a b. unfold edge. rewrite successors_mapSet.
    destruct (decide (a = sName)) as [->|Hne].
    - rewrite setAdd_elem. tauto.
    - split; [tauto|]. intros [?|[? _]]; done. }
  split; [|split]; simpl.
  - intros a b. rewrite Hedge, HI1. unfold flows. split.
    + intros [[v Hv]|[-> ->]].
      * exists v. apply elem_of_app. now left.
      * exists (Link.value k). apply elem_of_app. right. now apply list_elem_of_singleton.
    + intros [v [Hv|Hv%list_elem_of_singleton]%elem_of_app]; [left; eauto|].
      right. now injection Hv as -> -> _.
  - intros a Ha.
    apply (acyclic_add_edge (edge adj) sName tName HI2) with (a := a).
    + exact (wouldCycle_unreachable adj sName tName Hw).
    + eapply tc_impl; [|exact Ha]. intros x y. apply Hedge.
  - intros l [Hl|Hl%list_elem_of_singleton]%elem_of_app; [now apply HI3|].
    subst l. unfold drawn. simpl. repeat split; try done. eauto.
Qed.

Lemma fold_addLink_inv base st :
  (forall k, k ∈ base -> k ∈ Sankey.links sankey) -> Inv st ->
  Inv (fold_left (addLink nodes) base st).
Proof.
  revert st. induction base as [|k base IH]; intros st Hsub HI; simpl; [exact HI|].
  apply IH.
  - intros k' Hk'. apply Hsub. now right.
  - apply addLink_inv; [apply Hsub; left|exact HI].
Qed.

(** X27. The flow chart has no cycle.  The links that [SankeyFlow] hands to
    the chart never lead from a node back to itself, in one step or in
    several; each of them joins two different named nodes and carries the
    value of a link of the bundle between those nodes; and the nodes are
    those of the bundle. *)
Theorem sankeyData_acyclic :
  let chart := sankeyData sankey in
  SankeyData.nodes chart = Sankey.nodes sankey
  /\ (forall a, ~ tc (flows (SankeyData.links chart)) a a)
  /\ forall l, l ∈ SankeyData.links chart ->
       FlowLink.source l <> FlowLink.target l
       /\ FlowLink.source l <> EmptyString /\ FlowLink.target l <> EmptyString
       /\ exists k, k ∈ Sankey.links sankey
            /\ Sankey.nodes sankey !! Link.source k = Some (FlowLink.source l)
            /\ Sankey.nodes sankey !! Link.target k = Some (FlowLink.target l)
            /\ Link.value k = FlowLink.value l.
Proof.
  unfold sankeyData. fold nodes.
  pose proof (fold_addLink_inv (pruned (Sankey.links sankey))
                ([], fold_left (fun adj n => mapSet n [] adj) nodes [])) as H.
  destruct (fold_left (addLink nodes) _ _) as [links adj]. simpl.
  destruct H as (H1 & H2 & H3).
  { intros k. apply pruned_sub. }
  { split; [|split]; simpl.
    - intros a b. unfold edge, flows. rewrite successors_init. split.
      + intros Hin. now apply elem_of_nil in Hin.
      + intros [v Hv]. now apply elem_of_nil in Hv.
    - intros a Ha. assert (forall x y, ~ edge (fold_left (fun adj n => mapSet n [] adj) nodes []) x y) as Hno.
      { intros x y Hxy. unfold edge in Hxy. rewrite successors_init in Hxy.
        now apply elem_of_nil in Hxy. }
      destruct Ha as [x y Hxy|x y z Hxy _]; exact (Hno _ _ Hxy).
    - intros l Hl. now apply elem_of_nil in Hl. }
  simpl in H1, H2, H3. split; [reflexivity|]. split.
  - intros a Ha. apply (H2 a). eapply tc_impl; [|exact Ha]. intros x y. apply H1.
  - exact H3.
Qed.
End SankeyInvariant.

(** * Sorting by a key, largest first *)

Lemma sortBy_desc {A} (key : A -> Qc) (cmp : A -> A -> Qc) l :
  (forall a b, isPos (cmp a b) = true -> (key a <= key b)%Qc) ->
  (forall a b, isPos (cmp a b) = false -> (key b <= key a)%Qc) ->
  StronglySorted (fun x y => (key y <= key x)%Qc) (sortBy cmp l).
Proof.
  intros Hp Hn.
  assert (Transitive (fun x y : A => (key y <= key x)%Qc)) as Htr.
  { intros x y z Hxy Hyz. now apply Qcle_trans with (key y). }
  apply (sortBy_StronglySorted _ _). apply StronglySorted_all.
  intros x y. destruct (isPos (cmp x y)) eqn:Hc; [now apply Hp|now apply Hn].
Qed.

Lemma orElse_desc (ka kb tie : Qc) :
  (isPos (orElse (kb - ka) tie) = true -> (ka <= kb)%Qc)
  /\ (isPos (orElse (kb - ka) tie) = false -> (kb <= ka)%Qc).
Proof.
  unfold orElse. destruct (isZero (kb - ka)%Qc) eqn:Hz.
  - apply isZero_true in Hz.
    assert (kb = ka) as -> by (replace kb with ((kb - ka) + ka)%Qc by ring; rewrite Hz; ring).
    split; intros _; apply Qcle_refl.
  - split; intros H.
    + apply isPos_sub in H. now apply Qclt_le_weak.
    + now apply isPos_sub_false in H.
Qed.

(** * The rows of the cart-leak chart *)

Section CartLeakRows.
Import CartLeakByCategory.
Variable meta : ItemMeta.

Let groupOK (g : Group.t) : Prop := 0 <= Group.adds g /\ 0 <= Group.removes g.

Let itemsOf (m : list (string * Group.t)) : Z :=
  sumZ (map (fun kv => Z.of_nat (length (Group.items kv.2))) m).

Lemma addRow_spec m row :
  0 <= LeakRow.adds row /\ 0 <= LeakRow.removes row ->
  NoDup (map fst m) -> Forall groupOK (map snd m) ->
  NoDup (map fst (addRow meta m row))
  /\ Forall groupOK (map snd (addRow meta m row))
  /\ itemsOf (addRow meta m row) = itemsOf m + 1.
Proof.
  intros [Ha Hr] Hnd Hok. unfold addRow.
  set (category := categoryFor meta (LeakRow.item row)).
  set (g := default (Group.mk 0 0 []) (mapGet category m)).
  assert (groupOK g) as [Hga Hgr].
  { unfold g. destruct (mapGet category m) as [g0|] eqn:Hg; simpl.
    - exact (mapGet_value _ _ _ _ Hok Hg).
    - split; simpl; lia. }
  split; [now apply mapSet_NoDup|]. split.
  - apply mapSet_values; [|exact Hok]. split; simpl; lia.
  - unfold itemsOf.
    rewrite (mapSet_sum_of (fun g => Z.of_nat (length (Group.items g))) (Group.mk 0 0 []))
      by reflexivity.
    fold g. simpl. rewrite length_app. simpl. lia.
Qed.

Lemma fold_addRow_spec rows m :
  Forall (fun r => 0 <= LeakRow.adds r /\ 0 <= LeakRow.removes r) rows ->
  NoDup (map fst m) -> Forall groupOK (map snd m) ->
  let m' := fold_left (addRow meta) rows m in
  NoDup (map fst m') /\ Forall groupOK (map snd m')
  /\ itemsOf m' = itemsOf m + Z.of_nat (length rows).
Proof.
  intros Hrows. revert m. induction Hrows as [|r rows Hr _ IH]; intros m Hnd Hok; simpl.
  - repeat split; [done|done|lia].
  - destruct (addRow_spec m r Hr Hnd Hok) as (Hnd' & Hok' & Hn).
    destruct (IH _ Hnd' Hok') as (Hnd'' & Hok'' & Hn'').
    repeat split; [done|done|]. rewrite Hn'', Hn. lia.
Qed.

Lemma categoryCartData_nonneg cats :
  Forall (fun c => 0 <= CategoryRow.carts c) cats ->
  Forall (fun v => 0 <= v) (map snd (categoryCartData cats)).
Proof.
  unfold categoryCartData. intros Hc.
  assert (forall m : list (string * Z),
            Forall (fun v => 0 <= v) (map snd m) ->
            Forall (fun v => 0 <= v)
              (map snd (fold_left
                          (fun m cat => mapSet (CategoryRow.category cat)
                                          (CategoryRow.carts cat) m) cats m))) as H.
  { induction Hc as [|c cats Hc0 _ IH]; intros m Hm; simpl; [done|].
    apply IH. now apply mapSet_values. }
  apply H. constructor.
Qed.

Lemma rowOf_spec cartData k g :
  Forall (fun v => 0 <= v) (map snd cartData) -> groupOK g ->
  let r := rowOf cartData (k, g) in
  Row.category r = k
  /\ Row.itemCount r = Z.of_nat (length (Group.items g))
  /\ 0 <= Row.removes r <= Row.adds r
  /\ (0 <= Row.leak r)%Qc /\ (Row.leak r <= 1)%Qc.
Proof.
  intros Hcd [Hga Hgr]. unfold rowOf.
  set (adds := match mapGet k cartData with
               | Some carts => if carts =? 0 then Group.adds g else carts
               | None => Group.adds g
               end).
  assert (0 <= adds) as Hadds.
  { unfold adds. destruct (mapGet k cartData) as [c|] eqn:Hc; [|done].
    pose proof (mapGet_value _ _ _ _ Hcd Hc) as Hc0. simpl in Hc0.
    destruct (c =? 0); [done|exact Hc0]. }
  simpl. split; [reflexivity|]. split; [reflexivity|]. split; [lia|].
  destruct (0 <? adds) eqn:Hpos; [|split; [apply Qcle_refl|by vm_compute]].
  apply Z.ltb_lt in Hpos. apply Qcdiv_unit.
  - apply ofZ_nonneg. lia.
  - apply ofZ_mono. lia.
  - now apply ofZ_pos.
Qed.
End CartLeakRows.

Lemma allRows_spec data :
  Forall (fun r => 0 <= LeakRow.adds r /\ 0 <= LeakRow.removes r)
    (Leak.items (AnalyticsResponse.leak data)) ->
  Forall (fun c => 0 <= CategoryRow.carts c) (AnalyticsResponse.categoryInteractions data) ->
  let rows := CartLeakByCategory.allRows data in
  Forall chartRowOK rows
  /\ NoDup (map CartLeakByCategory.Row.category rows)
  /\ sumZ (map CartLeakByCategory.Row.itemCount rows)
     = Z.of_nat (length (Leak.items (AnalyticsResponse.leak data)))
  /\ StronglySorted
       (fun x y => (CartLeakByCategory.Row.leak y <= CartLeakByCategory.Row.leak x)%Qc)
       rows.
Proof.
  intros Hrows Hcats rows. unfold rows, CartLeakByCategory.allRows.
  set (meta := AnalyticsResponse.itemMeta data).
  set (cartData := CartLeakByCategory.categoryCartData _).
  pose proof (categoryCartData_nonneg _ Hcats) as Hcd. fold cartData in Hcd.
  destruct (fold_addRow_spec meta _ [] Hrows) as (Hnd & Hok & Hn);
    [apply NoDup_nil_2|apply Forall_nil_2|].
  cbv zeta in Hnd, Hok, Hn.
  set (groups := fold_left (CartLeakByCategory.addRow meta) _ []) in *.
  assert (forall kg, kg ∈ groups ->
            let r := CartLeakByCategory.rowOf cartData kg in
            CartLeakByCategory.Row.category r = kg.1
            /\ CartLeakByCategory.Row.itemCount r
               = Z.of_nat (length (CartLeakByCategory.Group.items kg.2))
            /\ chartRowOK r) as Hrow.
  { intros [k g] Hkg.
    assert (0 <= CartLeakByCategory.Group.adds g /\ 0 <= CartLeakByCategory.Group.removes g)
      as Hg.
    { apply (proj1 (Forall_forall _ _) Hok g). apply list_elem_of_fmap.
      exists (k, g). split; [done|exact Hkg]. }
    destruct (rowOf_spec cartData k g Hcd Hg) as (H1 & H2 & H3 & H4 & H5).
    simpl. repeat split; try done; apply H3. }
  split; [|split; [|split]].
  - apply (Forall_perm _ (map (CartLeakByCategory.rowOf cartData) groups));
      [symmetry; apply sortBy_perm|].
    apply Forall_fmap, Forall_forall. intros kg Hkg. now apply Hrow.
  - assert (map CartLeakByCategory.Row.category
              (sortBy CartLeakByCategory.order
                 (map (CartLeakByCategory.rowOf cartData) groups))
            ≡ₚ map fst groups) as ->; [|exact Hnd].
    rewrite (fmap_Permutation _ _ _ (sortBy_perm _ _)).
    rewrite map_map. apply eq_subrelation; [apply _|].
    apply map_ext_in. intros kg Hkg. apply list_elem_of_In in Hkg. now apply Hrow.
  - rewrite (sumZ_perm _ _ (fmap_Permutation _ _ _ (sortBy_perm _ _))).
    rewrite Z.add_0_l in Hn. rewrite <- Hn. f_equal.
    change (CartLeakByCategory.Row.itemCount <$> map (CartLeakByCategory.rowOf cartData) groups)
      with (map CartLeakByCategory.Row.itemCount
              (map (CartLeakByCategory.rowOf cartData) groups)).
    rewrite map_map. apply map_ext_in. intros kg Hkg.
    apply list_elem_of_In in Hkg. now apply Hrow.
  - apply sortBy_desc; intros a b; apply orElse_desc.
Qed.

(** X25. The cart-leak chart stays within bounds.  On every bundle whose
    leak rows and category rows carry no negative count, each row of the
    chart has removes between 0 and its adds and a leak of [0, 1]; there is
    one row per category, the rows hold every leak item once, and they come
    by leak, largest first.  Every reprojection of the bundle of the engine
    is such a bundle, also where its own leak rows exceed 1. *)
Theorem cartLeak_rows_in_bounds :
  (forall data,
     Forall (fun r => 0 <= LeakRow.adds r /\ 0 <= LeakRow.removes r)
       (Leak.items (AnalyticsResponse.leak data)) ->
     Forall (fun c => 0 <= CategoryRow.carts c)
       (AnalyticsResponse.categoryInteractions data) ->
     let rows := CartLeakByCategory.allRows data in
     Forall chartRowOK rows
     /\ NoDup (map CartLeakByCategory.Row.category rows)
     /\ sumZ (map CartLeakByCategory.Row.itemCount rows)
        = Z.of_nat (length (Leak.items (AnalyticsResponse.leak data)))
     /\ StronglySorted
          (fun x y => (CartLeakByCategory.Row.leak y <= CartLeakByCategory.Row.leak x)%Qc)
          rows)
  /\ forall E h docs itemMeta fromDate toDate,
       exists out,
         reprojectForDateRange (computeAnalyticsFromDocs E h docs itemMeta)
           fromDate toDate = Some out
         /\ Forall chartRowOK (CartLeakByCategory.allRows out).
Proof.
  split; [exact allRows_spec|].
  intros E h docs itemMeta fromDate toDate.
  destruct (engine_reprojects E h docs itemMeta fromDate toDate) as [out Hout].
  exists out. split; [exact Hout|].
  set (data := computeAnalyticsFromDocs E h docs itemMeta) in *.
  destruct (decide (sessionsInRange data fromDate toDate = [])) as [Hnil|Hne].
  - rewrite (reproject_no_session _ _ _ Hnil) in Hout. injection Hout as <-.
    apply allRows_spec; simpl; constructor.
  - destruct (range_totals E h docs itemMeta fromDate toDate) as [[HA _] [HR _]].
    fold data in HA, HR.
    destruct (reprojected_rows data fromDate toDate out Hne HA HR Hout)
      as (Hrn & _ & _ & _ & _ & Hcn & _).
    now apply allRows_spec.
Qed.

Lemma cartLeak_rows_in_bounds_witness :
  let data := computeAnalyticsFromDocs utcEnv ∅ twoDays [] in
  Forall (fun r => 0 <= LeakRow.adds r /\ 0 <= LeakRow.removes r)
    (Leak.items (AnalyticsResponse.leak data))
  /\ Forall (fun c => 0 <= CategoryRow.carts c)
       (AnalyticsResponse.categoryInteractions data)
  /\ Forall chartRowOK (CartLeakByCategory.allRows data).
Proof.
  intros data.
  assert (Forall (fun r => 0 <= LeakRow.adds r /\ 0 <= LeakRow.removes r)
            (Leak.items (AnalyticsResponse.leak data))) as H1.
  { apply (bool_decide_unpack _). vm_compute. exact I. }
  assert (Forall (fun c => 0 <= CategoryRow.carts c)
            (AnalyticsResponse.categoryInteractions data)) as H2.
  { apply (bool_decide_unpack _). vm_compute. exact I. }
  split; [exact H1|]. split; [exact H2|].
  exact (proj1 (proj1 cartLeak_rows_in_bounds data H1 H2)).
Defined.

(** * The metrics of a custom price range *)

Lemma filter_length_le {A} (p : A -> bool) l : (length (List.filter p l) <= length l)%nat.
Proof. induction l as [|x l IH]; simpl; [lia|]. destruct (p x); simpl; lia. Qed.

Lemma count_sub {A B} (q : B -> bool) (f : A -> B) (p : A -> bool) l :
  (length (List.filter q (map f (List.filter p l)))
   <= length (List.filter q (map f l)))%nat.
Proof.
  induction l as [|x l IH]; simpl; [lia|].
  destruct (p x); simpl; destruct (q (f x)); simpl; lia.
Qed.

(** Among cart events of the shape that ingestion gives them, the removes
    that a test on the item selects are no more than the adds it selects. *)
Lemma toggles_selected {B} (q : B -> bool) (f : string -> B) evts :
  toggles evts ->
  (length (List.filter q
             (map (fun e => f (SessionEvent.itemId e))
                (List.filter (fun e => flag (SessionEvent.remove e)) evts)))
   <= length (List.filter q
                (map (fun e => f (SessionEvent.itemId e))
                   (List.filter (fun e => flag (SessionEvent.add e)) evts))))%nat.
Proof.
  induction 1 as [|id t rest _ IH|id t rt rest _ IH]; simpl; [lia| |].
  - destruct (q (f id)); simpl; lia.
  - destruct (q (f id)); simpl; lia.
Qed.

(** X26. The rates of a custom price range.  Whatever the bundle and the
    bounds, the checkout rate of [PurchaseFunnelByPrice] lies in [0, 1].  On
    the bundle of the engine the views that led to a cart add are no more
    than the views in the range and the removes no more than the adds, so
    the view rate lies in [0, 1] too and the checkout rate is
    (adds - removes) / adds without the clamp, 0 when there are no adds. *)
Theorem rangeMetrics_rates :
  (forall min max priceRangeData,
     let m := PurchaseFunnelByPrice.rangeMetrics min max priceRangeData in
     (0 <= PurchaseFunnelByPrice.Metrics.checkoutRate m)%Qc
     /\ (PurchaseFunnelByPrice.Metrics.checkoutRate m <= 1)%Qc)
  /\ forall E h docs itemMeta min max,
       let data := computeAnalyticsFromDocs E h docs itemMeta in
       let m := PurchaseFunnelByPrice.rangeMetrics min max
                  (AnalyticsResponse.priceRangeData data) in
       0 <= PurchaseFunnelByPrice.Metrics.viewToCart m
         <= PurchaseFunnelByPrice.Metrics.views m
       /\ 0 <= PurchaseFunnelByPrice.Metrics.removes m
            <= PurchaseFunnelByPrice.Metrics.adds m
       /\ (0 <= PurchaseFunnelByPrice.Metrics.viewRate m)%Qc
       /\ (PurchaseFunnelByPrice.Metrics.viewRate m <= 1)%Qc
       /\ PurchaseFunnelByPrice.Metrics.checkoutRate m
          = (if 0 <? PurchaseFunnelByPrice.Metrics.adds m
             then (ofZ (PurchaseFunnelByPrice.Metrics.adds m
                        - PurchaseFunnelByPrice.Metrics.removes m)
                   / ofZ (PurchaseFunnelByPrice.Metrics.adds m))%Qc
             else 0%Qc).
Proof.
  split.
  - intros min max prd. simpl.
    destruct (0 <? _); [apply clamp_range|split; [apply Qcle_refl|by vm_compute]].
  - intros E h docs itemMeta min max data m.
    set (q := PurchaseFunnelByPrice.inRange min max).
    destruct (wellFormed_carts _ (sessionsOf_wellFormed E h docs)) as (Htog & _ & _).
    assert (0 <= PurchaseFunnelByPrice.Metrics.viewToCart m
              <= PurchaseFunnelByPrice.Metrics.views m) as Hv.
    { unfold m, data. simpl. fold q. split; [lia|]. apply inj_le. apply count_sub. }
    assert (0 <= PurchaseFunnelByPrice.Metrics.removes m
              <= PurchaseFunnelByPrice.Metrics.adds m) as Hr.
    { unfold m, data. simpl. fold q. split; [lia|]. apply inj_le.
      apply (toggles_selected q (fun id => orElse (priceOf itemMeta id) 0%Qc)).
      exact Htog. }
    split; [exact Hv|]. split; [exact Hr|].
    assert (forall a b, 0 <= a <= b ->
              (0 <= (if 0 <? b then (ofZ a / ofZ b)%Qc else 0%Qc))%Qc
              /\ ((if 0 <? b then (ofZ a / ofZ b)%Qc else 0%Qc) <= 1)%Qc) as Hunit.
    { intros a b Hab. destruct (0 <? b) eqn:Hb; [|split; [apply Qcle_refl|by vm_compute]].
      apply Z.ltb_lt in Hb. apply Qcdiv_unit.
      - apply ofZ_nonneg. lia.
      - apply ofZ_mono. lia.
      - now apply ofZ_pos. }
    split; [|split].
    + exact (proj1 (Hunit _ _ Hv)).
    + exact (proj2 (Hunit _ _ Hv)).
    + change (PurchaseFunnelByPrice.Metrics.checkoutRate m)
        with (if 0 <? PurchaseFunnelByPrice.Metrics.adds m
              then clamp (ofZ (PurchaseFunnelByPrice.Metrics.adds m
                               - PurchaseFunnelByPrice.Metrics.removes m)
                          / ofZ (PurchaseFunnelByPrice.Metrics.adds m))%Qc 0%Qc 1%Qc
              else 0%Qc).
      destruct (0 <? PurchaseFunnelByPrice.Metrics.adds m) eqn:Hb; [|reflexivity].
      apply Z.ltb_lt in Hb. apply clamp_unit; apply Qcdiv_unit;
        (apply ofZ_nonneg || apply ofZ_mono || apply ofZ_pos); lia.
Qed.

(** * Ingestion: what a session counts *)

Lemma collectView_app E h ts acc raw :
  collectView E h ts acc raw = acc ++ collectView E h ts [] raw.
Proof.
  unfold collectView.
  destruct (strId E h (RawItem.item raw)) as [id|]; [|now rewrite app_nil_r].
  destruct (String.eqb id EmptyString); [now rewrite app_nil_r|done].
Qed.

Lemma fold_collectView E h ts raws acc :
  fold_left (collectView E h ts) raws acc
  = acc ++ flat_map (collectView E h ts []) raws.
Proof.
  revert acc. induction raws as [|raw raws IH]; intros acc; simpl.
  - now rewrite app_nil_r.
  - rewrite IH, (collectView_app _ _ _ acc). now rewrite <- app_assoc.
Qed.

Lemma collectView_length E h ts raws :
  length (flat_map (collectView E h ts []) raws)
  = length (List.filter (resolves E h) raws).
Proof.
  induction raws as [|raw raws IH]; simpl; [done|].
  rewrite length_app, IH. unfold collectView, resolves.
  destruct (strId E h (RawItem.item raw)) as [id|]; [|done].
  destruct (String.eqb id EmptyString); simpl; done.
Qed.

Lemma collectToggle_counts E h ts st raws :
  let evts := flat_map (collectToggle E h ts st []) raws in
  allAdds evts = Z.of_nat (length (List.filter (resolves E h) raws))
  /\ allRemoves evts
     = Z.of_nat (length (List.filter
                           (fun raw => resolves E h raw && RawItem.deleted raw) raws)).
Proof.
  induction raws as [|raw raws [IHa IHr]]; simpl; [done|].
  rewrite allAdds_app, allRemoves_app, IHa, IHr.
  unfold collectToggle, resolves.
  destruct (strId E h (RawItem.item raw)) as [id|]; [|done].
  destruct (String.eqb id EmptyString); simpl; [done|].
  destruct (RawItem.deleted raw); simpl; unfold allAdds, allRemoves; simpl;
    change (sumZ [1; 0]) with 1; change (sumZ [0; 1]) with 1;
    change (sumZ [1]) with 1; change (sumZ [0]) with 0; split; lia.
Qed.

Lemma filter_and_le {A} (p q : A -> bool) l :
  (length (List.filter (fun x => p x && q x) l) <= length (List.filter p l))%nat.
Proof.
  induction l as [|x l IH]; simpl; [lia|].
  destruct (p x); simpl; [|exact IH]. destruct (q x); simpl; lia.
Qed.

(** X1. What a session counts.  [collectSessionEvents] counts one view for
    every view entry whose item resolves to an identifier that is not empty,
    one cart add for every such cart entry and one cart remove for every
    such cart entry that is flagged deleted; entries that do not resolve are
    skipped.  So the removes of a session never exceed its adds, and no
    counter exceeds the number of entries. *)
Theorem collectSessionEvents_counts E h uuid doc :
  let s := collectSessionEvents E h uuid doc in
  Session.nView s
    = Z.of_nat (length (List.filter (resolves E h) (RawDoc.viewItems doc)))
  /\ Session.nCartAdd s
     = Z.of_nat (length (List.filter (resolves E h) (RawDoc.cartItems doc)))
  /\ Session.nCartRemove s
     = Z.of_nat (length (List.filter
                           (fun raw => resolves E h raw && RawItem.deleted raw)
                           (RawDoc.cartItems doc)))
  /\ 0 <= Session.nCartRemove s <= Session.nCartAdd s
  /\ Session.nCartAdd s <= Z.of_nat (length (RawDoc.cartItems doc))
  /\ Session.nView s <= Z.of_nat (length (RawDoc.viewItems doc)).
Proof.
  intros s.
  assert (Session.nView s
          = Z.of_nat (length (List.filter (resolves E h) (RawDoc.viewItems doc)))) as Hv.
  { unfold s. simpl. rewrite fold_collectView. simpl. now rewrite collectView_length. }
  assert (Session.nCartAdd s
          = Z.of_nat (length (List.filter (resolves E h) (RawDoc.cartItems doc)))
          /\ Session.nCartRemove s
             = Z.of_nat (length (List.filter
                                   (fun raw => resolves E h raw && RawItem.deleted raw)
                                   (RawDoc.cartItems doc)))) as [Ha Hr].
  { unfold s. rewrite nCartAdd_allAdds, nCartRemove_allRemoves. simpl.
    rewrite fold_collectToggle. simpl. apply collectToggle_counts. }
  split; [exact Hv|]. split; [exact Ha|]. split; [exact Hr|].
  pose proof (filter_length_le (resolves E h) (RawDoc.cartItems doc)).
  pose proof (filter_length_le (resolves E h) (RawDoc.viewItems doc)).
  pose proof (filter_and_le (resolves E h) RawItem.deleted (RawDoc.cartItems doc)).
  rewrite Hv, Ha, Hr. lia.
Qed.

Lemma collectView_ids E h ts raws id :
  id ∈ map SessionEvent.itemId (flat_map (collectView E h ts []) raws)
  <-> id <> EmptyString
      /\ exists raw, raw ∈ raws /\ strId E h (RawItem.item raw) = Some id.
Proof.
  induction raws as [|raw raws IH]; simpl.
  - split; [intros H; now apply elem_of_nil in H|].
    intros (_ & raw & H & _). now apply elem_of_nil in H.
  - rewrite map_app, elem_of_app, IH. clear IH. unfold collectView.
    destruct (strId E h (RawItem.item raw)) as [id'|] eqn:Hid.
    + destruct (String.eqb id' EmptyString) eqn:He; simpl.
      * apply String.eqb_eq in He. subst id'. split.
        -- intros [H|(Hn & raw' & Hin & Hs)]; [now apply elem_of_nil in H|].
           split; [done|]. exists raw'. split; [now right|done].
        -- intros (Hn & raw' & [->|Hin]%elem_of_cons & Hs); [congruence|].
           right. eauto.
      * apply String.eqb_neq in He. split.
        -- intros [H|(Hn & raw' & Hin & Hs)].
           ++ apply list_elem_of_singleton in H. subst id'. split; [done|].
              exists raw. split; [left|done].
           ++ split; [done|]. exists raw'. split; [now right|done].
        -- intros (Hn & raw' & [->|Hin]%elem_of_cons & Hs).
           ++ left. apply list_elem_of_singleton. congruence.
           ++ right. eauto.
    + simpl. split.
      * intros [H|(Hn & raw' & Hin & Hs)]; [now apply elem_of_nil in H|].
        split; [done|]. exists raw'. split; [now right|done].
      * intros (Hn & raw' & [->|Hin]%elem_of_cons & Hs); [congruence|].
        right. eauto.
Qed.

Lemma collectToggle_ids E h ts st raws id :
  id ∈ map SessionEvent.itemId (flat_map (collectToggle E h ts st []) raws)
  <-> id <> EmptyString
      /\ exists raw, raw ∈ raws /\ strId E h (RawItem.item raw) = Some id.
Proof.
  induction raws as [|raw raws IH]; simpl.
  - split; [intros H; now apply elem_of_nil in H|].
    intros (_ & raw & H & _). now apply elem_of_nil in H.
  - rewrite map_app, elem_of_app, IH. clear IH. unfold collectToggle.
    destruct (strId E h (RawItem.item raw)) as [id'|] eqn:Hid.
    + destruct (String.eqb id' EmptyString) eqn:He; simpl.
      * apply String.eqb_eq in He. subst id'. split.
        -- intros [H|(Hn & raw' & Hin & Hs)]; [now apply elem_of_nil in H|].
           split; [done|]. exists raw'. split; [now right|done].
        -- intros (Hn & raw' & [->|Hin]%elem_of_cons & Hs); [congruence|].
           right. eauto.
      * apply String.eqb_neq in He. split.
        -- intros [H|(Hn & raw' & Hin & Hs)].
           ++ assert (id = id') as ->.
              { destruct (RawItem.deleted raw); simpl in H;
                  repeat (apply elem_of_cons in H as [H|H]; [done|]);
                  now apply elem_of_nil in H. }
              split; [done|]. exists raw. split; [left|done].
           ++ split; [done|]. exists raw'. split; [now right|done].
        -- intros (Hn & raw' & [->|Hin]%elem_of_cons & Hs).
           ++ left. assert (id' = id) as -> by congruence.
              destruct (RawItem.deleted raw); simpl; left.
           ++ right. eauto.
    + simpl. split.
      * intros [H|(Hn & raw' & Hin & Hs)]; [now apply elem_of_nil in H|].
        split; [done|]. exists raw'. split; [now right|done].
      * intros (Hn & raw' & [->|Hin]%elem_of_cons & Hs); [congruence|].
        right. eauto.
Qed.

(** X2. The items of a session.  [uniqueItems] holds no identifier twice
    and never the empty one; it holds exactly the identifiers, other than
    the empty one, that [strId] gives for the item of some view, cart or
    wishlist entry of the document. *)
Theorem collectSessionEvents_uniqueItems E h uuid doc (id : string) :
  let s := collectSessionEvents E h uuid doc in
  NoDup (Session.uniqueItems s)
  /\ (id ∈ Session.uniqueItems s
      <-> id <> EmptyString
          /\ exists raw,
               raw ∈ RawDoc.viewItems doc ++ RawDoc.cartItems doc
                       ++ RawDoc.wishlistItems doc
               /\ strId E h (RawItem.item raw) = Some id).
Proof.
  intros s. split; [apply setOf_NoDup|].
  unfold s. simpl. rewrite setOf_elem, !elem_of_app.
  rewrite fold_collectView, !fold_collectToggle. simpl.
  rewrite collectView_ids, !collectToggle_ids. split.
  - intros [(Hn & raw & Hin & Hs)|[(Hn & raw & Hin & Hs)|(Hn & raw & Hin & Hs)]];
      (split; [done|]); exists raw; rewrite !elem_of_app; tauto.
  - intros (Hn & raw & Hin & Hs). rewrite !elem_of_app in Hin.
    destruct Hin as [Hin|[Hin|Hin]]; [left|right; left|right; right]; eauto.
Qed.

(** * Cart leak: the rows *)

Lemma flag_default o : flag o = negb (default 0 o =? 0).
Proof. destruct o; reflexivity. Qed.

Lemma elem_of_mapSet_keys {K V} `{EqDecision K} (m : list (K * V)) k v x :
  x ∈ map fst (mapSet k v m) <-> x ∈ map fst m \/ x = k.
Proof.
  rewrite mapSet_keys. destruct (decide (k ∈ map fst m)) as [Hk|Hk].
  - split; [tauto|]. intros [?| ->]; done.
  - rewrite elem_of_app, list_elem_of_singleton. tauto.
Qed.

Lemma leakEvent_keys acc evt k :
  (k ∈ map fst (LeakAcc.adds (leakEvent acc evt))
   <-> k ∈ map fst (LeakAcc.adds acc)
       \/ (SessionEvent.itemId evt = k /\ flag (SessionEvent.add evt) = true))
  /\ (k ∈ map fst (LeakAcc.removes (leakEvent acc evt))
      <-> k ∈ map fst (LeakAcc.removes acc)
          \/ (SessionEvent.itemId evt = k /\ flag (SessionEvent.remove evt) = true)).
Proof.
  unfold leakEvent. rewrite !flag_default.
  destruct (default 0 (SessionEvent.add evt) =? 0) eqn:Ha;
    destruct (default 0 (SessionEvent.remove evt) =? 0) eqn:Hr; simpl;
    rewrite ?elem_of_mapSet_keys; split; split; intuition congruence.
Qed.

Lemma leakFold_keys evts acc k :
  let acc' := fold_left leakEvent evts acc in
  (k ∈ map fst (LeakAcc.adds acc')
   <-> k ∈ map fst (LeakAcc.adds acc)
       \/ exists e, e ∈ evts /\ SessionEvent.itemId e = k
                    /\ flag (SessionEvent.add e) = true)
  /\ (k ∈ map fst (LeakAcc.removes acc')
      <-> k ∈ map fst (LeakAcc.removes acc)
          \/ exists e, e ∈ evts /\ SessionEvent.itemId e = k
                       /\ flag (SessionEvent.remove e) = true).
Proof.
  revert acc. induction evts as [|evt evts IH]; intros acc; simpl.
  - split; (split; [tauto|]); intros [?|(e & He & _)]; try done;
      now apply elem_of_nil in He.
  - destruct (IH (leakEvent acc evt)) as [IHa IHr].
    destruct (leakEvent_keys acc evt k) as [Ha Hr].
    rewrite IHa, IHr, Ha, Hr. split; split.
    + intros [[?|[? ?]]|(e & He & ? & ?)]; [tauto| |].
      * right. exists evt. split; [left|done].
      * right. exists e. split; [now right|done].
    + intros [?|(e & [->|He]%elem_of_cons & ? & ?)]; [tauto|tauto|].
      right. eauto.
    + intros [[?|[? ?]]|(e & He & ? & ?)]; [tauto| |].
      * right. exists evt. split; [left|done].
      * right. exists e. split; [now right|done].
    + intros [?|(e & [->|He]%elem_of_cons & ? & ?)]; [tauto|tauto|].
      right. eauto.
Qed.

(** X3. The rows of the cart leak.  For every list of sessions,
    [leakAnalytics] gives one row to every item that some cart event adds or
    removes and to no other, no item twice; the row carries the adds and the
    removes of its item over all cart events and a leak of [0, 1]; the
    overall leak lies in [0, 1]; and the rows come by leak, largest first. *)
Theorem leakAnalytics_rows sessions itemMeta :
  let evts := flat_map Session.carts sessions in
  let L := leakAnalytics sessions itemMeta in
  NoDup (map LeakRow.item (Leak.items L))
  /\ (forall k, k ∈ map LeakRow.item (Leak.items L)
        <-> exists e, e ∈ evts /\ SessionEvent.itemId e = k
              /\ (flag (SessionEvent.add e) = true
                  \/ flag (SessionEvent.remove e) = true))
  /\ Forall (fun r =>
               LeakRow.adds r = addsOf (LeakRow.item r) evts
               /\ LeakRow.removes r = removesOf (LeakRow.item r) evts
               /\ (0 <= LeakRow.leak r)%Qc /\ (LeakRow.leak r <= 1)%Qc)
       (Leak.items L)
  /\ ((0 <= Leak.overall L)%Qc /\ (Leak.overall L <= 1)%Qc)
  /\ StronglySorted (fun x y => (LeakRow.leak y <= LeakRow.leak x)%Qc) (Leak.items L).
Proof.
  intros evts L. unfold L, leakAnalytics. rewrite fold_left_flat_map. fold evts.
  cbn [Leak.items Leak.overall].
  destruct (leakFold_init evts) as (H1 & H2 & H3 & H4 & H5 & H6 & H7 & H8).
  pose proof (fun k => leakFold_keys evts (LeakAcc.mk [] [] 0 0) k) as Hkeys.
  cbv zeta in Hkeys.
  set (acc := fold_left leakEvent evts (LeakAcc.mk [] [] 0 0)) in *.
  set (keys := setOf (map fst (LeakAcc.adds acc) ++ map fst (LeakAcc.removes acc))).
  assert (map LeakRow.item (map (leakRow acc) keys) = keys) as Hitems.
  { rewrite map_map. simpl. apply map_id. }
  assert (forall A (f : LeakRow.t -> A),
            map f (sortBy leakOrder (map (leakRow acc) keys))
            ≡ₚ map f (map (leakRow acc) keys)) as Hperm.
  { intros A f. apply (fmap_Permutation f), sortBy_perm. }
  split; [|split; [|split; [|split]]].
  - rewrite Hperm, Hitems. apply setOf_NoDup.
  - intros k. rewrite Hperm, Hitems. unfold keys.
    rewrite setOf_elem, elem_of_app.
    destruct (Hkeys k) as [-> ->]. simpl. split.
    + intros [[H|(e & ? & ? & ?)]|[H|(e & ? & ? & ?)]];
        try (now apply elem_of_nil in H); exists e; tauto.
    + intros (e & ? & ? & [?|?]); [left|right]; right; exists e; tauto.
  - apply (Forall_perm _ (map (leakRow acc) keys)); [symmetry; apply sortBy_perm|].
    apply Forall_fmap, Forall_true. intros k. unfold leakRow. simpl.
    rewrite !H5, !H6. split; [done|]. split; [done|].
    destruct (0 <? addsOf k evts); [|split; [apply Qcle_refl|by vm_compute]].
    rewrite clampValue_clamp. apply clamp_range.
  - simpl. destruct (0 <? LeakAcc.tAdds acc); [|split; [apply Qcle_refl|by vm_compute]].
    rewrite clampValue_clamp. apply clamp_range.
  - apply sortBy_desc; intros a b; apply orElse_desc.
Qed.

(** * Recommendations and bundles: the cut *)

Lemma StronglySorted_take {A} (R : relation A) n l :
  StronglySorted R l -> StronglySorted R (take n l).
Proof.
  intros H. rewrite <- (take_drop n l) in H. now apply StronglySorted_app_1_l in H.
Qed.

Lemma pushReco_spec a r (m : list (string * list Reco.t)) :
  NoDup (map fst m) -> Forall (fun l => l <> []) (map snd m) ->
  NoDup (map fst (pushReco a r m))
  /\ Forall (fun l => l <> []) (map snd (pushReco a r m)).
Proof.
  intros Hnd Hne. unfold pushReco. split; [now apply mapSet_NoDup|].
  apply mapSet_values; [|exact Hne]. now destruct (default [] (mapGet a m)).
Qed.

Lemma recosRaw_spec E pairs freq :
  NoDup (map fst (recosRaw E pairs freq))
  /\ Forall (fun l => l <> []) (map snd (recosRaw E pairs freq)).
Proof.
  unfold recosRaw.
  assert (forall m : list (string * list Reco.t),
            NoDup (map fst m) -> Forall (fun l => l <> []) (map snd m) ->
            NoDup (map fst (fold_left (recoEntry E freq) pairs m))
            /\ Forall (fun l => l <> []) (map snd (fold_left (recoEntry E freq) pairs m)))
    as H.
  { induction pairs as [|[key support] pairs IH]; intros m Hnd Hne; simpl; [done|].
    assert (NoDup (map fst (recoEntry E freq m (key, support)))
            /\ Forall (fun l => l <> []) (map snd (recoEntry E freq m (key, support))))
      as [Hnd1 Hne1].
    { unfold recoEntry. apply pushReco_spec; now apply pushReco_spec. }
    now apply IH. }
  apply H; constructor.
Qed.

(** X4. Ten partners at most, the best first.  In the output of
    [cooccurrenceRecos] no item has two lists; every list holds at least one
    and at most ten partners, and they come by score, largest first. *)
Theorem recos_top_ten E sessions :
  let recos := Cooc.recos (cooccurrenceRecos E sessions) in
  NoDup (map fst recos)
  /\ Forall (fun kv =>
               (1 <= length kv.2 <= 10)%nat
               /\ StronglySorted (fun x y => (Reco.score y <= Reco.score x)%Qc) kv.2)
       recos.
Proof.
  unfold cooccurrenceRecos.
  destruct (fold_left coocSession sessions ([], [])) as [pairs freq]. simpl.
  destruct (recosRaw_spec E pairs freq) as [Hnd Hne].
  split.
  - rewrite map_map. simpl. exact Hnd.
  - apply Forall_fmap, Forall_forall. intros [k l] Hkl. simpl.
    assert (l <> []) as Hl.
    { apply (proj1 (Forall_forall _ _) Hne l). apply list_elem_of_fmap.
      exists (k, l). split; [done|exact Hkl]. }
    unfold topRecos. split.
    + rewrite length_take, sortBy_length. destruct l as [|r l]; [done|].
      change (length (r :: l)) with (S (length l)). lia.
    + apply StronglySorted_take, sorted_by_score.
Qed.

Lemma bumpCount_positive {K} `{EqDecision K} (k : K) (m : list (K * Z)) :
  Forall (fun v => 1 <= v) (map snd m) ->
  Forall (fun v => 1 <= v) (map snd (bumpCount k m)).
Proof.
  intros Hm. unfold bumpCount. apply mapSet_values; [|exact Hm].
  destruct (mapGet k m) as [v|] eqn:Hv; simpl; [|lia].
  pose proof (mapGet_value _ _ _ _ Hm Hv) as Hv1. simpl in Hv1. lia.
Qed.

Lemma fold_bumpCount_positive {K A} `{EqDecision K} (f : A -> K) l (m : list (K * Z)) :
  Forall (fun v => 1 <= v) (map snd m) ->
  Forall (fun v => 1 <= v) (map snd (fold_left (fun m x => bumpCount (f x) m) l m)).
Proof.
  revert m. induction l as [|x l IH]; intros m Hm; simpl; [done|].
  apply IH. now apply bumpCount_positive.
Qed.

Lemma coocSession_positive sessions pairs freq :
  Forall (fun v => 1 <= v) (map snd pairs) ->
  Forall (fun v => 1 <= v) (map snd (fold_left coocSession sessions (pairs, freq)).1).
Proof.
  revert pairs freq. induction sessions as [|s sessions IH]; intros pairs freq Hp; simpl;
    [done|].
  apply IH. apply (fold_bumpCount_positive (fun ab : string * string => pairKey ab.1 ab.2)).
  exact Hp.
Qed.

(** X5. Fifteen bundles at most, the most frequent first.  The bundles of
    [cooccurrenceRecos] are at most fifteen, each with a support that is a
    count of at least one, and they come by support, largest first. *)
Theorem frequentBundles_top E sessions :
  let bundles := Cooc.bundles (cooccurrenceRecos E sessions) in
  (length bundles <= 15)%nat
  /\ Forall (fun b => exists n, 1 <= n /\ Bundle.support b = ofZ n) bundles
  /\ StronglySorted (fun x y => (Bundle.support y <= Bundle.support x)%Qc) bundles.
Proof.
  unfold cooccurrenceRecos.
  pose proof (coocSession_positive sessions [] [] (Forall_nil_2 _)) as Hpos.
  destruct (fold_left coocSession sessions ([], [])) as [pairs freq]. simpl in *.
  split; [|split].
  - rewrite length_map, length_take. lia.
  - apply Forall_fmap, Forall_forall. intros [key n] Hin. simpl.
    exists n. split; [|reflexivity].
    apply elem_of_take in Hin as (i & Hi & _).
    apply list_elem_of_lookup_2 in Hi. rewrite sortBy_perm in Hi.
    apply (proj1 (Forall_forall _ _) Hpos n). apply list_elem_of_fmap.
    exists (key, n). split; [done|exact Hi].
  - apply (StronglySorted_fmap bundleOf
             (fun x y : string * Z => (ofZ y.2 <= ofZ x.2)%Qc)); [done|].
    apply StronglySorted_take.
    apply (sortBy_desc (fun x : string * Z => ofZ x.2)); intros a b H.
    + rewrite isPos_ofZ in H. apply Z.ltb_lt in H. apply ofZ_mono. lia.
    + rewrite isPos_ofZ in H. apply Z.ltb_ge in H. apply ofZ_mono. lia.
Qed.

(** * The price tiers of the funnel *)

Section Markov.
Variable tier : string -> PriceTier.

Let tierOK (st : TierState.t) : Prop :=
  0 <= TierState.nViewThenCartSess st <= TierState.nViewSess st.

Let hasView (s : Session.t) : bool := (0 <? length (Session.views s))%nat.

Let hasBoth (s : Session.t) : bool :=
  hasView s && existsb (fun evt => flag (SessionEvent.add evt)) (Session.carts s).

Lemma tierModel_unit st : tierOK st -> unitModel (tierModel st).
Proof.
  intros Hst. unfold unitModel, tierModel. simpl. split.
  - destruct (0 <? TierState.nViewSess st) eqn:Hp; [|split; [apply Qcle_refl|by vm_compute]].
    apply Z.ltb_lt in Hp. unfold tierOK in Hst. apply Qcdiv_unit.
    + apply ofZ_nonneg. lia.
    + apply ofZ_mono. lia.
    + now apply ofZ_pos.
  - rewrite clampValue_clamp. apply clamp_range.
Qed.

Lemma cartFold_spec evts tiers overall :
  Forall tierOK (map snd tiers) ->
  let st' :=
    fold_left
      (fun (st : list (PriceTier * TierState.t) * TierState.t) evt =>
         let '(tiers, overall) := st in
         let t := tier (SessionEvent.itemId evt) in
         let state := default tierZero (mapGet t tiers) in
         let add := default 0 (SessionEvent.add evt) in
         let rem := default 0 (SessionEvent.remove evt) in
         (mapSet t
            (TierState.mk (TierState.nViewSess state)
               (TierState.nViewThenCartSess state)
               (TierState.adds state + add) (TierState.removes state + rem))
            tiers,
          TierState.mk (TierState.nViewSess overall)
            (TierState.nViewThenCartSess overall)
            (TierState.adds overall + add) (TierState.removes overall + rem)))
      evts (tiers, overall) in
  Forall tierOK (map snd st'.1)
  /\ TierState.nViewSess st'.2 = TierState.nViewSess overall
  /\ TierState.nViewThenCartSess st'.2 = TierState.nViewThenCartSess overall.
Proof.
  revert tiers overall. induction evts as [|evt evts IH]; intros tiers overall Hok; simpl.
  - done.
  - match goal with
    | |- context [fold_left _ evts (?t, ?o)] =>
        destruct (IH t o) as (H1 & H2 & H3)
    end.
    + apply mapSet_values; [|exact Hok].
      destruct (mapGet (tier (SessionEvent.itemId evt)) tiers) as [st|] eqn:Hst; simpl.
      * exact (mapGet_value _ _ _ _ Hok Hst).
      * unfold tierOK. simpl. lia.
    + cbv zeta in H1, H2, H3. split; [exact H1|]. rewrite H2, H3. done.
Qed.

Lemma viewedFold_spec (added viewed : list PriceTier) tiers :
  Forall tierOK (map snd tiers) ->
  Forall tierOK
    (map snd
       (fold_left
          (fun tiers t =>
             let state := default tierZero (mapGet t tiers) in
             mapSet t
               (TierState.mk (TierState.nViewSess state + 1)
                  (if decide (t ∈ added) then TierState.nViewThenCartSess state + 1
                   else TierState.nViewThenCartSess state)
                  (TierState.adds state) (TierState.removes state))
               tiers)
          viewed tiers)).
Proof.
  revert tiers. induction viewed as [|t viewed IH]; intros tiers Hok; simpl; [done|].
  apply IH. apply mapSet_values; [|exact Hok].
  assert (tierOK (default tierZero (mapGet t tiers))) as Hst.
  { destruct (mapGet t tiers) as [st|] eqn:Hst; simpl.
    - exact (mapGet_value _ _ _ _ Hok Hst).
    - unfold tierOK. simpl. lia. }
  unfold tierOK in *. simpl. destruct (decide (t ∈ added)); lia.
Qed.

Lemma markovSession_spec tiers overall s :
  Forall tierOK (map snd tiers) ->
  let st' := markovSession tier (tiers, overall) s in
  Forall tierOK (map snd st'.1)
  /\ TierState.nViewSess st'.2
     = TierState.nViewSess overall + (if hasView s then 1 else 0)
  /\ TierState.nViewThenCartSess st'.2
     = TierState.nViewThenCartSess overall + (if hasBoth s then 1 else 0).
Proof.
  intros Hok. unfold markovSession.
  match goal with
  | |- context [fold_left ?f (Session.carts s) (?t, ?o)] =>
      destruct (cartFold_spec (Session.carts s) t o) as (H1 & H2 & H3)
  end.
  { now apply viewedFold_spec. }
  cbv zeta in H1, H2, H3. cbv zeta. split; [exact H1|].
  rewrite H2, H3. unfold hasBoth, hasView.
  destruct (0 <? length (Session.views s))%nat; simpl; [|lia].
  destruct (existsb _ _); simpl; lia.
Qed.

Lemma markovFold_spec sessions tiers overall :
  Forall tierOK (map snd tiers) ->
  let st' := fold_left (markovSession tier) sessions (tiers, overall) in
  Forall tierOK (map snd st'.1)
  /\ TierState.nViewSess st'.2
     = TierState.nViewSess overall
       + Z.of_nat (length (List.filter hasView sessions))
  /\ TierState.nViewThenCartSess st'.2
     = TierState.nViewThenCartSess overall
       + Z.of_nat (length (List.filter hasBoth sessions)).
Proof.
  revert tiers overall. induction sessions as [|s sessions IH]; intros tiers overall Hok.
  - simpl. split; [done|]. lia.
  - cbv zeta.
    change (fold_left (markovSession tier) (s :: sessions) (tiers, overall))
      with (fold_left (markovSession tier) sessions
              (markovSession tier (tiers, overall) s)).
    destruct (markovSession_spec tiers overall s Hok) as (H1 & H2 & H3).
    cbv zeta in H1, H2, H3.
    destruct (markovSession tier (tiers, overall) s) as [tiers' overall'].
    simpl in H1, H2, H3.
    destruct (IH tiers' overall' H1) as (I1 & I2 & I3). cbv zeta in I1, I2, I3.
    split; [exact I1|]. rewrite I2, I3, H2, H3. simpl.
    destruct (hasView s); destruct (hasBoth s); simpl; lia.
Qed.
End Markov.

Lemma setTier_unit model t m :
  (unitModel (PriceMarkov.Low model) /\ unitModel (PriceMarkov.Mid model)
   /\ unitModel (PriceMarkov.High model) /\ unitModel (PriceMarkov.All model)) ->
  unitModel m ->
  let model' := setTier model t m in
  unitModel (PriceMarkov.Low model') /\ unitModel (PriceMarkov.Mid model')
  /\ unitModel (PriceMarkov.High model') /\ unitModel (PriceMarkov.All model').
Proof. intros (H1 & H2 & H3 & H4) Hm. destruct t; simpl; auto. Qed.

Lemma setTier_fold_unit (tiers : list (PriceTier * TierState.t)) model :
  Forall (fun st => 0 <= TierState.nViewThenCartSess st <= TierState.nViewSess st)
    (map snd tiers) ->
  (unitModel (PriceMarkov.Low model) /\ unitModel (PriceMarkov.Mid model)
   /\ unitModel (PriceMarkov.High model) /\ unitModel (PriceMarkov.All model)) ->
  let model' :=
    fold_left (fun model kv => setTier model kv.1 (tierModel kv.2)) tiers model in
  unitModel (PriceMarkov.Low model') /\ unitModel (PriceMarkov.Mid model')
  /\ unitModel (PriceMarkov.High model') /\ unitModel (PriceMarkov.All model').
Proof.
  revert model. induction tiers as [|[t st] tiers IH]; intros model Hok Hm; [exact Hm|].
  simpl. inversion Hok; subst. apply IH; [assumption|].
  apply setTier_unit; [exact Hm|]. now apply tierModel_unit.
Qed.

(** X6. Every probability of the price-tier model is in [0, 1], for each of
    Low, Mid, High and All; the view-to-cart probability of All is the share of
    the sessions with a view that also have a cart add (0 when no session has a
    view). *)
Theorem priceSegmentedMarkov_probabilities E sessions itemMeta :
  let m := MarkovSummary.model (priceSegmentedMarkov E sessions itemMeta) in
  let viewing s := (0 <? length (Session.views s))%nat in
  let adding s :=
    existsb (fun evt => flag (SessionEvent.add evt)) (Session.carts s) in
  let nView := Z.of_nat (length (List.filter viewing sessions)) in
  let nBoth :=
    Z.of_nat (length (List.filter (fun s => viewing s && adding s) sessions)) in
  unitModel (PriceMarkov.Low m) /\ unitModel (PriceMarkov.Mid m)
  /\ unitModel (PriceMarkov.High m) /\ unitModel (PriceMarkov.All m)
  /\ TierModel.pViewToCart (PriceMarkov.All m)
     = (if 0 <? nView then ofZ nBoth / ofZ nView else 0)%Qc.
Proof.
  cbv zeta. unfold priceSegmentedMarkov.
  set (tier := tierForItem itemMeta _ _).
  destruct (markovFold_spec tier sessions [] tierZero) as (H1 & H2 & H3);
    [apply Forall_nil_2|].
  cbv zeta in H1, H2, H3.
  destruct (fold_left (markovSession tier) sessions ([], tierZero)) as [tiers overall].
  simpl in H1, H2, H3. simpl MarkovSummary.model.
  assert (0 <= TierState.nViewThenCartSess overall <= TierState.nViewSess overall)
    as Hov.
  { rewrite H2, H3. split; [lia|].
    apply inj_le. apply filter_and_le. }
  set (zero := TierModel.mk 0%Qc 0%Qc).
  assert (unitModel zero) as Hz by (by vm_compute).
  pose proof (setTier_fold_unit tiers (PriceMarkov.mk zero zero zero zero) H1
                (conj Hz (conj Hz (conj Hz Hz)))) as Hm.
  cbv zeta in Hm.
  pose proof (setTier_unit _ All (tierModel overall) Hm (tierModel_unit overall Hov))
    as (U1 & U2 & U3 & U4).
  do 4 (split; [assumption|]).
  simpl. rewrite H2, H3. reflexivity.
Qed.

(** * Event streams and the transition matrix *)

Lemma toggleEvents_length itemMeta onAdd onRemove evt :
  length (toggleEvents itemMeta onAdd onRemove evt)
  = ((if flag (SessionEvent.add evt) then 1 else 0)
     + (if flag (SessionEvent.remove evt) then 1 else 0))%nat.
Proof.
  unfold toggleEvents.
  destruct (flag (SessionEvent.add evt)), (flag (SessionEvent.remove evt)); reflexivity.
Qed.

Lemma toggleEvents_flat_length itemMeta onAdd onRemove evts :
  length (flat_map (toggleEvents itemMeta onAdd onRemove) evts)
  = (length (List.filter (fun e => flag (SessionEvent.add e)) evts)
     + length (List.filter (fun e => flag (SessionEvent.remove e)) evts))%nat.
Proof.
  induction evts as [|evt evts IH]; [reflexivity|].
  simpl flat_map. rewrite length_app, toggleEvents_length, IH. simpl.
  destruct (flag (SessionEvent.add evt)), (flag (SessionEvent.remove evt)); simpl; lia.
Qed.

Lemma toggleEvents_price itemMeta onAdd onRemove evts :
  Forall (fun e => TransitionEvent.price e = priceOf itemMeta (TransitionEvent.itemId e))
    (flat_map (toggleEvents itemMeta onAdd onRemove) evts).
Proof.
  induction evts as [|evt evts IH]; [constructor|].
  simpl flat_map. apply Forall_app. split; [|exact IH].
  unfold toggleEvents.
  destruct (flag (SessionEvent.add evt)), (flag (SessionEvent.remove evt));
    repeat constructor.
Qed.

Lemma filter_length_perm {A} (p : A -> bool) l1 l2 :
  l1 ≡ₚ l2 -> length (List.filter p l1) = length (List.filter p l2).
Proof.
  induction 1 as [|x l1 l2 _ IH|x y l|l1 l2 l3 _ IH1 _ IH2]; simpl.
  - reflexivity.
  - destruct (p x); simpl; now rewrite IH.
  - destruct (p x), (p y); reflexivity.
  - congruence.
Qed.

Lemma filter_length_map {A B} (p : B -> bool) (f : A -> B) l :
  length (List.filter p (map f l)) = length (List.filter (fun x => p (f x)) l).
Proof.
  induction l as [|x l IH]; [reflexivity|]. simpl.
  destruct (p (f x)); simpl; now rewrite IH.
Qed.

Lemma filter_length_none {A} (l : list A) : length (List.filter (fun _ => false) l) = 0%nat.
Proof. induction l as [|x l IH]; [reflexivity|exact IH]. Qed.

Lemma viewEvents_count itemMeta type t item views :
  length
    (List.filter (isEvent type t item)
       (map (fun v =>
               TransitionEvent.mk (SessionEvent.ts v) view (SessionEvent.itemId v)
                 (priceOf itemMeta (SessionEvent.itemId v))) views))
  = if isType view type then entriesAt anyEvent t item views else 0%nat.
Proof.
  rewrite filter_length_map. unfold isEvent, entriesAt, anyEvent.
  cbn [TransitionEvent.type TransitionEvent.ts TransitionEvent.itemId].
  destruct (isType view type); [reflexivity|apply filter_length_none].
Qed.

Lemma toggleEvents_count itemMeta onAdd onRemove type t item evts :
  length
    (List.filter (isEvent type t item)
       (flat_map (toggleEvents itemMeta onAdd onRemove) evts))
  = ((if isType onAdd type then entriesAt hasAdd t item evts else 0)
     + (if isType onRemove type then entriesAt hasRemove t item evts else 0))%nat.
Proof.
  induction evts as [|evt evts IH].
  { simpl. destruct (isType onAdd type), (isType onRemove type); reflexivity. }
  simpl flat_map. rewrite List.filter_app, length_app, IH.
  unfold entriesAt, hasAdd, hasRemove, toggleEvents, isEvent. simpl List.filter.
  destruct (flag (SessionEvent.add evt)), (flag (SessionEvent.remove evt));
    cbn [app List.filter TransitionEvent.type TransitionEvent.ts TransitionEvent.itemId];
    destruct (isType onAdd type), (isType onRemove type),
      (SessionEvent.ts evt =? t), (String.eqb (SessionEvent.itemId evt) item);
    simpl; lia.
Qed.

#[local] Instance earlier_trans : Transitive earlier.
Proof.
  intros x y z [H1|[H1 K1]] [H2|[H2 K2]]; unfold earlier.
  - left. lia.
  - left. lia.
  - left. lia.
  - right. split; lia.
Qed.

Lemma StronglySorted_impl {A} (R S : relation A) l :
  (forall x y, R x y -> S x y) -> StronglySorted R l -> StronglySorted S l.
Proof.
  intros HRS. induction 1 as [|x l Hs IH Hx]; constructor; [exact IH|].
  eapply Forall_impl; [exact Hx|]. intros y. apply HRS.
Qed.

Lemma StronglySorted_app_of {A} (R : relation A) l1 l2 :
  StronglySorted R l1 -> StronglySorted R l2 ->
  (forall x y, x ∈ l1 -> y ∈ l2 -> R x y) -> StronglySorted R (l1 ++ l2).
Proof.
  intros H1 H2 H. induction H1 as [|x l1 Hs IH Hx]; simpl; [exact H2|].
  constructor.
  - apply IH. intros a b Ha Hb. apply H; [now right|exact Hb].
  - apply Forall_app. split; [exact Hx|].
    apply Forall_forall. intros y Hy. apply H; [now left|exact Hy].
Qed.

Lemma StronglySorted_same {A} (R : relation A) (P : A -> Prop) l :
  (forall x y, P x -> P y -> R x y) -> Forall P l -> StronglySorted R l.
Proof.
  intros H. induction 1 as [|x l Hx Hl IH]; constructor; [exact IH|].
  eapply Forall_impl; [exact Hl|]. intros y Hy. now apply H.
Qed.

Lemma toggleEvents_kind itemMeta onAdd onRemove k evts :
  kindOf onAdd = k -> kindOf onRemove = k ->
  Forall (fun e => kindOf (TransitionEvent.type e) = k)
    (flat_map (toggleEvents itemMeta onAdd onRemove) evts).
Proof.
  intros Ha Hr. induction evts as [|evt evts IH]; [constructor|].
  simpl flat_map. apply Forall_app. split; [|exact IH].
  unfold toggleEvents.
  destruct (flag (SessionEvent.add evt)), (flag (SessionEvent.remove evt));
    repeat constructor; assumption.
Qed.

(** X7. The event stream of a session is in time order, earliest first, and
    of the events of one time the views come before the cart events, and
    those before the wishlist events.  It holds one event per view, one per
    cart or wishlist entry with a non-zero add count and one per entry with
    a non-zero remove count: for every type, time and item, as many events
    of that type, time and item as the session has views (for the type
    "view"), or cart or wishlist entries with a non-zero add or remove count
    (for the other four types), of that time and item.  Every event
    carries the price that the item metadata gives its item. *)
Theorem eventStream_ordered session itemMeta :
  let stream := buildEventStreamForSession session itemMeta in
  let toggles evts :=
    (length (List.filter (fun e => flag (SessionEvent.add e)) evts)
     + length (List.filter (fun e => flag (SessionEvent.remove e)) evts))%nat in
  StronglySorted (fun a b => TransitionEvent.ts a <= TransitionEvent.ts b) stream
  /\ StronglySorted earlier stream
  /\ length stream
     = (length (Session.views session) + toggles (Session.carts session)
        + toggles (Session.wish session))%nat
  /\ Forall (fun e => TransitionEvent.price e
                      = priceOf itemMeta (TransitionEvent.itemId e)) stream
  /\ forall type t item,
       length (List.filter (isEvent type t item) stream)
       = sourceEntries session type t item.
Proof.
  cbv zeta. unfold buildEventStreamForSession.
  assert (StronglySorted earlier
            (sortBy (fun a b => ofZ (TransitionEvent.ts a - TransitionEvent.ts b))
               (map (fun v =>
                       TransitionEvent.mk (SessionEvent.ts v) view (SessionEvent.itemId v)
                         (priceOf itemMeta (SessionEvent.itemId v)))
                  (Session.views session)
                ++ flat_map (toggleEvents itemMeta cart_add cart_remove)
                     (Session.carts session)
                ++ flat_map (toggleEvents itemMeta wishlist_add wishlist_remove)
                     (Session.wish session)))) as Hearlier.
  { apply (sortBy_StronglySorted _ _).
    apply (StronglySorted_impl
             (fun a b => kindOf (TransitionEvent.type a) <= kindOf (TransitionEvent.type b))).
    { intros x y Hk. rewrite isPos_ofZ. unfold earlier.
      destruct (0 <? TransitionEvent.ts x - TransitionEvent.ts y) eqn:Hc.
      - apply Z.ltb_lt in Hc. left. lia.
      - apply Z.ltb_ge in Hc. lia. }
    pose proof (toggleEvents_kind itemMeta cart_add cart_remove 1
                  (Session.carts session) eq_refl eq_refl) as HC.
    pose proof (toggleEvents_kind itemMeta wishlist_add wishlist_remove 2
                  (Session.wish session) eq_refl eq_refl) as HW.
    assert (Forall (fun e => kindOf (TransitionEvent.type e) = 0)
              (map (fun v =>
                      TransitionEvent.mk (SessionEvent.ts v) view (SessionEvent.itemId v)
                        (priceOf itemMeta (SessionEvent.itemId v)))
                 (Session.views session))) as HV.
    { apply Forall_fmap, Forall_true. intros v. reflexivity. }
    rewrite Forall_forall in HV, HC, HW.
    apply StronglySorted_app_of; [| |].
    - apply (StronglySorted_same _ (fun e => kindOf (TransitionEvent.type e) = 0));
        [intros x y Hx Hy; lia|now apply Forall_forall].
    - apply StronglySorted_app_of.
      + apply (StronglySorted_same _ (fun e => kindOf (TransitionEvent.type e) = 1));
          [intros x y Hx Hy; lia|now apply Forall_forall].
      + apply (StronglySorted_same _ (fun e => kindOf (TransitionEvent.type e) = 2));
          [intros x y Hx Hy; lia|now apply Forall_forall].
      + intros x y Hx Hy. rewrite (HC x Hx), (HW y Hy). lia.
    - intros x y Hx Hy. rewrite (HV x Hx).
      apply elem_of_app in Hy as [Hy|Hy]; [rewrite (HC y Hy)|rewrite (HW y Hy)]; lia. }
  split; [|split; [exact Hearlier|split; [|split]]].
  - eapply StronglySorted_impl; [|exact Hearlier]. intros x y [H|[H _]]; lia.
  - rewrite sortBy_length, !length_app, length_map, !toggleEvents_flat_length. lia.
  - rewrite sortBy_perm.
    apply Forall_app. split; [|apply Forall_app; split; apply toggleEvents_price].
    apply Forall_forall. intros e He. apply list_elem_of_fmap in He as (v & -> & _).
    reflexivity.
  - intros type t item.
    rewrite (filter_length_perm _ _ _ (sortBy_perm _ _)).
    rewrite !List.filter_app, !length_app, viewEvents_count, !toggleEvents_count.
    destruct type; unfold isType, sourceEntries;
      repeat case_bool_decide; try congruence; lia.
Qed.

Lemma table_ext (f g : nat -> nat -> Z) (rows cols : list nat) :
  (forall i j, f i j = g i j) ->
  map (fun i => map (fun j => f i j) cols) rows
  = map (fun i => map (fun j => g i j) cols) rows.
Proof.
  intros H. apply map_ext. intros i. apply map_ext. intros j. apply H.
Qed.

Lemma countTransition_table (f : nat -> nat -> Z) ft :
  countTransition (map (fun i => map (fun j => f i j) (seq 0 5)) (seq 0 5)) ft
  = map (fun i =>
           map (fun j =>
                  f i j + transitionCount i j [ft])
             (seq 0 5)) (seq 0 5).
Proof.
  unfold countTransition, transitionCount.
  destruct ft as [[? ta ? ?] [? tb ? ?]].
  destruct ta, tb; cbn; rewrite ?Z.add_0_r; unfold Z.succ; reflexivity.
Qed.

Lemma transitionCount_cons i j ft trs :
  transitionCount i j (ft :: trs) = transitionCount i j [ft] + transitionCount i j trs.
Proof.
  unfold transitionCount. simpl.
  destruct ((index (TransitionEvent.type ft.1) =? i)%nat
            && (index (TransitionEvent.type ft.2) =? j)%nat); simpl length; lia.
Qed.

Lemma countTransition_fold trs (f : nat -> nat -> Z) :
  fold_left countTransition trs
    (map (fun i => map (fun j => f i j) (seq 0 5)) (seq 0 5))
  = map (fun i => map (fun j => f i j + transitionCount i j trs) (seq 0 5)) (seq 0 5).
Proof.
  revert f. induction trs as [|ft trs IH]; intros f.
  - cbn [fold_left]. apply table_ext. intros i j. unfold transitionCount. simpl. lia.
  - cbn [fold_left]. rewrite countTransition_table, IH. apply table_ext.
    intros i j. rewrite (transitionCount_cons i j ft trs). lia.
Qed.

Lemma transitionCount_total trs :
  sumZ
    (map sumZ
       (map (fun i => map (fun j => transitionCount i j trs) (seq 0 5)) (seq 0 5)))
  = Z.of_nat (length trs).
Proof.
  induction trs as [|ft trs IH]; [reflexivity|].
  cbn [seq map] in IH |- *. unfold sumZ in IH |- *. cbn [fold_left] in IH |- *.
  rewrite !(transitionCount_cons _ _ ft trs).
  assert (forall i j, transitionCount i j [ft]
                      = if (index (TransitionEvent.type ft.1) =? i)%nat
                           && (index (TransitionEvent.type ft.2) =? j)%nat
                        then 1 else 0) as Hone.
  { intros i j. unfold transitionCount. simpl. now destruct (_ && _). }
  rewrite !Hone. simpl length.
  destruct ft as [[? ta ? ?] [? tb ? ?]].
  destruct ta, tb; cbn [index fst snd TransitionEvent.type Nat.eqb andb]; lia.
Qed.

Lemma table_lookup (f : nat -> nat -> Z) n i j v :
  (exists row,
      map (fun i => map (fun j => f i j) (seq 0 n)) (seq 0 n) !! i = Some row
      /\ row !! j = Some v)
  <-> (i < n)%nat /\ (j < n)%nat /\ v = f i j.
Proof.
  split.
  - intros (row & Hrow & Hv).
    change (((fun i => map (fun j => f i j) (seq 0 n)) <$> seq 0 n) !! i = Some row)
      in Hrow.
    rewrite list_lookup_fmap in Hrow.
    destruct (seq 0 n !! i) as [i'|] eqn:Hi; simpl in Hrow; [|done].
    apply lookup_seq in Hi as [-> Hi]. injection Hrow as <-.
    change (((fun j => f (0 + i)%nat j) <$> seq 0 n) !! j = Some v) in Hv.
    rewrite list_lookup_fmap in Hv.
    destruct (seq 0 n !! j) as [j'|] eqn:Hj; simpl in Hv; [|done].
    apply lookup_seq in Hj as [-> Hj]. injection Hv as <-. done.
  - intros (Hi & Hj & ->). exists (map (fun j => f i j) (seq 0 n)). split.
    + change (((fun i => map (fun j => f i j) (seq 0 n)) <$> seq 0 n) !! i
              = Some (map (fun j => f i j) (seq 0 n))).
      rewrite list_lookup_fmap, (lookup_seq_lt 0 n i Hi). reflexivity.
    + change (((fun j => f i j) <$> seq 0 n) !! j = Some (f i j)).
      rewrite list_lookup_fmap, (lookup_seq_lt 0 n j Hj). reflexivity.
Qed.

Lemma transitionCounts_table sessions itemMeta :
  let info := transitionMatrixAndSankey sessions itemMeta in
  TransitionInfo.counts info
  = map (fun i =>
           map (fun j => transitionCount i j (TransitionInfo.allTransitions info))
             (seq 0 5))
      (seq 0 5).
Proof.
  cbv zeta. unfold transitionMatrixAndSankey.
  cbn [TransitionInfo.counts TransitionInfo.allTransitions].
  change (zeroMatrix 0 (length states))
    with (map (fun i : nat => map (fun j : nat => (fun _ _ => 0) i j) (seq 0 5))
            (seq 0 5)).
  rewrite countTransition_fold. apply table_ext. intros i j. lia.
Qed.

Lemma omap_seq_shift {B} (f : nat -> option B) s n :
  omap f (seq (S s) n) = omap (fun k => f (S k)) (seq s n).
Proof.
  revert s. induction n as [|n IH]; intros s; [reflexivity|].
  cbn [seq omap list_omap]. rewrite <- IH. reflexivity.
Qed.

(** The pairs that the loop over the positions of a stream visits. *)
Lemma adjacent_consecutive {A} (events : list A) : adjacent events = consecutive events.
Proof.
  induction events as [|a events IH]; [reflexivity|].
  destruct events as [|b events]; [reflexivity|].
  change (adjacent (a :: b :: events)) with ((a, b) :: adjacent (b :: events)).
  rewrite IH. unfold consecutive.
  replace (length (a :: b :: events) - 1)%nat with (S (length events)) by (simpl; lia).
  replace (length (b :: events) - 1)%nat with (length events) by (simpl; lia).
  cbn [seq omap list_omap]. cbn [lookup list_lookup].
  rewrite (omap_seq_shift _ 0 (length events)). reflexivity.
Qed.

(** X8. The transitions of the engine are, session by session, the pairs of
    an event of the stream of the session and the event at the next
    position.  The count matrix is the five-by-five table whose cell (i, j)
    is the number of those transitions from an event of state i to an event
    of state j; its cells add up to the number of transitions; and the flow
    links are exactly its positive cells, the diagonal included. *)
Theorem transitionMatrix_counts sessions itemMeta :
  let info := transitionMatrixAndSankey sessions itemMeta in
  let transitions := TransitionInfo.allTransitions info in
  transitions
  = flat_map
      (fun session => consecutive (buildEventStreamForSession session itemMeta))
      sessions
  /\ TransitionInfo.counts info
     = map (fun i => map (fun j => transitionCount i j transitions) (seq 0 5)) (seq 0 5)
  /\ sumZ (map sumZ (TransitionInfo.counts info)) = Z.of_nat (length transitions)
  /\ (forall i j v,
        Link.mk i j v ∈ Sankey.links (TransitionInfo.sankey info)
        <-> (i < 5)%nat /\ (j < 5)%nat
            /\ v = transitionCount i j transitions /\ 0 < v).
Proof.
  cbv zeta. pose proof (transitionCounts_table sessions itemMeta) as Hcounts.
  cbv zeta in Hcounts. split.
  { unfold transitionMatrixAndSankey. cbn [TransitionInfo.allTransitions].
    apply flat_map_ext. intros s. apply adjacent_consecutive. }
  split; [exact Hcounts|].
  split; [rewrite Hcounts; apply transitionCount_total|].
  intros i j v.
  assert (Sankey.links (TransitionInfo.sankey (transitionMatrixAndSankey sessions itemMeta))
          = List.filter (fun l => 0 <? Link.value l)
              (cells (TransitionInfo.counts
                        (transitionMatrixAndSankey sessions itemMeta)))) as ->
    by reflexivity.
  rewrite Hcounts.
  rewrite list_elem_of_In, filter_In, <- list_elem_of_In.
  rewrite elem_of_cells, table_lookup. simpl Link.value.
  rewrite Z.ltb_lt. tauto.
Qed.

(** * Price bands and price samples *)

Lemma samples_partition tLow tHigh from trs :
  samples tLow tHigh Low from false trs + samples tLow tHigh Mid from false trs
  + samples tLow tHigh High from false trs
  = Z.of_nat
      (length (List.filter (fun tr => isType (TransitionEvent.type tr.1) from) trs)).
Proof.
  induction trs as [|tr trs IH]; [reflexivity|].
  rewrite !samples_cons. simpl List.filter. unfold sampleOf at 1 2 3.
  unfold bandForPrice.
  destruct (leb (TransitionEvent.price tr.1) tLow);
    [|destruct (leb (TransitionEvent.price tr.1) tHigh)];
    destruct (isType (TransitionEvent.type tr.1) from); simpl length;
    repeat case_bool_decide; try congruence; cbn [andb negb orb]; lia.
Qed.

Lemma samples_hits tLow tHigh band from trs :
  0 <= samples tLow tHigh band from true trs <= samples tLow tHigh band from false trs.
Proof.
  induction trs as [|tr trs IH]; [by vm_compute|].
  rewrite !samples_cons. unfold sampleOf.
  destruct (bool_decide _), (isType (TransitionEvent.type tr.1) from),
    (isType (TransitionEvent.type tr.2) cart_add); cbn [andb negb orb]; lia.
Qed.

Lemma smoothed_unit hits total :
  0 <= hits <= total -> (0 <= smoothed hits total)%Qc /\ (smoothed hits total <= 1)%Qc.
Proof.
  intros H. unfold smoothed. destruct (total =? 0).
  - split; [apply Qcle_refl|by vm_compute].
  - apply Qcdiv_unit.
    + apply ofZ_nonneg. lia.
    + apply ofZ_mono. lia.
    + apply ofZ_pos. lia.
Qed.

(** X9. The price bands are either the single band All with no samples and
    zero rates, or the three bands Low, Mid and High in this order, one
    starting where the one before ends.  In the second case every transition
    that leaves a view is a sample of exactly one band, so is every transition
    that leaves a wishlist add, and both rates of every band are in [0, 1]. *)
Theorem priceBands_partition E itemMeta transitions :
  let bands := PriceBands.bands (priceBandsFromQuantiles E itemMeta transitions) in
  let leaving type :=
    Z.of_nat
      (length (List.filter (fun tr => isType (TransitionEvent.type tr.1) type)
                 transitions)) in
  (exists lo hi, bands = [Band.mk All lo hi 0%Qc 0%Qc 0 0])
  \/ (exists low mid high,
        bands = [low; mid; high]
        /\ Band.name low = Low /\ Band.name mid = Mid /\ Band.name high = High
        /\ Band.max low = Band.min mid /\ Band.max mid = Band.min high
        /\ (Band.min mid < Band.max mid)%Qc
        /\ Band.nView low + Band.nView mid + Band.nView high = leaving view
        /\ Band.nWish low + Band.nWish mid + Band.nWish high = leaving wishlist_add
        /\ Forall (fun b =>
                     ((0 <= Band.viewToCart b)%Qc /\ (Band.viewToCart b <= 1)%Qc)
                     /\ (0 <= Band.wishToCart b)%Qc /\ (Band.wishToCart b <= 1)%Qc)
             bands).
Proof.
  cbv zeta. unfold priceBandsFromQuantiles.
  destruct (pricesOf itemMeta) as [|p prices] eqn:Hp; [left; eauto|].
  destruct (Splits.tLow _) as [tLow|]; [|left; eauto].
  destruct (Splits.tHigh _) as [tHigh|]; [|left; eauto].
  destruct (ltb tLow tHigh) eqn:Hlt; [|left; eauto].
  right. apply ltb_true in Hlt. cbn [PriceBands.bands map].
  do 3 eexists. split; [reflexivity|].
  unfold fillBand. cbn [Band.name Band.min Band.max Band.nView Band.nWish
                          Band.viewToCart Band.wishToCart].
  do 5 (split; [reflexivity|]). split; [exact Hlt|].
  pose proof (tallies_samples tLow tHigh transitions Low) as (L1 & L2 & L3 & L4).
  pose proof (tallies_samples tLow tHigh transitions Mid) as (M1 & M2 & M3 & M4).
  pose proof (tallies_samples tLow tHigh transitions High) as (H1 & H2 & H3 & H4).
  split; [rewrite L1, M1, H1; apply samples_partition|].
  split; [rewrite L3, M3, H3; apply samples_partition|].
  repeat apply Forall_cons_2; try apply Forall_nil_2;
    cbn [Band.viewToCart Band.wishToCart]; rewrite ?Z.mul_1_r;
    rewrite ?L1, ?L2, ?L3, ?L4, ?M1, ?M2, ?M3, ?M4, ?H1, ?H2, ?H3, ?H4;
    (split; [apply (smoothed_unit _ _ (samples_hits _ _ _ _ _))
            |apply (smoothed_unit _ _ (samples_hits _ _ _ _ _))]).
Qed.

Lemma filter_length_cons {A} (p : A -> bool) x l :
  Z.of_nat (length (List.filter p (x :: l)))
  = (if p x then 1 else 0) + Z.of_nat (length (List.filter p l)).
Proof. simpl. destruct (p x); simpl length; lia. Qed.

Lemma filter_filter_and {A} (p q : A -> bool) l :
  List.filter q (List.filter p l) = List.filter (fun x => p x && q x) l.
Proof.
  induction l as [|x l IH]; [reflexivity|]. simpl.
  destruct (p x); simpl; [destruct (q x)|]; now rewrite IH.
Qed.

(** X10. The price samples follow the transitions and the cart entries: there
    is one view sample per transition that leaves a view, one view-to-cart
    sample per transition from a view to a cart add, one cart-add sample per
    cart entry with a non-zero add count and one cart-remove sample per cart
    entry with a non-zero remove count.  So the view samples are as many as
    the sum of row view of the count matrix, and the view-to-cart samples as
    many as its cell (view, cart_add). *)
Theorem priceRangeData_sizes sessions itemMeta :
  let info := transitionMatrixAndSankey sessions itemMeta in
  let data :=
    buildPriceRangeData sessions itemMeta (TransitionInfo.allTransitions info) in
  let carts := flat_map Session.carts sessions in
  Some (Z.of_nat (length (PriceRangeData.viewFromPrices data)))
  = sumZ <$> TransitionInfo.counts info !! index view
  /\ Some (Z.of_nat (length (PriceRangeData.viewToCartFromPrices data)))
     = TransitionInfo.counts info !! index view ≫= (.!! index cart_add)
  /\ length (PriceRangeData.cartAddPrices data)
     = length (List.filter (fun cart => flag (SessionEvent.add cart)) carts)
  /\ length (PriceRangeData.cartRemovePrices data)
     = length (List.filter (fun cart => flag (SessionEvent.remove cart)) carts)
  /\ (length (PriceRangeData.viewToCartFromPrices data)
      <= length (PriceRangeData.viewFromPrices data))%nat.
Proof.
  cbv zeta.
  pose proof (transitionCounts_table sessions itemMeta) as Hc.
  cbv zeta in Hc. rewrite Hc. clear Hc.
  set (trs := TransitionInfo.allTransitions _).
  unfold buildPriceRangeData.
  cbn [PriceRangeData.viewFromPrices PriceRangeData.viewToCartFromPrices PriceRangeData.cartAddPrices
         PriceRangeData.cartRemovePrices].
  rewrite !length_map.
  split; [|split; [|split; [reflexivity|split; [reflexivity|apply filter_length_le]]]].
  - cbn [index seq map lookup list_lookup fmap option_fmap option_map].
    unfold sumZ. cbn [fold_left]. f_equal. unfold transitionCount.
    induction trs as [|[[? ta ? ?] [? tb ? ?]] trs IH]; [reflexivity|].
    rewrite !filter_length_cons.
    destruct ta, tb; cbn [index Nat.eqb andb fst snd TransitionEvent.type];
      unfold isType in *; repeat case_bool_decide; try congruence; lia.
  - cbn [index seq map lookup list_lookup mbind option_bind]. f_equal.
    unfold transitionCount. rewrite filter_filter_and.
    induction trs as [|[[? ta ? ?] [? tb ? ?]] trs IH]; [reflexivity|].
    rewrite !filter_length_cons.
    destruct ta, tb; cbn [index Nat.eqb andb fst snd TransitionEvent.type];
      unfold isType in *; repeat case_bool_decide; try congruence;
      cbn [andb]; lia.
Qed.

(** * Countries *)

Lemma elem_of_mapGet {K V} `{EqDecision K} (m : list (K * V)) k v :
  NoDup (map fst m) -> (k, v) ∈ m -> mapGet k m = Some v.
Proof.
  induction m as [|[k' v'] m IH]; intros Hnd Hin; [by apply elem_of_nil in Hin|].
  simpl in Hnd. apply NoDup_cons in Hnd as [Hk Hnd]. simpl.
  apply elem_of_cons in Hin as [[= -> ->]|Hin].
  - now rewrite decide_True.
  - rewrite decide_False; [now apply IH|].
    intros ->. apply Hk. apply list_elem_of_fmap. now exists (k', v).
Qed.

Lemma NoDup_take_of {A} n (l : list A) : NoDup l -> NoDup (take n l).
Proof.
  intros H. rewrite <- (take_drop n l) in H. now apply NoDup_app in H as [H _].
Qed.

Section Geo.
Lemma geoKey_named s : countryKey s <> EmptyString.
Proof.
  unfold countryKey. destruct (String.eqb (Session.country s) EmptyString) eqn:He; [done|].
  now apply String.eqb_neq in He.
Qed.

Lemma geoFold sessions (m : list (string * (Z * Z))) (v0 c0 : string -> Z) :
  NoDup (map fst m) ->
  Forall (fun k => k <> EmptyString) (map fst m) ->
  Forall (fun v : Z * Z => 0 < v.1) (map snd m) ->
  (forall k, default (0, 0) (mapGet k m) = (v0 k, c0 k)) ->
  let m' := fold_left geoSession sessions m in
  NoDup (map fst m')
  /\ Forall (fun k => k <> EmptyString) (map fst m')
  /\ Forall (fun v : Z * Z => 0 < v.1) (map snd m')
  /\ (forall k, default (0, 0) (mapGet k m')
                = (v0 k + countryVisits k sessions, c0 k + countryConverted k sessions)).
Proof.
  revert m v0 c0. induction sessions as [|s sessions IH]; intros m v0 c0 Hnd Hne Hpos Hget.
  - cbn [fold_left]. do 3 (split; [assumption|]). intros k. rewrite Hget.
    unfold countryVisits, countryConverted. simpl. f_equal; lia.
  - cbn [fold_left]. cbv zeta.
    destruct (IH (geoSession m s)
                (fun k => v0 k + (if String.eqb (countryKey s) k then 1 else 0))
                (fun k => c0 k + (if String.eqb (countryKey s) k && (0 <? Session.nCartAdd s)
                                  then 1 else 0)))
      as (I1 & I2 & I3 & I4).
    + now apply mapSet_NoDup.
    + unfold geoSession. rewrite mapSet_keys. fold (countryKey s).
      destruct (decide (countryKey s ∈ map fst m)); [assumption|].
      apply Forall_app. split; [assumption|].
      apply Forall_cons_2; [apply geoKey_named|apply Forall_nil_2].
    + unfold geoSession. apply mapSet_values; [|assumption]. fold (countryKey s). simpl.
      destruct (mapGet (countryKey s) m) as [v|] eqn:Hv; simpl; [|lia].
      pose proof (mapGet_value _ _ _ _ Hpos Hv) as Hp. simpl in Hp. lia.
    + intros k. unfold geoSession. fold (countryKey s). rewrite mapGet_mapSet.
      destruct (decide (k = countryKey s)) as [->|Hk].
      * rewrite String.eqb_refl. simpl. rewrite (Hget (countryKey s)). simpl.
        destruct (0 <? Session.nCartAdd s); f_equal; lia.
      * assert (String.eqb (countryKey s) k = false) as ->
          by (apply String.eqb_neq; congruence).
        simpl. rewrite Hget. f_equal; lia.
    + do 3 (split; [assumption|]). intros k. rewrite I4.
      unfold countryVisits, countryConverted. rewrite !filter_length_cons. f_equal; lia.
Qed.

(** X11. The country table has at most twenty rows, one per country, none
    with an empty name, ordered by conversion rate with the largest first.  A
    session without a country counts for "Unknown".  The rate of a row is the
    share of the sessions of its country that have a cart add, so it lies in
    [0, 1]. *)
Theorem geoBehavioralInsights_rows sessions :
  let rows := geoBehavioralInsights sessions in
  (length rows <= 20)%nat
  /\ NoDup (map GeoRow.country rows)
  /\ Forall (fun r =>
               let c := GeoRow.country r in
               c <> EmptyString /\ 0 < countryVisits c sessions
               /\ GeoRow.conversionRate r
                  = (ofZ (countryConverted c sessions) / ofZ (countryVisits c sessions))%Qc
               /\ (0 <= GeoRow.conversionRate r)%Qc
               /\ (GeoRow.conversionRate r <= 1)%Qc) rows
  /\ StronglySorted
       (fun x y => (GeoRow.conversionRate y <= GeoRow.conversionRate x)%Qc) rows.
Proof.
  cbv zeta. unfold geoBehavioralInsights.
  destruct (geoFold sessions [] (fun _ => 0) (fun _ => 0)) as (Hnd & Hne & Hpos & Hget);
    [apply NoDup_nil_2|apply Forall_nil_2|apply Forall_nil_2|done|].
  cbv zeta in Hnd, Hne, Hpos, Hget.
  set (m := fold_left geoSession sessions []) in *.
  set (mkRow := fun kv : string * (Z * Z) => GeoRow.mk kv.1 _).
  set (cmp := fun a b : GeoRow.t => _).
  split; [rewrite length_take; lia|]. split; [|split].
  - change (map GeoRow.country (take 20 (sortBy cmp (map mkRow m))))
      with (GeoRow.country <$> take 20 (sortBy cmp (map mkRow m))).
    rewrite fmap_take. apply NoDup_take_of.
    rewrite (fmap_Permutation GeoRow.country _ _ (sortBy_perm cmp (map mkRow m))).
    change (NoDup (map GeoRow.country (map mkRow m))). rewrite map_map.
    exact Hnd.
  - apply Forall_take. rewrite sortBy_perm. apply Forall_forall. intros r Hr.
    apply list_elem_of_fmap in Hr as ([k [n c]] & -> & Hkv).
    pose proof (Hget k) as Hk. rewrite (elem_of_mapGet m k (n, c) Hnd Hkv) in Hk.
    simpl in Hk. injection Hk as -> ->. subst mkRow. cbn [GeoRow.country
      GeoRow.conversionRate fst snd].
    assert (0 < countryVisits k sessions) as Hv.
    { rewrite Forall_forall in Hpos.
      assert ((0 + countryVisits k sessions, 0 + countryConverted k sessions) ∈ map snd m) as Hin
        by (apply list_elem_of_fmap; now exists (k, (0 + countryVisits k sessions,
                                                     0 + countryConverted k sessions))).
      specialize (Hpos _ Hin). simpl in Hpos. lia. }
    split.
    { rewrite Forall_forall in Hne. apply Hne. apply list_elem_of_fmap.
      now exists (k, (0 + countryVisits k sessions, 0 + countryConverted k sessions)). }
    split; [exact Hv|].
    rewrite !Z.add_0_l.
    assert ((countryVisits k sessions =? 0) = false) as -> by (apply Z.eqb_neq; lia).
    split; [reflexivity|].
    apply Qcdiv_unit.
    + apply ofZ_nonneg. unfold countryConverted. lia.
    + apply ofZ_mono. unfold countryConverted, countryVisits. apply inj_le. apply filter_and_le.
    + now apply ofZ_pos.
  - apply StronglySorted_take.
    apply (sortBy_desc GeoRow.conversionRate cmp); intros a b Hc; subst cmp.
    + apply isPos_sub in Hc. now apply Qclt_le_weak.
    + now apply isPos_sub_false in Hc.
Qed.
End Geo.

(** * Categories *)

Section Categories.
Variable itemMeta : ItemMeta.

Let inv (m : list (string * CategoryRow.t)) (v c w : string -> Z) : Prop :=
  NoDup (map fst m)
  /\ Forall (fun r => 1 <= CategoryRow.total r) (map snd m)
  /\ forall k, default (CategoryRow.mk k 0 0 0 0) (mapGet k m)
               = CategoryRow.mk k (v k) (c k) (w k) (v k + c k + w k).

Let only (key key' : CategoryKey) (n : Z) : Z :=
  match key, key' with
  | kViews, kViews | kCarts, kCarts | kWish, kWish => n
  | _, _ => 0
  end.

Lemma inv_ext m v c w v' c' w' :
  inv m v c w -> (forall k, v k = v' k) -> (forall k, c k = c' k) ->
  (forall k, w k = w' k) -> inv m v' c' w'.
Proof.
  intros (H1 & H2 & H3) Hv Hc Hw. split; [exact H1|]. split; [exact H2|].
  intros k. now rewrite H3, Hv, Hc, Hw.
Qed.

Lemma tally_nonneg p c evts : 0 <= eventTally (itemCategory itemMeta) p c evts.
Proof. unfold eventTally. lia. Qed.

Lemma bumpCategory_inv k0 key m v c w :
  (forall k, 0 <= v k) -> (forall k, 0 <= c k) -> (forall k, 0 <= w k) ->
  inv m v c w ->
  inv (bumpCategory k0 key m)
    (fun k => v k + only key kViews (if String.eqb k0 k then 1 else 0))
    (fun k => c k + only key kCarts (if String.eqb k0 k then 1 else 0))
    (fun k => w k + only key kWish (if String.eqb k0 k then 1 else 0)).
Proof.
  intros Hv Hc Hw (H1 & H2 & H3). unfold bumpCategory. split; [|split].
  - now apply mapSet_NoDup.
  - apply mapSet_values; [|exact H2]. rewrite (H3 k0).
    pose proof (Hv k0). pose proof (Hc k0). pose proof (Hw k0).
    destruct key; simpl; lia.
  - intros k. rewrite mapGet_mapSet. destruct (decide (k = k0)) as [->|Hk].
    + rewrite String.eqb_refl, (H3 k0). destruct key; simpl; f_equal; lia.
    + assert (String.eqb k0 k = false) as -> by (apply String.eqb_neq; congruence).
      rewrite (H3 k). destruct key; simpl; f_equal; lia.
Qed.

Lemma bumpFold_inv key (p : SessionEvent.t -> bool) evts m v c w :
  (forall k, 0 <= v k) -> (forall k, 0 <= c k) -> (forall k, 0 <= w k) ->
  inv m v c w ->
  inv (fold_left (fun m evt => if p evt then bumpCategory (itemCategory itemMeta evt) key m else m) evts m)
    (fun k => v k + only key kViews (eventTally (itemCategory itemMeta) p k evts))
    (fun k => c k + only key kCarts (eventTally (itemCategory itemMeta) p k evts))
    (fun k => w k + only key kWish (eventTally (itemCategory itemMeta) p k evts)).
Proof.
  revert m v c w. induction evts as [|e evts IH]; intros m v c w Hv Hc Hw Hinv.
  - cbn [fold_left]. apply (inv_ext m v c w); [exact Hinv|..]; intros k;
      unfold only, eventTally; destruct key; simpl; lia.
  - cbn [fold_left].
    assert (forall k, eventTally (itemCategory itemMeta) p k (e :: evts)
                        = (if p e && String.eqb (itemCategory itemMeta e) k then 1 else 0) + eventTally (itemCategory itemMeta) p k evts)
      as Hcons.
    { intros k. unfold eventTally.
      exact (filter_length_cons (fun e => p e && String.eqb (itemCategory itemMeta e) k) e evts). }
    destruct (p e) eqn:Hp.
    + eapply inv_ext.
      * apply IH; [..|apply (bumpCategory_inv (itemCategory itemMeta e) key m v c w Hv Hc Hw Hinv)];
          intros k; cbv beta;
          [pose proof (Hv k)|pose proof (Hc k)|pose proof (Hw k)];
          unfold only; destruct key, (String.eqb (itemCategory itemMeta e) k); simpl; lia.
      * intros k. cbv beta. rewrite (Hcons k). simpl.
        unfold only; destruct key, (String.eqb (itemCategory itemMeta e) k); simpl; lia.
      * intros k. cbv beta. rewrite (Hcons k). simpl.
        unfold only; destruct key, (String.eqb (itemCategory itemMeta e) k); simpl; lia.
      * intros k. cbv beta. rewrite (Hcons k). simpl.
        unfold only; destruct key, (String.eqb (itemCategory itemMeta e) k); simpl; lia.
    + eapply inv_ext.
      * apply IH; [exact Hv|exact Hc|exact Hw|exact Hinv].
      * intros k. cbv beta. rewrite (Hcons k). simpl.
        unfold only; destruct key; simpl; lia.
      * intros k. cbv beta. rewrite (Hcons k). simpl.
        unfold only; destruct key; simpl; lia.
      * intros k. cbv beta. rewrite (Hcons k). simpl.
        unfold only; destruct key; simpl; lia.
Qed.

Lemma tally_app p c l1 l2 : eventTally (itemCategory itemMeta) p c (l1 ++ l2) = eventTally (itemCategory itemMeta) p c l1 + eventTally (itemCategory itemMeta) p c l2.
Proof.
  unfold eventTally. induction l1 as [|e l1 IH]; [simpl; lia|].
  change ((e :: l1) ++ l2) with (e :: (l1 ++ l2)). rewrite !filter_length_cons. lia.
Qed.

Lemma categorySession_inv s m v c w :
  (forall k, 0 <= v k) -> (forall k, 0 <= c k) -> (forall k, 0 <= w k) ->
  inv m v c w ->
  inv (categorySession itemMeta m s)
    (fun k => v k + eventTally (itemCategory itemMeta) anyEvent k (Session.views s))
    (fun k => c k + eventTally (itemCategory itemMeta) hasAdd k (Session.carts s))
    (fun k => w k + eventTally (itemCategory itemMeta) hasAdd k (Session.wish s)).
Proof.
  intros Hv Hc Hw Hinv. unfold categorySession.
  pose proof (bumpFold_inv kViews anyEvent (Session.views s) m v c w
                Hv Hc Hw Hinv) as H1.
  cbv beta iota in H1. simpl only in H1.
  match type of H1 with inv ?m1 ?v1 ?c1 ?w1 =>
    assert (forall k, 0 <= v1 k) as Hv1
      by (intros k; pose proof (Hv k); pose proof (tally_nonneg anyEvent k (Session.views s)); simpl; lia);
    assert (forall k, 0 <= c1 k) as Hc1 by (intros k; pose proof (Hc k); simpl; lia);
    assert (forall k, 0 <= w1 k) as Hw1 by (intros k; pose proof (Hw k); simpl; lia);
    pose proof (bumpFold_inv kCarts hasAdd (Session.carts s) m1 v1 c1 w1
                  Hv1 Hc1 Hw1 H1) as H2
  end.
  match type of H2 with inv ?m2 ?v2 ?c2 ?w2 =>
    assert (forall k, 0 <= v2 k) as Hv2 by (intros k; pose proof (Hv1 k); simpl; lia);
    assert (forall k, 0 <= c2 k) as Hc2
      by (intros k; pose proof (Hc1 k); pose proof (tally_nonneg hasAdd k (Session.carts s)); simpl; lia);
    assert (forall k, 0 <= w2 k) as Hw2 by (intros k; pose proof (Hw1 k); simpl; lia);
    pose proof (bumpFold_inv kWish hasAdd (Session.wish s) m2 v2 c2 w2
                  Hv2 Hc2 Hw2 H2) as H3
  end.
  eapply inv_ext; [exact H3|..]; intros k; simpl; lia.
Qed.

Lemma categoryFold_inv sessions m v c w :
  (forall k, 0 <= v k) -> (forall k, 0 <= c k) -> (forall k, 0 <= w k) ->
  inv m v c w ->
  inv (fold_left (categorySession itemMeta) sessions m)
    (fun k => v k + eventTally (itemCategory itemMeta) anyEvent k (flat_map Session.views sessions))
    (fun k => c k + eventTally (itemCategory itemMeta) hasAdd k (flat_map Session.carts sessions))
    (fun k => w k + eventTally (itemCategory itemMeta) hasAdd k (flat_map Session.wish sessions)).
Proof.
  revert m v c w. induction sessions as [|s sessions IH]; intros m v c w Hv Hc Hw Hinv.
  - cbn [fold_left flat_map]. eapply inv_ext; [exact Hinv|..]; intros k;
      unfold eventTally; simpl; lia.
  - cbn [fold_left flat_map]. eapply inv_ext.
    + apply IH; [..|apply (categorySession_inv s m v c w Hv Hc Hw Hinv)];
        intros k; cbv beta;
        [pose proof (Hv k); pose proof (tally_nonneg anyEvent k (Session.views s))
        |pose proof (Hc k); pose proof (tally_nonneg hasAdd k (Session.carts s))
        |pose proof (Hw k); pose proof (tally_nonneg hasAdd k (Session.wish s))]; lia.
    + intros k. cbv beta. rewrite tally_app. lia.
    + intros k. cbv beta. rewrite tally_app. lia.
    + intros k. cbv beta. rewrite tally_app. lia.
Qed.

(** X12. The category table has at most twenty rows, one per category,
    ordered by total with the largest first.  A row counts the views of the
    items of its category, the cart entries and the wishlist entries of such
    items that have a non-zero add count (an item without metadata counts for
    "Other"); its total is the sum of the three and is at least 1. *)
Theorem categoryInteractions_rows sessions :
  let rows := categoryInteractions sessions itemMeta in
  (length rows <= 20)%nat
  /\ NoDup (map CategoryRow.category rows)
  /\ Forall (fun r =>
               let c := CategoryRow.category r in
               CategoryRow.views r
               = eventTally (itemCategory itemMeta) anyEvent c
                   (flat_map Session.views sessions)
               /\ CategoryRow.carts r
                  = eventTally (itemCategory itemMeta) hasAdd c
                      (flat_map Session.carts sessions)
               /\ CategoryRow.wish r
                  = eventTally (itemCategory itemMeta) hasAdd c
                      (flat_map Session.wish sessions)
               /\ CategoryRow.total r
                  = CategoryRow.views r + CategoryRow.carts r + CategoryRow.wish r
               /\ 1 <= CategoryRow.total r) rows
  /\ StronglySorted
       (fun x y => CategoryRow.total y <= CategoryRow.total x) rows.
Proof.
  cbv zeta. unfold categoryInteractions.
  destruct (categoryFold_inv sessions [] (fun _ => 0) (fun _ => 0) (fun _ => 0))
    as (Hnd & Hpos & Hget); [done|done|done| |].
  { split; [apply NoDup_nil_2|]. split; [apply Forall_nil_2|]. intros k. reflexivity. }
  set (m := fold_left (categorySession itemMeta) sessions []) in *.
  assert (forall k r, (k, r) ∈ m ->
            r = CategoryRow.mk k
                  (eventTally (itemCategory itemMeta) anyEvent k (flat_map Session.views sessions))
                  (eventTally (itemCategory itemMeta) hasAdd k (flat_map Session.carts sessions))
                  (eventTally (itemCategory itemMeta) hasAdd k (flat_map Session.wish sessions))
                  (eventTally (itemCategory itemMeta) anyEvent k (flat_map Session.views sessions)
                   + eventTally (itemCategory itemMeta) hasAdd k (flat_map Session.carts sessions)
                   + eventTally (itemCategory itemMeta) hasAdd k (flat_map Session.wish sessions))) as Hrow.
  { intros k r Hin. pose proof (Hget k) as Hk.
    rewrite (elem_of_mapGet m k r Hnd Hin) in Hk. simpl in Hk. rewrite Hk.
    f_equal; lia. }
  split; [rewrite length_take; lia|]. split; [|split].
  - change (map CategoryRow.category (take 20 (sortBy totalOrder (map snd m))))
      with (CategoryRow.category <$> take 20 (sortBy totalOrder (map snd m))).
    rewrite fmap_take. apply NoDup_take_of.
    rewrite (fmap_Permutation CategoryRow.category _ _
               (sortBy_perm totalOrder (map snd m))).
    change (NoDup (map CategoryRow.category (map snd m))). rewrite map_map.
    rewrite (map_ext_in _ fst); [exact Hnd|].
    intros [k r] Hin. apply list_elem_of_In in Hin.
    rewrite (Hrow k r Hin). reflexivity.
  - apply Forall_take. rewrite sortBy_perm. apply Forall_forall. intros r Hr.
    assert (1 <= CategoryRow.total r) as Htot
      by (rewrite Forall_forall in Hpos; now apply Hpos).
    apply list_elem_of_fmap in Hr as ([k r'] & -> & Hkv).
    simpl in Htot |- *. rewrite (Hrow k r' Hkv) in Htot |- *. simpl in Htot |- *.
    repeat split; try reflexivity. exact Htot.
  - apply StronglySorted_take.
    assert (Transitive (fun x y => CategoryRow.total y <= CategoryRow.total x)) as Htr.
    { intros x y z. lia. }
    apply (sortBy_StronglySorted _ _). apply StronglySorted_all.
    intros x y. unfold totalOrder. rewrite isPos_ofZ.
    destruct (0 <? CategoryRow.total y - CategoryRow.total x) eqn:Hc.
    + apply Z.ltb_lt in Hc. lia.
    + apply Z.ltb_ge in Hc. lia.
Qed.
End Categories.

(** * Days *)

Lemma StronglySorted_strict {A} (R : relation A) (l : list A) :
  StronglySorted R l -> NoDup l -> StronglySorted (fun x y => R x y /\ x <> y) l.
Proof.
  induction 1 as [|x l Hs IH Hx]; intros Hnd; constructor.
  - apply IH. now apply NoDup_cons in Hnd.
  - apply NoDup_cons in Hnd as [Hnotin _].
    rewrite Forall_forall in Hx |- *. intros y Hy. split; [now apply Hx|].
    intros ->. contradiction.
Qed.

Lemma StronglySorted_map {A B} (R : relation A) (S : relation B) (f : A -> B) l :
  (forall x y, R x y -> S (f x) (f y)) ->
  StronglySorted R l -> StronglySorted S (map f l).
Proof.
  intros HRS. induction 1 as [|x l Hs IH Hx]; simpl; constructor; [exact IH|].
  apply Forall_forall. intros y Hy. apply list_elem_of_fmap in Hy as (z & -> & Hz).
  apply HRS. rewrite Forall_forall in Hx. now apply Hx.
Qed.

Lemma sortBy_localeCompare {V} (m : list (string * V)) :
  NoDup (map fst m) ->
  StronglySorted (fun a b => String.ltb a.1 b.1 = true)
    (sortBy (fun a b : string * V => localeCompare a.1 b.1) m).
Proof.
  intros Hnd.
  set (cmp := fun a b : string * V => localeCompare a.1 b.1).
  assert (Transitive (fun a b : string * V => String.leb a.1 b.1 = true)) as Htr.
  { intros x y z. apply string_leb_trans. }
  assert (StronglySorted (fun a b : string * V => String.leb a.1 b.1 = true)
            (sortBy cmp m)) as Hs.
  { apply (sortBy_StronglySorted _ _). apply StronglySorted_all.
    intros x y. subst cmp. cbv beta. unfold localeCompare, String.leb.
    rewrite (String.compare_antisym x.1 y.1).
    destruct (String.compare y.1 x.1); simpl; reflexivity. }
  assert (NoDup (map fst (sortBy cmp m))) as Hnd'.
  { change (NoDup (fst <$> sortBy cmp m)).
    now rewrite (fmap_Permutation fst _ _ (sortBy_perm cmp m)). }
  clear Hnd. induction Hs as [|x l Hs IH Hx]; constructor.
  - apply IH. simpl in Hnd'. now apply NoDup_cons in Hnd'.
  - simpl in Hnd'. apply NoDup_cons in Hnd' as [Hnotin _].
    rewrite Forall_forall in Hx |- *. intros y Hy. specialize (Hx y Hy).
    apply string_leb_le in Hx as [Heq|Hlt].
    + exfalso. apply Hnotin. rewrite Heq. apply list_elem_of_fmap. now exists y.
    + unfold String.ltb. now rewrite Hlt.
Qed.

Section Days.
Variable E : Env.

Let inv (m : list (string * (Z * Z))) (v c : string -> Z) : Prop :=
  NoDup (map fst m)
  /\ Forall (fun r : Z * Z => 1 <= r.1 + r.2) (map snd m)
  /\ forall k, default (0, 0) (mapGet k m) = (v k, c k).

Lemma dayInv_ext m v c v' c' :
  inv m v c -> (forall k, v k = v' k) -> (forall k, c k = c' k) -> inv m v' c'.
Proof.
  intros (H1 & H2 & H3) Hv Hc. split; [exact H1|]. split; [exact H2|].
  intros k. now rewrite H3, Hv, Hc.
Qed.

Lemma bumpDay_inv k0 (isView : bool) m v c :
  (forall k, 0 <= v k) -> (forall k, 0 <= c k) ->
  inv m v c ->
  inv (bumpDay k0 isView m)
    (fun k => v k + (if isView && String.eqb k0 k then 1 else 0))
    (fun k => c k + (if negb isView && String.eqb k0 k then 1 else 0)).
Proof.
  intros Hv Hc (H1 & H2 & H3). unfold bumpDay. split; [|split].
  - now apply mapSet_NoDup.
  - apply mapSet_values; [|exact H2]. rewrite (H3 k0).
    pose proof (Hv k0). pose proof (Hc k0). destruct isView; simpl; lia.
  - intros k. rewrite mapGet_mapSet. destruct (decide (k = k0)) as [->|Hk].
    + rewrite String.eqb_refl, (H3 k0). destruct isView; simpl; f_equal; lia.
    + assert (String.eqb k0 k = false) as -> by (apply String.eqb_neq; congruence).
      rewrite (H3 k). destruct isView; simpl; f_equal; lia.
Qed.

Lemma bumpDayFold_inv (isView : bool) (p : SessionEvent.t -> bool) evts m v c :
  (forall k, 0 <= v k) -> (forall k, 0 <= c k) ->
  inv m v c ->
  inv (fold_left (fun m evt => if p evt then bumpDay (eventDay E evt) isView m else m) evts m)
    (fun k => v k + (if isView then eventTally (eventDay E) p k evts else 0))
    (fun k => c k + (if isView then 0 else eventTally (eventDay E) p k evts)).
Proof.
  revert m v c. induction evts as [|e evts IH]; intros m v c Hv Hc Hinv.
  - cbn [fold_left]. apply (dayInv_ext m v c); [exact Hinv|..]; intros k;
      unfold eventTally; destruct isView; simpl; lia.
  - cbn [fold_left].
    assert (forall k, eventTally (eventDay E) p k (e :: evts)
                      = (if p e && String.eqb (eventDay E e) k then 1 else 0) + eventTally (eventDay E) p k evts)
      as Hcons.
    { intros k. unfold eventTally.
      exact (filter_length_cons (fun e => p e && String.eqb (eventDay E e) k) e evts). }
    destruct (p e) eqn:Hp.
    + eapply dayInv_ext.
      * apply IH; [..|apply (bumpDay_inv (eventDay E e) isView m v c Hv Hc Hinv)];
          intros k; cbv beta; [pose proof (Hv k)|pose proof (Hc k)];
          destruct isView, (String.eqb (eventDay E e) k); simpl; lia.
      * intros k. cbv beta. rewrite (Hcons k).
        destruct isView, (String.eqb (eventDay E e) k); simpl; lia.
      * intros k. cbv beta. rewrite (Hcons k).
        destruct isView, (String.eqb (eventDay E e) k); simpl; lia.
    + eapply dayInv_ext.
      * apply IH; [exact Hv|exact Hc|exact Hinv].
      * intros k. cbv beta. rewrite (Hcons k). destruct isView; simpl; lia.
      * intros k. cbv beta. rewrite (Hcons k). destruct isView; simpl; lia.
Qed.

Lemma dayTally_nonneg p d evts : 0 <= eventTally (eventDay E) p d evts.
Proof. unfold eventTally. lia. Qed.

Lemma dayTally_app p d l1 l2 : eventTally (eventDay E) p d (l1 ++ l2) = eventTally (eventDay E) p d l1 + eventTally (eventDay E) p d l2.
Proof.
  unfold eventTally. induction l1 as [|e l1 IH]; [simpl; lia|].
  change ((e :: l1) ++ l2) with (e :: (l1 ++ l2)). rewrite !filter_length_cons. lia.
Qed.

Lemma dailySession_inv s m v c :
  (forall k, 0 <= v k) -> (forall k, 0 <= c k) ->
  inv m v c ->
  inv (dailySession E m s)
    (fun k => v k + eventTally (eventDay E) anyEvent k (Session.views s))
    (fun k => c k + eventTally (eventDay E) hasAdd k (Session.carts s)).
Proof.
  intros Hv Hc Hinv. unfold dailySession.
  pose proof (bumpDayFold_inv true anyEvent (Session.views s) m v c
                Hv Hc Hinv) as H1.
  cbv beta iota in H1.
  match type of H1 with inv ?m1 ?v1 ?c1 =>
    assert (forall k, 0 <= v1 k) as Hv1
      by (intros k; pose proof (Hv k);
          pose proof (dayTally_nonneg anyEvent k (Session.views s)); simpl; lia);
    assert (forall k, 0 <= c1 k) as Hc1 by (intros k; pose proof (Hc k); simpl; lia);
    pose proof (bumpDayFold_inv false hasAdd (Session.carts s) m1 v1 c1
                  Hv1 Hc1 H1) as H2
  end.
  eapply dayInv_ext; [exact H2|..]; intros k; simpl; lia.
Qed.

Lemma dailyFold_inv sessions m v c :
  (forall k, 0 <= v k) -> (forall k, 0 <= c k) ->
  inv m v c ->
  inv (fold_left (dailySession E) sessions m)
    (fun k => v k + eventTally (eventDay E) anyEvent k (flat_map Session.views sessions))
    (fun k => c k + eventTally (eventDay E) hasAdd k (flat_map Session.carts sessions)).
Proof.
  revert m v c. induction sessions as [|s sessions IH]; intros m v c Hv Hc Hinv.
  - cbn [fold_left flat_map]. eapply dayInv_ext; [exact Hinv|..]; intros k;
      unfold eventTally; simpl; lia.
  - cbn [fold_left flat_map]. eapply dayInv_ext.
    + apply IH; [..|apply (dailySession_inv s m v c Hv Hc Hinv)];
        intros k; cbv beta;
        [pose proof (Hv k);
         pose proof (dayTally_nonneg anyEvent k (Session.views s))
        |pose proof (Hc k); pose proof (dayTally_nonneg hasAdd k (Session.carts s))]; lia.
    + intros k. cbv beta. rewrite dayTally_app. lia.
    + intros k. cbv beta. rewrite dayTally_app. lia.
Qed.

(** The days outside the thresholds, in terms of what the rows count. *)
Lemma outliers_days (series : list DailyRow.t) (has : bool) (lower upper : Qc)
    (P : string -> Prop) (adds : string -> Z) :
  (forall d, d ∈ map DailyRow.date series <-> P d) ->
  Forall (fun r => DailyRow.carts r = adds (DailyRow.date r)) series ->
  forall d,
    d ∈ (if has
         then map DailyRow.date
                (List.filter
                   (fun r => ltb (ofZ (DailyRow.carts r)) lower
                             || ltb upper (ofZ (DailyRow.carts r))) series)
         else [])
    <-> has = true /\ P d
        /\ ((ofZ (adds d) < lower)%Qc \/ (upper < ofZ (adds d))%Qc).
Proof.
  intros Hdays Hrows d. rewrite Forall_forall in Hrows. destruct has.
  2:{ split; [intros H; now apply elem_of_nil in H|intros [H _]; discriminate H]. }
  split.
  - intros Hd. apply list_elem_of_fmap in Hd as (r & -> & Hr).
    apply list_elem_of_In, filter_In in Hr as [Hr Hout].
    apply list_elem_of_In in Hr.
    split; [reflexivity|]. split.
    + apply Hdays. apply list_elem_of_fmap. now exists r.
    + rewrite <- (Hrows r Hr). apply orb_true_iff in Hout as [H|H]; apply ltb_true in H;
        [now left|now right].
  - intros (_ & HP & Hout). apply Hdays in HP.
    apply list_elem_of_fmap in HP as (r & -> & Hr).
    apply list_elem_of_fmap. exists r. split; [reflexivity|].
    apply list_elem_of_In, filter_In. split; [now apply list_elem_of_In|].
    rewrite (Hrows r Hr). apply orb_true_iff.
    destruct Hout as [H|H]; apply ltb_true in H; [now left|now right].
Qed.

(** X13. The daily series has one row per day with an event: a day has a
    row exactly when a view, or a cart entry with a non-zero add count, falls
    on it, and the rows are in strictly ascending order of the day keys
    under [localeCompare].  A row counts the views of its day and the cart
    entries of its day that have a non-zero add count, and at least one of
    the two is positive.  The lower threshold is never negative; there are
    thresholds only when the series has three days or more; and the outliers
    are, when there are thresholds, the days of the series whose cart count
    is below the lower or above the upper threshold, in the order of the
    series, and none otherwise: a day is an outlier exactly when there are
    thresholds, an event falls on it, and the number of its cart entries
    with a non-zero add count is below the lower or above the upper
    threshold. *)
Theorem dailyTrends_series sessions :
  let daily := dailyTrends E sessions in
  let series := Daily.series daily in
  let anomaly := Daily.anomaly daily in
  let viewsOn d := eventTally (eventDay E) anyEvent d (flat_map Session.views sessions) in
  let addsOn d := eventTally (eventDay E) hasAdd d (flat_map Session.carts sessions) in
  let outside r :=
    ltb (ofZ (DailyRow.carts r)) (Anomaly.lower anomaly)
    || ltb (Anomaly.upper anomaly) (ofZ (DailyRow.carts r)) in
  (forall d, d ∈ map DailyRow.date series <-> 1 <= viewsOn d + addsOn d)
  /\ StronglySorted
       (fun x y => (localeCompare (DailyRow.date x) (DailyRow.date y) < 0)%Qc) series
  /\ Forall (fun r =>
               DailyRow.views r = viewsOn (DailyRow.date r)
               /\ DailyRow.carts r = addsOn (DailyRow.date r)
               /\ 1 <= DailyRow.views r + DailyRow.carts r) series
  /\ (0 <= Anomaly.lower anomaly)%Qc
  /\ ((length series < 3)%nat -> Anomaly.hasThresholds anomaly = false)
  /\ Anomaly.outliers anomaly
     = (if Anomaly.hasThresholds anomaly
        then map DailyRow.date (List.filter outside series) else [])
  /\ (forall d,
        d ∈ Anomaly.outliers anomaly
        <-> Anomaly.hasThresholds anomaly = true /\ 1 <= viewsOn d + addsOn d
            /\ ((ofZ (addsOn d) < Anomaly.lower anomaly)%Qc
                \/ (Anomaly.upper anomaly < ofZ (addsOn d))%Qc)).
Proof.
  cbv zeta. unfold dailyTrends.
  destruct (dailyFold_inv sessions [] (fun _ => 0) (fun _ => 0))
    as (Hnd & Hpos & Hget); [done|done| |].
  { split; [apply NoDup_nil_2|]. split; [apply Forall_nil_2|]. intros k. reflexivity. }
  set (m := fold_left (dailySession E) sessions []) in *.
  set (cmp := fun a b : string * (Z * Z) => localeCompare a.1 b.1).
  set (mkRow := fun kv : string * (Z * Z) => DailyRow.mk kv.1 kv.2.1 kv.2.2).
  cbn [Daily.series Daily.anomaly Anomaly.lower Anomaly.upper Anomaly.hasThresholds
         Anomaly.outliers].
  assert (forall k nv nc, (k, (nv, nc)) ∈ m ->
            nv = eventTally (eventDay E) anyEvent k (flat_map Session.views sessions)
            /\ nc = eventTally (eventDay E) hasAdd k (flat_map Session.carts sessions)
            /\ 1 <= nv + nc) as Hrow.
  { intros k nv nc Hkv.
    pose proof (Hget k) as Hk. rewrite (elem_of_mapGet m k (nv, nc) Hnd Hkv) in Hk.
    simpl in Hk. injection Hk as -> ->.
    split; [lia|]. split; [lia|].
    rewrite Forall_forall in Hpos.
    assert ((0 + eventTally (eventDay E) anyEvent k (flat_map Session.views sessions),
             0 + eventTally (eventDay E) hasAdd k (flat_map Session.carts sessions)) ∈ map snd m) as Hin.
    { apply list_elem_of_fmap.
      now exists (k, (0 + eventTally (eventDay E) anyEvent k (flat_map Session.views sessions),
                      0 + eventTally (eventDay E) hasAdd k (flat_map Session.carts sessions))). }
    specialize (Hpos _ Hin). simpl in Hpos. lia. }
  assert (forall d,
            d ∈ map DailyRow.date (map mkRow (sortBy cmp m))
            <-> 1 <= eventTally (eventDay E) anyEvent d (flat_map Session.views sessions)
                     + eventTally (eventDay E) hasAdd d (flat_map Session.carts sessions))
    as Hdays.
  { intros d. rewrite map_map.
    change (map (fun x => DailyRow.date (mkRow x)) (sortBy cmp m))
      with (fst <$> sortBy cmp m).
    rewrite (fmap_Permutation fst _ _ (sortBy_perm cmp m)). split.
    + intros Hd. apply list_elem_of_fmap in Hd as ([k [nv nc]] & -> & Hkv).
      destruct (Hrow k nv nc Hkv) as (-> & -> & H). exact H.
    + intros Hd. destruct (decide (d ∈ fst <$> m)) as [Hin|Hnin]; [exact Hin|exfalso].
      apply mapGet_None in Hnin. pose proof (Hget d) as Hk. rewrite Hnin in Hk.
      simpl in Hk. injection Hk as Hv Hc. lia. }
  assert (Forall (fun r =>
                    DailyRow.views r
                    = eventTally (eventDay E) anyEvent (DailyRow.date r)
                        (flat_map Session.views sessions)
                    /\ DailyRow.carts r
                       = eventTally (eventDay E) hasAdd (DailyRow.date r)
                           (flat_map Session.carts sessions)
                    /\ 1 <= DailyRow.views r + DailyRow.carts r)
            (map mkRow (sortBy cmp m))) as Hrows.
  { change (map mkRow (sortBy cmp m)) with (mkRow <$> sortBy cmp m).
    rewrite (fmap_Permutation mkRow _ _ (sortBy_perm cmp m)).
    apply Forall_forall. intros r Hr.
    apply list_elem_of_fmap in Hr as ([k [nv nc]] & -> & Hkv).
    subst mkRow. cbn [DailyRow.date DailyRow.views DailyRow.carts fst snd].
    now apply Hrow. }
  split; [exact Hdays|]. split; [|split; [exact Hrows|split; [|split; [|split]]]].
  - apply (StronglySorted_map (fun a b : string * (Z * Z) => String.ltb a.1 b.1 = true));
      [|now apply sortBy_localeCompare].
    intros x y Hxy. subst mkRow. cbn [DailyRow.date]. unfold localeCompare.
    unfold String.ltb in Hxy. destruct (String.compare x.1 y.1); try discriminate Hxy.
    by vm_compute.
  - destruct (isPos _); [|apply Qcle_refl].
    unfold MathMax. destruct (leb 0 _) eqn:Hl; [now apply leb_true in Hl|apply Qcle_refl].
  - intros Hlen. rewrite length_map in Hlen. rewrite !length_map.
    apply andb_false_iff. left. apply Nat.leb_gt. exact Hlen.
  - reflexivity.
  - apply (outliers_days (map mkRow (sortBy cmp m)) _ _ _
             (fun d => 1 <= eventTally (eventDay E) anyEvent d
                             (flat_map Session.views sessions)
                           + eventTally (eventDay E) hasAdd d
                               (flat_map Session.carts sessions))
             (fun d => eventTally (eventDay E) hasAdd d (flat_map Session.carts sessions)));
      [exact Hdays|].
    eapply Forall_impl; [exact Hrows|]. intros r (_ & H & _). exact H.
Qed.
End Days.
